(** * TTG: truth-table generator — sentence model, parser, evaluator,
      truth-table enumeration, formula layout and quiz dependencies.

    A shallow embedding of [types.ts], [parser.ts], [truth_table.ts],
    [formula_layout.ts] and of the dependency bookkeeping of
    [renderTruthTable] in [main.ts], and of the state handling of
    [main.ts] (validation of the inputs, calculation of the table, the
    quiz: checking, revealing, statistics and the cells of the data
    rows), followed by the properties proved about them. *)

From Stdlib Require Import ZArith NArith Lia List Bool Ascii String Decimal DecimalN DecimalPos Sorted.
From stdpp Require Import base option list gmap.

Local Open Scope N_scope.
Local Open Scope list_scope.

(* ===================================================================== *)
(** ** JavaScript strings *)
(* ===================================================================== *)

(** A JavaScript string is a sequence of UTF-16 code units. *)
Abbreviation jsstring := (list N).

(** ASCII literals of the source, as code units. *)
Definition js (s : string) : jsstring :=
  List.map N_of_ascii (list_ascii_of_string s).

(** The non-ASCII characters the source writes as [\uXXXX] escapes. *)
Definition u22A4 : N := 0x22A4.  (* top *)
Definition u22A5 : N := 0x22A5.  (* bottom *)
Definition u2228 : N := 0x2228.  (* logical or *)
Definition u2192 : N := 0x2192.  (* rightwards arrow *)
Definition u2194 : N := 0x2194.  (* left right arrow *)
Definition u2295 : N := 0x2295.  (* circled plus *)

Definition digit_unit (d : N) : N := 48 + d.

(** Decimal digits of [Decimal.uint], most significant first. *)
Fixpoint uint_units (d : Decimal.uint) : jsstring :=
  match d with
  | Decimal.Nil => []
  | Decimal.D0 d => digit_unit 0 :: uint_units d
  | Decimal.D1 d => digit_unit 1 :: uint_units d
  | Decimal.D2 d => digit_unit 2 :: uint_units d
  | Decimal.D3 d => digit_unit 3 :: uint_units d
  | Decimal.D4 d => digit_unit 4 :: uint_units d
  | Decimal.D5 d => digit_unit 5 :: uint_units d
  | Decimal.D6 d => digit_unit 6 :: uint_units d
  | Decimal.D7 d => digit_unit 7 :: uint_units d
  | Decimal.D8 d => digit_unit 8 :: uint_units d
  | Decimal.D9 d => digit_unit 9 :: uint_units d
  end.

(** [String(n)] / template interpolation of a non-negative integer that
    a JavaScript number holds exactly (a safe integer, at most 2^53 - 1):
    such a number is printed with all its decimal digits.  Above that
    range JavaScript prints the shortest digits that read back as the
    same number, and from 1e21 on exponent notation, which this
    definition does not follow: it is used for array indices, and for
    letter indices under the bound that [valid_letter] states. *)
Definition Number_toString (n : N) : jsstring := uint_units (N.to_uint n).

(** [WhiteSpace] and [LineTerminator] code units: what the regular
    expression class [\s] matches and what [String.prototype.trim]
    strips. *)
Definition is_whitespace (c : N) : bool :=
  (c =? 0x9) || (c =? 0xA) || (c =? 0xB) || (c =? 0xC) || (c =? 0xD)
  || (c =? 0x20) || (c =? 0xA0) || (c =? 0x1680)
  || ((0x2000 <=? c) && (c <=? 0x200A))
  || (c =? 0x2028) || (c =? 0x2029) || (c =? 0x202F) || (c =? 0x205F)
  || (c =? 0x3000) || (c =? 0xFEFF).

Fixpoint trimStart (s : jsstring) : jsstring :=
  match s with
  | c :: s' => if is_whitespace c then trimStart s' else s
  | [] => []
  end.

Definition trimEnd (s : jsstring) : jsstring := rev (trimStart (rev s)).

Definition trim (s : jsstring) : jsstring := trimEnd (trimStart s).

(* ===================================================================== *)
(** ** types.ts: sentences and their string renderings *)
(* ===================================================================== *)

(** [{ tag: 'letter', id: string, index: number }]; the index is modelled
    as an integer. *)
Record Letter : Type := mkLetter { id : jsstring; index : Z }.

Inductive Sentence : Type :=
| value (v : bool)
| letter (l : Letter)
| negation (sentence : Sentence)
| disjunction (left right : Sentence)
| conjunction (left right : Sentence)
| conditional (left right : Sentence)
| biconditional (left right : Sentence)
| xor (left right : Sentence)
| nand (left right : Sentence).

#[global] Instance Letter_eq_dec : EqDecision Letter.
Proof. solve_decision. Defined.

#[global] Instance Sentence_eq_dec : EqDecision Sentence.
Proof. solve_decision. Defined.

#[global] Instance Sentence_inhabited : Inhabited Sentence := populate (value false).

(** [`${l.id}${l.index > 0 ? l.index : ''}`]; the index is rendered by
    [Number_toString], which is the code's rendering for indices up to
    2^53 - 1. *)
Definition letter_string (l : Letter) : jsstring :=
  id l ++ (if (0 <? index l)%Z then Number_toString (Z.to_N (index l)) else []).

(** [wrap_if_needed], abstracted over the renderer it calls back. *)
Definition wrap_if_needed_with (render : Sentence -> jsstring) (s : Sentence) : jsstring :=
  match s with
  | value _ | letter _ | negation _ => render s
  | _ => js "(" ++ render s ++ js ")"
  end.

Fixpoint sentence_to_string (s : Sentence) : jsstring :=
  let wrap := wrap_if_needed_with sentence_to_string in
  match s with
  | value v => if v then [u22A4] else [u22A5]
  | letter l => letter_string l
  | negation s => js "~" ++ wrap s
  | conjunction l r => wrap l ++ js " & " ++ wrap r
  | disjunction l r => wrap l ++ [32; u2228; 32] ++ wrap r
  | conditional l r => wrap l ++ [32; u2192; 32] ++ wrap r
  | biconditional l r => wrap l ++ [32; u2194; 32] ++ wrap r
  | xor l r => wrap l ++ [32; u2295; 32] ++ wrap r
  | nand l r => wrap l ++ js " | " ++ wrap r
  end.

Definition wrap_if_needed : Sentence -> jsstring :=
  wrap_if_needed_with sentence_to_string.

(** [wrap_compact], abstracted over the renderer it calls back. *)
Definition wrap_compact_with (render : Sentence -> bool -> jsstring)
    (left right : Sentence) (op : jsstring) (isTopLevel : bool) : jsstring :=
  let inner := render left false ++ op ++ render right false in
  if isTopLevel then inner else js "(" ++ inner ++ js ")".

Fixpoint sentence_to_string_compact_at (s : Sentence) (isTopLevel : bool) : jsstring :=
  let wrap_compact := wrap_compact_with sentence_to_string_compact_at in
  match s with
  | value v => if v then js "T" else js "F"
  | letter l => letter_string l
  | negation s => js "~" ++ sentence_to_string_compact_at s false
  | conjunction l r => wrap_compact l r (js "&") isTopLevel
  | disjunction l r => wrap_compact l r [u2228] isTopLevel
  | conditional l r => wrap_compact l r [u2192] isTopLevel
  | biconditional l r => wrap_compact l r [u2194] isTopLevel
  | xor l r => wrap_compact l r [u2295] isTopLevel
  | nand l r => wrap_compact l r (js "|") isTopLevel
  end.

Definition wrap_compact : Sentence -> Sentence -> jsstring -> bool -> jsstring :=
  wrap_compact_with sentence_to_string_compact_at.

(** The default argument [isTopLevel = true]. *)
Definition sentence_to_string_compact (s : Sentence) : jsstring :=
  sentence_to_string_compact_at s true.

(* ===================================================================== *)
(** ** Parsimmon: the parser combinators [parser.ts] is written with *)
(* ===================================================================== *)

(** Parsimmon is a third-party library; its combinators are transcribed
    here from their documented behaviour.  A parser reads a prefix of the
    remaining input and either succeeds with a value and the rest of the
    input, or fails; every combinator backtracks to where it started when
    it fails.  [NoFuel] is the third outcome of this model only: the
    recursion allowance ran out before the parser answered. *)
Module P.

Inductive Reply (A : Type) : Type :=
| Success (v : A) (rest : jsstring)
| Failure
| NoFuel.
Arguments Success {A} v rest.
Arguments Failure {A}.
Arguments NoFuel {A}.

Definition Parser (A : Type) : Type := jsstring -> Reply A.

Definition succeed {A} (v : A) : Parser A := fun input => Success v input.
Definition fail {A} (message : jsstring) : Parser A := fun _ => Failure.

Definition chain {A B} (p : Parser A) (f : A -> Parser B) : Parser B :=
  fun input =>
    match p input with
    | Success v rest => f v rest
    | Failure => Failure
    | NoFuel => NoFuel
    end.

Definition map {A B} (p : Parser A) (f : A -> B) : Parser B :=
  chain p (fun v => succeed (f v)).

Definition assert {A} (p : Parser A) (condition : A -> bool) (message : jsstring) : Parser A :=
  chain p (fun v => if condition v then succeed v else fail message).

Definition seq3 {A B C} (p1 : Parser A) (p2 : Parser B) (p3 : Parser C)
  : Parser (A * B * C) :=
  chain p1 (fun a => chain p2 (fun b => chain p3 (fun c => succeed (a, b, c)))).

Definition seq5 {A B C D E} (p1 : Parser A) (p2 : Parser B) (p3 : Parser C)
    (p4 : Parser D) (p5 : Parser E) : Parser (A * B * C * D * E) :=
  chain p1 (fun a => chain p2 (fun b => chain p3 (fun c =>
  chain p4 (fun d => chain p5 (fun e => succeed (a, b, c, d, e)))))).

Definition then_ {A B} (p : Parser A) (q : Parser B) : Parser B :=
  chain p (fun _ => q).

Definition skip {A B} (p : Parser A) (q : Parser B) : Parser A :=
  chain p (fun a => chain q (fun _ => succeed a)).

(** [P.alt]: the first alternative that succeeds, each tried from the
    same position. *)
Fixpoint alt {A} (ps : list (Parser A)) : Parser A :=
  fun input =>
    match ps with
    | [] => Failure
    | p :: ps' =>
        match p input with
        | Success v rest => Success v rest
        | Failure => alt ps' input
        | NoFuel => NoFuel
        end
    end.

Fixpoint strip_prefix (str input : jsstring) : option jsstring :=
  match str, input with
  | [], _ => Some input
  | c :: str', d :: input' => if c =? d then strip_prefix str' input' else None
  | _ :: _, [] => None
  end.

(** [P.string(str)] *)
Definition string (str : jsstring) : Parser jsstring :=
  fun input =>
    match strip_prefix str input with
    | Some rest => Success str rest
    | None => Failure
    end.

(** [P.regexp(/[A-Z]/)] *)
Definition regexp_upper : Parser jsstring :=
  fun input =>
    match input with
    | c :: rest => if (65 <=? c) && (c <=? 90) then Success [c] rest else Failure
    | [] => Failure
    end.

Fixpoint span_whitespace (input : jsstring) : jsstring * jsstring :=
  match input with
  | c :: rest =>
      if is_whitespace c
      then let '(ws, rest') := span_whitespace rest in (c :: ws, rest')
      else ([], input)
  | [] => ([], [])
  end.

(** [P.optWhitespace], that is [P.regexp(/\s*/)] *)
Definition optWhitespace : Parser jsstring :=
  fun input => let '(ws, rest) := span_whitespace input in Success ws rest.

Definition eof : Parser unit :=
  fun input => match input with [] => Success tt [] | _ :: _ => Failure end.

(** [p.many()]: repeat [p] until it fails and keep what was read before
    the failed attempt.  Parsimmon throws when [p] succeeds without
    consuming input; here every round must consume, and [n] bounds the
    rounds. *)
Fixpoint many_loop {A} (p : Parser A) (n : nat) (input : jsstring) : Reply (list A) :=
  match n with
  | O => NoFuel
  | S n' =>
      match p input with
      | Success v rest =>
          if (length rest <? length input)%nat then
            match many_loop p n' rest with
            | Success vs rest' => Success (v :: vs) rest'
            | other => other
            end
          else NoFuel
      | Failure => Success [] input
      | NoFuel => NoFuel
      end
  end.

Definition many {A} (p : Parser A) : Parser (list A) :=
  fun input => many_loop p (S (length input)) input.

(** [sepBy1(parser, separator)] *)
Definition sepBy1 {A B} (parser : Parser A) (separator : Parser B) : Parser (list A) :=
  chain parser (fun r => map (many (then_ separator parser)) (fun rs => r :: rs)).

(** [parser.sepBy(separator)] is [sepBy1(parser, separator).or(succeed([]))] *)
Definition sepBy {A B} (parser : Parser A) (separator : Parser B) : Parser (list A) :=
  alt [sepBy1 parser separator; succeed []].

(** [p.parse(input)]: run [p.skip(eof)] from the start of the input. *)
Definition parse {A} (p : Parser A) (input : jsstring) : Reply A :=
  match skip p eof input with
  | Success v _ => Success v []
  | other => other
  end.

End P.

(* ===================================================================== *)
(** ** parser.ts *)
(* ===================================================================== *)

(** [[true, S] | [false, F]] *)
Inductive Res (S F : Type) : Type :=
| ResOk (s : S)
| ResErr (f : F).
Arguments ResOk {S F} s.
Arguments ResErr {S F} f.

(** Connective symbols that users can type. *)
Module connectives.
Definition negation : list jsstring := [js "~"].
Definition conjunction : list jsstring := [js "&"].
Definition disjunction : list jsstring := [js "v"].
Definition conditional : list jsstring := [js "->"].
Definition biconditional : list jsstring := [js "<->"].
Definition xor : list jsstring := [js "+"].
Definition nand : list jsstring := [js "|"].
End connectives.

Definition alt_strings (strs : list jsstring) : P.Parser jsstring :=
P.alt (List.map P.string strs).

Definition msg_parentheses : jsstring :=
js "Parentheses only allowed around binary connectives".
Definition msg_grouping : jsstring :=
js "Explicit grouping required (use parentheses)".

Definition is_negation_or_letter (s : Sentence) : bool :=
match s with negation _ | letter _ => true | _ => false end.

Module SentenceLang.

Definition Letter : P.Parser Sentence :=
  P.map P.regexp_upper (fun id => letter (mkLetter id 0)).

Section Rules.
(** [r.Factor] and [r.Sentence], the lazy references of
    [P.createLanguage]. *)
Variable rFactor : P.Parser Sentence.
Variable rSentence : P.Parser Sentence.

Definition Wrapped : P.Parser Sentence :=
  P.assert
    (P.map
       (P.alt
          [P.seq5 (P.string (js "(")) P.optWhitespace rSentence P.optWhitespace (P.string (js ")"));
           P.seq5 (P.string (js "[")) P.optWhitespace rSentence P.optWhitespace (P.string (js "]"));
           P.seq5 (P.string (js "{")) P.optWhitespace rSentence P.optWhitespace (P.string (js "}"))])
       (fun '(_l, _lp, s, _rp, _r) => s))
    (fun s => negb (is_negation_or_letter s))
    msg_parentheses.

Definition Not : P.Parser Sentence :=
  P.map (P.seq3 (alt_strings connectives.negation) P.optWhitespace rFactor)
        (fun '(_1, _2, s) => negation s).

(** The shape shared by the six binary rules: [r.Factor] separated by
    the connective, exactly two operands, then the builder applied to
    [operands[0]] and [operands[1]]. *)
Definition binary_rule (symbols : list jsstring)
    (build : Sentence -> Sentence -> Sentence) : P.Parser Sentence :=
  P.map
    (P.assert
       (P.sepBy rFactor (P.seq3 P.optWhitespace (alt_strings symbols) P.optWhitespace))
       (fun operands => (length operands =? 2)%nat)
       msg_grouping)
    (fun operands => build (operands !!! 0%nat) (operands !!! 1%nat)).

Definition And := binary_rule connectives.conjunction conjunction.
Definition Or := binary_rule connectives.disjunction disjunction.
Definition Imp := binary_rule connectives.conditional conditional.
Definition Iff := binary_rule connectives.biconditional biconditional.
Definition Xor := binary_rule connectives.xor xor.
Definition Nand := binary_rule connectives.nand nand.

Definition Sentence_rule : P.Parser Sentence :=
  P.alt [Iff; Imp; Or; And; Xor; Nand; rFactor].

Definition Factor_rule : P.Parser Sentence :=
  P.alt [Not; Wrapped; Letter].
End Rules.

(** Tying the knot of the lazy references: every pass through [Factor]
    spends one unit of fuel. *)
Fixpoint Factor (fuel : nat) (input : jsstring) {struct fuel} : P.Reply Sentence :=
  match fuel with
  | O => P.NoFuel
  | S fuel' =>
      Factor_rule (Factor fuel') (Sentence_rule (Factor fuel')) input
  end.

Definition Sentence (fuel : nat) : P.Parser Sentence :=
  Sentence_rule (Factor fuel).

End SentenceLang.

Definition diagnoseError (_input : jsstring) : jsstring :=
  js "Syntax error (not a wff).".

(** [parse_sentence]; [None] only if the fuel of the model ran out, which
    [parse_sentence_returns] below excludes. *)
Definition parse_sentence (input : jsstring) : option (Res Sentence jsstring) :=
  let trimmed := trim input in
  match P.parse (SentenceLang.Sentence (S (length trimmed))) trimmed with
  | P.Success v _ => Some (ResOk v)
  | P.Failure => Some (ResErr (diagnoseError input))
  | P.NoFuel => None
  end.

(* ===================================================================== *)
(** ** Exceptions *)
(* ===================================================================== *)

(** A JavaScript computation either returns a value or throws
    [new Error(message)] (or an error of the engine, with the message
    that stands for it below). *)
Inductive Completion (A : Type) : Type :=
| Return (a : A)
| Throw (message : jsstring).
Arguments Return {A} a.
Arguments Throw {A} message.

Definition bind {A B} (c : Completion A) (k : A -> Completion B) : Completion B :=
  match c with
  | Return a => k a
  | Throw message => Throw message
  end.

Declare Scope completion_scope.
Delimit Scope completion_scope with completion.
Notation "'let*' x ':=' c 'in' k" := (bind c (fun x => k))
  (at level 10, x name, c at level 100, k at level 200) : completion_scope.
Local Open Scope completion_scope.

(** [array.map(f)] for an [f] that may throw: left to right, stopping at
    the first exception. *)
Fixpoint Array_map {A B} (f : A -> Completion B) (xs : list A) : Completion (list B) :=
  match xs with
  | [] => Return []
  | x :: xs' => let* y := f x in let* ys := Array_map f xs' in Return (y :: ys)
  end.

(** The message of the [RangeError] the engine throws when an array
    would grow to 2^32 elements; its wording is the engine's. *)
Definition RangeError : jsstring := js "RangeError".

(** [xs.push(x)]: the length of an array is at most 2^32 - 1, and the
    push that would make it 2^32 throws a [RangeError]. *)
Definition Array_push {A} (xs : list A) (x : A) : Completion (list A) :=
  if N.of_nat (length xs) <? 2 ^ 32 - 1 then Return (xs ++ [x]) else Throw RangeError.

(** The boolean operators of JavaScript on computations: the right
    operand of [&&] and [||] is only run when the left one does not
    already decide the result. *)
Definition js_not (a : Completion bool) : Completion bool :=
  let* x := a in Return (negb x).
Definition js_and (a b : Completion bool) : Completion bool :=
  let* x := a in if x then b else Return false.
Definition js_or (a b : Completion bool) : Completion bool :=
  let* x := a in if x then Return true else b.
Definition js_strict_eq (a b : Completion bool) : Completion bool :=
  let* x := a in let* y := b in Return (Bool.eqb x y).
Definition js_strict_ne (a b : Completion bool) : Completion bool :=
  let* x := a in let* y := b in Return (negb (Bool.eqb x y)).

(* ===================================================================== *)
(** ** truth_table.ts *)
(* ===================================================================== *)

(** [class LetterSet]: the private fields [map] and [all]. *)
Record LetterSet : Type := mkLetterSet {
  map_ : gmap jsstring (gset Z);
  all : list Letter
}.

Module LetterSet_.

(** [new LetterSet()] *)
Definition empty : LetterSet := mkLetterSet ∅ [].

Definition has (this : LetterSet) (letter : Letter) : bool :=
  match map_ this !! id letter with
  | Some set => bool_decide (index letter ∈ set)
  | None => false
  end.

(** [add] returns its boolean result together with the updated set. *)
Definition add (this : LetterSet) (l : Letter) : bool * LetterSet :=
  match map_ this !! id l with
  | None =>
      (true, mkLetterSet (<[id l := {[index l]}]> (map_ this)) (all this ++ [l]))
  | Some set =>
      if negb (bool_decide (index l ∈ set))
      then (true, mkLetterSet (<[id l := set ∪ {[index l]}]> (map_ this)) (all this ++ [l]))
      else (false, this)
  end.

Definition size (this : LetterSet) : nat := length (all this).

Definition toArray (this : LetterSet) : list Letter := all this.

End LetterSet_.

(** Collect all letters from a sentence: the inner [rec], threading the
    set it fills. *)
Fixpoint collect_letters_rec (s : Sentence) (letters : LetterSet) : LetterSet :=
  match s with
  | value _ => letters
  | letter l => snd (LetterSet_.add letters l)
  | negation s => collect_letters_rec s letters
  | conjunction l r | disjunction l r | conditional l r
  | biconditional l r | xor l r | nand l r =>
      collect_letters_rec r (collect_letters_rec l letters)
  end.

Definition collect_letters (s : Sentence) : LetterSet :=
  collect_letters_rec s LetterSet_.empty.

(** Evaluate a sentence given an assignment (which may throw). *)
Fixpoint evaluate (assignment : Letter -> Completion bool) (s : Sentence) : Completion bool :=
  match s with
  | value v => Return v
  | letter l => assignment l
  | negation s => js_not (evaluate assignment s)
  | conjunction l r => js_and (evaluate assignment l) (evaluate assignment r)
  | disjunction l r => js_or (evaluate assignment l) (evaluate assignment r)
  | conditional l r => js_or (js_not (evaluate assignment l)) (evaluate assignment r)
  | biconditional l r => js_strict_eq (evaluate assignment l) (evaluate assignment r)
  | xor l r => js_strict_ne (evaluate assignment l) (evaluate assignment r)
  | nand l r => js_not (js_and (evaluate assignment l) (evaluate assignment r))
  end.

Fixpoint pos_toString2 (p : positive) (acc : jsstring) : jsstring :=
  match p with
  | xH => 49 :: acc
  | xO p' => pos_toString2 p' (48 :: acc)
  | xI p' => pos_toString2 p' (49 :: acc)
  end.

(** [n.toString(2)] for a non-negative integer. *)
Definition Number_toString2 (n : N) : jsstring :=
  match n with
  | N0 => [48]
  | Npos p => pos_toString2 p []
  end.

(** [s.padStart(width, '0')] *)
Definition padStart0 (s : jsstring) (width : nat) : jsstring :=
  replicate (width - length s) 48 ++ s.

(** [n >>> 0] for a non-negative integer. *)
Definition to_uint32 (n : N) : N := n mod 2 ^ 32.

Definition to_bin_str (n : N) (width : nat) : jsstring :=
  padStart0 (Number_toString2 (to_uint32 n)) width.

Record TruthTableRow : Type := mkRow {
  assignment : gmap jsstring bool;
  values : list bool
}.

Record TruthTableResult : Type := mkResult {
  letters : list Letter;
  formulas : list Sentence;
  rows : list TruthTableRow
}.

(** The inner [for (const l of collect_letters(f)) allLetters.add(l)]. *)
Definition add_all (allLetters : LetterSet) (ls : list Letter) : LetterSet :=
  fold_left (fun acc l => snd (LetterSet_.add acc l)) ls allLetters.

(** [for (let i = 0; i < letters.length; i++) assignment.set(..., bin[i] === '0')] *)
Fixpoint build_assignment (letters : list Letter) (bin : jsstring) (i : nat)
    (assignment : gmap jsstring bool) : gmap jsstring bool :=
  match letters with
  | [] => assignment
  | l :: rest =>
      build_assignment rest bin (S i)
        (<[letter_string l := bool_decide (bin !! i = Some 48)]> assignment)
  end.

Definition msg_not_found (key : jsstring) : jsstring :=
  js "Letter " ++ key ++ js " not found in assignment".

(** The closure [lookup] over one row's assignment map. *)
Definition lookup_in (assignment : gmap jsstring bool) (l : Letter) : Completion bool :=
  let key := letter_string l in
  match assignment !! key with
  | None => Throw (msg_not_found key)
  | Some val => Return val
  end.

(** [for (let state = 0; state < n_states; state++)]: the states the loop
    would visit if nothing stopped it.  With 32 letters or more the loop
    is left by the [RangeError] of [rows.push] before [state] reaches
    2^32, so that neither [state >>> 0] wrapping around, nor the numbers
    a double does not hold exactly, nor [Math.pow] returning [Infinity]
    are ever met. *)
Definition states (n_states : N) : list N :=
  List.map N.of_nat (seq 0 (N.to_nat n_states)).

Section Sorting.
(** [String.prototype.localeCompare] depends on the host's locale and is
    left abstract. *)
Variable localeCompare : jsstring -> jsstring -> Z.

(** Compare letters for sorting (alphabetical, then by index). *)
Definition comp_letters (a b : Letter) : Z :=
  let cmp := localeCompare (id a) (id b) in
  if (cmp =? 0)%Z then (index a - index b)%Z else cmp.

(** [Array.prototype.sort(comparefn)] is stable; it is modelled by
    insertion from the left, which produces the one stable sorted order
    whenever [comparefn] is a consistent comparator. *)
Fixpoint sort_insert {A} (comparefn : A -> A -> Z) (x : A) (sorted : list A) : list A :=
  match sorted with
  | [] => [x]
  | y :: sorted' =>
      if (comparefn x y <? 0)%Z then x :: y :: sorted'
      else y :: sort_insert comparefn x sorted'
  end.

Definition Array_sort {A} (comparefn : A -> A -> Z) (xs : list A) : list A :=
  fold_left (fun sorted x => sort_insert comparefn x sorted) xs [].

(** The body of the [state] loop. *)
Definition make_row (letters : list Letter) (formulas : list Sentence) (state : N)
    : Completion TruthTableRow :=
  let bin := to_bin_str state (length letters) in
  let assignment := build_assignment letters bin 0 ∅ in
  let* values := Array_map (fun f => evaluate (lookup_in assignment) f) formulas in
  Return (mkRow assignment values).

(** The [state] loop: the body, then [rows.push({ assignment, values })]. *)
Fixpoint push_rows (letters : list Letter) (formulas : list Sentence) (sts : list N)
    (rows : list TruthTableRow) : Completion (list TruthTableRow) :=
  match sts with
  | [] => Return rows
  | state :: sts' =>
      let* row := make_row letters formulas state in
      let* rows := Array_push rows row in
      push_rows letters formulas sts' rows
  end.

(** Generate truth table for multiple formulas. *)
Definition generate_truth_table (formulas : list Sentence) : Completion TruthTableResult :=
  let allLetters :=
    fold_left (fun acc f => add_all acc (LetterSet_.toArray (collect_letters f)))
              formulas LetterSet_.empty in
  let letters := Array_sort comp_letters (LetterSet_.toArray allLetters) in
  let n_states := if (length letters =? 0)%nat then 1 else 2 ^ N.of_nat (length letters) in
  let* rows := push_rows letters formulas (states n_states) [] in
  Return (mkResult letters formulas rows).

End Sorting.

(** Comparison by code units, the order [localeCompare] induces on single
    upper-case ASCII letters in the usual locales; used to run examples. *)
Fixpoint compare_units (a b : jsstring) : Z :=
  match a, b with
  | [], [] => 0%Z
  | [], _ :: _ => (-1)%Z
  | _ :: _, [] => 1%Z
  | x :: a', y :: b' =>
      if x <? y then (-1)%Z else if y <? x then 1%Z else compare_units a' b'
  end.

(* ===================================================================== *)
(** ** formula_layout.ts *)
(* ===================================================================== *)

(** A token in the formula display. *)
Inductive FormulaToken : Type :=
| text_token (text : jsstring)
| value_token (text : jsstring) (subformula : Sentence) (isMain : bool).

Record FormulaLayout : Type := mkLayout { tokens : list FormulaToken }.

(** [emit], [emitText] and [emitValue] push onto the token array of the
    enclosing [layoutFormula]; the array is threaded explicitly. *)
Definition emit (token : FormulaToken) (tokens : list FormulaToken) : list FormulaToken :=
  tokens ++ [token].
Definition emitText (text : jsstring) := emit (text_token text).
Definition emitValue (text : jsstring) (subformula : Sentence) (isMainConn : bool) :=
  emit (value_token text subformula isMainConn).

(** The body shared, up to the connective text, by the six binary cases
    of [layout]. *)
Definition layout_binary_with
    (layout : Sentence -> bool -> bool -> list FormulaToken -> list FormulaToken)
    (s left right : Sentence) (text : jsstring) (isMainConnective isTopLevel : bool)
    (tokens : list FormulaToken) : list FormulaToken :=
  let tokens := if negb isTopLevel then emitText (js "(") tokens else tokens in
  let tokens := layout left false false tokens in
  let tokens := emitValue text s isMainConnective tokens in
  let tokens := layout right false false tokens in
  if negb isTopLevel then emitText (js ")") tokens else tokens.

Fixpoint layout (s : Sentence) (isMainConnective isTopLevel : bool)
    (tokens : list FormulaToken) : list FormulaToken :=
  let binary := layout_binary_with layout s in
  match s with
  | value v => emitValue (if v then [u22A4] else [u22A5]) s isMainConnective tokens
  | letter l => emitValue (letter_string l) s isMainConnective tokens
  | negation sub =>
      layout sub false false (emitValue (js "~") s isMainConnective tokens)
  | conjunction l r => binary l r (js "&") isMainConnective isTopLevel tokens
  | disjunction l r => binary l r [u2228] isMainConnective isTopLevel tokens
  | conditional l r => binary l r [32; u2192; 32] isMainConnective isTopLevel tokens
  | biconditional l r => binary l r [32; u2194; 32] isMainConnective isTopLevel tokens
  | xor l r => binary l r [u2295] isMainConnective isTopLevel tokens
  | nand l r => binary l r (js "|") isMainConnective isTopLevel tokens
  end.

(** Generate layout tokens for a sentence. *)
Definition layoutFormula (s : Sentence) : FormulaLayout :=
  mkLayout (layout s true true []).

Record EvaluatedToken : Type := mkEvaluated {
  ev_text : jsstring;
  ev_value : bool;
  ev_isMain : bool
}.

(** [Extract<FormulaToken, { type: 'value' }>] *)
Record ValueToken : Type := mkValueToken {
  vt_text : jsstring;
  vt_subformula : Sentence;
  vt_isMain : bool
}.

Definition as_value_token (t : FormulaToken) : option ValueToken :=
  match t with
  | value_token text subformula isMain => Some (mkValueToken text subformula isMain)
  | text_token _ => None
  end.

(** [tokens.filter((t): t is Extract<...> => t.type === 'value')] *)
Definition value_tokens (tokens : list FormulaToken) : list ValueToken :=
  omap as_value_token tokens.

(** Evaluate all value tokens for a given assignment. *)
Definition evaluateLayout (layout : FormulaLayout)
    (assignment : Letter -> Completion bool) : Completion (list EvaluatedToken) :=
  Array_map
    (fun t =>
       let* v := evaluate assignment (vt_subformula t) in
       Return (mkEvaluated (vt_text t) v (vt_isMain t)))
    (value_tokens (tokens layout)).

(* ===================================================================== *)
(** ** main.ts: quiz dependencies in [renderTruthTable] *)
(* ===================================================================== *)

(** Get the direct sub-formulas that a connective depends on. *)
Definition getSubformulaDependencies (s : Sentence) : list Sentence :=
  let not_atom (t : Sentence) : bool :=
    match t with letter _ | value _ => false | _ => true end in
  match s with
  | value _ | letter _ => []
  | negation sub => if not_atom sub then [sub] else []
  | conjunction l r | disjunction l r | conditional l r
  | biconditional l r | xor l r | nand l r =>
      (if not_atom l then [l] else []) ++ (if not_atom r then [r] else [])
  end.

(** [{ formulaIdx: number, tokenIdx: number }] *)
Record Cell : Type := mkCell { formulaIdx : nat; tokenIdx : nat }.

#[global] Instance Cell_eq_dec : EqDecision Cell.
Proof. solve_decision. Defined.

(** [xs.forEach((x, i) => ...)] with the state the callback updates
    threaded through. *)
Fixpoint forEach_from {A St} (f : St -> A -> nat -> St) (xs : list A) (i : nat) (st : St) : St :=
  match xs with
  | [] => st
  | x :: xs' => forEach_from f xs' (S i) (f st x i)
  end.
Definition forEach {A St} (f : St -> A -> nat -> St) (xs : list A) (st : St) : St :=
  forEach_from f xs 0%nat st.

(** The guard [token.type === 'value' && token.subformula.tag !== 'letter'
    && token.subformula.tag !== 'value'], returning the sub-formula. *)
Definition quiz_subformula (token : FormulaToken) : option Sentence :=
  match token with
  | value_token _ subformula _ =>
      match subformula with
      | letter _ | value _ => None
      | _ => Some subformula
      end
  | text_token _ => None
  end.

(** Map from sub-formula key to cell location. *)
Definition subformulaToCell (layouts : list FormulaLayout) : gmap jsstring Cell :=
  forEach (fun m layout formulaIdx =>
    forEach (fun m token tokenIdx =>
      match quiz_subformula token with
      | Some subformula =>
          let key := sentence_to_string_compact subformula in
          <[key := mkCell formulaIdx tokenIdx]> m
      | None => m
      end) (tokens layout) m) layouts ∅.

(** [`${formulaIdx}-${tokenIdx}`] *)
Definition cellKey (formulaIdx tokenIdx : nat) : jsstring :=
  Number_toString (N.of_nat formulaIdx) ++ js "-" ++ Number_toString (N.of_nat tokenIdx).

(** The inner [for (const dep of deps)] loop. *)
Definition depCellKeys (subformulaToCell : gmap jsstring Cell) (deps : list Sentence)
    : list jsstring :=
  fold_left (fun depCellKeys dep =>
    let depKey := sentence_to_string_compact dep in
    match subformulaToCell !! depKey with
    | Some depCell => depCellKeys ++ [cellKey (formulaIdx depCell) (tokenIdx depCell)]
    | None => depCellKeys
    end) deps [].

(** Dependency map: cellKey -> array of cellKeys it depends on. *)
Definition cellDependencies (layouts : list FormulaLayout) : gmap jsstring (list jsstring) :=
  let subformulaToCell := subformulaToCell layouts in
  forEach (fun m layout formulaIdx =>
    forEach (fun m token tokenIdx =>
      match quiz_subformula token with
      | Some subformula =>
          let deps := getSubformulaDependencies subformula in
          <[cellKey formulaIdx tokenIdx := depCellKeys subformulaToCell deps]> m
      | None => m
      end) (tokens layout) m) layouts ∅.

(** [const layouts = result.formulas.map(f => layoutFormula(f))] *)
Definition layouts_of (formulas : list Sentence) : list FormulaLayout :=
  List.map layoutFormula formulas.

(** [cellDependencies.get(cellKey) || []], as read when a data cell is
    rendered. *)
Definition deps_of_cell (formulas : list Sentence) (formulaIdx tokenIdx : nat) : list jsstring :=
  default [] (cellDependencies (layouts_of formulas) !! cellKey formulaIdx tokenIdx).

(** The letters A, B and C as the parser builds them. *)
Definition A_ : Sentence := letter (mkLetter (js "A") 0).
Definition B_ : Sentence := letter (mkLetter (js "B") 0).
Definition C_ : Sentence := letter (mkLetter (js "C") 0).

(* ===================================================================== *)
(** ** main.ts: validation of the formula inputs *)
(* ===================================================================== *)

(** [s.startsWith(searchString)] *)
Fixpoint startsWith (s searchString : jsstring) {struct searchString} : bool :=
  match searchString, s with
  | [], _ => true
  | c :: searchString', d :: s' => (c =? d) && startsWith s' searchString'
  | _ :: _, [] => false
  end.

(** [s.endsWith(searchString)] *)
Definition endsWith (s searchString : jsstring) : bool :=
  startsWith (rev s) (rev searchString).

Definition bracketPairs : list (jsstring * jsstring) :=
  [(js "(", js ")"); (js "[", js "]"); (js "{", js "}")].

(** The loop [for (let i = 0; i < trimmed.length - 1; i++)] of
    [hasUnnecessaryOuterParens] over the characters it visits: [true]
    when it leaves through [return false] ("closed before the end"). *)
Fixpoint closed_before_end (open close : jsstring) (chars : jsstring) (depth : Z) : bool :=
  match chars with
  | [] => false
  | c :: chars' =>
      let depth :=
        if bool_decide ([c] = open) then (depth + 1)%Z
        else if bool_decide ([c] = close) then (depth - 1)%Z
        else depth in
      if (depth =? 0)%Z then true else closed_before_end open close chars' depth
  end.

(** The loop [for (const [open, close] of bracketPairs)]. *)
Fixpoint outer_parens_of (pairs : list (jsstring * jsstring)) (trimmed : jsstring)
    (parsed : Sentence) : bool :=
  match pairs with
  | [] => false
  | (open, close) :: pairs' =>
      if startsWith trimmed open && endsWith trimmed close then
        if closed_before_end open close (take (length trimmed - 1) trimmed) 0 then false
        else
          match parsed with
          | letter _ | negation _ | value _ => false
          | _ => true
          end
      else outer_parens_of pairs' trimmed parsed
  end.

(** Check if input has unnecessary outer parentheses. *)
Definition hasUnnecessaryOuterParens (text : jsstring) (parsed : Sentence) : bool :=
  outer_parens_of bracketPairs (trim text) parsed.

(** [type FormulaInput] *)
Record FormulaInput : Type := mkFormulaInput {
  text : jsstring;
  parsed : option Sentence;
  error : option jsstring;
  warning : option jsstring
}.

(** What [parse_sentence] returns; it always answers
    ([parse_sentence_returns]), so the alternative is never taken. *)
Definition parse_sentence_result (input : jsstring) : Res Sentence jsstring :=
  default (ResErr (diagnoseError input)) (parse_sentence input).

(** What [validateFormula] does to the entry [formulas[index]]. *)
Definition validate (formula : FormulaInput) : FormulaInput :=
  if bool_decide (trim (text formula) = []) then
    mkFormulaInput (text formula) None None None
  else
    match parse_sentence_result (text formula) with
    | ResOk s =>
        mkFormulaInput (text formula) (Some s) None
          (if hasUnnecessaryOuterParens (text formula) s
           then Some (js "Outer parentheses not required.") else None)
    | ResErr e => mkFormulaInput (text formula) None (Some e) None
    end.

(** The message of the [TypeError] the engine throws when a property of
    [undefined] is read or written; its wording is the engine's. *)
Definition TypeError : jsstring := js "TypeError".

(** [validateFormula(index)] on the array [formulas]. *)
Definition validateFormula (formulas : list FormulaInput) (index : nat)
    : Completion (list FormulaInput) :=
  match formulas !! index with
  | None => Throw TypeError
  | Some formula => Return (<[index := validate formula]> formulas)
  end.

(* ===================================================================== *)
(** ** main.ts: application state, quiz and table cells *)
(* ===================================================================== *)

(** ['calculator' | 'quiz'] *)
Inductive QuizMode : Type := calculator | quiz.

(** ['T' | 'F'] *)
Inductive Answer : Type := answer_T | answer_F.

(** ['correct' | 'incorrect'] *)
Inductive CellStatus : Type := correct | incorrect.

#[global] Instance Answer_eq_dec : EqDecision Answer.
Proof. solve_decision. Defined.

#[global] Instance CellStatus_eq_dec : EqDecision CellStatus.
Proof. solve_decision. Defined.

(** The module-level variables that the functions below read or write
    ([formulas_] is the variable [formulas]). *)
Record AppState : Type := mkAppState {
  formulas_ : list FormulaInput;
  currentResult : option TruthTableResult;
  showQuasiColumns : bool;
  highlightedRows : gset nat;
  currentMode : QuizMode;
  userAnswers : gmap jsstring Answer;
  cellStatuses : gmap jsstring CellStatus;
  quizChecked : bool;
  answersRevealed : bool;
  savedAnswersBeforeReveal : gmap jsstring Answer;
  savedStatusesBeforeReveal : gmap jsstring CellStatus;
  savedQuizCheckedBeforeReveal : bool
}.

(** [function resetQuizState()] *)
Definition resetQuizState (st : AppState) : AppState :=
  mkAppState (formulas_ st) (currentResult st) (showQuasiColumns st) (highlightedRows st)
    (currentMode st) ∅ ∅ false false ∅ ∅ false.

(** [`${rowIdx}-${formulaIdx}-${tokenIdx}`] *)
Definition cellId (rowIdx formulaIdx tokenIdx : nat) : jsstring :=
  Number_toString (N.of_nat rowIdx) ++ js "-"
  ++ Number_toString (N.of_nat formulaIdx) ++ js "-"
  ++ Number_toString (N.of_nat tokenIdx).

(** The closure [lookup] over a row of the current result. *)
Definition lookup_row (row : TruthTableRow) (l : Letter) : Completion bool :=
  match assignment row !! letter_string l with
  | None => Throw (js "Letter " ++ letter_string l ++ js " not found")
  | Some val => Return val
  end.

(** [currentMode === 'quiz' ? true : showQuasiColumns] *)
Definition effectiveShowQuasi (st : AppState) : bool :=
  match currentMode st with
  | quiz => true
  | calculator => showQuasiColumns st
  end.

(** [token.subformula.tag === 'letter'] *)
Definition is_letter (s : Sentence) : bool :=
  match s with letter _ => true | _ => false end.

Record QuizStats : Type := mkQuizStats {
  total : nat;
  filled : nat;
  correct_count : nat;
  incorrect_count : nat
}.

(** The body of the innermost [forEach] of [getQuizStats]. *)
Definition stats_token (st : AppState) (rowIdx formulaIdx : nat)
    (acc : QuizStats) (token : FormulaToken) (tokenIdx : nat) : QuizStats :=
  match token with
  | text_token _ => acc
  | value_token _ subformula isMain =>
      let showValue := effectiveShowQuasi st || isMain in
      if negb showValue then acc
      else if is_letter subformula then acc
      else
        let cellId := cellId rowIdx formulaIdx tokenIdx in
        let total := S (total acc) in
        let filled :=
          if bool_decide (is_Some (userAnswers st !! cellId))
          then S (filled acc) else filled acc in
        match cellStatuses st !! cellId with
        | Some correct => mkQuizStats total filled (S (correct_count acc)) (incorrect_count acc)
        | Some incorrect => mkQuizStats total filled (correct_count acc) (S (incorrect_count acc))
        | None => mkQuizStats total filled (correct_count acc) (incorrect_count acc)
        end
  end.

(** [function getQuizStats()] *)
Definition getQuizStats (st : AppState) : QuizStats :=
  match currentResult st with
  | None => mkQuizStats 0 0 0 0
  | Some result =>
      let layouts := List.map layoutFormula (formulas result) in
      forEach (fun acc _row rowIdx =>
        forEach (fun acc layout formulaIdx =>
          forEach (stats_token st rowIdx formulaIdx) (tokens layout) acc)
          layouts acc)
        (rows result) (mkQuizStats 0 0 0 0)
  end.

(** A statement that may throw after it has written to the state: the
    state it reached is kept either way. *)
Inductive Outcome (St : Type) : Type :=
| Normal (st : St)
| Abrupt (message : jsstring) (st : St).
Arguments Normal {St} st.
Arguments Abrupt {St} message st.

(** [xs.forEach((x, i) => ...)] for a callback that may throw. *)
Fixpoint forEach_throwing_from {A St} (f : St -> A -> nat -> Outcome St)
    (xs : list A) (i : nat) (st : St) : Outcome St :=
  match xs with
  | [] => Normal st
  | x :: xs' =>
      match f st x i with
      | Normal st' => forEach_throwing_from f xs' (S i) st'
      | Abrupt message st' => Abrupt message st'
      end
  end.
Definition forEach_throwing {A St} (f : St -> A -> nat -> Outcome St)
    (xs : list A) (st : St) : Outcome St :=
  forEach_throwing_from f xs 0%nat st.

(** The part of the state written inside the loops of [checkAnswers] and
    [toggleRevealAnswers], with the counter [valueIdx] of the token
    loop. *)
Record Marks : Type := mkMarks {
  valueIdx : nat;
  answers : gmap jsstring Answer;
  statuses : gmap jsstring CellStatus
}.

(** [evaluatedValues[valueIdx++]] followed by the test
    [effectiveShowQuasi || evalResult.isMain]. *)
Definition showValue_of (st : AppState) (evalResult : option EvaluatedToken)
    : Completion bool :=
  if effectiveShowQuasi st then Return true
  else match evalResult with
       | Some evalResult => Return (ev_isMain evalResult)
       | None => Throw TypeError
       end.

(** The body of the innermost [forEach] of [checkAnswers]. *)
Definition check_token (st : AppState) (rowIdx formulaIdx : nat)
    (evaluatedValues : list EvaluatedToken)
    (m : Marks) (token : FormulaToken) (tokenIdx : nat) : Outcome Marks :=
  match token with
  | text_token _ => Normal m
  | value_token _ subformula _ =>
      let evalResult := evaluatedValues !! valueIdx m in
      let m := mkMarks (S (valueIdx m)) (answers m) (statuses m) in
      match showValue_of st evalResult with
      | Throw message => Abrupt message m
      | Return false => Normal m
      | Return true =>
          if is_letter subformula then Normal m
          else
            let cellId := cellId rowIdx formulaIdx tokenIdx in
            match answers m !! cellId with
            | None => Normal m
            | Some userAnswer =>
                match evalResult with
                | None => Abrupt TypeError m
                | Some evalResult =>
                    let correctAnswer := ev_value evalResult in
                    let isCorrect :=
                      Bool.eqb (bool_decide (userAnswer = answer_T)) correctAnswer in
                    Normal (mkMarks (valueIdx m) (answers m)
                              (<[cellId := if isCorrect then correct else incorrect]>
                                 (statuses m)))
                end
            end
      end
  end.

(** The body of the innermost [forEach] of [toggleRevealAnswers]. *)
Definition reveal_token (st : AppState) (rowIdx formulaIdx : nat)
    (evaluatedValues : list EvaluatedToken)
    (m : Marks) (token : FormulaToken) (tokenIdx : nat) : Outcome Marks :=
  match token with
  | text_token _ => Normal m
  | value_token _ subformula _ =>
      let evalResult := evaluatedValues !! valueIdx m in
      let m := mkMarks (S (valueIdx m)) (answers m) (statuses m) in
      match showValue_of st evalResult with
      | Throw message => Abrupt message m
      | Return false => Normal m
      | Return true =>
          if is_letter subformula then Normal m
          else
            let cellId := cellId rowIdx formulaIdx tokenIdx in
            match evalResult with
            | None => Abrupt TypeError m
            | Some evalResult =>
                Normal (mkMarks (valueIdx m)
                          (<[cellId := if ev_value evalResult then answer_T else answer_F]>
                             (answers m))
                          (<[cellId := correct]> (statuses m)))
            end
      end
  end.

(** The loops over rows, layouts and tokens that [checkAnswers] and
    [toggleRevealAnswers] share, with the token callback [visit]:
    [evaluateLayout] runs once per row and layout, and [valueIdx]
    restarts at 0 for each. *)
Definition mark_cells
    (visit : nat -> nat -> list EvaluatedToken -> Marks -> FormulaToken -> nat -> Outcome Marks)
    (result : TruthTableResult) (m : Marks) : Outcome Marks :=
  let layouts := List.map layoutFormula (formulas result) in
  forEach_throwing (fun m row rowIdx =>
    forEach_throwing (fun m layout formulaIdx =>
      match evaluateLayout layout (lookup_row row) with
      | Throw message => Abrupt message m
      | Return evaluatedValues =>
          forEach_throwing (visit rowIdx formulaIdx evaluatedValues)
            (tokens layout) (mkMarks 0 (answers m) (statuses m))
      end) layouts m) (rows result) m.

(** [function checkAnswers()], up to the final [render()], which rebuilds
    the page from the state and does not write to it. *)
Definition checkAnswers (st : AppState) : Outcome AppState :=
  match currentResult st with
  | None => Normal st
  | Some result =>
      let put (m : Marks) (checked : bool) :=
        mkAppState (formulas_ st) (currentResult st) (showQuasiColumns st)
          (highlightedRows st) (currentMode st) (userAnswers st) (statuses m)
          checked (answersRevealed st) (savedAnswersBeforeReveal st)
          (savedStatusesBeforeReveal st) (savedQuizCheckedBeforeReveal st) in
      match mark_cells (check_token st) result (mkMarks 0 (userAnswers st) ∅) with
      | Normal m => Normal (put m true)
      | Abrupt message m => Abrupt message (put m (quizChecked st))
      end
  end.

(** [function toggleRevealAnswers()], up to the final [render()]. *)
Definition toggleRevealAnswers (st : AppState) : Outcome AppState :=
  match currentResult st with
  | None => Normal st
  | Some result =>
      if answersRevealed st then
        Normal (mkAppState (formulas_ st) (currentResult st) (showQuasiColumns st)
                  (highlightedRows st) (currentMode st)
                  (savedAnswersBeforeReveal st) (savedStatusesBeforeReveal st)
                  (savedQuizCheckedBeforeReveal st) false
                  (savedAnswersBeforeReveal st) (savedStatusesBeforeReveal st)
                  (savedQuizCheckedBeforeReveal st))
      else
        let put (m : Marks) (done : bool) :=
          mkAppState (formulas_ st) (currentResult st) (showQuasiColumns st)
            (highlightedRows st) (currentMode st) (answers m) (statuses m)
            (if done then true else quizChecked st)
            (if done then true else answersRevealed st)
            (userAnswers st) (cellStatuses st) (quizChecked st) in
        match mark_cells (reveal_token st) result
                (mkMarks 0 (userAnswers st) (cellStatuses st)) with
        | Normal m => Normal (put m true)
        | Abrupt message m => Abrupt message (put m false)
        end
  end.

(** What a data cell of the table shows: the four ways the innermost
    loop of [renderTruthTable] fills a [td]. *)
Inductive CellView : Type :=
| EmptyCell
| ValueCell (shown : option bool) (isMain : bool)
| LockedCell (isMain : bool)
| QuizCell (cellId : jsstring) (isMain : bool).

(** [deps.every(depKey => userAnswers.has(`${rowIdx}-${depKey}`))] *)
Definition depsAreFilled (st : AppState) (rowIdx : nat) (deps : list jsstring) : bool :=
  forallb (fun depKey =>
    bool_decide (is_Some (userAnswers st
                            !! (Number_toString (N.of_nat rowIdx) ++ js "-" ++ depKey))))
    deps.

(** The body of the innermost [forEach] of the data rows of
    [renderTruthTable]: the cell appended for [token], and the next
    [valueIdx].  Each of the three branches reads [evalResult.isMain]
    before it appends its cell ([renderLockedCell] and [renderQuizCell]
    do so themselves), so when [evaluatedValues[valueIdx]] is
    [undefined] every path ends in the [TypeError] and no cell is
    appended. *)
Definition data_cell (st : AppState) (cellDependencies : gmap jsstring (list jsstring))
    (rowIdx formulaIdx : nat) (evaluatedValues : list EvaluatedToken)
    (valueIdx : nat) (token : FormulaToken) (tokenIdx : nat) : Completion (CellView * nat) :=
  match token with
  | text_token _ => Return (EmptyCell, valueIdx)
  | value_token _ subformula _ =>
      match evaluatedValues !! valueIdx with
      | None => Throw TypeError
      | Some evalResult =>
          let valueIdx := S valueIdx in
          let showValue := effectiveShowQuasi st || ev_isMain evalResult in
          let cellId := cellId rowIdx formulaIdx tokenIdx in
          let isQuizMode := match currentMode st with quiz => true | calculator => false end in
          let isAtomicLetter := is_letter subformula in
          let shouldQuiz := isQuizMode && showValue && negb isAtomicLetter in
          let cellKey := cellKey formulaIdx tokenIdx in
          let deps := default [] (cellDependencies !! cellKey) in
          let depsAreFilled := depsAreFilled st rowIdx deps in
          if negb shouldQuiz then
            Return (ValueCell (if showValue then Some (ev_value evalResult) else None)
                      (ev_isMain evalResult), valueIdx)
          else if negb depsAreFilled then
            Return (LockedCell (ev_isMain evalResult), valueIdx)
          else
            Return (QuizCell cellId (ev_isMain evalResult), valueIdx)
      end
  end.

(** The token loop of one layout in a data row. *)
Fixpoint data_cells_from (st : AppState) (cellDependencies : gmap jsstring (list jsstring))
    (rowIdx formulaIdx : nat) (evaluatedValues : list EvaluatedToken)
    (tokens : list FormulaToken) (tokenIdx valueIdx : nat) : Completion (list CellView) :=
  match tokens with
  | [] => Return []
  | token :: tokens' =>
      let* cell := data_cell st cellDependencies rowIdx formulaIdx evaluatedValues
                     valueIdx token tokenIdx in
      let* cells := data_cells_from st cellDependencies rowIdx formulaIdx evaluatedValues
                      tokens' (S tokenIdx) (snd cell) in
      Return (fst cell :: cells)
  end.

(** The layout loop of one data row: the formula cells of the row, layout
    by layout. *)
Fixpoint data_row_from (st : AppState) (cellDependencies : gmap jsstring (list jsstring))
    (row : TruthTableRow) (rowIdx : nat) (layouts : list FormulaLayout) (formulaIdx : nat)
    : Completion (list (list CellView)) :=
  match layouts with
  | [] => Return []
  | layout :: layouts' =>
      let* evaluatedValues := evaluateLayout layout (lookup_row row) in
      let* cells := data_cells_from st cellDependencies rowIdx formulaIdx evaluatedValues
                      (tokens layout) 0 0 in
      let* rest := data_row_from st cellDependencies row rowIdx layouts' (S formulaIdx) in
      Return (cells :: rest)
  end.

(** The formula cells of the data rows that [renderTruthTable(result)]
    builds. *)
Definition data_rows (st : AppState) (result : TruthTableResult)
    : Completion (list (list (list CellView))) :=
  let layouts := layouts_of (formulas result) in
  let cellDependencies := cellDependencies layouts in
  (fix rows_from (rows : list TruthTableRow) (rowIdx : nat) :=
     match rows with
     | [] => Return []
     | row :: rows' =>
         let* cells := data_row_from st cellDependencies row rowIdx layouts 0 in
         let* rest := rows_from rows' (S rowIdx) in
         Return (cells :: rest)
     end) (rows result) 0%nat.

(** [formulas.forEach((_, i) => validateFormula(i))] *)
Fixpoint validate_all_from (formulas : list FormulaInput) (i n : nat)
    : Outcome (list FormulaInput) :=
  match n with
  | O => Normal formulas
  | S n' =>
      match validateFormula formulas i with
      | Return formulas => validate_all_from formulas (S i) n'
      | Throw message => Abrupt message formulas
      end
  end.

(** [formulas.filter(f => f.parsed !== null).map(f => f.parsed!)] *)
Definition validFormulas (formulas : list FormulaInput) : list Sentence :=
  omap parsed formulas.

Section Calculate.
Variable localeCompare : jsstring -> jsstring -> Z.

(** [function calculateTruthTables()], up to the final [render()]. *)
Definition calculateTruthTables (st : AppState) : Outcome AppState :=
  let put (formulas : list FormulaInput) (result : option TruthTableResult) :=
    mkAppState formulas result (showQuasiColumns st) ∅ (currentMode st)
      (userAnswers st) (cellStatuses st) (quizChecked st) (answersRevealed st)
      (savedAnswersBeforeReveal st) (savedStatusesBeforeReveal st)
      (savedQuizCheckedBeforeReveal st) in
  match validate_all_from (formulas_ st) 0 (length (formulas_ st)) with
  | Abrupt message formulas => Abrupt message (put formulas (currentResult st))
  | Normal formulas =>
      let validFormulas := validFormulas formulas in
      if (length validFormulas =? 0)%nat then Normal (put formulas None)
      else
        match generate_truth_table localeCompare validFormulas with
        | Throw message => Abrupt message (put formulas (currentResult st))
        | Return result => Normal (put formulas (Some result))
        end
  end.
End Calculate.

(* ===================================================================== *)
(** ** Vocabulary of the properties *)
(* ===================================================================== *)

(** The letters occurring in a sentence. *)
Fixpoint occurs (x : Letter) (s : Sentence) : Prop :=
  match s with
  | value _ => False
  | letter l => x = l
  | negation s => occurs x s
  | conjunction l r | disjunction l r | conditional l r
  | biconditional l r | xor l r | nand l r => occurs x l \/ occurs x r
  end.

(** The standard truth-table semantics of the eight variants, written
    with the boolean functions of the standard library. *)
Fixpoint standard_truth_value (f : Letter -> bool) (s : Sentence) : bool :=
  match s with
  | value v => v
  | letter l => f l
  | negation a => negb (standard_truth_value f a)
  | conjunction a b => andb (standard_truth_value f a) (standard_truth_value f b)
  | disjunction a b => orb (standard_truth_value f a) (standard_truth_value f b)
  | conditional a b => implb (standard_truth_value f a) (standard_truth_value f b)
  | biconditional a b => Bool.eqb (standard_truth_value f a) (standard_truth_value f b)
  | xor a b => xorb (standard_truth_value f a) (standard_truth_value f b)
  | nand a b => negb (andb (standard_truth_value f a) (standard_truth_value f b))
  end.

(** A total assignment never throws. *)
Definition total_assignment (f : Letter -> bool) : Letter -> Completion bool :=
  fun l => Return (f l).

(** The display text of the value token a node emits for itself. *)
Definition node_text (s : Sentence) : jsstring :=
  match s with
  | value v => if v then [u22A4] else [u22A5]
  | letter l => letter_string l
  | negation _ => js "~"
  | conjunction _ _ => js "&"
  | disjunction _ _ => [u2228]
  | conditional _ _ => [32; u2192; 32]
  | biconditional _ _ => [32; u2194; 32]
  | xor _ _ => [u2295]
  | nand _ _ => js "|"
  end.

Definition main_tokens (tokens : list FormulaToken) : list ValueToken :=
  List.filter vt_isMain (value_tokens tokens).

(** What [evaluateLayout] returns, element by element. *)
Definition evaluates_to (asg : Letter -> Completion bool) (t : ValueToken)
    (e : EvaluatedToken) : Prop :=
  ev_text e = vt_text t /\ ev_isMain e = vt_isMain t
  /\ evaluate asg (vt_subformula t) = Return (ev_value e).

(** The immediate operands of a node. *)
Definition operands (s : Sentence) : list Sentence :=
  match s with
  | value _ | letter _ => []
  | negation a => [a]
  | conjunction a b | disjunction a b | conditional a b
  | biconditional a b | xor a b | nand a b => [a; b]
  end.

Definition is_atomic (s : Sentence) : bool :=
  match s with letter _ | value _ => true | _ => false end.

Definition is_digit (c : N) : bool := (48 <=? c) && (c <=? 57).

(** A string that does not continue a run of digits. *)
Definition no_digit_head (r : jsstring) : Prop :=
  match r with
  | [] => True
  | c :: _ => is_digit c = false
  end.

(** The key under which a token is entered in [subformulaToCell], if it
    is entered at all. *)
Definition key_of (token : FormulaToken) : option jsstring :=
  sentence_to_string_compact <$> quiz_subformula token.

(** [cell] holds a non-atomic value token whose compact rendering is
    [key]. *)
Definition occurrence (layouts : list FormulaLayout) (key : jsstring) (cell : Cell) : Prop :=
  exists layout token,
    layouts !! formulaIdx cell = Some layout
    /\ tokens layout !! tokenIdx cell = Some token
    /\ key_of token = Some key.

(** The order in which the nested [forEach] visits cells. *)
Definition cell_le (c1 c2 : Cell) : Prop :=
  (formulaIdx c1 < formulaIdx c2)%nat
  \/ (formulaIdx c1 = formulaIdx c2 /\ (tokenIdx c1 <= tokenIdx c2)%nat).

Definition last_occurrence (layouts : list FormulaLayout) (key : jsstring) (cell : Cell) : Prop :=
  occurrence layouts key cell
  /\ forall c, occurrence layouts key c -> cell_le c cell.

(** The greatest token index carrying [key] in one layout. *)
Fixpoint last_index (key : jsstring) (toks : list FormulaToken) : option nat :=
  match toks with
  | [] => None
  | t :: ts =>
      match last_index key ts with
      | Some j => Some (S j)
      | None => if decide (key_of t = Some key) then Some 0%nat else None
      end
  end.

(** The last cell carrying [key] in a batch of layouts. *)
Fixpoint last_cell (key : jsstring) (layouts : list FormulaLayout) : option (nat * nat) :=
  match layouts with
  | [] => None
  | l :: ls =>
      match last_cell key ls with
      | Some (a, j) => Some (S a, j)
      | None => (fun j => (0%nat, j)) <$> last_index key (tokens l)
      end
  end.

(** The two loops that fill [subformulaToCell]. *)
Definition enter_token (formulaIdx : nat) (m : gmap jsstring Cell) (token : FormulaToken)
    (tokenIdx : nat) : gmap jsstring Cell :=
  match quiz_subformula token with
  | Some subformula =>
      <[sentence_to_string_compact subformula := mkCell formulaIdx tokenIdx]> m
  | None => m
  end.

(** The two loops that fill [cellDependencies]. *)
Definition enter_deps (stc : gmap jsstring Cell) (formulaIdx : nat)
    (m : gmap jsstring (list jsstring)) (token : FormulaToken) (tokenIdx : nat)
    : gmap jsstring (list jsstring) :=
  match quiz_subformula token with
  | Some subformula =>
      <[cellKey formulaIdx tokenIdx
        := depCellKeys stc (getSubformulaDependencies subformula)]> m
  | None => m
  end.

(** [d] is [s] or one of its sub-formulas. *)
Fixpoint subformula_of (d s : Sentence) : Prop :=
  d = s \/
  match s with
  | value _ | letter _ => False
  | negation a => subformula_of d a
  | conjunction a b | disjunction a b | conditional a b
  | biconditional a b | xor a b | nand a b => subformula_of d a \/ subformula_of d b
  end.

(** The data model of letters: the id is one upper-case ASCII character
    and the index is a non-negative integer that a JavaScript number
    holds exactly (at most 2^53 - 1, [Number.MAX_SAFE_INTEGER]). *)
Definition valid_letter (l : Letter) : bool :=
  match id l with
  | [c] => (65 <=? c) && (c <=? 90)
  | _ => false
  end && (0 <=? index l)%Z && (index l <=? 9007199254740991)%Z.

Fixpoint valid_letters (s : Sentence) : bool :=
  match s with
  | value _ => true
  | letter l => valid_letter l
  | negation a => valid_letters a
  | conjunction a b | disjunction a b | conditional a b
  | biconditional a b | xor a b | nand a b => valid_letters a && valid_letters b
  end.

(** No constant occurs in the sentence. *)
Fixpoint value_free (s : Sentence) : bool :=
  match s with
  | value _ => false
  | letter _ => true
  | negation a => value_free a
  | conjunction a b | disjunction a b | conditional a b
  | biconditional a b | xor a b | nand a b => value_free a && value_free b
  end.

(** Neither the letter T nor the letter F occurs with index 0. *)
Fixpoint tf_free (s : Sentence) : bool :=
  match s with
  | value _ => true
  | letter l =>
      negb (bool_decide (l = mkLetter (js "T") 0) || bool_decide (l = mkLetter (js "F") 0))
  | negation a => tf_free a
  | conjunction a b | disjunction a b | conditional a b
  | biconditional a b | xor a b | nand a b => tf_free a && tf_free b
  end.

(** The shape the compact rendering depends on: atoms by their text,
    binary nodes by their operator character. *)
Inductive Shape : Type :=
| Atom (text : jsstring)
| Neg (t : Shape)
| Bin (op : N) (l r : Shape).

Fixpoint to_shape (s : Sentence) : Shape :=
  match s with
  | value v => Atom (if v then js "T" else js "F")
  | letter l => Atom (letter_string l)
  | negation a => Neg (to_shape a)
  | conjunction a b => Bin 38 (to_shape a) (to_shape b)
  | disjunction a b => Bin u2228 (to_shape a) (to_shape b)
  | conditional a b => Bin u2192 (to_shape a) (to_shape b)
  | biconditional a b => Bin u2194 (to_shape a) (to_shape b)
  | xor a b => Bin u2295 (to_shape a) (to_shape b)
  | nand a b => Bin 124 (to_shape a) (to_shape b)
  end.

Fixpoint render_nested (t : Shape) : jsstring :=
  match t with
  | Atom text => text
  | Neg t => 126 :: render_nested t
  | Bin op l r => 40 :: render_nested l ++ op :: render_nested r ++ [41]
  end.

Definition render_top (t : Shape) : jsstring :=
  match t with
  | Bin op l r => render_nested l ++ op :: render_nested r
  | _ => render_nested t
  end.

(** Atom texts are an upper-case letter followed by digits; operators
    are not digits. *)
Definition atom_text (a : jsstring) : Prop :=
  exists c ds, a = c :: ds /\ (65 <=? c) && (c <=? 90) = true
               /\ Forall (fun d => is_digit d = true) ds.

Fixpoint shape_ok (t : Shape) : Prop :=
  match t with
  | Atom a => atom_text a
  | Neg t => shape_ok t
  | Bin op l r => is_digit op = false /\ shape_ok l /\ shape_ok r
  end.

(** The two classes on which atoms cannot be confused: no constants at
    all, or no letter T or F (index 0). *)
Definition unconfusable (s1 s2 : Sentence) : Prop :=
  (value_free s1 = true /\ value_free s2 = true)
  \/ (tf_free s1 = true /\ tf_free s2 = true).

Definition bit_unit (b : bool) : N := if b then 49 else 48.

(** Binary digits of a positive number, least significant first. *)
Fixpoint lsb_units (p : positive) : jsstring :=
  match p with
  | xH => [49]
  | xO p' => 48 :: lsb_units p'
  | xI p' => 49 :: lsb_units p'
  end.

(** The deduplicated letter union of a batch, in insertion order: the
    [allLetters] of [generate_truth_table]. *)
Definition letter_union (formulas : list Sentence) : list Letter :=
  LetterSet_.toArray
    (fold_left (fun acc f => add_all acc (LetterSet_.toArray (collect_letters f)))
               formulas LetterSet_.empty).

(** The class invariant of [LetterSet]: [all] has no duplicates and lists
    exactly the pairs recorded in [map]. *)
Definition LetterSet_ok (ls : LetterSet) : Prop :=
  NoDup (all ls) /\ forall l, LetterSet_.has ls l = true <-> l ∈ all ls.

(** Two neighbours the comparator does not put in the wrong order. *)
Definition in_order {A} (comparefn : A -> A -> Z) (a b : A) : Prop :=
  (comparefn a b < 0)%Z \/ ~ (comparefn b a < 0)%Z.

(** The assignment of the row for [state]. *)
Definition row_assignment (letters : list Letter) (state : N) : gmap jsstring bool :=
  build_assignment letters (to_bin_str state (length letters)) 0 ∅.

(** The state whose bits spell a given combination: a letter that is
    true contributes the bit 0, one that is false the bit 1. *)
Definition state_of (v : list bool) : N :=
  fold_left (fun acc (b : bool) => 2 * acc + (if b then 0 else 1)) v 0.

(** The assignment [asg] gives the letters, in their sorted order, the
    values listed in [v]. *)
Definition assigns (ls : list Letter) (asg : gmap jsstring bool) (v : list bool) : Prop :=
  forall i l, ls !! i = Some l -> asg !! letter_string l = v !! i.

(** A batch of 32 letters that follow the data model: A, A1, ..., A31. *)
Definition batch32 : list Sentence :=
  List.map (fun i => letter (mkLetter (js "A") (Z.of_nat i))) (seq 0 32).

(** The sentences whose spaced form uses only symbols of the input
    language: letters as the parser produces them, negation, conjunction
    and nand. *)
Fixpoint reparsable (s : Sentence) : bool :=
  match s with
  | letter l => valid_letter l && (index l =? 0)%Z
  | negation a => reparsable a
  | conjunction a b | nand a b => reparsable a && reparsable b
  | _ => false
  end.

(** Nesting depth: the fuel [Factor] needs beyond its first unit. *)
Fixpoint depth (s : Sentence) : nat :=
  match s with
  | value _ | letter _ => 0
  | negation a => S (depth a)
  | conjunction a b | disjunction a b | conditional a b
  | biconditional a b | xor a b | nand a b => S (Nat.max (depth a) (depth b))
  end.

(** What may follow an operand: the end of the input or a closing
    bracket. *)
Definition closing (rest : jsstring) : Prop :=
  rest = [] \/ exists c r, rest = c :: r /\ (c = 41 \/ c = 93 \/ c = 125).

(** A string that starts with a character that is neither white space
    nor the start of [sym]. *)
Definition starts_solid (s : jsstring) : Prop :=
  exists c r, s = c :: r /\ is_whitespace c = false.

Definition ends_solid (s : jsstring) : Prop :=
  exists r c, s = r ++ [c] /\ is_whitespace c = false.

(** Sentences as the parser builds them: no constants, every letter a
    single upper-case character with index 0. *)
Fixpoint parsed_shape (s : Sentence) : bool :=
  match s with
  | value _ => false
  | letter l => valid_letter l && (index l =? 0)%Z
  | negation a => parsed_shape a
  | conjunction a b | disjunction a b | conditional a b
  | biconditional a b | xor a b | nand a b => parsed_shape a && parsed_shape b
  end.

(** Every value a parser can succeed with satisfies [Q]. *)
Definition post {A} (p : P.Parser A) (Q : A -> Prop) : Prop :=
  forall input v rest, p input = P.Success v rest -> Q v.

(** The connectives the spaced form writes with the character the parser
    reads: negation, conjunction and nand. *)
Fixpoint ascii_connectives (s : Sentence) : bool :=
  match s with
  | value _ | letter _ => true
  | negation a => ascii_connectives a
  | conjunction a b | nand a b => ascii_connectives a && ascii_connectives b
  | _ => false
  end.

(** On every input shorter than [n] the parser answers (it does not run
    out of fuel) and, when it succeeds, leaves a rest that is no longer
    than the input — strictly shorter when [strict] is set. *)
Definition runs {A} (strict : bool) (p : P.Parser A) (n : nat) : Prop :=
  forall input, (length input < n)%nat ->
    match p input with
    | P.Success _ rest =>
        if strict then (length rest < length input)%nat
        else (length rest <= length input)%nat
    | P.Failure => True
    | P.NoFuel => False
    end.

(** The characters the parser can consume: ASCII and white space. *)
Definition readable (c : N) : bool := (c <? 128) || is_whitespace c.

(** What a parser consumes when it succeeds is a prefix of readable
    characters. *)
Definition reads {A} (p : P.Parser A) : Prop :=
  forall input v rest,
    p input = P.Success v rest ->
    exists pre, input = pre ++ rest /\ Forall (fun c => readable c = true) pre.

(** The three kinds of brackets, as opening and closing code units. *)
Definition brackets : list (N * N) := [(40, 41); (91, 93); (123, 125)].

(** White space only. *)
Definition white (ws : jsstring) : Prop := Forall (fun c => is_whitespace c = true) ws.

(** The six binary connectives of the input language with the builder
    each rule of [SentenceLang] applies, in the order [Sentence] tries
    them. *)
Definition binary_table : list (jsstring * (Sentence -> Sentence -> Sentence)) :=
  [(js "<->", biconditional); (js "->", conditional); (js "v", disjunction);
   (js "&", conjunction); (js "+", xor); (js "|", nand)].

(** The two levels of the grammar. *)
Inductive Level : Type := OfFactor | OfSentence.

(** The input language, as a grammar: a factor is an upper-case letter, a
    negated factor or a bracketed sentence that is not itself a letter or
    a negation; a sentence is a factor or two factors joined by one
    binary connective.  White space may surround connectives and follow
    an opening or precede a closing bracket. *)
Inductive wff : Level -> jsstring -> Sentence -> Prop :=
| wff_letter c :
    (65 <=? c) && (c <=? 90) = true ->
    wff OfFactor [c] (letter (mkLetter [c] 0))
| wff_negation ws x s :
    white ws -> wff OfFactor x s ->
    wff OfFactor (126 :: ws ++ x) (negation s)
| wff_wrapped o c ws1 x ws2 s :
    (o, c) ∈ brackets -> white ws1 -> white ws2 ->
    wff OfSentence x s -> is_negation_or_letter s = false ->
    wff OfFactor (o :: ws1 ++ x ++ ws2 ++ [c]) s
| wff_factor x s :
    wff OfFactor x s -> wff OfSentence x s
| wff_binary sym build x1 ws1 ws2 x2 s1 s2 :
    (sym, build) ∈ binary_table ->
    wff OfFactor x1 s1 -> white ws1 -> white ws2 -> wff OfFactor x2 s2 ->
    wff OfSentence (x1 ++ ws1 ++ sym ++ ws2 ++ x2) (build s1 s2).

(** A text of [n] operands joined by the connective [sym]: each operand
    is a factor of the grammar (a letter, a negation or a bracketed
    sentence), and white space may surround each occurrence of the
    connective. *)
Inductive chain (sym : jsstring) : nat -> jsstring -> Prop :=
| chain_operand x s :
    wff OfFactor x s -> chain sym 1 x
| chain_link n w ws1 ws2 x s :
    chain sym n w -> white ws1 -> white ws2 -> wff OfFactor x s ->
    chain sym (S n) (w ++ ws1 ++ sym ++ ws2 ++ x).

(** When the parser succeeds, what it consumed and the value it built
    are related by [R]. *)
Definition yields {A} (p : P.Parser A) (R : jsstring -> A -> Prop) : Prop :=
  forall input v rest,
    p input = P.Success v rest -> exists pre, input = pre ++ rest /\ R pre v.

(** A text cut into consecutive pieces, one per value. *)
Fixpoint pieces {A} (R : jsstring -> A -> Prop) (pre : jsstring) (vs : list A) : Prop :=
  match vs with
  | [] => pre = []
  | v :: vs' => exists p1 p2, pre = p1 ++ p2 /\ R p1 v /\ pieces R p2 vs'
  end.

(** What may follow a sentence: optional white space and then the end of
    the input or a closing bracket. *)
Definition closing_after_space (rest : jsstring) : Prop :=
  exists ws r, rest = ws ++ r /\ white ws /\ closing r.

(** A string that does not start with white space. *)
Definition no_space_head (r : jsstring) : Prop :=
  match r with
  | [] => True
  | c :: _ => is_whitespace c = false
  end.

(** The separator of a binary rule for the symbol [t]. *)
Definition separator (t : jsstring) : P.Parser (jsstring * jsstring * jsstring) :=
  P.seq3 P.optWhitespace (alt_strings [t]) P.optWhitespace.

(** What one character adds to the nesting depth counted for the
    bracket pair [o], [c]. *)
Definition bracket_step (o c ch : N) : Z :=
  if bool_decide (ch = o) then 1%Z else if bool_decide (ch = c) then (-1)%Z else 0%Z.

(** The nesting depth reached after the characters [p]. *)
Fixpoint bracket_depth (o c : N) (p : jsstring) : Z :=
  match p with
  | [] => 0%Z
  | ch :: p' => (bracket_step o c ch + bracket_depth o c p')%Z
  end.

(** A text whose brackets [o], [c] are balanced and never close more
    than was opened. *)
Definition dyck (o c : N) (x : jsstring) : Prop :=
  bracket_depth o c x = 0%Z /\ forall k, (0 <= bracket_depth o c (take k x))%Z.

(** No bracket of any kind. *)
Definition bracket_free (p : jsstring) : Prop :=
  Forall (fun ch => ch <> 40 /\ ch <> 41 /\ ch <> 91 /\ ch <> 93 /\ ch <> 123 /\ ch <> 125) p.

(** One of the six binary connectives is the main connective. *)
Definition is_binary (s : Sentence) : bool :=
  match s with
  | letter _ | negation _ | value _ => false
  | _ => true
  end.

(** A string without its space characters. *)
Definition remove_spaces (s : jsstring) : jsstring :=
  List.filter (fun c => negb (c =? 32)) s.

(** The text a token shows in the header row. *)
Definition token_text (t : FormulaToken) : jsstring :=
  match t with
  | text_token text => text
  | value_token text _ _ => text
  end.

(** The header row of a formula, read as one string. *)
Definition header_text (layout : FormulaLayout) : jsstring :=
  concat (token_text <$> tokens layout).

(** The nodes of a sentence in the order its display string writes them:
    a negation before its operand, a binary connective between its
    operands. *)
Fixpoint inorder (s : Sentence) : list Sentence :=
  match s with
  | value _ | letter _ => [s]
  | negation a => s :: inorder a
  | conjunction a b | disjunction a b | conditional a b
  | biconditional a b | xor a b | nand a b => inorder a ++ s :: inorder b
  end.

(** The number of nodes of a sentence. *)
Fixpoint nodes (s : Sentence) : nat :=
  match s with
  | value _ | letter _ => 1
  | negation a => S (nodes a)
  | conjunction a b | disjunction a b | conditional a b
  | biconditional a b | xor a b | nand a b => S (nodes a + nodes b)
  end.

(** No letter id contains a space. *)
Fixpoint spaceless_letters (s : Sentence) : bool :=
  match s with
  | value _ => true
  | letter l => forallb (fun c => negb (c =? 32)) (id l)
  | negation a => spaceless_letters a
  | conjunction a b | disjunction a b | conditional a b
  | biconditional a b | xor a b | nand a b => spaceless_letters a && spaceless_letters b
  end.

(** The letter occurrences of a sentence from left to right. *)
Fixpoint letters_in_order (s : Sentence) : list Letter :=
  match s with
  | value _ => []
  | letter l => [l]
  | negation a => letters_in_order a
  | conjunction a b | disjunction a b | conditional a b
  | biconditional a b | xor a b | nand a b => letters_in_order a ++ letters_in_order b
  end.

(** A list without its repetitions: of equal elements the first one
    stays. *)
Definition first_occurrences (ls : list Letter) : list Letter :=
  reverse (remove_dups (reverse ls)).

(** The number a string of binary digits denotes. *)
Definition bin_value (s : jsstring) : N :=
  fold_left (fun acc c => 2 * acc + (c - 48)) s 0.

(** The classical reading of a row: a letter is true when the row's
    assignment maps its display string to [true]. *)
Definition row_valuation (row : TruthTableRow) (l : Letter) : bool :=
  default false (assignment row !! letter_string l).

(** Every row of the table gives a value to every letter of its
    formulas, as the rows [generate_truth_table] builds do. *)
Definition covered (result : TruthTableResult) : Prop :=
  forall row f l, row ∈ rows result -> f ∈ formulas result -> occurs l f ->
    is_Some (assignment row !! letter_string l).

(** A cell the quiz asks for: a value token that is shown and is not a
    letter. *)
Definition quiz_cell (st : AppState) (token : FormulaToken) : bool :=
  match token with
  | value_token _ subformula isMain =>
      (effectiveShowQuasi st || isMain) && negb (is_letter subformula)
  | text_token _ => false
  end.

(** The truth value the table has in the cell of [token] in [row]. *)
Definition token_value (row : TruthTableRow) (token : FormulaToken) : option bool :=
  match token with
  | value_token _ subformula _ =>
      match evaluate (lookup_row row) subformula with
      | Return v => Some v
      | Throw _ => None
      end
  | text_token _ => None
  end.

(** [token] is the token of the cell in row [r], formula [f], position
    [t] of the table, and [row] is that row. *)
Definition cell_at (result : TruthTableResult) (r f t : nat)
    (row : TruthTableRow) (token : FormulaToken) : Prop :=
  rows result !! r = Some row
  /\ exists formula, formulas result !! f = Some formula
                     /\ tokens (layoutFormula formula) !! t = Some token.

(** The mark a checked answer gets. *)
Definition grade (userAnswer : Answer) (v : bool) : CellStatus :=
  if Bool.eqb (bool_decide (userAnswer = answer_T)) v then correct else incorrect.

(** The answer that is right for a truth value. *)
Definition answer_of (v : bool) : Answer := if v then answer_T else answer_F.

(** What a visit of a cell does to the answer and the status stored
    under the cell's id, given the cell's token and value. *)
Definition check_effect (st : AppState) (token : FormulaToken) (v : bool)
    (old : option Answer * option CellStatus) : option Answer * option CellStatus :=
  if quiz_cell st token then
    match fst old with
    | Some userAnswer => (fst old, Some (grade userAnswer v))
    | None => old
    end
  else old.

Definition reveal_effect (st : AppState) (token : FormulaToken) (v : bool)
    (old : option Answer * option CellStatus) : option Answer * option CellStatus :=
  if quiz_cell st token then (Some (answer_of v), Some correct) else old.

(** The answer and the status stored under a key. *)
Definition mark_at (m : Marks) (key : jsstring) : option Answer * option CellStatus :=
  (answers m !! key, statuses m !! key).

(** The effect of a visit on the cell of [token] in [row]; a text token
    has no value and is left alone. *)
Definition cell_effect
    (effect : FormulaToken -> bool -> option Answer * option CellStatus
              -> option Answer * option CellStatus)
    (row : TruthTableRow) (token : FormulaToken)
    (old : option Answer * option CellStatus) : option Answer * option CellStatus :=
  match token_value row token with
  | Some v => effect token v old
  | None => old
  end.

(** The ids of the quiz cells among the tokens [toks] of formula [f] in
    row [r], the first token having position [t]. *)
Fixpoint quiz_ids_from (st : AppState) (r f : nat) (toks : list FormulaToken) (t : nat)
    : list jsstring :=
  match toks with
  | [] => []
  | token :: toks' =>
      (if quiz_cell st token then [cellId r f t] else [])
      ++ quiz_ids_from st r f toks' (S t)
  end.

(** The ids of the quiz cells of a table, row by row and formula by
    formula. *)
Definition quiz_ids (st : AppState) (result : TruthTableResult) : list jsstring :=
  concat (imap (fun r _ =>
    concat (imap (fun f formula =>
      quiz_ids_from st r f (tokens (layoutFormula formula)) 0)
      (formulas result)))
    (rows result)).

(** How many of the ids satisfy a test. *)
Definition count_ids (test : jsstring -> bool) (ids : list jsstring) : nat :=
  length (List.filter test ids).

Definition is_answered (st : AppState) (id : jsstring) : bool :=
  bool_decide (is_Some (userAnswers st !! id)).

Definition has_status (st : AppState) (status : CellStatus) (id : jsstring) : bool :=
  bool_decide (cellStatuses st !! id = Some status).

(** The statistics after counting the cells [ids] in addition. *)
Definition add_counts (st : AppState) (acc : QuizStats) (ids : list jsstring) : QuizStats :=
  mkQuizStats (total acc + length ids)
    (filled acc + count_ids (is_answered st) ids)
    (correct_count acc + count_ids (has_status st correct) ids)
    (incorrect_count acc + count_ids (has_status st incorrect) ids).

(** What the cell of [token] in row [r], formula [f], position [t]
    shows: a text token an empty cell; in quiz mode every value token
    that is not a letter a dropdown when all the cells it depends on
    have answers in that row, and a locked cell otherwise; every other
    value token the table's value, or nothing when quasi-columns are
    hidden and the token is not the main one. *)
Definition cell_view (st : AppState) (cellDependencies : gmap jsstring (list jsstring))
    (r f t : nat) (row : TruthTableRow) (token : FormulaToken) : CellView :=
  match token with
  | text_token _ => EmptyCell
  | value_token _ subformula isMain =>
      match currentMode st, is_letter subformula with
      | quiz, false =>
          if depsAreFilled st r (default [] (cellDependencies !! cellKey f t))
          then QuizCell (cellId r f t) isMain
          else LockedCell isMain
      | _, _ =>
          ValueCell (if effectiveShowQuasi st || isMain then token_value row token else None)
            isMain
      end
  end.

(** A string without its white-space characters. *)
Definition remove_whitespace (s : jsstring) : jsstring :=
  List.filter (fun c => negb (is_whitespace c)) s.

(** The characters of the input language: upper-case letters, the
    characters of the connectives and the three kinds of brackets. *)
Definition input_character (c : N) : bool :=
  ((65 <=? c) && (c <=? 90))
  || bool_decide (c ∈ [126; 38; 118; 45; 62; 60; 43; 124; 40; 41; 91; 93; 123; 125]).

(** An example: the table of ~(A & B) in quiz mode, before any answer
    is given, and with one right and one wrong answer. *)
Definition quiz_example_result : TruthTableResult :=
  match generate_truth_table compare_units [negation (conjunction A_ B_)] with
  | Return result => result
  | Throw _ => mkResult [] [] []
  end.

Definition quiz_example : AppState :=
  mkAppState [] (Some quiz_example_result) true ∅ quiz ∅ ∅ false false ∅ ∅ false.

Definition quiz_example_answered : AppState :=
  mkAppState [] (Some quiz_example_result) true ∅ quiz
    {[cellId 0 0 3 := answer_T; cellId 1 0 3 := answer_T]} ∅ false false ∅ ∅ false.

(* ===================================================================== *)
(** ** Evaluator *)
(* ===================================================================== *)

Lemma evaluate_total (f : Letter -> bool) (s : Sentence) :
  evaluate (total_assignment f) s = Return (standard_truth_value f s).
Proof.
  induction s as [v|l|a IHa|a IHa b IHb|a IHa b IHb|a IHa b IHb
                 |a IHa b IHb|a IHa b IHb|a IHa b IHb]; simpl;
    rewrite ?IHa, ?IHb; try reflexivity;
    destruct (standard_truth_value f a), (standard_truth_value f b); reflexivity.
Qed.

(** C4. Under every total assignment [evaluate] returns (it never throws)
    the standard truth-table value: a constant is itself, a letter is its
    assigned value, negation negates, conjunction is and, disjunction is
    or, conditional(a,b) is (not a) or b, biconditional is equality, xor
    is inequality and nand is not-and; so conditional(false,false) = true,
    xor(true,true) = false, nand(true,true) = false and
    nand(true,false) = true. *)
Theorem evaluate_matches_truth_tables (f : Letter -> bool) :
  (forall s, evaluate (total_assignment f) s = Return (standard_truth_value f s))
  /\ (forall v, evaluate (total_assignment f) (value v) = Return v)
  /\ (forall l, evaluate (total_assignment f) (letter l) = Return (f l))
  /\ (forall a b va vb,
        evaluate (total_assignment f) a = Return va ->
        evaluate (total_assignment f) b = Return vb ->
        evaluate (total_assignment f) (negation a) = Return (negb va)
        /\ evaluate (total_assignment f) (conjunction a b) = Return (va && vb)
        /\ evaluate (total_assignment f) (disjunction a b) = Return (va || vb)
        /\ evaluate (total_assignment f) (conditional a b) = Return (negb va || vb)
        /\ evaluate (total_assignment f) (biconditional a b) = Return (Bool.eqb va vb)
        /\ evaluate (total_assignment f) (xor a b) = Return (negb (Bool.eqb va vb))
        /\ evaluate (total_assignment f) (nand a b) = Return (negb (va && vb)))
  /\ evaluate (total_assignment f) (conditional (value false) (value false)) = Return true
  /\ evaluate (total_assignment f) (xor (value true) (value true)) = Return false
  /\ evaluate (total_assignment f) (nand (value true) (value true)) = Return false
  /\ evaluate (total_assignment f) (nand (value true) (value false)) = Return true.
Proof.
  split; [apply evaluate_total|].
  repeat split; try reflexivity.
  all: simpl; rewrite ?H, ?H0; destruct va, vb; reflexivity.
Qed.

Lemma evaluate_matches_truth_tables_witness :
  evaluate (total_assignment (fun _ => true)) (nand A_ B_) = Return (negb (true && true)).
Proof.
  apply (evaluate_matches_truth_tables (fun _ => true)); reflexivity.
Defined.

Lemma evaluate_throw_occurs asg s m :
  evaluate asg s = Throw m -> exists l, occurs l s /\ asg l = Throw m.
Proof.
  induction s as [v|l|a IHa|a IHa b IHb|a IHa b IHb|a IHa b IHb
                 |a IHa b IHb|a IHa b IHb|a IHa b IHb]; simpl.
  1: { discriminate. }
  1: { intros H. exists l. split; [reflexivity|exact H]. }
  1: { unfold js_not. destruct (evaluate asg a); simpl; [discriminate|].
       intros H. apply IHa. exact H. }
  all: unfold js_not, js_and, js_or, js_strict_eq, js_strict_ne; intros H;
    destruct (evaluate asg a) as [va|ma]; simpl in H;
    [ destruct (evaluate asg b) as [vb|mb];
      [ destruct va, vb; simpl in H; discriminate H
      | destruct va; simpl in H; try discriminate H;
        injection H as <-; destruct (IHb eq_refl) as (l & Hl & Hm); exists l; auto ]
    | injection H as <-; destruct (IHa eq_refl) as (l & Hl & Hm); exists l; auto ].
Qed.

(** C3 fails as stated: with no letter bound, the conjunction of the
    constant false and the letter B returns false instead of throwing,
    so the claimed "always throws" is refuted. *)
Lemma evaluate_unconditional_refuted :
  ~ (forall (asg : Letter -> Completion bool) (a b : Sentence) (l : Letter) (m : jsstring),
       evaluate asg a = Return false -> occurs l b -> asg l = Throw m ->
       exists m', evaluate asg (conjunction a b) = Throw m').
Proof.
  intros H.
  destruct (H (lookup_in ∅) (value false) B_ (mkLetter (js "B") 0)
              (msg_not_found (js "B"))) as [m' Hm'].
  - reflexivity.
  - reflexivity.
  - reflexivity.
  - discriminate Hm'.
Qed.

(** C3 (amended). [evaluate] runs its operands left to right with the
    short-circuit operators of JavaScript.  When evaluating the right
    operand would throw (then a letter of that operand is unbound, and the
    error is the one the assignment throws for it): conjunction, nand and
    conditional skip it and return when the left operand is false, and
    throw when it is true; disjunction skips it and returns true when the
    left operand is true, and throws when it is false; biconditional and
    xor always evaluate both operands and throw. *)
Theorem evaluate_short_circuit (asg : Letter -> Completion bool) (a b : Sentence)
    (m : jsstring) :
  evaluate asg b = Throw m ->
  (exists l, occurs l b /\ asg l = Throw m)
  /\ (evaluate asg a = Return false ->
        evaluate asg (conjunction a b) = Return false
        /\ evaluate asg (nand a b) = Return true
        /\ evaluate asg (conditional a b) = Return true
        /\ evaluate asg (disjunction a b) = Throw m)
  /\ (evaluate asg a = Return true ->
        evaluate asg (conjunction a b) = Throw m
        /\ evaluate asg (nand a b) = Throw m
        /\ evaluate asg (conditional a b) = Throw m
        /\ evaluate asg (disjunction a b) = Return true)
  /\ (forall va, evaluate asg a = Return va ->
        evaluate asg (biconditional a b) = Throw m
        /\ evaluate asg (xor a b) = Throw m).
Proof.
  intros Hb. split; [apply evaluate_throw_occurs; exact Hb|].
  repeat split; simpl; rewrite ?H, ?Hb; reflexivity.
Qed.

Lemma evaluate_short_circuit_witness :
  evaluate (lookup_in ∅) (conjunction (value false) B_) = Return false.
Proof.
  apply (evaluate_short_circuit (lookup_in ∅) (value false) B_ (msg_not_found (js "B")));
    reflexivity.
Defined.

(* ===================================================================== *)
(** ** Formula layout *)
(* ===================================================================== *)

Lemma main_tokens_app t1 t2 : main_tokens (t1 ++ t2) = main_tokens t1 ++ main_tokens t2.
Proof. unfold main_tokens, value_tokens. rewrite omap_app. apply List.filter_app. Qed.

Lemma main_tokens_layout s : forall isMain isTop toks,
  main_tokens (layout s isMain isTop toks)
  = main_tokens toks ++ (if isMain then [mkValueToken (node_text s) s true] else []).
Proof.
  induction s as [v|l|a IHa|a IHa b IHb|a IHa b IHb|a IHa b IHb
                 |a IHa b IHb|a IHa b IHb|a IHa b IHb]; intros isMain isTop toks;
    cbn [layout]; unfold layout_binary_with, emitValue, emitText, emit;
    destruct isTop; cbn [negb];
    rewrite ?main_tokens_app, ?IHa, ?IHb, ?main_tokens_app, ?IHa,
      ?main_tokens_app; destruct isMain; cbn; rewrite ?app_nil_r; reflexivity.
Qed.

Lemma layout_main_tokens s :
  main_tokens (tokens (layoutFormula s)) = [mkValueToken (node_text s) s true].
Proof. unfold layoutFormula. cbn [tokens]. rewrite main_tokens_layout. reflexivity. Qed.

Lemma Array_map_Return {A B} (f : A -> Completion B) xs ys :
  Array_map f xs = Return ys -> Forall2 (fun x y => f x = Return y) xs ys.
Proof.
  revert ys. induction xs as [|x xs IH]; intros ys; simpl.
  - intros [= <-]. constructor.
  - destruct (f x) as [y|] eqn:Hy; simpl; [|discriminate].
    destruct (Array_map f xs) as [ys'|]; simpl; [|discriminate].
    intros [= <-]. constructor; [exact Hy|apply IH; reflexivity].
Qed.

Lemma Array_map_total {A B} (f : A -> Completion B) (g : A -> B) xs :
  (forall x, f x = Return (g x)) -> Array_map f xs = Return (List.map g xs).
Proof.
  intros H. induction xs as [|x xs IH]; simpl; [reflexivity|].
  rewrite H, IH. reflexivity.
Qed.

Lemma evaluateLayout_Return lay asg evs :
  evaluateLayout lay asg = Return evs ->
  Forall2 (evaluates_to asg) (value_tokens (tokens lay)) evs.
Proof.
  intros H. apply Array_map_Return in H.
  eapply Forall2_impl; [exact H|].
  intros t e He. cbn beta in He.
  destruct (evaluate asg (vt_subformula t)) as [v|] eqn:Hv; simpl in He; [|discriminate].
  injection He as <-. repeat split; try reflexivity. exact Hv.
Qed.

Lemma evaluates_to_filter asg ts evs :
  Forall2 (evaluates_to asg) ts evs ->
  Forall2 (evaluates_to asg) (List.filter vt_isMain ts) (List.filter ev_isMain evs).
Proof.
  induction 1 as [|t e ts evs Hte _ IH]; simpl; [constructor|].
  destruct Hte as (Ht & Hm & Hv). rewrite Hm.
  destruct (vt_isMain t) eqn:E; [constructor; [repeat split; congruence|exact IH]|exact IH].
Qed.



(* ===================================================================== *)
(** ** Quiz dependencies *)
(* ===================================================================== *)

Lemma getSubformulaDependencies_operands s :
  getSubformulaDependencies s = List.filter (fun d => negb (is_atomic d)) (operands s).
Proof.
  destruct s as [v|l|a|a b|a b|a b|a b|a b|a b]; simpl; try reflexivity;
    try (destruct a; simpl; try reflexivity; destruct b; reflexivity).
Qed.


(* ===================================================================== *)
(** ** Decimal rendering *)
(* ===================================================================== *)

Lemma uint_units_prefix d1 : forall d2 r1 r2,
  no_digit_head r1 -> no_digit_head r2 ->
  uint_units d1 ++ r1 = uint_units d2 ++ r2 -> d1 = d2 /\ r1 = r2.
Proof.
  induction d1 as [|d1 IH|d1 IH|d1 IH|d1 IH|d1 IH|d1 IH|d1 IH|d1 IH|d1 IH|d1 IH];
    intros d2 r1 r2 H1 H2 H; destruct d2; simpl in H;
    try (injection H as Hc H; discriminate Hc);
    try (injection H as H;
         destruct (IH _ _ _ H1 H2 H) as [-> ->]; split; reflexivity).
  all: try (split; [reflexivity|exact H]).
  all: try (subst r1; simpl in H1; discriminate H1).
  all: try (subst r2; simpl in H2; discriminate H2).
Qed.

Lemma Number_toString_prefix n1 n2 r1 r2 :
  no_digit_head r1 -> no_digit_head r2 ->
  Number_toString n1 ++ r1 = Number_toString n2 ++ r2 -> n1 = n2 /\ r1 = r2.
Proof.
  intros H1 H2 H. unfold Number_toString in H.
  destruct (uint_units_prefix _ _ _ _ H1 H2 H) as [Hd Hr].
  split; [apply DecimalN.Unsigned.to_uint_inj; exact Hd|exact Hr].
Qed.

Lemma Number_toString_inj n1 n2 : Number_toString n1 = Number_toString n2 -> n1 = n2.
Proof.
  intros H. apply (Number_toString_prefix n1 n2 [] []); [exact I|exact I|].
  rewrite !app_nil_r. exact H.
Qed.

Lemma uint_units_head d : d <> Decimal.Nil ->
  exists c r, uint_units d = c :: r /\ is_digit c = true.
Proof. destruct d; intros H; try congruence; simpl; eauto. Qed.

Lemma Number_toString_head n :
  exists c r, Number_toString n = c :: r /\ is_digit c = true.
Proof.
  unfold Number_toString. apply uint_units_head.
  destruct n as [|p]; simpl; [discriminate|].
  apply DecimalPos.Unsigned.to_uint_nonnil.
Qed.

Lemma cellKey_inj a b a' b' : cellKey a b = cellKey a' b' -> a = a' /\ b = b'.
Proof.
  unfold cellKey. intros H.
  apply Number_toString_prefix in H; [|reflexivity|reflexivity].
  destruct H as [Ha H]. injection H as H.
  apply Number_toString_inj in H. lia.
Qed.

(* ===================================================================== *)
(** ** The batch-wide map from compact key to cell *)
(* ===================================================================== *)

Lemma last_index_Some key toks j :
  last_index key toks = Some j ->
  (exists t, toks !! j = Some t /\ key_of t = Some key)
  /\ (forall j' t', toks !! j' = Some t' -> key_of t' = Some key -> (j' <= j)%nat).
Proof.
  revert j. induction toks as [|t ts IH]; intros j; simpl; [discriminate|].
  destruct (last_index key ts) as [k|] eqn:Hk.
  - intros [= <-]. destruct (IH k eq_refl) as [(t0 & Ht0 & Hkey) Hmax]. split.
    + exists t0. split; assumption.
    + intros [|j'] t' Hj' Hk'; [lia|]. simpl in Hj'. specialize (Hmax _ _ Hj' Hk'). lia.
  - destruct (decide (key_of t = Some key)) as [Ht|Ht]; [|discriminate].
    intros [= <-]. split; [exists t; split; [reflexivity|exact Ht]|].
    intros [|j'] t' Hj' Hk'; [lia|]. simpl in Hj'.
    exfalso. clear IH. revert j' Hj'. induction ts as [|u us IHu]; intros j' Hj'.
    + destruct j'; discriminate.
    + simpl in Hk. destruct (last_index key us) eqn:Hus; [discriminate|].
      destruct (decide (key_of u = Some key)) as [Hu|Hu]; [discriminate|].
      destruct j' as [|j']; simpl in Hj'; [congruence|].
      eapply IHu; [reflexivity|exact Hj'].
Qed.

Lemma last_index_None key toks :
  last_index key toks = None ->
  forall j t, toks !! j = Some t -> key_of t <> Some key.
Proof.
  induction toks as [|u us IH]; intros H j t Hj; [destruct j; discriminate|].
  simpl in H. destruct (last_index key us) eqn:Hus; [discriminate|].
  destruct (decide (key_of u = Some key)) as [Hu|Hu]; [discriminate|].
  destruct j as [|j]; simpl in Hj; [congruence|].
  eapply IH; [reflexivity|exact Hj].
Qed.

Lemma last_cell_Some key layouts a j :
  last_cell key layouts = Some (a, j) ->
  last_occurrence layouts key (mkCell a j).
Proof.
  revert a j. induction layouts as [|l ls IH]; intros a j; simpl; [discriminate|].
  destruct (last_cell key ls) as [[a' j']|] eqn:Hls.
  - intros [= <- <-]. destruct (IH _ _ eq_refl) as [(lay & t & Hl & Ht & Hk) Hmax].
    split.
    + exists lay, t. simpl in *. auto.
    + intros [ca cj] (lay' & t' & Hl' & Ht' & Hk'). simpl in *.
      destruct ca as [|ca]; [left; simpl; lia|].
      destruct (Hmax (mkCell ca cj)) as [Hlt|[Heq Hle]].
      * exists lay', t'. auto.
      * left. simpl in *. lia.
      * right. simpl in *. lia.
  - destruct (last_index key (tokens l)) as [k|] eqn:Hk; simpl; [|discriminate].
    intros [= <- <-]. destruct (last_index_Some _ _ _ Hk) as [(t & Ht & Hkey) Hmax].
    split.
    + exists l, t. simpl. auto.
    + intros [ca cj] (lay' & t' & Hl' & Ht' & Hk'). simpl in *.
      destruct ca as [|ca].
      * right. simpl. injection Hl' as <-. split; [reflexivity|]. eapply Hmax; eassumption.
      * exfalso. clear IH Hk Hmax Ht. revert ca Hl'.
        induction ls as [|m ms IHm]; intros ca Hl'; [destruct ca; discriminate|].
        simpl in Hls. destruct (last_cell key ms) as [[? ?]|] eqn:Hms; [discriminate|].
        destruct (last_index key (tokens m)) eqn:Hm; [discriminate|].
        destruct ca as [|ca]; simpl in Hl'.
        -- injection Hl' as ->. eapply last_index_None; eassumption.
        -- eapply IHm; [reflexivity|exact Hl'].
Qed.

Lemma last_cell_None key layouts :
  last_cell key layouts = None -> forall c, ~ occurrence layouts key c.
Proof.
  induction layouts as [|m ms IH]; intros H [ca cj] (lay & t & Hl & Ht & Hk);
    simpl in *; [destruct ca; discriminate|].
  destruct (last_cell key ms) as [[? ?]|] eqn:Hms; [discriminate|].
  destruct (last_index key (tokens m)) eqn:Hm; [discriminate|].
  destruct ca as [|ca]; simpl in Hl.
  - injection Hl as ->. eapply last_index_None; eassumption.
  - apply (IH eq_refl (mkCell ca cj)). exists lay, t. auto.
Qed.

Lemma cell_le_antisym c1 c2 : cell_le c1 c2 -> cell_le c2 c1 -> c1 = c2.
Proof.
  destruct c1, c2. unfold cell_le. simpl. intros [?|[? ?]] [?|[? ?]]; try lia.
  f_equal; lia.
Qed.

Lemma last_occurrence_unique layouts key c1 c2 :
  last_occurrence layouts key c1 -> last_occurrence layouts key c2 -> c1 = c2.
Proof.
  intros [H1 M1] [H2 M2]. apply cell_le_antisym; auto.
Qed.

Lemma enter_tokens_lookup fi key toks : forall i0 m,
  forEach_from (enter_token fi) toks i0 m !! key
  = match last_index key toks with
    | Some j => Some (mkCell fi (i0 + j))
    | None => m !! key
    end.
Proof.
  induction toks as [|t ts IH]; intros i0 m; simpl; [reflexivity|].
  rewrite IH. destruct (last_index key ts) as [j|].
  - do 2 f_equal. lia.
  - unfold enter_token, key_of.
    destruct (quiz_subformula t) as [sub|]; simpl.
    + destruct (decide (Some (sentence_to_string_compact sub) = Some key)) as [[= E]|E].
      * rewrite E, lookup_insert_eq. do 2 f_equal. lia.
      * rewrite lookup_insert_ne; [reflexivity|congruence].
    + destruct (decide (None = Some key)); [discriminate|reflexivity].
Qed.

Lemma enter_layouts_lookup key layouts : forall f0 m,
  forEach_from (fun m layout formulaIdx =>
                  forEach (enter_token formulaIdx) (tokens layout) m) layouts f0 m !! key
  = match last_cell key layouts with
    | Some (a, j) => Some (mkCell (f0 + a) j)
    | None => m !! key
    end.
Proof.
  induction layouts as [|l ls IH]; intros f0 m; simpl; [reflexivity|].
  rewrite IH. destruct (last_cell key ls) as [[a j]|].
  - do 2 f_equal. lia.
  - unfold forEach. rewrite enter_tokens_lookup.
    destruct (last_index key (tokens l)) as [j|]; simpl; [|reflexivity].
    do 2 f_equal. lia.
Qed.

Lemma subformulaToCell_lookup layouts key :
  subformulaToCell layouts !! key
  = (fun '(a, j) => mkCell a j) <$> last_cell key layouts.
Proof.
  unfold subformulaToCell, forEach.
  change (forEach_from _ layouts 0%nat ∅) with
    (forEach_from (fun m layout formulaIdx =>
                     forEach (enter_token formulaIdx) (tokens layout) m) layouts 0%nat ∅).
  rewrite enter_layouts_lookup.
  destruct (last_cell key layouts) as [[a j]|]; simpl; [reflexivity|apply lookup_empty].
Qed.

Lemma subformulaToCell_last layouts key cell :
  subformulaToCell layouts !! key = Some cell <-> last_occurrence layouts key cell.
Proof.
  rewrite subformulaToCell_lookup. split.
  - destruct (last_cell key layouts) as [[a j]|] eqn:H; simpl; [|discriminate].
    intros [= <-]. apply last_cell_Some. exact H.
  - intros Hlast. destruct (last_cell key layouts) as [[a j]|] eqn:H; simpl.
    + f_equal. eapply last_occurrence_unique; [|exact Hlast].
      apply last_cell_Some. exact H.
    + exfalso. destruct Hlast as [Hocc _]. eapply last_cell_None; eassumption.
Qed.

Lemma enter_deps_other stc f0 fi ti toks : forall i0 m,
  fi <> f0 \/ (ti < i0)%nat ->
  forEach_from (enter_deps stc f0) toks i0 m !! cellKey fi ti = m !! cellKey fi ti.
Proof.
  induction toks as [|t ts IH]; intros i0 m H; simpl; [reflexivity|].
  rewrite IH by lia. unfold enter_deps.
  destruct (quiz_subformula t); [|reflexivity].
  apply lookup_insert_ne. intros E. apply cellKey_inj in E. lia.
Qed.

Lemma enter_deps_hit stc f0 toks : forall i0 m j t sub,
  toks !! j = Some t -> quiz_subformula t = Some sub ->
  forEach_from (enter_deps stc f0) toks i0 m !! cellKey f0 (i0 + j)
  = Some (depCellKeys stc (getSubformulaDependencies sub)).
Proof.
  induction toks as [|u us IH]; intros i0 m j t sub Hj Hq; [destruct j; discriminate|].
  destruct j as [|j]; simpl in *.
  - injection Hj as ->. rewrite enter_deps_other by lia.
    unfold enter_deps. rewrite Hq, Nat.add_0_r. apply lookup_insert_eq.
  - replace (i0 + S j)%nat with (S i0 + j)%nat by lia. eapply IH; eassumption.
Qed.

Lemma enter_deps_layouts_other stc fi ti layouts : forall f0 m,
  (fi < f0)%nat ->
  forEach_from (fun m layout formulaIdx =>
                  forEach (enter_deps stc formulaIdx) (tokens layout) m) layouts f0 m
    !! cellKey fi ti
  = m !! cellKey fi ti.
Proof.
  induction layouts as [|l ls IH]; intros f0 m H; simpl; [reflexivity|].
  rewrite IH by lia. unfold forEach. apply enter_deps_other. lia.
Qed.

Lemma enter_deps_layouts_hit stc layouts : forall f0 m a l ti t sub,
  layouts !! a = Some l -> tokens l !! ti = Some t -> quiz_subformula t = Some sub ->
  forEach_from (fun m layout formulaIdx =>
                  forEach (enter_deps stc formulaIdx) (tokens layout) m) layouts f0 m
    !! cellKey (f0 + a) ti
  = Some (depCellKeys stc (getSubformulaDependencies sub)).
Proof.
  induction layouts as [|k ks IH]; intros f0 m a l ti t sub Ha Ht Hq;
    [destruct a; discriminate|].
  destruct a as [|a]; simpl in *.
  - injection Ha as ->. rewrite enter_deps_layouts_other by lia.
    rewrite Nat.add_0_r. unfold forEach.
    apply (enter_deps_hit stc f0 (tokens l) 0%nat m ti t sub); assumption.
  - replace (f0 + S a)%nat with (S f0 + a)%nat by lia. eapply IH; eassumption.
Qed.

Lemma cellDependencies_lookup layouts fi ti l t sub :
  layouts !! fi = Some l -> tokens l !! ti = Some t -> quiz_subformula t = Some sub ->
  cellDependencies layouts !! cellKey fi ti
  = Some (depCellKeys (subformulaToCell layouts) (getSubformulaDependencies sub)).
Proof.
  intros Hl Ht Hq. unfold cellDependencies, forEach.
  apply (enter_deps_layouts_hit (subformulaToCell layouts) layouts 0%nat ∅ fi l ti t sub);
    assumption.
Qed.

Lemma depCellKeys_omap stc deps :
  depCellKeys stc deps
  = omap (fun dep => (fun c => cellKey (formulaIdx c) (tokenIdx c))
                       <$> stc !! sentence_to_string_compact dep) deps.
Proof.
  unfold depCellKeys.
  enough (forall acc,
    fold_left (fun depCellKeys dep =>
      match stc !! sentence_to_string_compact dep with
      | Some depCell => depCellKeys ++ [cellKey (formulaIdx depCell) (tokenIdx depCell)]
      | None => depCellKeys
      end) deps acc
    = acc ++ omap (fun dep => (fun c => cellKey (formulaIdx c) (tokenIdx c))
                       <$> stc !! sentence_to_string_compact dep) deps) as H
    by apply (H []).
  induction deps as [|d ds IH]; intros acc; simpl; [symmetry; apply app_nil_r|].
  rewrite IH. destruct (stc !! sentence_to_string_compact d); simpl; [|reflexivity].
  rewrite <- app_assoc. reflexivity.
Qed.

Lemma subformula_of_refl s : subformula_of s s.
Proof. destruct s; left; reflexivity. Qed.

Lemma subformula_of_trans d s u : subformula_of d s -> subformula_of s u -> subformula_of d u.
Proof.
  intros Hds. induction u as [v|l|a IHa|a IHa b IHb|a IHa b IHb|a IHa b IHb
                 |a IHa b IHb|a IHa b IHb|a IHa b IHb]; simpl;
    intros [->|H]; try exact Hds; try contradiction; right; tauto.
Qed.

Lemma layout_app s : forall isMain isTop toks1 toks2,
  layout s isMain isTop (toks1 ++ toks2) = toks1 ++ layout s isMain isTop toks2.
Proof.
  induction s as [v|l|a IHa|a IHa b IHb|a IHa b IHb|a IHa b IHb
                 |a IHa b IHb|a IHa b IHb|a IHa b IHb]; intros isMain isTop toks1 toks2;
    cbn [layout]; unfold layout_binary_with, emitValue, emitText, emit;
    destruct isTop; cbn [negb];
    repeat (progress (rewrite <- ?app_assoc; rewrite ?IHa; rewrite ?IHb));
    reflexivity.
Qed.

Lemma layout_nil s isMain isTop toks :
  layout s isMain isTop toks = toks ++ layout s isMain isTop [].
Proof. rewrite <- (app_nil_r toks) at 1. apply layout_app. Qed.

Lemma layout_unfold s isMain isTop :
  layout s isMain isTop []
  = match s with
    | value _ | letter _ => [value_token (node_text s) s isMain]
    | negation a => value_token (node_text s) s isMain :: layout a false false []
    | conjunction a b | disjunction a b | conditional a b
    | biconditional a b | xor a b | nand a b =>
        (if isTop then [] else [text_token (js "(")])
        ++ layout a false false []
        ++ [value_token (node_text s) s isMain]
        ++ layout b false false []
        ++ (if isTop then [] else [text_token (js ")")])
    end.
Proof.
  destruct s as [v|l|a|a b|a b|a b|a b|a b|a b];
    cbn [layout]; unfold layout_binary_with, emitValue, emitText, emit;
    try reflexivity.
  { rewrite (layout_nil a _ _ (_ ++ _)). reflexivity. }
  all: destruct isTop; cbn [negb app];
    rewrite (layout_nil b _ _ (_ ++ _)); 
    try rewrite (layout_nil a _ _ [_]); cbn [app];
    rewrite <- ?app_assoc, ?app_nil_r; cbn [app node_text]; reflexivity.
Qed.

Lemma paren_not_value (isTop : bool) (c : jsstring) tx d mn :
  value_token tx d mn ∈ (if isTop then [] else [text_token c]) -> False.
Proof.
  destruct isTop; intros H; [inversion H|].
  apply list_elem_of_singleton in H. discriminate H.
Qed.

Lemma layout_token_subformula s : forall isMain isTop tx d mn,
  value_token tx d mn ∈ layout s isMain isTop [] -> subformula_of d s.
Proof.
  induction s as [v|l|a IHa|a IHa b IHb|a IHa b IHb|a IHa b IHb
                 |a IHa b IHb|a IHa b IHb|a IHa b IHb]; intros isMain isTop tx d mn H;
    rewrite layout_unfold in H; cbn [subformula_of].
  1-2: apply list_elem_of_singleton in H; injection H as _ -> _; left; reflexivity.
  1: { apply elem_of_cons in H. destruct H as [H|H].
       - injection H as _ -> _. left. reflexivity.
       - right. eapply IHa. exact H. }
  all: rewrite !elem_of_app in H; destruct H as [H|[H|[H|[H|H]]]];
    [ exfalso; eapply paren_not_value; exact H
    | right; left; eapply IHa; exact H
    | apply list_elem_of_singleton in H; injection H as _ -> _; left; reflexivity
    | right; right; eapply IHb; exact H
    | exfalso; eapply paren_not_value; exact H ].
Qed.

Lemma subformula_has_token s : forall isMain isTop d,
  subformula_of d s -> exists tx mn, value_token tx d mn ∈ layout s isMain isTop [].
Proof.
  induction s as [v|l|a IHa|a IHa b IHb|a IHa b IHb|a IHa b IHb
                 |a IHa b IHb|a IHa b IHb|a IHa b IHb]; intros isMain isTop d H;
    rewrite layout_unfold; simpl in H.
  1-2: destruct H as [->|[]]; eexists _, _; apply list_elem_of_singleton; reflexivity.
  1: { destruct H as [->|H]; [eexists _, _; apply list_elem_of_here|].
       destruct (IHa false false d H) as (tx & mn & Hin). exists tx, mn.
       apply list_elem_of_further. exact Hin. }
  all: destruct H as [->|[H|H]];
    [ eexists _, _; rewrite !elem_of_app; right; right; left;
      apply list_elem_of_singleton; reflexivity
    | destruct (IHa false false d H) as (tx & mn & Hin); exists tx, mn;
      rewrite !elem_of_app; auto
    | destruct (IHb false false d H) as (tx & mn & Hin); exists tx, mn;
      rewrite !elem_of_app; auto ].
Qed.

Lemma operand_subformula d s : d ∈ operands s -> subformula_of d s.
Proof.
  destruct s; simpl; intros H; set_unfold in H; right;
    try contradiction; destruct_or?; subst; auto using subformula_of_refl.
Qed.

Lemma quiz_subformula_Some t sub :
  quiz_subformula t = Some sub ->
  exists tx mn, t = value_token tx sub mn /\ is_atomic sub = false.
Proof.
  destruct t as [tx|tx s mn]; simpl; [discriminate|].
  destruct s; intros [= <-]; eauto.
Qed.

Lemma quiz_subformula_value tx d mn :
  is_atomic d = false -> quiz_subformula (value_token tx d mn) = Some d.
Proof. destruct d; simpl; intros H; try discriminate H; reflexivity. Qed.

(** Every direct dependency of a quiz token has a cell of its own in the
    same formula, so its key is always found in the map. *)
Lemma dependency_found formulas fi ti f token sub dep :
  formulas !! fi = Some f ->
  tokens (layoutFormula f) !! ti = Some token ->
  quiz_subformula token = Some sub ->
  dep ∈ getSubformulaDependencies sub ->
  exists cell, subformulaToCell (layouts_of formulas) !! sentence_to_string_compact dep
               = Some cell.
Proof.
  intros Hf Ht Hq Hdep.
  destruct (quiz_subformula_Some _ _ Hq) as (tx & mn & -> & _).
  rewrite getSubformulaDependencies_operands in Hdep.
  apply list_elem_of_In, List.filter_In in Hdep. destruct Hdep as [Hop Hna].
  apply negb_true_iff in Hna. apply list_elem_of_In in Hop.
  assert (Hsub : subformula_of dep f).
  { eapply subformula_of_trans; [apply operand_subformula; exact Hop|].
    eapply layout_token_subformula. eapply list_elem_of_lookup_2. exact Ht. }
  destruct (subformula_has_token f true true dep Hsub) as (tx' & mn' & Hin).
  apply list_elem_of_lookup in Hin. destruct Hin as [j Hj].
  rewrite subformulaToCell_lookup.
  destruct (last_cell (sentence_to_string_compact dep) (layouts_of formulas))
    as [[a k]|] eqn:Hlast; simpl; [eauto|].
  exfalso. apply (last_cell_None _ _ Hlast (mkCell fi j)).
  exists (layoutFormula f), (value_token tx' dep mn'). simpl. split; [|split].
  - unfold layouts_of. rewrite list_lookup_fmap, Hf. reflexivity.
  - exact Hj.
  - unfold key_of. rewrite quiz_subformula_value by exact Hna. reflexivity.
Qed.

(** C10. One map, keyed by the compact rendering, serves the whole
    batch, and a later entry overwrites an earlier one: the map sends a
    key to a cell exactly when that cell is the last one, in visiting
    order (formula index, then token index), whose non-atomic value token
    renders to the key.  Every direct dependency of a non-atomic value
    token is found in the map, so the dependency list of its cell names,
    in order, the last occurrence of each dependency — which may lie in
    another formula: in the batch "~(A & B)", "(A & B) v C" the negation
    (cell 0-0) depends on cell 1-2 and not on its own operand's cell 0-3;
    in "(A & B) v (A & B)" both dependencies of the disjunction are the
    second conjunction, cell 0-8. *)
Theorem dependencies_resolve_to_last_occurrence
    (formulas : list Sentence) (fi ti : nat) (f : Sentence) (token : FormulaToken)
    (sub : Sentence) :
  formulas !! fi = Some f ->
  tokens (layoutFormula f) !! ti = Some token ->
  quiz_subformula token = Some sub ->
  (forall key cell,
      subformulaToCell (layouts_of formulas) !! key = Some cell
      <-> last_occurrence (layouts_of formulas) key cell)
  /\ Forall2
       (fun dep depCellKey =>
          exists cell,
            last_occurrence (layouts_of formulas) (sentence_to_string_compact dep) cell
            /\ depCellKey = cellKey (formulaIdx cell) (tokenIdx cell))
       (getSubformulaDependencies sub)
       (deps_of_cell formulas fi ti)
  /\ deps_of_cell [negation (conjunction A_ B_); disjunction (conjunction A_ B_) C_] 0 0
     = [js "1-2"]
  /\ tokens (layoutFormula (negation (conjunction A_ B_))) !! 3%nat
     = Some (value_token (js "&") (conjunction A_ B_) false)
  /\ deps_of_cell [disjunction (conjunction A_ B_) (conjunction A_ B_)] 0 5
     = [js "0-8"; js "0-8"].
Proof.
  intros Hf Ht Hq.
  split; [intros key cell; apply subformulaToCell_last|].
  split; [|repeat split; vm_compute; reflexivity].
  unfold deps_of_cell.
  erewrite cellDependencies_lookup;
    [|unfold layouts_of; rewrite list_lookup_fmap, Hf; reflexivity|exact Ht|exact Hq].
  simpl. rewrite depCellKeys_omap.
  assert (Hall : forall dep, dep ∈ getSubformulaDependencies sub ->
            exists cell, subformulaToCell (layouts_of formulas)
                           !! sentence_to_string_compact dep = Some cell)
    by (intros dep Hdep; eapply dependency_found; eassumption).
  induction (getSubformulaDependencies sub) as [|d ds IH]; simpl; [constructor|].
  destruct (Hall d) as [cell Hcell]; [apply list_elem_of_here|].
  rewrite Hcell. simpl. constructor.
  - exists cell. split; [apply subformulaToCell_last; exact Hcell|reflexivity].
  - apply IH. intros dep Hdep. apply Hall. apply list_elem_of_further. exact Hdep.
Qed.

Lemma dependencies_resolve_to_last_occurrence_witness :
  Forall2
    (fun dep depCellKey =>
       exists cell,
         last_occurrence
           (layouts_of [negation (conjunction A_ B_); disjunction (conjunction A_ B_) C_])
           (sentence_to_string_compact dep) cell
         /\ depCellKey = cellKey (formulaIdx cell) (tokenIdx cell))
    (getSubformulaDependencies (negation (conjunction A_ B_)))
    (deps_of_cell [negation (conjunction A_ B_); disjunction (conjunction A_ B_) C_] 0 0).
Proof.
  apply (dependencies_resolve_to_last_occurrence
           [negation (conjunction A_ B_); disjunction (conjunction A_ B_) C_] 0 0
           (negation (conjunction A_ B_))
           (value_token (js "~") (negation (conjunction A_ B_)) true)
           (negation (conjunction A_ B_))); reflexivity.
Defined.

(* ===================================================================== *)
(** ** Compact rendering: unique readability *)
(* ===================================================================== *)

Lemma compact_nested_shape s :
  sentence_to_string_compact_at s false = render_nested (to_shape s).
Proof.
  induction s as [v|l|a IHa|a IHa b IHb|a IHa b IHb|a IHa b IHb
                 |a IHa b IHb|a IHa b IHb|a IHa b IHb];
    cbn [sentence_to_string_compact_at to_shape render_nested];
    unfold wrap_compact_with; rewrite ?IHa, ?IHb; try reflexivity.
  all: change (js "(") with [40]; change (js ")") with [41];
    cbn [app]; rewrite <- ?app_assoc; reflexivity.
Qed.

Lemma compact_top_shape s :
  sentence_to_string_compact s = render_top (to_shape s).
Proof.
  unfold sentence_to_string_compact.
  destruct s; cbn [sentence_to_string_compact_at to_shape render_top render_nested];
    unfold wrap_compact_with; rewrite ?compact_nested_shape; reflexivity.
Qed.

Lemma digits_run ds1 : forall ds2 r1 r2,
  Forall (fun d => is_digit d = true) ds1 ->
  Forall (fun d => is_digit d = true) ds2 ->
  no_digit_head r1 -> no_digit_head r2 ->
  ds1 ++ r1 = ds2 ++ r2 -> ds1 = ds2 /\ r1 = r2.
Proof.
  induction ds1 as [|d ds1 IH]; intros [|e ds2] r1 r2 F1 F2 N1 N2 H; simpl in H.
  - auto.
  - subst r1. inversion F2; subst. simpl in N1. congruence.
  - subst r2. inversion F1; subst. simpl in N2. congruence.
  - injection H as -> H. inversion F1; inversion F2; subst.
    destruct (IH _ _ _ H3 H7 N1 N2 H) as [-> ->]. auto.
Qed.

Lemma render_nested_prefix t1 : forall t2 r1 r2,
  shape_ok t1 -> shape_ok t2 -> no_digit_head r1 -> no_digit_head r2 ->
  render_nested t1 ++ r1 = render_nested t2 ++ r2 -> t1 = t2 /\ r1 = r2.
Proof.
  induction t1 as [a1|t1 IH|op1 l1 IHl r1' IHr]; intros [a2|t2|op2 l2 r2'] r1 r2 O1 O2 N1 N2 H;
    simpl in *.
  - destruct O1 as (c1 & ds1 & -> & Hc1 & F1). destruct O2 as (c2 & ds2 & -> & Hc2 & F2).
    simpl in H. injection H as -> H.
    destruct (digits_run _ _ _ _ F1 F2 N1 N2 H) as [-> ->]. auto.
  - destruct O1 as (c1 & ds1 & -> & Hc1 & F1). simpl in H. injection H as -> H.
    discriminate Hc1.
  - destruct O1 as (c1 & ds1 & -> & Hc1 & F1). simpl in H. injection H as -> H.
    discriminate Hc1.
  - destruct O2 as (c2 & ds2 & -> & Hc2 & F2). simpl in H. injection H as <- H.
    discriminate Hc2.
  - injection H as H. destruct (IH _ _ _ O1 O2 N1 N2 H) as [-> ->]. auto.
  - discriminate H.
  - destruct O2 as (c2 & ds2 & -> & Hc2 & F2). simpl in H. injection H as <- H.
    discriminate Hc2.
  - discriminate H.
  - injection H as H. rewrite <- !app_assoc in H. simpl in H.
    rewrite <- !app_assoc in H. simpl in H.
    destruct O1 as (D1 & Ol1 & Or1). destruct O2 as (D2 & Ol2 & Or2).
    destruct (IHl l2 (op1 :: render_nested r1' ++ 41 :: r1)
                (op2 :: render_nested r2' ++ 41 :: r2) Ol1 Ol2 D1 D2 H) as [-> H'].
    injection H' as -> H'.
    destruct (IHr _ (41 :: r1) (41 :: r2) Or1 Or2 eq_refl eq_refl H') as [-> H''].
    injection H'' as ->. auto.
Qed.

Lemma render_top_inj t1 t2 :
  shape_ok t1 -> shape_ok t2 -> render_top t1 = render_top t2 -> t1 = t2.
Proof.
  intros O1 O2 H.
  assert (Hnb : forall t u, shape_ok t -> shape_ok u ->
            (forall op l r, t <> Bin op l r) -> (forall op l r, u <> Bin op l r) ->
            render_top t = render_top u -> t = u).
  { intros t u Ot Ou Ht Hu E.
    assert (render_top t = render_nested t) as Et by (destruct t; try reflexivity; congruence).
    assert (render_top u = render_nested u) as Eu by (destruct u; try reflexivity; congruence).
    rewrite Et, Eu in E.
    apply (render_nested_prefix t u [] []); auto; try exact I.
    rewrite !app_nil_r. exact E. }
  assert (Hmix : forall op l r u, shape_ok (Bin op l r) -> shape_ok u ->
            (forall op' l' r', u <> Bin op' l' r') ->
            render_top (Bin op l r) <> render_top u).
  { intros op l r u (D & Ol & Or) Ou Hu E.
    assert (render_top u = render_nested u) as Eu by (destruct u; try reflexivity; congruence).
    rewrite Eu in E. simpl in E.
    destruct (render_nested_prefix l u (op :: render_nested r) [] Ol Ou D I) as [_ Hr].
    - rewrite app_nil_r. exact E.
    - discriminate Hr. }
  destruct t1 as [a1|t1|op1 l1 r1]; destruct t2 as [a2|t2|op2 l2 r2];
    try (apply Hnb; auto; discriminate);
    try (exfalso; eapply Hmix; [| |  |exact H]; auto; discriminate);
    try (exfalso; eapply Hmix; [| |  |symmetry; exact H]; auto; discriminate).
  simpl in H. destruct O1 as (D1 & Ol1 & Or1). destruct O2 as (D2 & Ol2 & Or2).
  destruct (render_nested_prefix l1 l2 (op1 :: render_nested r1) (op2 :: render_nested r2)
              Ol1 Ol2 D1 D2 H) as [-> H'].
  injection H' as -> H'.
  destruct (render_nested_prefix r1 r2 [] [] Or1 Or2 I I) as [-> _]; [|reflexivity].
  rewrite !app_nil_r. exact H'.
Qed.

Lemma uint_units_digits d : Forall (fun c => is_digit c = true) (uint_units d).
Proof. induction d; simpl; constructor; auto. Qed.

Lemma valid_letter_inv l :
  valid_letter l = true ->
  exists c, id l = [c] /\ (65 <=? c) && (c <=? 90) = true /\ (0 <= index l)%Z.
Proof.
  unfold valid_letter. destruct (id l) as [|c [|? ?]]; simpl; try discriminate.
  intros H. apply andb_true_iff in H. destruct H as [H _].
  apply andb_true_iff in H. destruct H as [Hc Hi].
  exists c. split; [reflexivity|]. split; [exact Hc|]. apply Z.leb_le. exact Hi.
Qed.

Lemma letter_string_atom l : valid_letter l = true -> atom_text (letter_string l).
Proof.
  intros H. destruct (valid_letter_inv l H) as (c & Hid & Hc & _).
  unfold letter_string. rewrite Hid. exists c. eexists. split; [reflexivity|].
  split; [exact Hc|]. destruct (0 <? index l)%Z; [apply uint_units_digits|constructor].
Qed.

Lemma letter_string_inj l1 l2 :
  valid_letter l1 = true -> valid_letter l2 = true ->
  letter_string l1 = letter_string l2 -> l1 = l2.
Proof.
  intros H1 H2 H.
  destruct (valid_letter_inv l1 H1) as (c1 & Hid1 & _ & Hi1).
  destruct (valid_letter_inv l2 H2) as (c2 & Hid2 & _ & Hi2).
  destruct l1 as [id1 i1], l2 as [id2 i2]. unfold letter_string in H. simpl in *.
  subst id1 id2. injection H as -> H. f_equal.
  destruct (0 <? i1)%Z eqn:E1, (0 <? i2)%Z eqn:E2.
  - apply Number_toString_inj in H. apply Z.ltb_lt in E1, E2. lia.
  - destruct (Number_toString_head (Z.to_N i1)) as (c & r & Hn & _). congruence.
  - destruct (Number_toString_head (Z.to_N i2)) as (c & r & Hn & _). congruence.
  - apply Z.ltb_ge in E1, E2. lia.
Qed.

Lemma to_shape_ok s : valid_letters s = true -> shape_ok (to_shape s).
Proof.
  induction s as [v|l|a IHa|a IHa b IHb|a IHa b IHb|a IHa b IHb
                 |a IHa b IHb|a IHa b IHb|a IHa b IHb]; simpl; intros H;
    try (apply andb_true_iff in H; destruct H as [Ha Hb];
         split; [reflexivity|split; [apply IHa; exact Ha|apply IHb; exact Hb]]).
  - destruct v; [exists 84|exists 70]; exists []; repeat split; constructor.
  - apply letter_string_atom. exact H.
  - apply IHa. exact H.
Qed.

Lemma unconfusable_sub2 (a1 b1 a2 b2 : Sentence) (P : Sentence -> bool) :
  P a1 && P b1 = true -> P a2 && P b2 = true ->
  (P a1 = true /\ P a2 = true) /\ (P b1 = true /\ P b2 = true).
Proof. rewrite !andb_true_iff. tauto. Qed.

Lemma to_shape_inj s1 : forall s2,
  valid_letters s1 = true -> valid_letters s2 = true -> unconfusable s1 s2 ->
  to_shape s1 = to_shape s2 -> s1 = s2.
Proof.
  induction s1 as [v|l|a IHa|a IHa b IHb|a IHa b IHb|a IHa b IHb
                 |a IHa b IHb|a IHa b IHb|a IHa b IHb];
    intros [v2|l2|a2|a2 b2|a2 b2|a2 b2|a2 b2|a2 b2|a2 b2] V1 V2 U H;
    simpl in H; try discriminate H.
  1: { destruct v, v2; try reflexivity; discriminate H. }
  1: { exfalso. destruct U as [[U _]|[_ U]]; [discriminate U|].
       simpl in U, V2. injection H as H.
       destruct (valid_letter_inv l2 V2) as (c & Hid & _ & Hi).
       destruct l2 as [i2 n2]. unfold letter_string in H. simpl in *. subst i2.
       destruct (0 <? n2)%Z eqn:E.
       + destruct (Number_toString_head (Z.to_N n2)) as (d & r & Hn & _).
         rewrite Hn in H. destruct v; discriminate H.
       + apply Z.ltb_ge in E. assert (n2 = 0%Z) as -> by lia.
         destruct v; injection H as <-; vm_compute in U; discriminate U. }
  1: { exfalso. destruct U as [[_ U]|[U _]]; [discriminate U|].
       simpl in U, V1. injection H as H.
       destruct (valid_letter_inv l V1) as (c & Hid & _ & Hi).
       destruct l as [i1 n1]. unfold letter_string in H. simpl in *. subst i1.
       destruct (0 <? n1)%Z eqn:E.
       + destruct (Number_toString_head (Z.to_N n1)) as (d & r & Hn & _).
         rewrite Hn in H. destruct v2; discriminate H.
       + apply Z.ltb_ge in E. assert (n1 = 0%Z) as -> by lia.
         destruct v2; injection H as ->; vm_compute in U; discriminate U. }
  1: { injection H as H. f_equal. apply letter_string_inj; assumption. }
  1: { injection H as H. f_equal. apply IHa; assumption. }
  all: injection H as Ha Hb; simpl in V1, V2;
    destruct (unconfusable_sub2 _ _ _ _ valid_letters V1 V2) as [[? ?] [? ?]];
    assert (unconfusable a a2 /\ unconfusable b b2) as [? ?]
      by (destruct U as [[U1 U2]|[U1 U2]]; simpl in U1, U2;
          [destruct (unconfusable_sub2 _ _ _ _ value_free U1 U2) as [? ?]
          |destruct (unconfusable_sub2 _ _ _ _ tf_free U1 U2) as [? ?]];
          split; [left|left|right|right]; assumption);
    f_equal; [apply IHa|apply IHb]; assumption.
Qed.

(** C2 fails as stated: the constant true and the letter T are
    structurally distinct and have the same compact rendering. *)
Lemma compact_collision :
  sentence_to_string_compact (value true)
  = sentence_to_string_compact (letter (mkLetter (js "T") 0))
  /\ value true <> letter (mkLetter (js "T") 0).
Proof. split; [reflexivity|discriminate]. Qed.

(** C2 (amended). On sentences whose letters follow the data model (id
    one upper-case character, index a non-negative integer up to
    2^53 - 1) and which either contain no constant or contain neither
    the letter T nor the letter F, two compact renderings are equal if
    and only if the sentences are structurally equal. *)
Theorem compact_injective (s1 s2 : Sentence) :
  valid_letters s1 = true -> valid_letters s2 = true ->
  (value_free s1 = true /\ value_free s2 = true)
  \/ (tf_free s1 = true /\ tf_free s2 = true) ->
  (sentence_to_string_compact s1 = sentence_to_string_compact s2 <-> s1 = s2).
Proof.
  intros V1 V2 U. split; [|intros ->; reflexivity].
  rewrite !compact_top_shape. intros H.
  apply to_shape_inj; try assumption.
  apply render_top_inj; [apply to_shape_ok; exact V1|apply to_shape_ok; exact V2|exact H].
Qed.

Lemma compact_injective_witness :
  (sentence_to_string_compact
     (conjunction (letter (mkLetter (js "A") 1)) (conjunction (letter (mkLetter (js "A") 11)) C_))
   = sentence_to_string_compact
       (conjunction (conjunction (letter (mkLetter (js "A") 11)) (letter (mkLetter (js "A") 1))) C_)
   <-> conjunction (letter (mkLetter (js "A") 1)) (conjunction (letter (mkLetter (js "A") 11)) C_)
       = conjunction (conjunction (letter (mkLetter (js "A") 11)) (letter (mkLetter (js "A") 1))) C_)
  /\ sentence_to_string_compact
       (conjunction (letter (mkLetter (js "A") 1)) (conjunction (letter (mkLetter (js "A") 11)) C_))
     <> sentence_to_string_compact
          (conjunction (conjunction (letter (mkLetter (js "A") 11)) (letter (mkLetter (js "A") 1))) C_).
Proof.
  assert (H : sentence_to_string_compact
                (conjunction (letter (mkLetter (js "A") 1))
                   (conjunction (letter (mkLetter (js "A") 11)) C_))
              = sentence_to_string_compact
                  (conjunction (conjunction (letter (mkLetter (js "A") 11))
                                  (letter (mkLetter (js "A") 1))) C_)
              <-> conjunction (letter (mkLetter (js "A") 1))
                    (conjunction (letter (mkLetter (js "A") 11)) C_)
                  = conjunction (conjunction (letter (mkLetter (js "A") 11))
                                   (letter (mkLetter (js "A") 1))) C_).
  { apply compact_injective; [reflexivity|reflexivity|left; split; reflexivity]. }
  split; [exact H|]. intros E. apply H in E. discriminate E.
Defined.

(* ===================================================================== *)
(** ** Binary rendering of the state *)
(* ===================================================================== *)

Lemma pos_toString2_lsb p : forall acc,
  pos_toString2 p acc = reverse (lsb_units p) ++ acc.
Proof.
  induction p as [p IH|p IH|]; intros acc; simpl; rewrite ?IH, ?reverse_cons;
    rewrite <- ?app_assoc; reflexivity.
Qed.

Lemma lsb_units_lookup p : forall j,
  lsb_units p !! j
  = if (j <? length (lsb_units p))%nat
    then Some (bit_unit (N.testbit (Npos p) (N.of_nat j)))
    else None.
Proof.
  induction p as [p IH|p IH|]; intros [|j]; try reflexivity.
  - cbn [lsb_units lookup list_lookup length]. rewrite IH.
    change (S j <? S (length (lsb_units p)))%nat with (j <? length (lsb_units p))%nat.
    destruct (j <? length (lsb_units p))%nat; [|reflexivity].
    rewrite Nat2N.inj_succ.
    change (N.pos p~1) with (2 * N.pos p + 1). rewrite N.testbit_odd_succ by lia.
    reflexivity.
  - cbn [lsb_units lookup list_lookup length]. rewrite IH.
    change (S j <? S (length (lsb_units p)))%nat with (j <? length (lsb_units p))%nat.
    destruct (j <? length (lsb_units p))%nat; [|reflexivity].
    rewrite Nat2N.inj_succ.
    change (N.pos p~0) with (2 * N.pos p). rewrite N.testbit_even_succ by lia.
    reflexivity.
Qed.

Lemma lsb_units_length p (n : nat) :
  Npos p < 2 ^ N.of_nat n -> (length (lsb_units p) <= n)%nat.
Proof.
  revert n. induction p as [p IH|p IH|]; intros [|n] H; simpl;
    try (simpl in H; lia).
  - rewrite Nat2N.inj_succ, N.pow_succ_r' in H.
    apply le_n_S, IH. lia.
  - rewrite Nat2N.inj_succ, N.pow_succ_r' in H.
    apply le_n_S, IH. lia.
Qed.

Lemma testbit_above_length p (j : nat) :
  (length (lsb_units p) <= j)%nat -> N.testbit (Npos p) (N.of_nat j) = false.
Proof.
  revert j. induction p as [p IH|p IH|]; intros [|j] H; simpl in H; try lia.
  - rewrite Nat2N.inj_succ. change (N.pos p~1) with (2 * N.pos p + 1).
    rewrite N.testbit_odd_succ by lia. apply IH. lia.
  - rewrite Nat2N.inj_succ. change (N.pos p~0) with (2 * N.pos p).
    rewrite N.testbit_even_succ by lia. apply IH. lia.
  - rewrite Nat2N.inj_succ. change 1 with (2 * 0 + 1).
    rewrite N.testbit_odd_succ by lia. apply N.bits_0.
Qed.

(** The character at position [i] of the padded binary string is the bit
    of weight [width - 1 - i]. *)
Lemma to_bin_str_lookup (state : N) (width i : nat) :
  (width <= 32)%nat -> state < 2 ^ N.of_nat width -> (i < width)%nat ->
  to_bin_str state width !! i
  = Some (bit_unit (N.testbit state (N.of_nat (width - 1 - i)))).
Proof.
  intros Hw Hs Hi. unfold to_bin_str, to_uint32.
  rewrite N.mod_small.
  2: { eapply N.lt_le_trans; [exact Hs|]. apply N.pow_le_mono_r; lia. }
  unfold padStart0, Number_toString2. destruct state as [|p].
  - simpl length. rewrite N.bits_0. simpl bit_unit.
    destruct (decide (i < width - 1)%nat) as [Hlt|Hge].
    + rewrite lookup_app_l by (rewrite length_replicate; lia).
      apply lookup_replicate_2. exact Hlt.
    + rewrite lookup_app_r by (rewrite length_replicate; lia).
      rewrite length_replicate. replace (i - (width - 1))%nat with 0%nat by lia.
      reflexivity.
  - rewrite pos_toString2_lsb, app_nil_r, length_reverse.
    pose proof (lsb_units_length p width Hs) as Hlen.
    destruct (decide (i < width - length (lsb_units p))%nat) as [Hlt|Hge].
    + rewrite lookup_app_l by (rewrite length_replicate; lia).
      rewrite lookup_replicate_2 by exact Hlt.
      rewrite testbit_above_length by lia. reflexivity.
    + rewrite lookup_app_r by (rewrite length_replicate; lia).
      rewrite length_replicate, reverse_lookup by lia.
      rewrite lsb_units_lookup.
      replace (length (lsb_units p) - S (i - (width - length (lsb_units p))))%nat
        with (width - 1 - i)%nat by lia.
      destruct (Nat.ltb_spec (width - 1 - i) (length (lsb_units p))); [reflexivity|lia].
Qed.

(* ===================================================================== *)
(** ** Letter registry *)
(* ===================================================================== *)

Lemma Letter_eq (x l : Letter) : x = l <-> id x = id l /\ index x = index l.
Proof. destruct x, l; simpl; split; [intros [= -> ->]; auto|intros [-> ->]; auto]. Qed.

Lemma LetterSet_empty_ok : LetterSet_ok LetterSet_.empty.
Proof.
  split; [constructor|]. intros l. unfold LetterSet_.has. simpl.
  rewrite lookup_empty. split; [discriminate|]. intros H. inversion H.
Qed.

Lemma LetterSet_add_ok ls l :
  LetterSet_ok ls ->
  LetterSet_ok (snd (LetterSet_.add ls l))
  /\ forall x, x ∈ all (snd (LetterSet_.add ls l)) <-> x ∈ all ls \/ x = l.
Proof.
  intros [Hnd Hhas].
  assert (Hl := Hhas l). unfold LetterSet_.has in Hl.
  unfold LetterSet_.add. destruct (map_ ls !! id l) as [set|] eqn:Hm.
  - destruct (bool_decide (index l ∈ set)) eqn:Hin; simpl.
    + split; [split; assumption|]. intros x. split; [auto|].
      intros [H| ->]; [exact H|]. apply Hl. reflexivity.
    + assert (l ∉ all ls) as Hnot by (intros H; apply Hl in H; discriminate H).
      assert (Hel : forall x, x ∈ all ls ++ [l] <-> x ∈ all ls \/ x = l)
        by (intros x; rewrite elem_of_app, list_elem_of_singleton; reflexivity).
      split; [split|exact Hel].
      * apply NoDup_app. split; [exact Hnd|]. split; [|apply NoDup_singleton].
        intros x Hx Hx'. apply list_elem_of_singleton in Hx'. subst x. contradiction.
      * intros x. rewrite Hel, <- Hhas. unfold LetterSet_.has. simpl.
        destruct (decide (id x = id l)) as [E|E].
        -- rewrite E, lookup_insert_eq, Hm.
           rewrite !bool_decide_eq_true, elem_of_union, elem_of_singleton, Letter_eq.
           tauto.
        -- rewrite lookup_insert_ne by congruence.
           rewrite Letter_eq. tauto.
  - simpl.
    assert (l ∉ all ls) as Hnot by (intros H; apply Hl in H; discriminate H).
    assert (Hel : forall x, x ∈ all ls ++ [l] <-> x ∈ all ls \/ x = l)
      by (intros x; rewrite elem_of_app, list_elem_of_singleton; reflexivity).
    split; [split|exact Hel].
    + apply NoDup_app. split; [exact Hnd|]. split; [|apply NoDup_singleton].
      intros x Hx Hx'. apply list_elem_of_singleton in Hx'. subst x. contradiction.
    + intros x. rewrite Hel, <- Hhas. unfold LetterSet_.has. simpl.
      destruct (decide (id x = id l)) as [E|E].
      * rewrite E, lookup_insert_eq, Hm.
        rewrite bool_decide_eq_true, elem_of_singleton, Letter_eq.
        split; [intros H; right; auto|intros [H|[_ H]]; [discriminate H|exact H]].
      * rewrite lookup_insert_ne by congruence.
        rewrite Letter_eq. tauto.
Qed.

Lemma collect_letters_rec_ok s : forall ls,
  LetterSet_ok ls ->
  LetterSet_ok (collect_letters_rec s ls)
  /\ forall x, x ∈ all (collect_letters_rec s ls) <-> x ∈ all ls \/ occurs x s.
Proof.
  induction s as [v|l|a IHa|a IHa b IHb|a IHa b IHb|a IHa b IHb
                 |a IHa b IHb|a IHa b IHb|a IHa b IHb]; intros ls Hok; simpl.
  1: { split; [exact Hok|]. intros x. tauto. }
  1: { apply LetterSet_add_ok. exact Hok. }
  1: { apply IHa. exact Hok. }
  all: destruct (IHa ls Hok) as [Hoka Ha];
    destruct (IHb _ Hoka) as [Hokb Hb];
    split; [exact Hokb|]; intros x; rewrite Hb, Ha; tauto.
Qed.

Lemma add_all_ok xs : forall acc,
  LetterSet_ok acc ->
  LetterSet_ok (add_all acc xs)
  /\ forall x, x ∈ all (add_all acc xs) <-> x ∈ all acc \/ x ∈ xs.
Proof.
  induction xs as [|y ys IH]; intros acc Hok; simpl.
  - split; [exact Hok|]. intros x. rewrite elem_of_nil. tauto.
  - destruct (LetterSet_add_ok acc y Hok) as [Hok' Hy].
    destruct (IH _ Hok') as [Hok'' Hys].
    split; [exact Hok''|]. intros x. unfold add_all in Hys. rewrite Hys, Hy, elem_of_cons.
    tauto.
Qed.

Lemma letter_union_spec formulas :
  NoDup (letter_union formulas)
  /\ forall x, x ∈ letter_union formulas <-> exists f, f ∈ formulas /\ occurs x f.
Proof.
  unfold letter_union, LetterSet_.toArray.
  enough (forall acc, LetterSet_ok acc ->
    LetterSet_ok (fold_left (fun acc f => add_all acc (all (collect_letters f))) formulas acc)
    /\ forall x,
         x ∈ all (fold_left (fun acc f => add_all acc (all (collect_letters f))) formulas acc)
         <-> x ∈ all acc \/ exists f, f ∈ formulas /\ occurs x f) as H.
  { destruct (H _ LetterSet_empty_ok) as [[Hnd _] Hel]. split; [exact Hnd|].
    intros x. rewrite Hel. simpl. rewrite elem_of_nil. tauto. }
  induction formulas as [|f fs IH]; intros acc Hok; simpl.
  - split; [exact Hok|]. intros x. split; [auto|].
    intros [H|(f & Hf & _)]; [exact H|]. inversion Hf.
  - destruct (collect_letters_rec_ok f _ LetterSet_empty_ok) as [_ Hf].
    destruct (add_all_ok (all (collect_letters f)) acc Hok) as [Hok' Hadd].
    destruct (IH _ Hok') as [Hok'' Hfs].
    split; [exact Hok''|]. intros x. rewrite Hfs, Hadd.
    unfold collect_letters. rewrite Hf. simpl. rewrite elem_of_nil.
    split.
    + intros [[H|[[]|H]]|(g & Hg & Ho)]; [left; exact H| |].
      * right. exists f. split; [apply list_elem_of_here|exact H].
      * right. exists g. split; [apply list_elem_of_further; exact Hg|exact Ho].
    + intros [H|(g & Hg & Ho)]; [left; left; exact H|].
      apply elem_of_cons in Hg. destruct Hg as [->|Hg].
      * left. right. right. exact Ho.
      * right. exists g. auto.
Qed.

(* ===================================================================== *)
(** ** Sorting *)
(* ===================================================================== *)

Lemma sort_insert_perm {A} (cmp : A -> A -> Z) x l : sort_insert cmp x l ≡ₚ x :: l.
Proof.
  induction l as [|y l IH]; simpl; [reflexivity|].
  destruct (cmp x y <? 0)%Z; [reflexivity|].
  rewrite IH. apply Permutation_swap.
Qed.

Lemma Array_sort_perm {A} (cmp : A -> A -> Z) xs : Array_sort cmp xs ≡ₚ xs.
Proof.
  unfold Array_sort.
  enough (forall acc, fold_left (fun sorted x => sort_insert cmp x sorted) xs acc ≡ₚ acc ++ xs)
    as H by apply (H []).
  induction xs as [|x xs IH]; intros acc; simpl; [rewrite app_nil_r; reflexivity|].
  rewrite IH, sort_insert_perm. rewrite (Permutation_middle acc xs x). reflexivity.
Qed.

Lemma sort_insert_sorted {A} (cmp : A -> A -> Z) x l :
  Sorted (in_order cmp) l -> Sorted (in_order cmp) (sort_insert cmp x l).
Proof.
  induction l as [|y l IH]; simpl; intros Hs.
  - repeat constructor.
  - destruct (cmp x y <? 0)%Z eqn:E.
    + constructor; [exact Hs|]. constructor. left. apply Z.ltb_lt. exact E.
    + inversion Hs as [|? ? Hs' Hhd]; subst. constructor; [apply IH; exact Hs'|].
      assert (in_order cmp y x) as Hyx by (right; apply Z.ltb_ge in E; lia).
      destruct l as [|z l]; simpl; [constructor; exact Hyx|].
      destruct (cmp x z <? 0)%Z; constructor; [exact Hyx|].
      inversion Hhd; subst. assumption.
Qed.

Lemma Array_sort_sorted {A} (cmp : A -> A -> Z) xs : Sorted (in_order cmp) (Array_sort cmp xs).
Proof.
  unfold Array_sort.
  enough (forall acc, Sorted (in_order cmp) acc ->
            Sorted (in_order cmp) (fold_left (fun sorted x => sort_insert cmp x sorted) xs acc))
    as H by (apply H; constructor).
  induction xs as [|x xs IH]; intros acc Hs; simpl; [exact Hs|].
  apply IH, sort_insert_sorted, Hs.
Qed.

(* ===================================================================== *)
(** ** Rows of the truth table *)
(* ===================================================================== *)

Lemma build_assignment_lookup ls bin : forall i0 m,
  NoDup (letter_string <$> ls) ->
  (forall j l, ls !! j = Some l ->
     build_assignment ls bin i0 m !! letter_string l
     = Some (bool_decide (bin !! (i0 + j)%nat = Some 48)))
  /\ (forall key, key ∉ (letter_string <$> ls) ->
        build_assignment ls bin i0 m !! key = m !! key).
Proof.
  induction ls as [|l0 rest IH]; intros i0 m Hnd; simpl.
  - split; [intros j l H; destruct j; discriminate H|reflexivity].
  - rewrite fmap_cons in Hnd. apply NoDup_cons in Hnd. destruct Hnd as [Hnot Hnd].
    destruct (IH (S i0) (<[letter_string l0 := bool_decide (bin !! i0 = Some 48)]> m) Hnd)
      as [IH1 IH2].
    split.
    + intros [|j] l H; simpl in H.
      * injection H as <-. rewrite IH2 by exact Hnot.
        rewrite lookup_insert_eq, Nat.add_0_r. reflexivity.
      * rewrite (IH1 j l H). replace (i0 + S j)%nat with (S i0 + j)%nat by lia.
        reflexivity.
    + intros key Hkey. rewrite not_elem_of_cons in Hkey.
      destruct Hkey as [Hne Hkey]. rewrite IH2 by exact Hkey.
      apply lookup_insert_ne. congruence.
Qed.

Lemma Array_map_exists {A B} (f : A -> Completion B) xs :
  (forall x, x ∈ xs -> exists y, f x = Return y) ->
  exists ys, Array_map f xs = Return ys.
Proof.
  induction xs as [|x xs IH]; intros H; simpl; [eauto|].
  destruct (H x (list_elem_of_here _ _)) as [y Hy]. rewrite Hy. simpl.
  destruct IH as [ys Hys]; [intros z Hz; apply H, list_elem_of_further, Hz|].
  rewrite Hys. simpl. eauto.
Qed.

Lemma evaluate_bound (asg : gmap jsstring bool) f :
  (forall l, occurs l f -> is_Some (asg !! letter_string l)) ->
  exists v, evaluate (lookup_in asg) f = Return v.
Proof.
  intros H. destruct (evaluate (lookup_in asg) f) as [v|m] eqn:E; [eauto|].
  exfalso. destruct (evaluate_throw_occurs _ _ _ E) as (l & Hl & Hm).
  destruct (H l Hl) as [b Hb]. unfold lookup_in in Hm. rewrite Hb in Hm. discriminate Hm.
Qed.

Lemma states_length n_states : length (states n_states) = N.to_nat n_states.
Proof. unfold states. rewrite length_map, length_seq. reflexivity. Qed.

Lemma states_lookup n_states (k : nat) :
  (k < N.to_nat n_states)%nat -> states n_states !! k = Some (N.of_nat k).
Proof.
  intros H. unfold states.
  change (List.map N.of_nat (seq 0 (N.to_nat n_states)))
    with (N.of_nat <$> seq 0 (N.to_nat n_states)).
  rewrite list_lookup_fmap, lookup_seq_lt by exact H. reflexivity.
Qed.

Lemma valid_letters_occurs s l : valid_letters s = true -> occurs l s -> valid_letter l = true.
Proof.
  induction s as [v|l0|a IHa|a IHa b IHb|a IHa b IHb|a IHa b IHb
                 |a IHa b IHb|a IHa b IHb|a IHa b IHb]; simpl; intros V O;
    try contradiction; try (subst; exact V); try (apply IHa; assumption).
  all: apply andb_true_iff in V; destruct V as [Va Vb];
    destruct O as [O|O]; [apply IHa|apply IHb]; assumption.
Qed.

Lemma valid_keys_NoDup (ls : list Letter) :
  NoDup ls -> (forall l, l ∈ ls -> valid_letter l = true) ->
  NoDup (letter_string <$> ls).
Proof.
  intros Hnd Hv. apply NoDup_fmap_2_strong; [|exact Hnd].
  intros x y Hx Hy. apply letter_string_inj; apply Hv; assumption.
Qed.

Lemma build_assignment_bound ls bin : forall i0 m key,
  key ∈ (letter_string <$> ls) \/ is_Some (m !! key) ->
  is_Some (build_assignment ls bin i0 m !! key).
Proof.
  induction ls as [|l0 rest IH]; intros i0 m key H; simpl.
  - destruct H as [H|H]; [inversion H|exact H].
  - apply IH. rewrite fmap_cons, elem_of_cons in H.
    destruct (decide (key = letter_string l0)) as [->|Hne].
    + right. rewrite lookup_insert_eq. eauto.
    + destruct H as [[H|H]|H]; [contradiction|left; exact H|].
      right. rewrite lookup_insert_ne by congruence. exact H.
Qed.

(** The body of the [state] loop never throws: every letter a formula
    looks up was given an entry. *)
Lemma make_row_returns (localeCompare : jsstring -> jsstring -> Z)
    (fs : list Sentence) (st : N) :
  let ls := Array_sort (comp_letters localeCompare) (letter_union fs) in
  exists row, make_row ls fs st = Return row /\ assignment row = row_assignment ls st.
Proof.
  intros ls. unfold make_row.
  destruct (Array_map_exists
              (fun f => evaluate (lookup_in (row_assignment ls st)) f) fs) as [vs Hvs].
  - intros f Hf. apply evaluate_bound. intros l Hl.
    apply build_assignment_bound. left.
    apply list_elem_of_fmap. exists l. split; [reflexivity|].
    unfold ls. rewrite Array_sort_perm. apply letter_union_spec. eauto.
  - unfold row_assignment in Hvs. rewrite Hvs. simpl. eexists. split; reflexivity.
Qed.

(** The loop that pushes the rows: as long as every body returns, it
    returns all rows, unless the array would reach 2^32 elements. *)
Lemma push_rows_spec ls fs : forall sts rows news,
  Array_map (make_row ls fs) sts = Return news ->
  N.of_nat (length rows) < 2 ^ 32 ->
  push_rows ls fs sts rows
  = if N.of_nat (length rows + length sts) <? 2 ^ 32 then Return (rows ++ news)
    else Throw RangeError.
Proof.
  induction sts as [|st sts IH]; intros rows news Hmap Hlen.
  - cbn [Array_map] in Hmap. injection Hmap as <-. cbn [push_rows length].
    rewrite Nat.add_0_r, app_nil_r.
    destruct (N.ltb_spec (N.of_nat (length rows)) (2 ^ 32)); [reflexivity|lia].
  - cbn [Array_map] in Hmap.
    destruct (make_row ls fs st) as [row|m] eqn:Hrow; [|discriminate Hmap].
    cbn [bind] in Hmap.
    destruct (Array_map (make_row ls fs) sts) as [news'|m] eqn:Hrest; [|discriminate Hmap].
    cbn [bind] in Hmap. injection Hmap as <-.
    cbn [push_rows]. rewrite Hrow. cbn [bind]. unfold Array_push.
    destruct (N.ltb_spec (N.of_nat (length rows)) (2 ^ 32 - 1)) as [Hlt|Hge].
    + cbn [bind]. rewrite (IH (rows ++ [row]) news' eq_refl).
      * rewrite length_app. cbn [length].
        replace (length rows + 1 + length sts)%nat with (length rows + S (length sts))%nat
          by lia.
        rewrite <- app_assoc. reflexivity.
      * rewrite length_app. cbn [length]. lia.
    + cbn [bind length].
      destruct (N.ltb_spec (N.of_nat (length rows + S (length sts))) (2 ^ 32));
        [lia|reflexivity].
Qed.

(** [generate_truth_table] with fewer than 32 letters builds one row per
    state; with 32 letters or more it ends in the [RangeError] of
    [rows.push]. *)
Lemma generate_truth_table_cases (localeCompare : jsstring -> jsstring -> Z)
    (fs : list Sentence) :
  let ls := Array_sort (comp_letters localeCompare) (letter_union fs) in
  let n_states := if (length ls =? 0)%nat then 1 else 2 ^ N.of_nat (length ls) in
  generate_truth_table localeCompare fs
  = if (length (letter_union fs) <? 32)%nat
    then let* rows := Array_map (make_row ls fs) (states n_states) in
         Return (mkResult ls fs rows)
    else Throw RangeError.
Proof.
  intros ls n_states. unfold generate_truth_table.
  change (LetterSet_.toArray
            (fold_left (fun acc f => add_all acc (LetterSet_.toArray (collect_letters f)))
                       fs LetterSet_.empty)) with (letter_union fs).
  fold ls. fold n_states.
  assert (Hlen : length ls = length (letter_union fs)).
  { unfold ls. apply Permutation_length, Array_sort_perm. }
  destruct (Array_map_exists (make_row ls fs) (states n_states)) as [rs Hrs].
  { intros st _. destruct (make_row_returns localeCompare fs st) as (row & Hr & _). eauto. }
  rewrite (push_rows_spec ls fs (states n_states) [] rs Hrs) by (cbn [length]; lia).
  rewrite Hrs. cbn [length Nat.add bind app]. rewrite states_length, N2Nat.id.
  rewrite <- Hlen.
  assert (Hiff : n_states < 2 ^ 32 <-> (length ls < 32)%nat).
  { unfold n_states. destruct (Nat.eqb_spec (length ls) 0) as [E|E].
    - rewrite E. split; intros _; [lia|reflexivity].
    - rewrite <- (N.pow_lt_mono_r_iff 2 (N.of_nat (length ls)) 32) by lia. lia. }
  destruct (N.ltb_spec n_states (2 ^ 32)) as [H|H], (Nat.ltb_spec (length ls) 32) as [H'|H'];
    try reflexivity; exfalso.
  - apply Hiff in H. lia.
  - apply Hiff in H'. lia.
Qed.

(** [generate_truth_table] returns when the batch has fewer than 32
    letters. *)
Lemma generate_truth_table_returns (localeCompare : jsstring -> jsstring -> Z)
    (fs : list Sentence) :
  (length (letter_union fs) < 32)%nat ->
  exists res,
    generate_truth_table localeCompare fs = Return res
    /\ letters res = Array_sort (comp_letters localeCompare) (letter_union fs)
    /\ formulas res = fs
    /\ length (rows res) = (2 ^ length (letters res))%nat
    /\ forall k row, rows res !! k = Some row ->
         assignment row = row_assignment (letters res) (N.of_nat k).
Proof.
  intros Hsmall. rewrite generate_truth_table_cases.
  rewrite (proj2 (Nat.ltb_lt _ _) Hsmall).
  set (ls := Array_sort (comp_letters localeCompare) (letter_union fs)).
  set (n_states := if (length ls =? 0)%nat then 1 else 2 ^ N.of_nat (length ls)).
  assert (Hn : N.to_nat n_states = (2 ^ length ls)%nat).
  { unfold n_states. destruct (Nat.eqb_spec (length ls) 0) as [E|E].
    - rewrite E. reflexivity.
    - rewrite N2Nat.inj_pow, Nat2N.id. reflexivity. }
  pose proof (make_row_returns localeCompare fs) as Hrow. cbv zeta in Hrow. fold ls in Hrow.
  destruct (Array_map_exists (make_row ls fs) (states n_states)) as [rs Hrs].
  { intros st _. destruct (Hrow st) as (row & Hr & _). eauto. }
  rewrite Hrs. simpl. eexists. split; [reflexivity|]. simpl.
  split; [reflexivity|]. split; [reflexivity|].
  apply Array_map_Return in Hrs. split.
  - rewrite <- (Forall2_length _ _ _ Hrs), states_length. exact Hn.
  - intros k row Hk.
    destruct (Forall2_lookup_r _ _ _ _ _ Hrs Hk) as (st & Hst & Hmk).
    assert (k < N.to_nat n_states)%nat as Hlt.
    { rewrite <- states_length. eapply lookup_lt_Some. exact Hst. }
    rewrite states_lookup in Hst by exact Hlt. injection Hst as <-.
    destruct (Hrow (N.of_nat k)) as (row' & Hr' & Hasg). congruence.
Qed.

Lemma pow2_of_nat (k n : nat) : (k < 2 ^ n)%nat -> N.of_nat k < 2 ^ N.of_nat n.
Proof.
  intros H. change 2 with (N.of_nat 2). rewrite <- Nat2N.inj_pow. lia.
Qed.

Lemma testbit_high (a : N) (n m : N) : a < 2 ^ n -> n <= m -> N.testbit a m = false.
Proof.
  intros Ha Hm. rewrite <- (N.mod_small a (2 ^ n)) by exact Ha.
  apply N.mod_pow2_bits_high. exact Hm.
Qed.

Lemma bits_below_inj (a b : N) (n : nat) :
  a < 2 ^ N.of_nat n -> b < 2 ^ N.of_nat n ->
  (forall j, (j < n)%nat -> N.testbit a (N.of_nat j) = N.testbit b (N.of_nat j)) ->
  a = b.
Proof.
  intros Ha Hb H. apply N.bits_inj. intros m.
  destruct (N.lt_ge_cases m (N.of_nat n)) as [Hlt|Hge].
  - rewrite <- (N2Nat.id m). apply H. lia.
  - rewrite (testbit_high a _ _ Ha Hge), (testbit_high b _ _ Hb Hge). reflexivity.
Qed.

Lemma row_assignment_bit (ls : list Letter) (k i : nat) (l : Letter) :
  NoDup (letter_string <$> ls) -> (length ls <= 32)%nat -> (k < 2 ^ length ls)%nat ->
  ls !! i = Some l ->
  row_assignment ls (N.of_nat k) !! letter_string l
  = Some (negb (N.testbit (N.of_nat k) (N.of_nat (length ls - 1 - i)))).
Proof.
  intros Hnd H32 Hk Hi. unfold row_assignment.
  destruct (build_assignment_lookup ls (to_bin_str (N.of_nat k) (length ls)) 0 ∅ Hnd)
    as [H1 _].
  rewrite (H1 i l Hi). simpl.
  rewrite to_bin_str_lookup; [|exact H32|apply pow2_of_nat; exact Hk
                              |eapply lookup_lt_Some; exact Hi].
  destruct (N.testbit (N.of_nat k) (N.of_nat (length ls - 1 - i))); reflexivity.
Qed.

Lemma state_of_spec (v : list bool) : forall acc,
  let r := fold_left (fun acc (b : bool) => 2 * acc + (if b then 0 else 1)) v acc in
  r < (acc + 1) * 2 ^ N.of_nat (length v)
  /\ (forall i b, v !! i = Some b ->
        N.testbit r (N.of_nat (length v - 1 - i)) = negb b)
  /\ (forall m, N.testbit r (N.of_nat (length v) + m) = N.testbit acc m).
Proof.
  induction v as [|b v IH]; intros acc; simpl.
  - split; [lia|]. split; [|reflexivity]. intros i b H. destruct i; discriminate H.
  - destruct (IH (2 * acc + (if b then 0 else 1))) as (Hlt & Hbits & Hhigh).
    set (r := fold_left _ v _) in *.
    assert (Hshift : forall m, N.testbit (2 * acc + (if b then 0 else 1)) (N.succ m)
                               = N.testbit acc m).
    { intros m. destruct b.
      - rewrite N.add_0_r. apply N.testbit_even_succ. lia.
      - apply N.testbit_odd_succ. lia. }
    split; [|split].
    + rewrite Nat2N.inj_succ, N.pow_succ_r'. destruct b; nia.
    + intros [|i] c H; simpl in H.
      * injection H as <-. rewrite Nat.sub_0_r, Nat.sub_0_r.
        rewrite <- (N.add_0_r (N.of_nat (length v))), Hhigh.
        destruct b; [rewrite N.add_0_r; apply N.testbit_even_0|apply N.testbit_odd_0].
      * rewrite <- (Hbits i c H). do 2 f_equal. lia.
    + intros m. rewrite <- Hshift, <- Hhigh. f_equal. lia.
Qed.

Lemma state_of_lt (v : list bool) : state_of v < 2 ^ N.of_nat (length v).
Proof. destruct (state_of_spec v 0) as (H & _). simpl in H. unfold state_of. lia. Qed.

Lemma state_of_bit (v : list bool) i b :
  v !! i = Some b -> N.testbit (state_of v) (N.of_nat (length v - 1 - i)) = negb b.
Proof. destruct (state_of_spec v 0) as (_ & H & _). apply H. Qed.

Lemma row_assignment_inj (ls : list Letter) (k1 k2 : nat) :
  NoDup (letter_string <$> ls) -> (length ls <= 32)%nat ->
  (k1 < 2 ^ length ls)%nat -> (k2 < 2 ^ length ls)%nat ->
  (forall i l, ls !! i = Some l ->
     row_assignment ls (N.of_nat k1) !! letter_string l
     = row_assignment ls (N.of_nat k2) !! letter_string l) ->
  k1 = k2.
Proof.
  intros Hnd H32 H1 H2 H. apply Nat2N.inj.
  apply (bits_below_inj _ _ (length ls)); [apply pow2_of_nat, H1|apply pow2_of_nat, H2|].
  intros j Hj.
  destruct (lookup_lt_is_Some_2 ls (length ls - 1 - j)) as [l Hl]; [lia|].
  specialize (H _ _ Hl).
  rewrite (row_assignment_bit ls k1 _ l Hnd H32 H1 Hl) in H.
  rewrite (row_assignment_bit ls k2 _ l Hnd H32 H2 Hl) in H.
  replace (length ls - 1 - (length ls - 1 - j))%nat with j in H by lia.
  injection H as H.
  destruct (N.testbit (N.of_nat k1) (N.of_nat j)), (N.testbit (N.of_nat k2) (N.of_nat j));
    simpl in H; congruence.
Qed.

Lemma ones_of_nat (n : nat) : N.of_nat (2 ^ n - 1) = N.ones (N.of_nat n).
Proof.
  rewrite N.ones_equiv, Nat2N.inj_sub, Nat2N.inj_pow. simpl. lia.
Qed.

(** C5 (amended). For every batch whose letters follow the data model
    (id one upper-case character, index a non-negative integer up to
    2^53 - 1) and whose deduplicated letter union has n <= 31 letters,
    [generate_truth_table] returns a table whose letters are that union
    in sorted order and which has max(1, 2^n) rows; row k assigns to the
    letter at sorted position i the negation of bit n-1-i of k (position
    0 is the most significant bit, 0 is true and 1 is false); the
    assignments are pairwise distinct, every combination of n booleans is
    the assignment of exactly one row, row 0 makes every letter true and
    the last row makes every letter false. *)
Theorem truth_table_rows (localeCompare : jsstring -> jsstring -> Z) (fs : list Sentence) :
  Forall (fun f => valid_letters f = true) fs ->
  (length (letter_union fs) <= 31)%nat ->
  exists res,
    generate_truth_table localeCompare fs = Return res
    /\ letters res ≡ₚ letter_union fs
    /\ NoDup (letters res)
    /\ Sorted (in_order (comp_letters localeCompare)) (letters res)
    /\ length (rows res) = Nat.max 1 (2 ^ length (letters res))
    /\ (forall k row i l,
          rows res !! k = Some row -> letters res !! i = Some l ->
          assignment row !! letter_string l
          = Some (negb (N.testbit (N.of_nat k)
                          (N.of_nat (length (letters res) - 1 - i)))))
    /\ NoDup (assignment <$> rows res)
    /\ (forall v : list bool, length v = length (letters res) ->
          exists k,
            (exists row, rows res !! k = Some row
                         /\ assigns (letters res) (assignment row) v)
            /\ forall k', (exists row, rows res !! k' = Some row
                                       /\ assigns (letters res) (assignment row) v)
                          -> k' = k)
    /\ (forall row l, rows res !! 0%nat = Some row -> l ∈ letters res ->
          assignment row !! letter_string l = Some true)
    /\ (forall row l, last (rows res) = Some row -> l ∈ letters res ->
          assignment row !! letter_string l = Some false).
Proof.
  intros Hvalid H31.
  assert (H32 : (length (letter_union fs) <= 32)%nat) by lia.
  destruct (generate_truth_table_returns localeCompare fs ltac:(lia))
    as (res & Hres & Hls & _ & Hlen & Hrows).
  exists res. split; [exact Hres|].
  assert (Hperm : letters res ≡ₚ letter_union fs) by (rewrite Hls; apply Array_sort_perm).
  destruct (letter_union_spec fs) as [Hnd Hel].
  assert (Hnd' : NoDup (letters res)) by (rewrite Hperm; exact Hnd).
  assert (Hkeys : NoDup (letter_string <$> letters res)).
  { apply valid_keys_NoDup; [exact Hnd'|]. intros l Hl. rewrite Hperm in Hl.
    apply Hel in Hl. destruct Hl as (f & Hf & Ho).
    rewrite Forall_forall in Hvalid. eapply valid_letters_occurs; [|exact Ho].
    apply Hvalid. exact Hf. }
  assert (Hn32 : (length (letters res) <= 32)%nat) by (rewrite Hperm; exact H32).
  set (n := length (letters res)) in *.
  assert (Hbit : forall k row i l,
            rows res !! k = Some row -> letters res !! i = Some l ->
            assignment row !! letter_string l
            = Some (negb (N.testbit (N.of_nat k) (N.of_nat (n - 1 - i))))).
  { intros k row i l Hk Hi. rewrite (Hrows k row Hk).
    apply row_assignment_bit; try assumption.
    fold n. rewrite <- Hlen. eapply lookup_lt_Some. exact Hk. }
  assert (Hinj : forall k1 k2 row1 row2,
            rows res !! k1 = Some row1 -> rows res !! k2 = Some row2 ->
            (forall i l, letters res !! i = Some l ->
               assignment row1 !! letter_string l = assignment row2 !! letter_string l) ->
            k1 = k2).
  { intros k1 k2 row1 row2 H1 H2 H.
    apply (row_assignment_inj (letters res)); try assumption.
    - fold n. rewrite <- Hlen. eapply lookup_lt_Some. exact H1.
    - fold n. rewrite <- Hlen. eapply lookup_lt_Some. exact H2.
    - intros i l Hi. rewrite <- (Hrows k1 row1 H1), <- (Hrows k2 row2 H2). eauto. }
  split; [exact Hperm|]. split; [exact Hnd'|].
  split; [rewrite Hls; apply Array_sort_sorted|].
  split.
  { rewrite Hlen. symmetry. apply Nat.max_r.
    clear. induction n; simpl; lia. }
  split; [exact Hbit|].
  split.
  { apply NoDup_alt. intros k1 k2 a H1 H2.
    rewrite list_lookup_fmap in H1, H2.
    destruct (rows res !! k1) as [row1|] eqn:E1; [|discriminate H1].
    destruct (rows res !! k2) as [row2|] eqn:E2; [|discriminate H2].
    simpl in H1, H2. injection H1 as H1. injection H2 as H2.
    apply (Hinj k1 k2 row1 row2 E1 E2). intros i l _. congruence. }
  split.
  { intros v Hv.
    assert (Hlt : (N.to_nat (state_of v) < 2 ^ n)%nat).
    { pose proof (state_of_lt v) as H. rewrite Hv in H.
      change 2 with (N.of_nat 2) in H. rewrite <- Nat2N.inj_pow in H. lia. }
    destruct (lookup_lt_is_Some_2 (rows res) (N.to_nat (state_of v))) as [row Hrow];
      [rewrite Hlen; exact Hlt|].
    assert (Hrow_v : assigns (letters res) (assignment row) v).
    { intros i l Hi. rewrite (Hbit _ _ _ _ Hrow Hi), N2Nat.id.
      destruct (lookup_lt_is_Some_2 v i) as [b Hb];
        [rewrite Hv; eapply lookup_lt_Some; exact Hi|].
      rewrite Hb. fold n. rewrite <- Hv, (state_of_bit v i b Hb), negb_involutive.
      reflexivity. }
    exists (N.to_nat (state_of v)). split; [exists row; auto|].
    intros k' (row' & Hrow' & Hv').
    apply (Hinj k' _ row' row Hrow' Hrow). intros i l Hi.
    rewrite (Hv' i l Hi), (Hrow_v i l Hi). reflexivity. }
  split.
  { intros row l H0 Hl. apply list_elem_of_lookup in Hl. destruct Hl as [i Hi].
    rewrite (Hbit _ _ _ _ H0 Hi). reflexivity. }
  { intros row l Hlast Hl. apply list_elem_of_lookup in Hl. destruct Hl as [i Hi].
    rewrite last_lookup, Hlen in Hlast.
    replace (Nat.pred (2 ^ n)) with (2 ^ n - 1)%nat in Hlast by lia.
    rewrite (Hbit _ _ _ _ Hlast Hi), ones_of_nat, N.ones_spec_low; [reflexivity|].
    apply lookup_lt_Some in Hi. fold n in Hi. lia. }
Qed.

Lemma truth_table_rows_witness :
  exists res,
    generate_truth_table compare_units [conjunction B_ A_; C_] = Return res
    /\ letters res ≡ₚ letter_union [conjunction B_ A_; C_]
    /\ length (rows res) = Nat.max 1 (2 ^ length (letters res)).
Proof.
  destruct (truth_table_rows compare_units [conjunction B_ A_; C_])
    as (res & H1 & H2 & _ & _ & H3 & _).
  - repeat constructor.
  - vm_compute. lia.
  - exists res. split; [exact H1|]. split; [exact H2|exact H3].
Defined.


(** C5 fails as stated: a table has at most 2^32 - 1 rows.  The batch of
    the 32 letters A, A1, ..., A31 follows the data model and its letter
    union has n = 32 letters, but [generate_truth_table] does not produce
    2^32 rows for it: the push of the last row throws a [RangeError],
    whatever the order [localeCompare] induces. *)
Lemma truth_table_rows_refuted :
  Forall (fun f => valid_letters f = true) batch32
  /\ length (letter_union batch32) = 32%nat
  /\ forall localeCompare : jsstring -> jsstring -> Z,
       generate_truth_table localeCompare batch32 = Throw RangeError.
Proof.
  split; [repeat constructor|]. split; [vm_compute; reflexivity|].
  intros localeCompare. rewrite generate_truth_table_cases.
  replace (length (letter_union batch32)) with 32%nat by (vm_compute; reflexivity).
  reflexivity.
Qed.

(* ===================================================================== *)
(** ** Parser: re-reading the spaced form *)
(* ===================================================================== *)

Lemma span_whitespace_solid s : starts_solid s -> P.span_whitespace s = ([], s).
Proof. intros (c & r & -> & Hc). simpl. rewrite Hc. reflexivity. Qed.

Lemma span_whitespace_space s :
  starts_solid s -> P.span_whitespace (32 :: s) = ([32], s).
Proof.
  intros H. cbn [P.span_whitespace]. change (is_whitespace 32) with true. cbn iota.
  rewrite span_whitespace_solid by exact H. reflexivity.
Qed.

Lemma span_whitespace_closing rest : closing rest -> P.span_whitespace rest = ([], rest).
Proof. intros [->|(c & r & -> & [->|[->| ->]])]; reflexivity. Qed.

Lemma strip_prefix_app str rest : P.strip_prefix str (str ++ rest) = Some rest.
Proof.
  induction str as [|c str IH]; simpl; [destruct rest; reflexivity|].
  rewrite N.eqb_refl. exact IH.
Qed.

Lemma wrap_if_needed_solid s rest :
  reparsable s = true -> starts_solid (wrap_if_needed s ++ rest).
Proof.
  unfold wrap_if_needed.
  destruct s as [v|l|a|a b|a b|a b|a b|a b|a b]; simpl; try discriminate; intros H.
  - apply andb_true_iff in H. destruct H as [H _].
    destruct (valid_letter_inv l H) as (c & Hid & Hc & _).
    unfold letter_string. rewrite Hid. exists c. eexists. split; [reflexivity|].
    apply andb_true_iff in Hc. destruct Hc as [H1 H2].
    apply N.leb_le in H1, H2. unfold is_whitespace.
    repeat (rewrite (proj2 (N.eqb_neq _ _)) by lia). simpl.
    destruct (N.leb_spec 8192 c); [lia|]. reflexivity.
  - eexists _, _. split; reflexivity.
  - eexists _, _. split; reflexivity.
  - eexists _, _. split; reflexivity.
Qed.

Section BinaryRule.
Variable F : P.Parser Sentence.
Variables (L R : Sentence) (wL wR : jsstring).
Hypothesis HL : forall r, F (wL ++ r) = P.Success L r.
Hypothesis HR : forall r, F (wR ++ r) = P.Success R r.
Hypothesis HsolidR : forall r, starts_solid (wR ++ r).

Lemma separator_match sym rest :
  starts_solid sym ->
  P.seq3 P.optWhitespace (alt_strings [sym]) P.optWhitespace (32 :: sym ++ 32 :: wR ++ rest)
  = P.Success ([32], sym, [32]) (wR ++ rest).
Proof.
  intros (c & r & -> & Hc).
  unfold P.seq3, P.chain, P.optWhitespace at 1.
  rewrite span_whitespace_space by (eexists _, _; split; [reflexivity|exact Hc]).
  unfold alt_strings. cbn [List.map P.alt]. unfold P.string at 1.
  rewrite strip_prefix_app. unfold P.optWhitespace.
  rewrite span_whitespace_space by apply HsolidR. reflexivity.
Qed.

Lemma separator_mismatch sym rest :
  (forall ws r, P.span_whitespace rest = (ws, r) -> P.strip_prefix sym r = None) ->
  P.seq3 P.optWhitespace (alt_strings [sym]) P.optWhitespace rest = P.Failure.
Proof.
  intros H. unfold P.seq3, P.chain, P.optWhitespace at 1.
  destruct (P.span_whitespace rest) as [ws r] eqn:E.
  unfold alt_strings. cbn [List.map P.alt]. unfold P.string at 1.
  rewrite (H ws r eq_refl). reflexivity.
Qed.

Lemma binary_rule_two sym build rest :
  starts_solid sym ->
  (forall ws r, P.span_whitespace rest = (ws, r) -> P.strip_prefix sym r = None) ->
  SentenceLang.binary_rule F [sym] build (wL ++ 32 :: sym ++ 32 :: wR ++ rest)
  = P.Success (build L R) rest.
Proof.
  intros Hsym Hrest.
  unfold SentenceLang.binary_rule, P.map, P.assert, P.sepBy.
  unfold P.chain at 1 2. cbn [P.alt]. unfold P.sepBy1, P.map.
  unfold P.chain at 1. rewrite HL.
  unfold P.chain at 1. unfold P.many. cbn [P.many_loop].
  unfold P.then_ at 1. unfold P.chain at 1.
  rewrite separator_match by exact Hsym. rewrite HR.
  replace (Nat.ltb (length rest) (length (32 :: sym ++ 32 :: wR ++ rest))) with true
    by (symmetry; apply Nat.ltb_lt; cbn [length]; rewrite !length_app; cbn [length];
        rewrite length_app; lia).
  cbn [length P.many_loop]. unfold P.then_ at 1. unfold P.chain at 1.
  rewrite separator_mismatch by exact Hrest.
  reflexivity.
Qed.

Lemma binary_rule_one sym build rest :
  (forall ws r, P.span_whitespace rest = (ws, r) -> P.strip_prefix sym r = None) ->
  SentenceLang.binary_rule F [sym] build (wL ++ rest) = P.Failure.
Proof.
  intros Hrest.
  unfold SentenceLang.binary_rule, P.map, P.assert, P.sepBy.
  unfold P.chain at 1 2. cbn [P.alt]. unfold P.sepBy1, P.map.
  unfold P.chain at 1. rewrite HL.
  unfold P.chain at 1. unfold P.many. cbn [P.many_loop].
  unfold P.then_ at 1. unfold P.chain at 1.
  rewrite separator_mismatch by exact Hrest.
  reflexivity.
Qed.

Lemma closing_no_symbol sym rest :
  closing rest -> (exists c r, sym = c :: r /\ c <> 41 /\ c <> 93 /\ c <> 125) ->
  forall ws r, P.span_whitespace rest = (ws, r) -> P.strip_prefix sym r = None.
Proof.
  intros Hc (c & t & -> & Hne) ws r H.
  rewrite span_whitespace_closing in H by exact Hc. injection H as <- <-.
  destruct Hc as [->|(d & r' & -> & Hd)]; simpl; [reflexivity|].
  rewrite (proj2 (N.eqb_neq c d)); [reflexivity|].
  destruct Hd as [->|[->| ->]]; tauto.
Qed.

Lemma spaced_no_symbol sym op rest :
  is_whitespace op = false ->
  (exists c r, sym = c :: r /\ c <> op) ->
  forall ws r, P.span_whitespace (32 :: op :: rest) = (ws, r) -> P.strip_prefix sym r = None.
Proof.
  intros Hop (c & t & -> & Hne) ws r H.
  cbn [P.span_whitespace] in H. change (is_whitespace 32) with true in H.
  rewrite Hop in H. injection H as <- <-. simpl.
  rewrite (proj2 (N.eqb_neq c op)) by exact Hne. reflexivity.
Qed.

Lemma Sentence_rule_conjunction rest :
  closing rest ->
  SentenceLang.Sentence_rule F (wL ++ js " & " ++ wR ++ rest)
  = P.Success (conjunction L R) rest.
Proof.
  intros Hc. change (js " & ") with [32; 38; 32]. cbn [app].
  unfold SentenceLang.Sentence_rule. cbn [P.alt].
  unfold SentenceLang.Iff, SentenceLang.Imp, SentenceLang.Or, SentenceLang.And.
  unfold connectives.biconditional, connectives.conditional, connectives.disjunction.
  rewrite !binary_rule_one
    by (apply spaced_no_symbol; [reflexivity|eexists _, _; split; [reflexivity|discriminate]]).
  change (38 :: 32 :: wR ++ rest) with ([38] ++ 32 :: wR ++ rest).
  unfold connectives.conjunction. change (js "&") with [38].
  rewrite binary_rule_two; [reflexivity|eexists _, _; split; reflexivity|].
  apply closing_no_symbol;
    [exact Hc|eexists _, _; split; [reflexivity|repeat split; discriminate]].
Qed.

Lemma Sentence_rule_nand rest :
  closing rest ->
  SentenceLang.Sentence_rule F (wL ++ js " | " ++ wR ++ rest)
  = P.Success (nand L R) rest.
Proof.
  intros Hc. change (js " | ") with [32; 124; 32]. cbn [app].
  unfold SentenceLang.Sentence_rule. cbn [P.alt].
  unfold SentenceLang.Iff, SentenceLang.Imp, SentenceLang.Or, SentenceLang.And,
    SentenceLang.Xor, SentenceLang.Nand.
  unfold connectives.biconditional, connectives.conditional, connectives.disjunction,
    connectives.conjunction, connectives.xor, connectives.nand.
  rewrite !binary_rule_one
    by (apply spaced_no_symbol; [reflexivity|eexists _, _; split; [reflexivity|discriminate]]).
  change (124 :: 32 :: wR ++ rest) with ([124] ++ 32 :: wR ++ rest).
  unfold connectives.nand. change (js "|") with [124].
  rewrite binary_rule_two; [reflexivity|eexists _, _; split; reflexivity|].
  apply closing_no_symbol;
    [exact Hc|eexists _, _; split; [reflexivity|repeat split; discriminate]].
Qed.

Lemma Sentence_rule_single rest :
  closing rest ->
  SentenceLang.Sentence_rule F (wL ++ rest) = P.Success L rest.
Proof.
  intros Hc. unfold SentenceLang.Sentence_rule. cbn [P.alt].
  unfold SentenceLang.Iff, SentenceLang.Imp, SentenceLang.Or, SentenceLang.And,
    SentenceLang.Xor, SentenceLang.Nand.
  unfold connectives.biconditional, connectives.conditional, connectives.disjunction,
    connectives.conjunction, connectives.xor, connectives.nand.
  rewrite !binary_rule_one
    by (apply closing_no_symbol;
        [exact Hc|eexists _, _; split; [reflexivity|repeat split; discriminate]]).
  rewrite HL. reflexivity.
Qed.
End BinaryRule.

Lemma reparsable_letter l :
  valid_letter l && (index l =? 0)%Z = true ->
  exists c, l = mkLetter [c] 0 /\ (65 <=? c) && (c <=? 90) = true.
Proof.
  intros H. apply andb_true_iff in H. destruct H as [Hv Hi].
  destruct (valid_letter_inv l Hv) as (c & Hid & Hc & _).
  apply Z.eqb_eq in Hi. exists c. split; [|exact Hc].
  destruct l; simpl in *; subst; reflexivity.
Qed.

Lemma Not_mismatch (F : P.Parser Sentence) c rest :
  c <> 126 -> SentenceLang.Not F (c :: rest) = P.Failure.
Proof.
  intros H. unfold SentenceLang.Not, P.map, P.seq3. unfold P.chain at 1 2.
  unfold alt_strings, connectives.negation. cbn [List.map P.alt]. unfold P.string.
  change (js "~") with [126]. cbn [P.strip_prefix].
  rewrite (proj2 (N.eqb_neq 126 c)) by congruence. reflexivity.
Qed.

Lemma Not_reads (F : P.Parser Sentence) a w rest :
  F (w ++ rest) = P.Success a rest -> starts_solid (w ++ rest) ->
  SentenceLang.Not F (js "~" ++ w ++ rest) = P.Success (negation a) rest.
Proof.
  intros HF Hsolid. unfold SentenceLang.Not, P.map, P.seq3. unfold P.chain at 1 2.
  unfold alt_strings, connectives.negation. cbn [List.map P.alt]. unfold P.string.
  rewrite strip_prefix_app. unfold P.chain at 1. unfold P.optWhitespace.
  rewrite span_whitespace_solid by exact Hsolid.
  unfold P.chain. rewrite HF. reflexivity.
Qed.

Lemma Wrapped_mismatch (S : P.Parser Sentence) c rest :
  c <> 40 -> c <> 91 -> c <> 123 -> SentenceLang.Wrapped S (c :: rest) = P.Failure.
Proof.
  intros H1 H2 H3. unfold SentenceLang.Wrapped, P.assert, P.map. unfold P.chain at 1 2.
  cbn [P.alt]. unfold P.seq5. unfold P.chain at 1 6 11. unfold P.string.
  change (js "(") with [40]. change (js "[") with [91]. change (js "{") with [123].
  cbn [P.strip_prefix].
  rewrite (proj2 (N.eqb_neq 40 c)), (proj2 (N.eqb_neq 91 c)), (proj2 (N.eqb_neq 123 c))
    by congruence.
  reflexivity.
Qed.

Lemma Wrapped_reads (S : P.Parser Sentence) s input rest :
  S input = P.Success s (41 :: rest) ->
  starts_solid input ->
  is_negation_or_letter s = false ->
  SentenceLang.Wrapped S (40 :: input) = P.Success s rest.
Proof.
  intros HS Hsolid Hs. unfold SentenceLang.Wrapped, P.assert, P.map. unfold P.chain at 1 2.
  cbn [P.alt]. unfold P.seq5 at 1. unfold P.chain at 1. unfold P.string at 1.
  change (js "(") with [40]. cbn [P.strip_prefix]. rewrite N.eqb_refl.
  unfold P.chain at 1. unfold P.optWhitespace at 1.
  rewrite span_whitespace_solid by exact Hsolid.
  unfold P.chain at 1. rewrite HS.
  unfold P.chain at 1. unfold P.optWhitespace at 1.
  cbn [P.span_whitespace].
  change (is_whitespace 41) with false. cbn iota.
  unfold P.chain at 1. unfold P.string at 1. change (js ")") with [41].
  cbn [P.strip_prefix]. rewrite N.eqb_refl. cbn [P.succeed].
  rewrite Hs. reflexivity.
Qed.

Lemma Letter_reads c rest :
  (65 <=? c) && (c <=? 90) = true ->
  SentenceLang.Letter (c :: rest) = P.Success (letter (mkLetter [c] 0)) rest.
Proof.
  intros H. unfold SentenceLang.Letter, P.map, P.chain, P.regexp_upper.
  rewrite H. reflexivity.
Qed.

Lemma upper_bounds c : (65 <=? c) && (c <=? 90) = true -> 65 <= c <= 90.
Proof.
  intros H. apply andb_true_iff in H. destruct H as [H1 H2].
  apply N.leb_le in H1, H2. lia.
Qed.

(** [Factor] reads the wrapped spaced form of a re-parsable sentence back,
    whatever follows it, as soon as the fuel exceeds the nesting depth. *)
Lemma Factor_reads s : forall fuel rest,
  reparsable s = true -> (depth s < fuel)%nat ->
  SentenceLang.Factor fuel (wrap_if_needed s ++ rest) = P.Success s rest.
Proof.
  induction s as [v|l|a IHa|a IHa b IHb|a IHa b IHb|a IHa b IHb
                 |a IHa b IHb|a IHa b IHb|a IHa b IHb];
    intros [|fuel] rest Hs Hd; simpl in Hs, Hd; try discriminate Hs; try lia.
  - destruct (reparsable_letter l Hs) as (c & -> & Hc).
    pose proof (upper_bounds c Hc) as Hb.
    cbn [SentenceLang.Factor]. unfold SentenceLang.Factor_rule. cbn [P.alt].
    unfold wrap_if_needed, wrap_if_needed_with, sentence_to_string, letter_string.
    cbn [id index Z.ltb Z.compare app].
    rewrite Not_mismatch, Wrapped_mismatch, Letter_reads by (try exact Hc; lia).
    reflexivity.
  - cbn [SentenceLang.Factor]. unfold SentenceLang.Factor_rule. cbn [P.alt].
    change (wrap_if_needed (negation a)) with (js "~" ++ wrap_if_needed a).
    rewrite <- app_assoc.
    rewrite (Not_reads _ a);
      [reflexivity|apply IHa; [exact Hs|lia]|apply wrap_if_needed_solid; exact Hs].
  - apply andb_true_iff in Hs. destruct Hs as [Ha Hb].
    cbn [SentenceLang.Factor]. unfold SentenceLang.Factor_rule. cbn [P.alt].
    change (wrap_if_needed (conjunction a b))
      with ([40] ++ (wrap_if_needed a ++ js " & " ++ wrap_if_needed b) ++ [41]).
    rewrite <- !app_assoc. cbn [app].
    rewrite Not_mismatch by discriminate.
    rewrite (Wrapped_reads _ (conjunction a b) _ rest); [reflexivity| |  |reflexivity].
    + apply Sentence_rule_conjunction; [| | |right; exists 41, rest; auto].
      * intros r. apply IHa; [exact Ha|lia].
      * intros r. apply IHb; [exact Hb|lia].
      * intros r. apply wrap_if_needed_solid. exact Hb.
    + apply wrap_if_needed_solid. exact Ha.
  - apply andb_true_iff in Hs. destruct Hs as [Ha Hb].
    cbn [SentenceLang.Factor]. unfold SentenceLang.Factor_rule. cbn [P.alt].
    change (wrap_if_needed (nand a b))
      with ([40] ++ (wrap_if_needed a ++ js " | " ++ wrap_if_needed b) ++ [41]).
    rewrite <- !app_assoc. cbn [app].
    rewrite Not_mismatch by discriminate.
    rewrite (Wrapped_reads _ (nand a b) _ rest); [reflexivity| |  |reflexivity].
    + apply Sentence_rule_nand; [| | |right; exists 41, rest; auto].
      * intros r. apply IHa; [exact Ha|lia].
      * intros r. apply IHb; [exact Hb|lia].
      * intros r. apply wrap_if_needed_solid. exact Hb.
    + apply wrap_if_needed_solid. exact Ha.
Qed.

Lemma trimStart_solid s : starts_solid s -> trimStart s = s.
Proof. intros (c & r & -> & Hc). simpl. rewrite Hc. reflexivity. Qed.

Lemma trim_solid s : starts_solid s -> ends_solid s -> trim s = s.
Proof.
  intros Hs (r & c & -> & Hc). unfold trim, trimEnd.
  rewrite (trimStart_solid (r ++ [c])) by exact Hs.
  rewrite rev_app_distr. simpl. rewrite Hc. simpl.
  rewrite rev_involutive. reflexivity.
Qed.

Lemma upper_not_whitespace c : (65 <=? c) && (c <=? 90) = true -> is_whitespace c = false.
Proof.
  intros H. apply upper_bounds in H. unfold is_whitespace.
  repeat (rewrite (proj2 (N.eqb_neq _ _)) by lia). simpl.
  destruct (N.leb_spec 8192 c); [lia|]. reflexivity.
Qed.

Lemma wrap_if_needed_ends s : reparsable s = true -> ends_solid (wrap_if_needed s).
Proof.
  induction s as [v|l|a IHa|a IHa b IHb|a IHa b IHb|a IHa b IHb
                 |a IHa b IHb|a IHa b IHb|a IHa b IHb]; intros Hs; simpl in Hs;
    try discriminate Hs.
  - destruct (reparsable_letter l Hs) as (c & -> & Hc).
    exists [], c. split; [reflexivity|apply upper_not_whitespace, Hc].
  - destruct (IHa Hs) as (r & c & E & Hc).
    change (wrap_if_needed (negation a)) with (126 :: wrap_if_needed a).
    rewrite E. exists (126 :: r), c. split; [reflexivity|exact Hc].
  - change (wrap_if_needed (conjunction a b))
      with (js "(" ++ (wrap_if_needed a ++ js " & " ++ wrap_if_needed b) ++ [41]).
    rewrite app_assoc. eexists _, 41. split; reflexivity.
  - change (wrap_if_needed (nand a b))
      with (js "(" ++ (wrap_if_needed a ++ js " | " ++ wrap_if_needed b) ++ [41]).
    rewrite app_assoc. eexists _, 41. split; reflexivity.
Qed.

Lemma sentence_to_string_ends s : reparsable s = true -> ends_solid (sentence_to_string s).
Proof.
  destruct s as [v|l|a|a b|a b|a b|a b|a b|a b]; intros Hs; try discriminate Hs.
  - apply (wrap_if_needed_ends (letter l) Hs).
  - apply (wrap_if_needed_ends (negation a) Hs).
  - simpl in Hs. apply andb_true_iff in Hs. destruct Hs as [_ Hb].
    destruct (wrap_if_needed_ends b Hb) as (r & c & E & Hc).
    change (sentence_to_string (conjunction a b))
      with (wrap_if_needed a ++ js " & " ++ wrap_if_needed b).
    rewrite E, !app_assoc. eexists _, c. split; [reflexivity|exact Hc].
  - simpl in Hs. apply andb_true_iff in Hs. destruct Hs as [_ Hb].
    destruct (wrap_if_needed_ends b Hb) as (r & c & E & Hc).
    change (sentence_to_string (nand a b))
      with (wrap_if_needed a ++ js " | " ++ wrap_if_needed b).
    rewrite E, !app_assoc. eexists _, c. split; [reflexivity|exact Hc].
Qed.

Lemma sentence_to_string_solid s : reparsable s = true -> starts_solid (sentence_to_string s).
Proof.
  destruct s as [v|l|a|a b|a b|a b|a b|a b|a b]; intros Hs; try discriminate Hs.
  - rewrite <- (app_nil_r _). apply (wrap_if_needed_solid (letter l) [] Hs).
  - rewrite <- (app_nil_r _). apply (wrap_if_needed_solid (negation a) [] Hs).
  - simpl in Hs. apply andb_true_iff in Hs. destruct Hs as [Ha _].
    apply (wrap_if_needed_solid a _ Ha).
  - simpl in Hs. apply andb_true_iff in Hs. destruct Hs as [Ha _].
    apply (wrap_if_needed_solid a _ Ha).
Qed.

Lemma depth_lt_length s : reparsable s = true -> (depth s < length (wrap_if_needed s))%nat.
Proof.
  induction s as [v|l|a IHa|a IHa b IHb|a IHa b IHb|a IHa b IHb
                 |a IHa b IHb|a IHa b IHb|a IHa b IHb]; intros Hs; simpl in Hs;
    try discriminate Hs.
  - destruct (reparsable_letter l Hs) as (c & -> & Hc). simpl. lia.
  - change (wrap_if_needed (negation a)) with (126 :: wrap_if_needed a).
    specialize (IHa Hs). simpl. lia.
  - apply andb_true_iff in Hs. destruct Hs as [Ha Hb].
    specialize (IHa Ha). specialize (IHb Hb).
    change (wrap_if_needed (conjunction a b))
      with (js "(" ++ (wrap_if_needed a ++ js " & " ++ wrap_if_needed b) ++ [41]).
    rewrite !length_app. simpl. lia.
  - apply andb_true_iff in Hs. destruct Hs as [Ha Hb].
    specialize (IHa Ha). specialize (IHb Hb).
    change (wrap_if_needed (nand a b))
      with (js "(" ++ (wrap_if_needed a ++ js " | " ++ wrap_if_needed b) ++ [41]).
    rewrite !length_app. simpl. lia.
Qed.

(** Re-parsing the spaced form of a re-parsable sentence gives the
    sentence back. *)
Lemma reparse s : reparsable s = true -> parse_sentence (sentence_to_string s) = Some (ResOk s).
Proof.
  intros Hs. unfold parse_sentence.
  rewrite trim_solid by (apply sentence_to_string_solid || apply sentence_to_string_ends; exact Hs).
  set (fuel := S (length (sentence_to_string s))).
  enough (SentenceLang.Sentence fuel (sentence_to_string s) = P.Success s []) as E.
  { unfold P.parse, P.skip. unfold P.chain at 1. rewrite E. reflexivity. }
  unfold SentenceLang.Sentence.
  destruct s as [v|l|a|a b|a b|a b|a b|a b|a b]; try discriminate Hs.
  - rewrite <- (app_nil_r (sentence_to_string _)).
    apply (Sentence_rule_single _ (letter l)); [|left; reflexivity].
    intros r. apply (Factor_reads (letter l)); [exact Hs|]. simpl. lia.
  - rewrite <- (app_nil_r (sentence_to_string _)).
    apply (Sentence_rule_single _ (negation a)); [|left; reflexivity].
    intros r. apply (Factor_reads (negation a)); [exact Hs|].
    pose proof (depth_lt_length (negation a) Hs) as H.
    change (wrap_if_needed (negation a)) with (sentence_to_string (negation a)) in H.
    unfold fuel. lia.
  - simpl in Hs. apply andb_true_iff in Hs. destruct Hs as [Ha Hb].
    change (sentence_to_string (conjunction a b))
      with (wrap_if_needed a ++ js " & " ++ wrap_if_needed b) in *.
    rewrite <- (app_nil_r (wrap_if_needed b)).
    pose proof (depth_lt_length a Ha). pose proof (depth_lt_length b Hb).
    assert (length (wrap_if_needed a) + length (wrap_if_needed b) < fuel)%nat
      by (unfold fuel; rewrite !length_app; lia).
    apply Sentence_rule_conjunction; [| | |left; reflexivity].
    + intros r. apply Factor_reads; [exact Ha|lia].
    + intros r. apply Factor_reads; [exact Hb|lia].
    + intros r. apply wrap_if_needed_solid. exact Hb.
  - simpl in Hs. apply andb_true_iff in Hs. destruct Hs as [Ha Hb].
    change (sentence_to_string (nand a b))
      with (wrap_if_needed a ++ js " | " ++ wrap_if_needed b) in *.
    rewrite <- (app_nil_r (wrap_if_needed b)).
    pose proof (depth_lt_length a Ha). pose proof (depth_lt_length b Hb).
    assert (length (wrap_if_needed a) + length (wrap_if_needed b) < fuel)%nat
      by (unfold fuel; rewrite !length_app; lia).
    apply Sentence_rule_nand; [| | |left; reflexivity].
    + intros r. apply Factor_reads; [exact Ha|lia].
    + intros r. apply Factor_reads; [exact Hb|lia].
    + intros r. apply wrap_if_needed_solid. exact Hb.
Qed.

(* ===================================================================== *)
(** ** Parser: what a parse result looks like *)
(* ===================================================================== *)

Lemma post_chain {A B} (p : P.Parser A) (f : A -> P.Parser B) Q R :
  post p Q -> (forall v, Q v -> post (f v) R) -> post (P.chain p f) R.
Proof.
  intros Hp Hf input v rest. unfold P.chain.
  destruct (p input) as [a r| |] eqn:E; try discriminate.
  intros H. eapply Hf; [eapply Hp; exact E|exact H].
Qed.

Lemma post_weaken {A} (p : P.Parser A) (Q R : A -> Prop) :
  post p Q -> (forall v, Q v -> R v) -> post p R.
Proof. intros Hp H input v rest E. apply H. eapply Hp. exact E. Qed.

Lemma post_succeed {A} (v : A) (Q : A -> Prop) : Q v -> post (P.succeed v) Q.
Proof. intros H input w rest [= <- _]. exact H. Qed.

Lemma post_fail {A} m (Q : A -> Prop) : post (P.fail m) Q.
Proof. intros input w rest. discriminate. Qed.

Lemma post_any {A} (p : P.Parser A) : post p (fun _ => True).
Proof. intros input v rest _. exact I. Qed.

Lemma post_map {A B} (p : P.Parser A) (f : A -> B) Q (R : B -> Prop) :
  post p Q -> (forall v, Q v -> R (f v)) -> post (P.map p f) R.
Proof.
  intros Hp Hf. unfold P.map. eapply post_chain; [exact Hp|].
  intros v Hv. apply post_succeed, Hf, Hv.
Qed.

Lemma post_assert {A} (p : P.Parser A) c m (Q : A -> Prop) :
  post p Q -> post (P.assert p c m) (fun v => Q v /\ c v = true).
Proof.
  intros Hp. unfold P.assert. eapply post_chain; [exact Hp|].
  intros v Hv. destruct (c v) eqn:E; [apply post_succeed; auto|apply post_fail].
Qed.

Lemma post_alt {A} (ps : list (P.Parser A)) (Q : A -> Prop) :
  Forall (fun p => post p Q) ps -> post (P.alt ps) Q.
Proof.
  induction 1 as [|p ps Hp _ IH]; intros input v rest; simpl; [discriminate|].
  destruct (p input) as [a r| |] eqn:E; try discriminate.
  - intros [= <- _]. eapply Hp. exact E.
  - apply IH.
Qed.

Lemma post_many {A} (p : P.Parser A) (Q : A -> Prop) :
  post p Q -> post (P.many p) (Forall Q).
Proof.
  intros Hp input. unfold P.many. generalize (S (length input)) as n.
  intros n. revert input. induction n as [|n IH]; intros input v rest; simpl;
    [discriminate|].
  destruct (p input) as [a r| |] eqn:E; try discriminate.
  - destruct (length r <? length input)%nat; [|discriminate].
    destruct (P.many_loop p n r) as [vs r'| |] eqn:E'; try discriminate.
    intros [= <- _]. constructor; [eapply Hp; exact E|eapply IH; exact E'].
  - intros [= <- _]. constructor.
Qed.

Lemma post_sepBy {A B} (p : P.Parser A) (sep : P.Parser B) (Q : A -> Prop) :
  post p Q -> post (P.sepBy p sep) (Forall Q).
Proof.
  intros Hp. unfold P.sepBy. apply post_alt. repeat constructor.
  - unfold P.sepBy1. eapply post_chain; [exact Hp|]. intros r Hr.
    eapply post_map.
    + apply post_many. unfold P.then_. eapply post_chain; [apply post_any|].
      intros _ _. exact Hp.
    + intros rs Hrs. constructor; assumption.
  - apply post_succeed. constructor.
Qed.

Lemma post_regexp_upper :
  post P.regexp_upper (fun v => exists c, v = [c] /\ (65 <=? c) && (c <=? 90) = true).
Proof.
  intros [|c input] v rest; simpl; [discriminate|].
  destruct ((65 <=? c) && (c <=? 90)) eqn:E; [|discriminate].
  intros [= <- _]. eauto.
Qed.

Lemma post_binary_rule (F : P.Parser Sentence) symbols build (Q : Sentence -> Prop) :
  post F Q -> (forall a b, Q a -> Q b -> Q (build a b)) ->
  post (SentenceLang.binary_rule F symbols build) Q.
Proof.
  intros HF Hb. unfold SentenceLang.binary_rule.
  eapply post_map; [apply post_assert, post_sepBy, HF|].
  intros ops [Hops Hlen]. destruct ops as [|a [|b [|? ?]]]; try discriminate Hlen.
  inversion Hops as [|? ? Ha Hrest]; subst. inversion Hrest; subst.
  apply Hb; assumption.
Qed.

Lemma post_Factor fuel : post (SentenceLang.Factor fuel) (fun s => parsed_shape s = true).
Proof.
  induction fuel as [|fuel IH]; [intros input v rest; discriminate|].
  change (SentenceLang.Factor (S fuel))
    with (SentenceLang.Factor_rule (SentenceLang.Factor fuel)
            (SentenceLang.Sentence_rule (SentenceLang.Factor fuel))).
  assert (HS : post (SentenceLang.Sentence_rule (SentenceLang.Factor fuel))
                    (fun s => parsed_shape s = true)).
  { unfold SentenceLang.Sentence_rule. apply post_alt.
    repeat constructor; try exact IH;
      (apply post_binary_rule; [exact IH|]; intros a b Ha Hb; simpl; rewrite Ha, Hb;
       reflexivity). }
  unfold SentenceLang.Factor_rule. apply post_alt. repeat constructor.
  - unfold SentenceLang.Not. eapply post_map.
    + unfold P.seq3. eapply post_chain; [apply post_any|]. intros a _.
      eapply post_chain; [apply post_any|]. intros b _.
      eapply post_chain; [exact IH|]. intros c Hc.
      apply (post_succeed _ (fun '(_, _, s) => parsed_shape s = true)). exact Hc.
    + intros [[? ?] s] Hs. exact Hs.
  - unfold SentenceLang.Wrapped.
    eapply post_weaken.
    + apply post_assert. eapply post_map.
      * apply post_alt. repeat constructor.
        all: unfold P.seq5; eapply post_chain; [apply post_any|]; intros a _;
          eapply post_chain; [apply post_any|]; intros b _;
          eapply post_chain; [exact HS|]; intros c Hc;
          eapply post_chain; [apply post_any|]; intros d _;
          eapply post_chain; [apply post_any|]; intros e _;
          apply (post_succeed _ (fun '(_, _, s, _, _) => parsed_shape s = true)); exact Hc.
      * intros [[[[? ?] s] ?] ?] Hs. exact Hs.
    + intros s [Hs _]. exact Hs.
  - unfold SentenceLang.Letter. eapply post_map; [apply post_regexp_upper|].
    intros v (c & -> & Hc). simpl. unfold valid_letter. simpl. rewrite Hc. reflexivity.
Qed.

Lemma parse_sentence_shape input s :
  parse_sentence input = Some (ResOk s) -> parsed_shape s = true.
Proof.
  unfold parse_sentence, P.parse, P.skip.
  set (fuel := S (length (trim input))).
  assert (H : post (P.chain (SentenceLang.Sentence fuel)
                      (fun a => P.chain P.eof (fun _ => P.succeed a)))
                   (fun s => parsed_shape s = true)).
  { eapply post_chain.
    - unfold SentenceLang.Sentence, SentenceLang.Sentence_rule. apply post_alt.
      repeat constructor; try apply post_Factor;
        (apply post_binary_rule; [apply post_Factor|]; intros a b Ha Hb; simpl;
         rewrite Ha, Hb; reflexivity).
    - intros a Ha. eapply post_chain; [apply post_any|]. intros _ _.
      apply post_succeed. exact Ha. }
  destruct (P.chain _ _ (trim input)) as [v r| |] eqn:E; try discriminate.
  intros [= <-]. eapply H. exact E.
Qed.

(** Parse results lie in the class on which the compact rendering is
    injective: their letters follow the data model and they contain no
    constant. *)
Lemma parsed_shape_compact_class s :
  parsed_shape s = true -> valid_letters s = true /\ value_free s = true.
Proof.
  induction s as [v|l|a IHa|a IHa b IHb|a IHa b IHb|a IHa b IHb
                 |a IHa b IHb|a IHa b IHb|a IHa b IHb]; simpl; intros H;
    try discriminate H; try (apply IHa; exact H).
  1: { apply andb_true_iff in H. destruct H as [H _]. auto. }
  all: apply andb_true_iff in H; destruct H as [Ha Hb];
    destruct (IHa Ha) as [-> ->]; destruct (IHb Hb) as [-> ->]; auto.
Qed.

Lemma parsed_ascii_reparsable s :
  parsed_shape s = true -> ascii_connectives s = true -> reparsable s = true.
Proof.
  induction s as [v|l|a IHa|a IHa b IHb|a IHa b IHb|a IHa b IHb
                 |a IHa b IHb|a IHa b IHb|a IHa b IHb]; simpl; intros Hp Ha';
    try discriminate; try assumption; try (apply IHa; assumption).
  all: apply andb_true_iff in Hp; destruct Hp as [Hp1 Hp2];
    apply andb_true_iff in Ha'; destruct Ha' as [Ha1 Ha2];
    rewrite IHa, IHb by assumption; reflexivity.
Qed.



(* ===================================================================== *)
(** ** Parser: the fuel never runs out *)
(* ===================================================================== *)

Lemma runs_weaken {A} b (p : P.Parser A) n : runs true p n -> runs b p n.
Proof.
  intros H input Hn. specialize (H input Hn).
  destruct (p input); [|exact H|exact H]. destruct b; lia.
Qed.

Lemma runs_chain {A B} b (p : P.Parser A) (f : A -> P.Parser B) n :
  runs b p n -> (forall v, runs false (f v) n) -> runs b (P.chain p f) n.
Proof.
  intros Hp Hf input Hn. unfold P.chain. specialize (Hp input Hn).
  destruct (p input) as [v r| |]; [|exact I|exact Hp].
  assert (length r < n)%nat as Hr by (destruct b; lia).
  specialize (Hf v r Hr). destruct (f v r); [|exact I|exact Hf].
  destruct b; lia.
Qed.

Lemma runs_chain_dec {A B} b (p : P.Parser A) (f : A -> P.Parser B) n :
  runs true p (S n) -> (forall v, runs false (f v) n) -> runs b (P.chain p f) (S n).
Proof.
  intros Hp Hf input Hn. unfold P.chain. specialize (Hp input Hn).
  destruct (p input) as [v r| |]; [|exact I|exact Hp].
  assert (length r < n)%nat as Hr by lia.
  specialize (Hf v r Hr). destruct (f v r); [|exact I|exact Hf].
  destruct b; lia.
Qed.

Lemma runs_succeed {A} (v : A) n : runs false (P.succeed v) n.
Proof. intros input _. simpl. lia. Qed.

Lemma runs_fail {A} b m n : runs b (@P.fail A m) n.
Proof. intros input _. exact I. Qed.

Lemma runs_map {A B} b (p : P.Parser A) (f : A -> B) n : runs b p n -> runs b (P.map p f) n.
Proof. intros H. apply runs_chain; [exact H|]. intros v. apply runs_succeed. Qed.

Lemma runs_assert {A} b (p : P.Parser A) c m n : runs b p n -> runs b (P.assert p c m) n.
Proof.
  intros H. apply runs_chain; [exact H|]. intros v.
  destruct (c v); [apply runs_succeed|apply runs_fail].
Qed.

Lemma runs_alt {A} b (ps : list (P.Parser A)) n :
  Forall (fun p => runs b p n) ps -> runs b (P.alt ps) n.
Proof.
  induction 1 as [|p ps Hp _ IH]; intros input Hn; simpl; [exact I|].
  specialize (Hp input Hn). destruct (p input); [exact Hp|apply IH; exact Hn|exact Hp].
Qed.

Lemma strip_prefix_length str : forall input rest,
  P.strip_prefix str input = Some rest -> length input = (length str + length rest)%nat.
Proof.
  induction str as [|c str IH]; intros [|d input] rest; simpl; try discriminate.
  - intros [= <-]. reflexivity.
  - intros [= <-]. reflexivity.
  - destruct (c =? d); [|discriminate]. intros H. rewrite (IH _ _ H). reflexivity.
Qed.

Lemma runs_string str n : str <> [] -> runs true (P.string str) n.
Proof.
  intros Hne input _. unfold P.string.
  destruct (P.strip_prefix str input) as [rest|] eqn:E; [|exact I].
  apply strip_prefix_length in E. destruct str; [congruence|]. simpl in E. lia.
Qed.

Lemma span_whitespace_length input :
  (length (snd (P.span_whitespace input)) <= length input)%nat.
Proof.
  induction input as [|c input IH]; simpl; [lia|].
  destruct (is_whitespace c); [|simpl; lia].
  destruct (P.span_whitespace input) as [ws r]. simpl in *. lia.
Qed.

Lemma runs_optWhitespace n : runs false P.optWhitespace n.
Proof.
  intros input _. unfold P.optWhitespace.
  pose proof (span_whitespace_length input) as H.
  destruct (P.span_whitespace input) as [ws r]. exact H.
Qed.

Lemma runs_regexp_upper n : runs true P.regexp_upper n.
Proof.
  intros [|c input] _; simpl; [exact I|].
  destruct ((65 <=? c) && (c <=? 90)); [lia|exact I].
Qed.

Lemma runs_eof n : runs false P.eof n.
Proof. intros [|c input] _; simpl; [lia|exact I]. Qed.

Lemma runs_many {A} (p : P.Parser A) n : runs true p n -> runs false (P.many p) n.
Proof.
  intros Hp input Hn. unfold P.many.
  assert (Hm : (length input < S (length input))%nat) by lia.
  revert Hm. generalize (S (length input)) as m. intros m. revert input Hn.
  induction m as [|m IH]; intros input Hn Hm; [lia|]. simpl.
  specialize (Hp input Hn). destruct (p input) as [v r| |]; [|lia|exact Hp].
  destruct (Nat.ltb_spec (length r) (length input)) as [Hlt|Hge]; [|lia].
  assert (length r < n)%nat as Hr by lia.
  assert (length r < m)%nat as Hr' by lia.
  specialize (IH r Hr Hr'). destruct (P.many_loop p m r); [lia|exact IH|exact IH].
Qed.

Lemma runs_sepBy {A B} (p : P.Parser A) (sep : P.Parser B) n :
  runs true p n -> runs false sep n -> runs false (P.sepBy p sep) n.
Proof.
  intros Hp Hs. unfold P.sepBy. apply runs_alt.
  constructor; [|constructor; [|constructor]].
  - unfold P.sepBy1. apply runs_chain; [apply runs_weaken; exact Hp|]. intros r.
    apply runs_map, runs_many. unfold P.then_.
    intros input Hn. unfold P.chain. specialize (Hs input Hn).
    destruct (sep input) as [v r'| |]; [|exact I|exact Hs].
    assert (length r' < n)%nat as Hr by lia.
    specialize (Hp r' Hr). destruct (p r'); [lia|exact I|exact Hp].
  - apply runs_succeed.
Qed.

Lemma runs_alt_strings strs n :
  Forall (fun s => s <> []) strs -> runs true (alt_strings strs) n.
Proof.
  intros H. unfold alt_strings. apply runs_alt.
  induction H as [|s strs Hs _ IH]; simpl; constructor; [apply runs_string, Hs|exact IH].
Qed.

Lemma runs_binary_rule (F : P.Parser Sentence) symbols build n :
  runs true F n -> Forall (fun s => s <> []) symbols ->
  runs false (SentenceLang.binary_rule F symbols build) n.
Proof.
  intros HF Hsym. unfold SentenceLang.binary_rule.
  apply runs_map, runs_assert, runs_sepBy; [exact HF|].
  unfold P.seq3. apply runs_chain; [apply runs_optWhitespace|]. intros a.
  apply runs_chain; [apply runs_weaken, runs_alt_strings, Hsym|]. intros b.
  apply runs_chain; [apply runs_optWhitespace|]. intros c. apply runs_succeed.
Qed.

Lemma runs_Sentence_rule (F : P.Parser Sentence) n :
  runs true F n -> runs false (SentenceLang.Sentence_rule F) n.
Proof.
  intros HF. unfold SentenceLang.Sentence_rule. apply runs_alt.
  repeat constructor; try (apply runs_weaken; exact HF);
    (apply runs_binary_rule; [exact HF|repeat constructor; discriminate]).
Qed.

Lemma runs_Factor fuel : runs true (SentenceLang.Factor fuel) fuel.
Proof.
  induction fuel as [|fuel IH]; [intros input Hn; lia|].
  change (SentenceLang.Factor (S fuel))
    with (SentenceLang.Factor_rule (SentenceLang.Factor fuel)
            (SentenceLang.Sentence_rule (SentenceLang.Factor fuel))).
  unfold SentenceLang.Factor_rule. apply runs_alt. repeat constructor.
  - unfold SentenceLang.Not. apply runs_map. unfold P.seq3.
    apply runs_chain_dec; [apply runs_alt_strings; repeat constructor; discriminate|].
    intros a. apply runs_chain; [apply runs_optWhitespace|]. intros b.
    apply runs_chain; [apply runs_weaken; exact IH|]. intros c. apply runs_succeed.
  - unfold SentenceLang.Wrapped. apply runs_assert, runs_map, runs_alt.
    repeat constructor.
    all: unfold P.seq5; apply runs_chain_dec; [apply runs_string; discriminate|];
      intros a; apply runs_chain; [apply runs_optWhitespace|]; intros b;
      apply runs_chain; [apply runs_Sentence_rule; exact IH|]; intros c;
      apply runs_chain; [apply runs_optWhitespace|]; intros d;
      apply runs_chain; [apply runs_weaken, runs_string; discriminate|]; intros e;
      apply runs_succeed.
  - unfold SentenceLang.Letter. apply runs_map, runs_regexp_upper.
Qed.

(** [parse_sentence] always answers: the fuel it starts with is enough
    for every input. *)
Lemma parse_sentence_returns input :
  exists r, parse_sentence input = Some r.
Proof.
  unfold parse_sentence, P.parse, P.skip.
  assert (H : runs false
                (P.chain (SentenceLang.Sentence (S (length (trim input))))
                   (fun a => P.chain P.eof (fun _ => P.succeed a)))
                (S (length (trim input)))).
  { apply runs_chain; [apply runs_Sentence_rule, runs_Factor|]. intros a.
    apply runs_chain; [apply runs_eof|]. intros u. apply runs_succeed. }
  specialize (H (trim input) (Nat.lt_succ_diag_r _)).
  destruct (P.chain _ _ (trim input)); [eauto|eauto|contradiction].
Qed.

(* ===================================================================== *)
(** ** Parser: the characters it reads *)
(* ===================================================================== *)

Lemma strip_prefix_Some str : forall input rest,
  P.strip_prefix str input = Some rest -> input = str ++ rest.
Proof.
  induction str as [|c str IH]; intros [|d input] rest; simpl; try discriminate.
  - intros [= <-]. reflexivity.
  - intros [= <-]. reflexivity.
  - destruct (N.eqb_spec c d) as [->|]; [|discriminate].
    intros H. rewrite (IH _ _ H). reflexivity.
Qed.

Lemma span_whitespace_spec input : forall ws rest,
  P.span_whitespace input = (ws, rest) ->
  input = ws ++ rest /\ Forall (fun c => readable c = true) ws.
Proof.
  induction input as [|c input IH]; intros ws rest; simpl.
  - intros [= <- <-]. split; [reflexivity|constructor].
  - destruct (is_whitespace c) eqn:E.
    + destruct (P.span_whitespace input) as [ws' rest'].
      intros [= <- <-]. destruct (IH _ _ eq_refl) as [-> H].
      split; [reflexivity|]. constructor; [|exact H].
      unfold readable. rewrite E. apply orb_true_r.
    + intros [= <- <-]. split; [reflexivity|constructor].
Qed.

Lemma reads_chain {A B} (p : P.Parser A) (f : A -> P.Parser B) :
  reads p -> (forall v, reads (f v)) -> reads (P.chain p f).
Proof.
  intros Hp Hf input v rest. unfold P.chain.
  destruct (p input) as [a r| |] eqn:E; try discriminate.
  intros H. destruct (Hp _ _ _ E) as (pre1 & -> & F1).
  destruct (Hf _ _ _ _ H) as (pre2 & -> & F2).
  exists (pre1 ++ pre2). split; [apply app_assoc|]. apply Forall_app. auto.
Qed.

Lemma reads_succeed {A} (v : A) : reads (P.succeed v).
Proof. intros input w rest [= _ <-]. exists []. split; [reflexivity|constructor]. Qed.

Lemma reads_fail {A} m : reads (@P.fail A m).
Proof. intros input w rest. discriminate. Qed.

Lemma reads_map {A B} (p : P.Parser A) (f : A -> B) : reads p -> reads (P.map p f).
Proof. intros H. apply reads_chain; [exact H|]. intros v. apply reads_succeed. Qed.

Lemma reads_assert {A} (p : P.Parser A) c m : reads p -> reads (P.assert p c m).
Proof.
  intros H. apply reads_chain; [exact H|]. intros v.
  destruct (c v); [apply reads_succeed|apply reads_fail].
Qed.

Lemma reads_alt {A} (ps : list (P.Parser A)) : Forall reads ps -> reads (P.alt ps).
Proof.
  induction 1 as [|p ps Hp _ IH]; intros input v rest; simpl; [discriminate|].
  destruct (p input) as [a r| |] eqn:E; try discriminate.
  - intros [= <- <-]. eapply Hp. exact E.
  - apply IH.
Qed.

Lemma reads_string str : Forall (fun c => readable c = true) str -> reads (P.string str).
Proof.
  intros H input v rest. unfold P.string.
  destruct (P.strip_prefix str input) as [r|] eqn:E; [|discriminate].
  intros [= _ <-]. apply strip_prefix_Some in E. eauto.
Qed.

Lemma reads_regexp_upper : reads P.regexp_upper.
Proof.
  intros [|c input] v rest; simpl; [discriminate|].
  destruct ((65 <=? c) && (c <=? 90)) eqn:E; [|discriminate].
  intros [= _ <-]. exists [c]. split; [reflexivity|]. repeat constructor.
  apply upper_bounds in E. unfold readable.
  destruct (N.ltb_spec c 128); [reflexivity|lia].
Qed.

Lemma reads_optWhitespace : reads P.optWhitespace.
Proof.
  intros input v rest. unfold P.optWhitespace.
  destruct (P.span_whitespace input) as [ws r] eqn:E. intros [= _ <-].
  destruct (span_whitespace_spec _ _ _ E) as [-> H]. eauto.
Qed.

Lemma reads_eof : reads P.eof.
Proof.
  intros [|c input] v rest; simpl; [|discriminate].
  intros [= _ <-]. exists []. split; [reflexivity|constructor].
Qed.

Lemma reads_many {A} (p : P.Parser A) : reads p -> reads (P.many p).
Proof.
  intros Hp input. unfold P.many. generalize (S (length input)) as n.
  intros n. revert input. induction n as [|n IH]; intros input v rest; simpl;
    [discriminate|].
  destruct (p input) as [a r| |] eqn:E; try discriminate.
  - destruct (length r <? length input)%nat; [|discriminate].
    destruct (P.many_loop p n r) as [vs r'| |] eqn:E'; try discriminate.
    intros [= _ <-]. destruct (Hp _ _ _ E) as (pre1 & -> & F1).
    destruct (IH _ _ _ E') as (pre2 & -> & F2).
    exists (pre1 ++ pre2). split; [apply app_assoc|]. apply Forall_app. auto.
  - intros [= _ <-]. exists []. split; [reflexivity|constructor].
Qed.

Lemma reads_sepBy {A B} (p : P.Parser A) (sep : P.Parser B) :
  reads p -> reads sep -> reads (P.sepBy p sep).
Proof.
  intros Hp Hs. unfold P.sepBy. apply reads_alt.
  constructor; [|constructor; [apply reads_succeed|constructor]].
  unfold P.sepBy1. apply reads_chain; [exact Hp|]. intros r.
  apply reads_map, reads_many. unfold P.then_.
  apply reads_chain; [exact Hs|]. intros _. exact Hp.
Qed.

Lemma reads_alt_strings strs :
  Forall (Forall (fun c => readable c = true)) strs -> reads (alt_strings strs).
Proof.
  intros H. unfold alt_strings. apply reads_alt.
  induction H as [|s strs Hs _ IH]; simpl; constructor; [apply reads_string, Hs|exact IH].
Qed.

Lemma reads_binary_rule (F : P.Parser Sentence) symbols build :
  reads F -> Forall (Forall (fun c => readable c = true)) symbols ->
  reads (SentenceLang.binary_rule F symbols build).
Proof.
  intros HF Hsym. unfold SentenceLang.binary_rule.
  apply reads_map, reads_assert, reads_sepBy; [exact HF|].
  unfold P.seq3. apply reads_chain; [apply reads_optWhitespace|]. intros a.
  apply reads_chain; [apply reads_alt_strings, Hsym|]. intros b.
  apply reads_chain; [apply reads_optWhitespace|]. intros c. apply reads_succeed.
Qed.

Lemma reads_Sentence_rule (F : P.Parser Sentence) :
  reads F -> reads (SentenceLang.Sentence_rule F).
Proof.
  intros HF. unfold SentenceLang.Sentence_rule. apply reads_alt.
  repeat (constructor;
    [first [exact HF|apply reads_binary_rule; [exact HF|repeat constructor]]|]).
  constructor.
Qed.

Lemma reads_Factor fuel : reads (SentenceLang.Factor fuel).
Proof.
  induction fuel as [|fuel IH]; [intros input v rest; discriminate|].
  change (SentenceLang.Factor (S fuel))
    with (SentenceLang.Factor_rule (SentenceLang.Factor fuel)
            (SentenceLang.Sentence_rule (SentenceLang.Factor fuel))).
  unfold SentenceLang.Factor_rule. apply reads_alt.
  constructor; [|constructor; [|constructor; [|constructor]]].
  - unfold SentenceLang.Not. apply reads_map. unfold P.seq3.
    apply reads_chain; [apply reads_alt_strings; repeat constructor|].
    intros a. apply reads_chain; [apply reads_optWhitespace|]. intros b.
    apply reads_chain; [exact IH|]. intros c. apply reads_succeed.
  - unfold SentenceLang.Wrapped. apply reads_assert, reads_map, reads_alt.
    constructor; [|constructor; [|constructor; [|constructor]]].
    all: unfold P.seq5; apply reads_chain; [apply reads_string; repeat constructor|];
      intros a; apply reads_chain; [apply reads_optWhitespace|]; intros b;
      apply reads_chain; [apply reads_Sentence_rule; exact IH|]; intros c;
      apply reads_chain; [apply reads_optWhitespace|]; intros d;
      apply reads_chain; [apply reads_string; repeat constructor|]; intros e;
      apply reads_succeed.
  - unfold SentenceLang.Letter. apply reads_map, reads_regexp_upper.
Qed.

(** An accepted input consists, once trimmed, of readable characters
    only. *)
Lemma parse_sentence_readable input s :
  parse_sentence input = Some (ResOk s) ->
  Forall (fun c => readable c = true) (trim input).
Proof.
  unfold parse_sentence, P.parse, P.skip.
  assert (H : reads (P.chain (SentenceLang.Sentence (S (length (trim input))))
                       (fun a => P.chain P.eof (fun _ => P.succeed a)))).
  { apply reads_chain; [apply reads_Sentence_rule, reads_Factor|]. intros a.
    apply reads_chain; [apply reads_eof|]. intros u. apply reads_succeed. }
  destruct (P.chain _ _ (trim input)) as [v r| |] eqn:E; try discriminate.
  intros _. destruct (H _ _ _ E) as (pre & Hpre & F).
  assert (r = []) as ->.
  { unfold P.chain in E.
    destruct (SentenceLang.Sentence _ (trim input)) as [a r1| |]; try discriminate.
    destruct r1; simpl in E; [injection E as _ <-; reflexivity|discriminate]. }
  rewrite Hpre, app_nil_r. exact F.
Qed.

Lemma trimStart_keeps c s : c ∈ s -> is_whitespace c = false -> c ∈ trimStart s.
Proof.
  intros Hin Hc. induction s as [|d s IH]; [inversion Hin|]. simpl.
  destruct (is_whitespace d) eqn:E; [|exact Hin].
  apply elem_of_cons in Hin. destruct Hin as [->|Hin]; [congruence|]. apply IH, Hin.
Qed.

Lemma trim_keeps c s : c ∈ s -> is_whitespace c = false -> c ∈ trim s.
Proof.
  intros Hin Hc. unfold trim, trimEnd.
  apply list_elem_of_In, in_rev. rewrite rev_involutive. apply list_elem_of_In.
  apply trimStart_keeps; [|exact Hc].
  apply list_elem_of_In, in_rev. rewrite rev_involutive. apply list_elem_of_In.
  apply trimStart_keeps; assumption.
Qed.

Lemma wrap_if_needed_keeps c s : c ∈ sentence_to_string s -> c ∈ wrap_if_needed s.
Proof.
  unfold wrap_if_needed.
  destruct s; cbn [wrap_if_needed_with]; intros H; try exact H;
    rewrite !elem_of_app; auto.
Qed.

Lemma display_symbol_printed s :
  ascii_connectives s = false ->
  exists c, c ∈ sentence_to_string s /\ readable c = false.
Proof.
  induction s as [v|l|a IHa|a IHa b IHb|a IHa b IHb|a IHa b IHb
                 |a IHa b IHb|a IHa b IHb|a IHa b IHb]; cbn [ascii_connectives];
    intros H; try discriminate H.
  1: { destruct (IHa H) as (c & Hin & Hc). exists c. split; [|exact Hc].
       cbn [sentence_to_string]. apply elem_of_app. right.
       apply (wrap_if_needed_keeps c a Hin). }
  1: { exists u2228. split; [|reflexivity]. cbn [sentence_to_string].
       rewrite !elem_of_app. right. left. apply list_elem_of_further, list_elem_of_here. }
  1: { apply andb_false_iff in H. cbn [sentence_to_string]. destruct H as [H|H].
       - destruct (IHa H) as (c & Hin & Hc). exists c. split; [|exact Hc].
         rewrite !elem_of_app. left. apply (wrap_if_needed_keeps c a Hin).
       - destruct (IHb H) as (c & Hin & Hc). exists c. split; [|exact Hc].
         rewrite !elem_of_app. right. right. apply (wrap_if_needed_keeps c b Hin). }
  1: { exists u2192. split; [|reflexivity]. cbn [sentence_to_string].
       rewrite !elem_of_app. right. left. apply list_elem_of_further, list_elem_of_here. }
  1: { exists u2194. split; [|reflexivity]. cbn [sentence_to_string].
       rewrite !elem_of_app. right. left. apply list_elem_of_further, list_elem_of_here. }
  1: { exists u2295. split; [|reflexivity]. cbn [sentence_to_string].
       rewrite !elem_of_app. right. left. apply list_elem_of_further, list_elem_of_here. }
  apply andb_false_iff in H. cbn [sentence_to_string]. destruct H as [H|H].
  - destruct (IHa H) as (c & Hin & Hc). exists c. split; [|exact Hc].
    rewrite !elem_of_app. left. apply (wrap_if_needed_keeps c a Hin).
  - destruct (IHb H) as (c & Hin & Hc). exists c. split; [|exact Hc].
    rewrite !elem_of_app. right. right. apply (wrap_if_needed_keeps c b Hin).
Qed.

(** The restriction of the round trip is exact: as soon as a sentence
    contains a disjunction, conditional, biconditional or xor, its spaced
    form is rejected. *)
Lemma reparse_display_symbol s :
  ascii_connectives s = false ->
  parse_sentence (sentence_to_string s)
  = Some (ResErr (diagnoseError (sentence_to_string s))).
Proof.
  intros H. destruct (display_symbol_printed s H) as (c & Hin & Hc).
  destruct (parse_sentence_returns (sentence_to_string s)) as [[s'|e] Hr].
  - exfalso. apply parse_sentence_readable in Hr.
    rewrite Forall_forall in Hr.
    assert (is_whitespace c = false) as Hws
      by (unfold readable in Hc; apply orb_false_iff in Hc; tauto).
    rewrite (Hr c (trim_keeps c _ Hin Hws)) in Hc. discriminate Hc.
  - rewrite Hr. unfold parse_sentence in Hr.
    destruct (P.parse _ _); try discriminate Hr. symmetry. exact Hr.
Qed.

(* ===================================================================== *)
(** ** Parser: round trip, chains and brackets *)
(* ===================================================================== *)

(** C1 fails as stated: the spaced form writes disjunction, conditional,
    biconditional and xor with symbols the parser does not read, so the
    spaced form of the parse of "A v B" (and of "A -> B", "A <-> B",
    "A + B") is rejected. *)
Lemma roundtrip_refuted :
  (parse_sentence (js "A v B") = Some (ResOk (disjunction A_ B_))
   /\ sentence_to_string (disjunction A_ B_) = [65; 32; u2228; 32; 66]
   /\ parse_sentence (sentence_to_string (disjunction A_ B_))
      = Some (ResErr (js "Syntax error (not a wff).")))
  /\ (parse_sentence (js "A -> B") = Some (ResOk (conditional A_ B_))
      /\ parse_sentence (sentence_to_string (conditional A_ B_))
         = Some (ResErr (js "Syntax error (not a wff).")))
  /\ (parse_sentence (js "A <-> B") = Some (ResOk (biconditional A_ B_))
      /\ parse_sentence (sentence_to_string (biconditional A_ B_))
         = Some (ResErr (js "Syntax error (not a wff).")))
  /\ (parse_sentence (js "A + B") = Some (ResOk (xor A_ B_))
      /\ parse_sentence (sentence_to_string (xor A_ B_))
         = Some (ResErr (js "Syntax error (not a wff)."))).
Proof. repeat split; vm_compute; reflexivity. Qed.

(** C1 (amended). For every sentence obtained from [parse_sentence]:
    if its connectives are only negation, conjunction and nand, re-parsing
    the spaced form succeeds and yields the sentence itself, hence one
    that evaluates identically under every assignment; otherwise (it
    contains a disjunction, conditional, biconditional or xor) the spaced
    form is rejected with the syntax error. *)
Theorem roundtrip (input : jsstring) (s : Sentence) :
  parse_sentence input = Some (ResOk s) ->
  (ascii_connectives s = true ->
     exists s',
       parse_sentence (sentence_to_string s) = Some (ResOk s')
       /\ s' = s
       /\ forall asg : Letter -> Completion bool, evaluate asg s' = evaluate asg s)
  /\ (ascii_connectives s = false ->
        parse_sentence (sentence_to_string s)
        = Some (ResErr (js "Syntax error (not a wff)."))).
Proof.
  intros Hparse. split.
  - intros Hascii. exists s. split; [|split; reflexivity].
    apply reparse, parsed_ascii_reparsable; [|exact Hascii].
    eapply parse_sentence_shape. exact Hparse.
  - intros Hascii. apply (reparse_display_symbol s Hascii).
Qed.

Lemma roundtrip_witness :
  exists s',
    parse_sentence (sentence_to_string (negation (conjunction A_ (nand B_ C_))))
    = Some (ResOk s')
    /\ s' = negation (conjunction A_ (nand B_ C_))
    /\ forall asg : Letter -> Completion bool,
         evaluate asg s' = evaluate asg (negation (conjunction A_ (nand B_ C_))).
Proof.
  apply (roundtrip (js "~(A & (B | C))")); [vm_compute; reflexivity|reflexivity].
Defined.

(* ===================================================================== *)
(** ** Parser: texts that start with a solid character *)
(* ===================================================================== *)

Lemma starts_solid_app w r : starts_solid w -> starts_solid (w ++ r).
Proof. intros (c & t & -> & Hc). exists c, (t ++ r). split; [reflexivity|exact Hc]. Qed.

(* ===================================================================== *)
(** ** Trimming *)
(* ===================================================================== *)

Lemma trimStart_white ws s : white ws -> trimStart (ws ++ s) = trimStart s.
Proof. induction 1 as [|c ws Hc _ IH]; simpl; [reflexivity|]. rewrite Hc. exact IH. Qed.

Lemma trimStart_split s :
  exists ws, white ws /\ s = ws ++ trimStart s /\ no_space_head (trimStart s).
Proof.
  induction s as [|c s (ws & Hw & E & Hh)]; simpl.
  - exists []. repeat split. constructor.
  - destruct (is_whitespace c) eqn:Hc.
    + exists (c :: ws). split; [constructor; assumption|].
      split; [simpl; rewrite <- E; reflexivity|exact Hh].
    + exists []. split; [constructor|]. split; [reflexivity|exact Hc].
Qed.

Lemma white_rev ws : white ws -> white (rev ws).
Proof.
  intros H. apply List.Forall_rev, H. Qed.

(** Surrounding white space does not change what [trim] returns. *)
Lemma trim_white ws1 s ws2 : white ws1 -> white ws2 -> trim (ws1 ++ s ++ ws2) = trim s.
Proof.
  intros H1 H2. unfold trim. rewrite trimStart_white by exact H1.
  destruct (trimStart_split s) as (ws & Hw & E & Hh).
  destruct (trimStart s) as [|c t] eqn:Et.
  - rewrite app_nil_r in E. subst s.
    rewrite (trimStart_white ws ws2 Hw).
    assert (Hnil : forall w, white w -> trimEnd (trimStart w) = []).
    { intros w Hw'. replace (trimStart w) with (@nil N); [reflexivity|].
      symmetry. rewrite <- (app_nil_r w). rewrite trimStart_white by exact Hw'. reflexivity. }
    rewrite Hnil by exact H2. reflexivity.
  - assert (Est : trimStart (s ++ ws2) = (c :: t) ++ ws2).
    { rewrite E, <- app_assoc, trimStart_white by exact Hw.
      simpl. simpl in Hh. rewrite Hh. reflexivity. }
    rewrite Est. unfold trimEnd. rewrite rev_app_distr.
    rewrite trimStart_white by (apply white_rev, H2). reflexivity.
Qed.

Lemma trim_padded ws1 x ws2 :
  white ws1 -> white ws2 -> starts_solid x -> ends_solid x -> trim (ws1 ++ x ++ ws2) = x.
Proof. intros H1 H2 Hs He. rewrite trim_white by assumption. apply trim_solid; assumption. Qed.

Lemma trim_split s : exists ws1 ws2, white ws1 /\ white ws2 /\ s = ws1 ++ trim s ++ ws2.
Proof.
  destruct (trimStart_split s) as (ws1 & Hw1 & E1 & _).
  destruct (trimStart_split (rev (trimStart s))) as (ws2 & Hw2 & E2 & _).
  exists ws1, (rev ws2). split; [exact Hw1|]. split; [apply white_rev, Hw2|].
  unfold trim, trimEnd. rewrite <- rev_app_distr, <- E2, rev_involutive. exact E1.
Qed.

Lemma trim_idempotent s : trim (trim s) = trim s.
Proof.
  destruct (trim_split s) as (ws1 & ws2 & H1 & H2 & E).
  rewrite E at 2. rewrite trim_white by assumption. reflexivity.
Qed.

(* ===================================================================== *)
(** ** Parser: the language it accepts *)
(* ===================================================================== *)

Lemma chain_Success {A B} (p : P.Parser A) (f : A -> P.Parser B) input w rest :
  P.chain p f input = P.Success w rest ->
  exists v r, p input = P.Success v r /\ f v r = P.Success w rest.
Proof.
  unfold P.chain. destruct (p input) as [v r| |]; [|discriminate..].
  intros H. exists v, r. split; [reflexivity|exact H].
Qed.

Lemma yields_chain {A B} (p : P.Parser A) (f : A -> P.Parser B) R1 R2
    (R : jsstring -> B -> Prop) :
  yields p R1 -> (forall v, yields (f v) (R2 v)) ->
  (forall pre1 v pre2 w, R1 pre1 v -> R2 v pre2 w -> R (pre1 ++ pre2) w) ->
  yields (P.chain p f) R.
Proof.
  intros Hp Hf HR input w rest H.
  destruct (chain_Success _ _ _ _ _ H) as (v & r & H1 & H2).
  destruct (Hp _ _ _ H1) as (pre1 & -> & HR1).
  destruct (Hf v _ _ _ H2) as (pre2 & -> & HR2).
  exists (pre1 ++ pre2). split; [rewrite app_assoc; reflexivity|].
  eapply HR; eassumption.
Qed.

Lemma yields_weaken {A} (p : P.Parser A) (R R' : jsstring -> A -> Prop) :
  yields p R -> (forall pre v, R pre v -> R' pre v) -> yields p R'.
Proof.
  intros Hp HR input v rest H. destruct (Hp _ _ _ H) as (pre & -> & H').
  exists pre. split; [reflexivity|]. apply HR, H'.
Qed.

Lemma yields_succeed {A} (v : A) (R : jsstring -> A -> Prop) :
  R [] v -> yields (P.succeed v) R.
Proof.
  intros HR input w rest H. unfold P.succeed in H. injection H as <- <-.
  exists []. split; [reflexivity|exact HR].
Qed.

Lemma yields_fail {A} m (R : jsstring -> A -> Prop) : yields (P.fail m) R.
Proof. intros input v rest H. discriminate. Qed.

Lemma yields_map {A B} (p : P.Parser A) (f : A -> B) R1 (R : jsstring -> B -> Prop) :
  yields p R1 -> (forall pre v, R1 pre v -> R pre (f v)) -> yields (P.map p f) R.
Proof.
  intros Hp HR. unfold P.map.
  apply (yields_chain p _ R1 (fun v pre w => pre = [] /\ w = f v)); [exact Hp| |].
  - intros v. apply yields_succeed. split; reflexivity.
  - intros pre1 v pre2 w H1 [-> ->]. rewrite app_nil_r. apply HR, H1.
Qed.

Lemma yields_assert {A} (p : P.Parser A) c m (R : jsstring -> A -> Prop) :
  yields p R -> yields (P.assert p c m) (fun pre v => R pre v /\ c v = true).
Proof.
  intros Hp. unfold P.assert.
  apply (yields_chain p _ R (fun v pre w => pre = [] /\ w = v /\ c v = true)); [exact Hp| |].
  - intros v. destruct (c v) eqn:Hc.
    + apply yields_succeed. repeat split; exact Hc.
    + apply yields_fail.
  - intros pre1 v pre2 w H1 (-> & -> & Hc). rewrite app_nil_r. split; assumption.
Qed.

Lemma yields_alt {A} (ps : list (P.Parser A)) (R : jsstring -> A -> Prop) :
  Forall (fun p => yields p R) ps -> yields (P.alt ps) R.
Proof.
  induction 1 as [|p ps Hp _ IH]; intros input v rest H; simpl in H; [discriminate|].
  destruct (p input) as [v' r'| |] eqn:E; [|exact (IH _ _ _ H)|discriminate].
  injection H as <- <-. exact (Hp _ _ _ E).
Qed.

Lemma yields_string str : yields (P.string str) (fun pre v => pre = str /\ v = str).
Proof.
  intros input v rest H. unfold P.string in H.
  destruct (P.strip_prefix str input) as [r|] eqn:E; [|discriminate].
  injection H as <- <-. exists str. split; [|split; reflexivity].
  apply strip_prefix_Some, E.
Qed.

Lemma yields_alt_strings strs :
  yields (alt_strings strs) (fun pre v => pre ∈ strs /\ v = pre).
Proof.
  unfold alt_strings. apply yields_alt.
  induction strs as [|str strs IH]; simpl; constructor.
  - eapply yields_weaken; [apply yields_string|].
    intros pre v [-> ->]. split; [left|reflexivity].
  - eapply Forall_impl; [exact IH|]. intros p Hp.
    eapply yields_weaken; [exact Hp|]. intros pre v [H ->]. split; [right; exact H|reflexivity].
Qed.

Lemma yields_regexp_upper :
  yields P.regexp_upper
    (fun pre v => exists c, pre = [c] /\ v = [c] /\ (65 <=? c) && (c <=? 90) = true).
Proof.
  intros input v rest H. unfold P.regexp_upper in H.
  destruct input as [|c r]; [discriminate|].
  destruct ((65 <=? c) && (c <=? 90)) eqn:E; [|discriminate].
  injection H as <- <-. exists [c]. split; [reflexivity|]. exists c. auto.
Qed.

Lemma span_whitespace_white input ws rest :
  P.span_whitespace input = (ws, rest) -> input = ws ++ rest /\ white ws.
Proof.
  revert ws rest. induction input as [|c input IH]; intros ws rest H; simpl in H.
  - injection H as <- <-. split; [reflexivity|constructor].
  - destruct (is_whitespace c) eqn:Hc.
    + destruct (P.span_whitespace input) as [ws' rest'] eqn:E.
      injection H as <- <-. destruct (IH _ _ eq_refl) as [-> Hw].
      split; [reflexivity|]. constructor; assumption.
    + injection H as <- <-. split; [reflexivity|constructor].
Qed.

Lemma yields_optWhitespace : yields P.optWhitespace (fun pre _ => white pre).
Proof.
  intros input v rest H. unfold P.optWhitespace in H.
  destruct (P.span_whitespace input) as [ws r] eqn:E. injection H as <- <-.
  destruct (span_whitespace_white _ _ _ E) as [-> Hw]. exists ws. auto.
Qed.

Lemma yields_many_loop {A} (p : P.Parser A) (R : jsstring -> A -> Prop) n :
  yields p R ->
  forall input vs rest, P.many_loop p n input = P.Success vs rest ->
    exists pre, input = pre ++ rest /\ pieces R pre vs.
Proof.
  intros Hp. induction n as [|n IH]; intros input vs rest H; simpl in H; [discriminate|].
  destruct (p input) as [v r| |] eqn:E; [| |discriminate].
  - destruct (length r <? length input)%nat; [|discriminate].
    destruct (P.many_loop p n r) as [vs' r'| |] eqn:E'; [|discriminate..].
    injection H as <- <-.
    destruct (Hp _ _ _ E) as (p1 & -> & H1).
    destruct (IH _ _ _ E') as (p2 & -> & H2).
    exists (p1 ++ p2). split; [rewrite app_assoc; reflexivity|].
    exists p1, p2. auto.
  - injection H as <- <-. exists []. split; reflexivity.
Qed.

Lemma yields_many {A} (p : P.Parser A) (R : jsstring -> A -> Prop) :
  yields p R -> yields (P.many p) (pieces R).
Proof. intros Hp input vs rest H. exact (yields_many_loop p R _ Hp _ _ _ H). Qed.

Lemma yields_sepBy {A B} (p : P.Parser A) (sep : P.Parser B) (R : jsstring -> A -> Prop)
    (Rs : jsstring -> Prop) :
  yields p R -> yields sep (fun pre _ => Rs pre) ->
  yields (P.sepBy p sep)
    (fun pre vs =>
       match vs with
       | [] => pre = []
       | v :: vs' =>
           exists p1 p2, pre = p1 ++ p2 /\ R p1 v
             /\ pieces (fun q w => exists q1 q2, q = q1 ++ q2 /\ Rs q1 /\ R q2 w) p2 vs'
       end).
Proof.
  intros Hp Hsep. unfold P.sepBy. apply yields_alt. constructor; [|constructor; [|constructor]].
  - unfold P.sepBy1.
    eapply (yields_chain p _ R
      (fun v pre vs => exists vs', vs = v :: vs'
         /\ pieces (fun q w => exists q1 q2, q = q1 ++ q2 /\ Rs q1 /\ R q2 w) pre vs'));
      [exact Hp| |].
    + intros v. eapply yields_map.
      * apply (yields_many _ (fun q w => exists q1 q2, q = q1 ++ q2 /\ Rs q1 /\ R q2 w)).
        unfold P.then_.
        eapply (yields_chain sep _ _ (fun _ => R)); [exact Hsep|intros _; exact Hp|].
        intros q1 b q2 w H1 H2. exists q1, q2. split; [reflexivity|split; [exact H1|exact H2]].
      * intros pre vs' H. exists vs'. split; [reflexivity|exact H].
    + intros p1 v p2 vs H1 (vs' & -> & H2). exists p1, p2. auto.
  - apply yields_succeed. reflexivity.
Qed.

Lemma yields_separator symbols :
  yields (P.seq3 P.optWhitespace (alt_strings symbols) P.optWhitespace)
    (fun pre _ => exists ws1 sym ws2,
       pre = ws1 ++ sym ++ ws2 /\ white ws1 /\ sym ∈ symbols /\ white ws2).
Proof.
  unfold P.seq3.
  eapply (yields_chain _ _ _ (fun _ pre _ => exists sym ws2,
            pre = sym ++ ws2 /\ sym ∈ symbols /\ white ws2));
    [apply yields_optWhitespace| |].
  - intros a.
    eapply (yields_chain _ _ _ (fun _ pre _ => white pre)); [apply yields_alt_strings| |].
    + intros b.
      eapply (yields_chain _ _ _ (fun _ pre _ => pre = [])); [apply yields_optWhitespace| |].
      * intros c. apply yields_succeed. reflexivity.
      * intros pre1 v pre2 w H1 ->. rewrite app_nil_r. exact H1.
    + intros pre1 v pre2 w [H1 _] H2. exists pre1, pre2. auto.
  - intros pre1 v pre2 w H1 (sym & ws2 & -> & H2 & H3). exists pre1, sym, ws2. auto.
Qed.

Lemma yields_binary_rule (F : P.Parser Sentence) symbols build
    (R : jsstring -> Sentence -> Prop) :
  yields F R ->
  yields (SentenceLang.binary_rule F symbols build)
    (fun pre v => exists x1 s1 ws1 sym ws2 x2 s2,
       pre = x1 ++ ws1 ++ sym ++ ws2 ++ x2 /\ v = build s1 s2
       /\ R x1 s1 /\ white ws1 /\ sym ∈ symbols /\ white ws2 /\ R x2 s2).
Proof.
  intros HF. unfold SentenceLang.binary_rule.
  eapply yields_map.
  - apply yields_assert. eapply yields_sepBy; [exact HF|apply yields_separator].
  - intros pre vs [H Hlen]. cbv beta in Hlen.
    destruct vs as [|s1 [|s2 [|s3 vs]]]; try discriminate.
    destruct H as (x1 & p2 & -> & H1 & q & p3 & -> & (q1 & x2 & -> & Hsep & H2) & ->).
    destruct Hsep as (ws1 & sym & ws2 & -> & Hw1 & Hsym & Hw2).
    exists x1, s1, ws1, sym, ws2, x2, s2.
    rewrite app_nil_r, <- !app_assoc. repeat split; assumption.
Qed.

Lemma yields_Sentence_rule (F : P.Parser Sentence) :
  yields F (wff OfFactor) -> yields (SentenceLang.Sentence_rule F) (wff OfSentence).
Proof.
  intros HF. unfold SentenceLang.Sentence_rule. apply yields_alt.
  assert (Hbin : forall sym build, (sym, build) ∈ binary_table ->
            yields (SentenceLang.binary_rule F [sym] build) (wff OfSentence)).
  { intros sym build Hin. eapply yields_weaken; [apply yields_binary_rule, HF|].
    intros pre v (x1 & s1 & ws1 & sym' & ws2 & x2 & s2 & -> & -> & H1 & Hw1 & Hs & Hw2 & H2).
    apply list_elem_of_singleton in Hs. subst sym'.
    apply wff_binary; assumption. }
  repeat constructor;
    try (apply Hbin; unfold binary_table; rewrite !elem_of_cons; tauto).
  eapply yields_weaken; [exact HF|]. intros pre v H. apply wff_factor, H.
Qed.

Lemma yields_Wrapped (S : P.Parser Sentence) :
  yields S (wff OfSentence) -> yields (SentenceLang.Wrapped S) (wff OfFactor).
Proof.
  intros HS. unfold SentenceLang.Wrapped.
  eapply yields_weaken.
  - apply yields_assert.
    eapply (yields_map _ _ (fun pre '(_, _, s, _, _) =>
              exists o c ws1 x ws2, pre = o :: ws1 ++ x ++ ws2 ++ [c]
                /\ (o, c) ∈ brackets /\ white ws1 /\ white ws2 /\ wff OfSentence x s)).
    + apply yields_alt.
      assert (H5 : forall o c, (o, c) ∈ brackets ->
                yields (P.seq5 (P.string [o]) P.optWhitespace S P.optWhitespace (P.string [c]))
                  (fun pre '(_, _, s, _, _) =>
                     exists o c ws1 x ws2, pre = o :: ws1 ++ x ++ ws2 ++ [c]
                       /\ (o, c) ∈ brackets /\ white ws1 /\ white ws2 /\ wff OfSentence x s)).
      { intros o c Hoc. unfold P.seq5.
        eapply (yields_chain _ _ _ (fun _ pre '(_, _, s, _, _) =>
                  exists ws1 x ws2, pre = ws1 ++ x ++ ws2 ++ [c]
                    /\ white ws1 /\ white ws2 /\ wff OfSentence x s));
          [apply yields_string| |].
        - intros a.
          eapply (yields_chain _ _ _ (fun _ pre '(_, _, s, _, _) =>
                    exists x ws2, pre = x ++ ws2 ++ [c] /\ white ws2 /\ wff OfSentence x s));
            [apply yields_optWhitespace| |].
          + intros b.
            eapply (yields_chain _ _ _ (fun s0 pre '(_, _, s, _, _) =>
                      s = s0 /\ exists ws2, pre = ws2 ++ [c] /\ white ws2));
              [exact HS| |].
            * intros s0.
              eapply (yields_chain _ _ _ (fun _ pre '(_, _, s, _, _) =>
                        s = s0 /\ pre = [c]));
                [apply yields_optWhitespace| |].
              -- intros d.
                 eapply (yields_chain _ _ _ (fun _ pre '(_, _, s, _, _) =>
                           s = s0 /\ pre = []));
                   [apply yields_string| |].
                 ++ intros e. apply yields_succeed. split; reflexivity.
                 ++ intros pre1 v pre2 [[[[? ?] s] ?] ?] [-> _] [-> ->].
                    rewrite app_nil_r. split; reflexivity.
              -- intros pre1 v pre2 [[[[? ?] s] ?] ?] Hw [-> ->].
                 split; [reflexivity|]. exists pre1. auto.
            * intros pre1 v pre2 [[[[? ?] s] ?] ?] Hx (-> & ws2 & -> & Hw).
              exists pre1, ws2. auto.
          + intros pre1 v pre2 [[[[? ?] s] ?] ?] Hw (x & ws2 & -> & Hw2 & Hx).
            exists pre1, x, ws2. auto.
        - intros pre1 v pre2 [[[[? ?] s] ?] ?] [-> _] (ws1 & x & ws2 & -> & Hw1 & Hw2 & Hx).
          exists o, c, ws1, x, ws2. auto. }
      repeat constructor; [apply (H5 40 41)|apply (H5 91 93)|apply (H5 123 125)];
        unfold brackets; rewrite !elem_of_cons; tauto.
    + intros pre [[[[? ?] s] ?] ?] H. exact H.
  - intros pre s [(o & c & ws1 & x & ws2 & -> & Hoc & Hw1 & Hw2 & Hx) Hs].
    apply wff_wrapped; try assumption.
    destruct (is_negation_or_letter s); [discriminate|reflexivity].
Qed.

Lemma yields_Not (F : P.Parser Sentence) :
  yields F (wff OfFactor) -> yields (SentenceLang.Not F) (wff OfFactor).
Proof.
  intros HF. unfold SentenceLang.Not.
  eapply (yields_map _ _ (fun pre '(_, _, s) =>
            exists ws x, pre = 126 :: ws ++ x /\ white ws /\ wff OfFactor x s)).
  - unfold P.seq3.
    eapply (yields_chain _ _ _ (fun _ pre '(_, _, s) =>
              exists ws x, pre = ws ++ x /\ white ws /\ wff OfFactor x s));
      [apply yields_alt_strings| |].
    + intros a.
      eapply (yields_chain _ _ _ (fun _ pre '(_, _, s) => wff OfFactor pre s));
        [apply yields_optWhitespace| |].
      * intros b.
        eapply (yields_chain _ _ _ (fun s0 pre '(_, _, s) => s = s0 /\ pre = []));
          [exact HF| |].
        -- intros s0. apply yields_succeed. split; reflexivity.
        -- intros pre1 v pre2 [[? ?] s] H [-> ->]. rewrite app_nil_r. exact H.
      * intros pre1 v pre2 [[? ?] s] Hw Hx. exists pre1, pre2. auto.
    + intros pre1 v pre2 [[? ?] s] [Hin _] (ws & x & -> & Hw & Hx).
      unfold connectives.negation in Hin. apply list_elem_of_singleton in Hin. subst pre1.
      exists ws, x. auto.
  - intros pre [[? ?] s] (ws & x & -> & Hw & Hx). apply wff_negation; assumption.
Qed.

Lemma yields_Letter : yields SentenceLang.Letter (wff OfFactor).
Proof.
  unfold SentenceLang.Letter. eapply yields_map; [apply yields_regexp_upper|].
  intros pre v (c & -> & -> & Hc). apply wff_letter, Hc.
Qed.

Lemma yields_Factor fuel : yields (SentenceLang.Factor fuel) (wff OfFactor).
Proof.
  induction fuel as [|fuel IH]; [intros input v rest H; discriminate|].
  change (SentenceLang.Factor (S fuel))
    with (SentenceLang.Factor_rule (SentenceLang.Factor fuel)
            (SentenceLang.Sentence_rule (SentenceLang.Factor fuel))).
  unfold SentenceLang.Factor_rule. apply yields_alt.
  repeat constructor.
  - apply yields_Not, IH.
  - apply yields_Wrapped, yields_Sentence_rule, IH.
  - apply yields_Letter.
Qed.

(** *** Completeness: every text of the grammar is accepted *)

Lemma span_whitespace_app ws r :
  white ws -> no_space_head r -> P.span_whitespace (ws ++ r) = (ws, r).
Proof.
  intros Hw Hr. induction Hw as [|c ws Hc _ IH]; cbn [app P.span_whitespace].
  - destruct r as [|d r]; [reflexivity|]. cbn [P.span_whitespace].
    unfold no_space_head in Hr. rewrite Hr. reflexivity.
  - rewrite Hc, IH. reflexivity.
Qed.

Lemma optWhitespace_app ws r :
  white ws -> no_space_head r -> P.optWhitespace (ws ++ r) = P.Success ws r.
Proof. intros Hw Hr. unfold P.optWhitespace. rewrite span_whitespace_app by assumption. reflexivity. Qed.

Lemma starts_solid_no_space x r : starts_solid x -> no_space_head (x ++ r).
Proof. intros (c & x' & -> & Hc). exact Hc. Qed.

Lemma separator_fails t ws r :
  white ws -> no_space_head r -> P.strip_prefix t r = None ->
  separator t (ws ++ r) = P.Failure.
Proof.
  intros Hw Hr Ht. unfold separator, P.seq3. unfold P.chain at 1.
  rewrite optWhitespace_app by assumption.
  unfold P.chain at 1. unfold alt_strings. cbn [List.map P.alt]. unfold P.string.
  rewrite Ht. reflexivity.
Qed.

Lemma separator_accepts t ws1 ws2 r :
  white ws1 -> white ws2 -> starts_solid t -> no_space_head r ->
  separator t (ws1 ++ t ++ ws2 ++ r) = P.Success (ws1, t, ws2) r.
Proof.
  intros Hw1 Hw2 Ht Hr. unfold separator, P.seq3. unfold P.chain at 1.
  rewrite optWhitespace_app by (try assumption; apply starts_solid_no_space, Ht).
  unfold P.chain at 1. unfold alt_strings. cbn [List.map P.alt]. unfold P.string.
  rewrite strip_prefix_app.
  unfold P.chain at 1. rewrite optWhitespace_app by assumption. reflexivity.
Qed.

Lemma many_stops {A} (p : P.Parser A) input :
  p input = P.Failure -> P.many p input = P.Success [] input.
Proof. intros H. unfold P.many. simpl. rewrite H. reflexivity. Qed.

Lemma many_once {A} (p : P.Parser A) input v r :
  p input = P.Success v r -> (length r < length input)%nat -> p r = P.Failure ->
  P.many p input = P.Success [v] r.
Proof.
  intros H Hlen Hr. unfold P.many. cbn [P.many_loop]. rewrite H.
  rewrite (proj2 (Nat.ltb_lt _ _) Hlen).
  destruct (length input) as [|n] eqn:E; [lia|].
  cbn [P.many_loop]. rewrite Hr. reflexivity.
Qed.

Lemma sepBy_from {A B} (p : P.Parser A) (sep : P.Parser B) input v r vs rest :
  p input = P.Success v r -> P.many (P.then_ sep p) r = P.Success vs rest ->
  P.sepBy p sep input = P.Success (v :: vs) rest.
Proof.
  intros H Hm. unfold P.sepBy. cbn [P.alt]. unfold P.sepBy1, P.map.
  unfold P.chain at 1. rewrite H. unfold P.chain at 1. rewrite Hm. reflexivity.
Qed.

Lemma binary_rule_from (F : P.Parser Sentence) t build input vs rest :
  P.sepBy F (separator t) input = P.Success vs rest ->
  SentenceLang.binary_rule F [t] build input
  = if (length vs =? 2)%nat then P.Success (build (vs !!! 0%nat) (vs !!! 1%nat)) rest
    else P.Failure.
Proof.
  intros H. unfold SentenceLang.binary_rule, P.map, P.assert.
  unfold P.chain at 1 2. fold (separator t). rewrite H.
  destruct (length vs =? 2)%nat; reflexivity.
Qed.

Section Accepts.
Variable F : P.Parser Sentence.

(** One operand followed by something that is not the separator. *)
Lemma binary_rule_single t build x s r :
  F (x ++ r) = P.Success s r ->
  separator t r = P.Failure ->
  SentenceLang.binary_rule F [t] build (x ++ r) = P.Failure.
Proof.
  intros HF Hsep.
  rewrite (binary_rule_from F t build _ [s] r); [reflexivity|].
  eapply sepBy_from; [exact HF|]. apply many_stops.
  unfold P.then_, P.chain. rewrite Hsep. reflexivity.
Qed.

(** Two operands around the separator, followed by something that is not
    the separator. *)
Lemma binary_rule_pair t build x1 s1 ws1 ws2 x2 s2 r :
  (forall r', F (x1 ++ r') = P.Success s1 r') ->
  F (x2 ++ r) = P.Success s2 r ->
  white ws1 -> white ws2 -> starts_solid t -> starts_solid x2 ->
  separator t r = P.Failure ->
  SentenceLang.binary_rule F [t] build (x1 ++ ws1 ++ t ++ ws2 ++ x2 ++ r)
  = P.Success (build s1 s2) r.
Proof.
  intros H1 H2 Hw1 Hw2 Ht Hx2 Hsep.
  rewrite (binary_rule_from F t build _ [s1; s2] r); [reflexivity|].
  eapply sepBy_from; [apply H1|].
  assert (Hstep : P.then_ (separator t) F (ws1 ++ t ++ ws2 ++ x2 ++ r) = P.Success s2 r).
  { unfold P.then_, P.chain.
    rewrite separator_accepts by (try assumption; apply starts_solid_no_space, Hx2).
    exact H2. }
  apply many_once; [exact Hstep| |].
  - destruct Ht as (c & t' & -> & _). rewrite !length_app. simpl. lia.
  - unfold P.then_, P.chain. rewrite Hsep. reflexivity.
Qed.
End Accepts.

Lemma alt_skip {A} (p : P.Parser A) ps input :
  p input = P.Failure -> P.alt (p :: ps) input = P.alt ps input.
Proof. intros H. cbn [P.alt]. rewrite H. reflexivity. Qed.

Lemma alt_take {A} (p : P.Parser A) ps input v r :
  p input = P.Success v r -> P.alt (p :: ps) input = P.Success v r.
Proof. intros H. cbn [P.alt]. rewrite H. reflexivity. Qed.

Lemma closing_blocks t r :
  closing r -> (exists c t', t = c :: t' /\ c <> 41 /\ c <> 93 /\ c <> 125) ->
  no_space_head r /\ P.strip_prefix t r = None.
Proof.
  intros Hr (c & t' & -> & H1 & H2 & H3).
  destruct Hr as [->|(d & r' & -> & Hd)]; [split; reflexivity|].
  split.
  - destruct Hd as [->|[->| ->]]; reflexivity.
  - cbn [P.strip_prefix]. rewrite (proj2 (N.eqb_neq c d)); [reflexivity|].
    destruct Hd as [->|[->| ->]]; assumption.
Qed.

Lemma separator_fails_closing t r :
  closing_after_space r ->
  (exists c t', t = c :: t' /\ c <> 41 /\ c <> 93 /\ c <> 125) ->
  separator t r = P.Failure.
Proof.
  intros (ws & r0 & -> & Hw & Hr) Ht.
  destruct (closing_blocks t r0 Hr Ht) as [H1 H2].
  apply separator_fails; assumption.
Qed.

Lemma separator_fails_other t sym ws rest :
  white ws ->
  (exists c t' d sym', t = c :: t' /\ sym = d :: sym' /\ c <> d /\ is_whitespace d = false) ->
  separator t (ws ++ sym ++ rest) = P.Failure.
Proof.
  intros Hw (c & t' & d & sym' & -> & -> & Hcd & Hd).
  apply separator_fails; [exact Hw|exact Hd|].
  cbn [app P.strip_prefix]. rewrite (proj2 (N.eqb_neq c d)) by exact Hcd. reflexivity.
Qed.

Ltac symbol_facts :=
  solve [ do 2 eexists; split; [reflexivity|]; repeat split; discriminate
        | do 4 eexists; split; [reflexivity|]; split; [reflexivity|];
          split; [discriminate|reflexivity]
        | eexists _, _; split; reflexivity ].

Lemma Sentence_rule_factor (F : P.Parser Sentence) x s r :
  (forall r', F (x ++ r') = P.Success s r') ->
  closing_after_space r ->
  SentenceLang.Sentence_rule F (x ++ r) = P.Success s r.
Proof.
  intros HF Hr. unfold SentenceLang.Sentence_rule.
  unfold SentenceLang.Iff, SentenceLang.Imp, SentenceLang.Or, SentenceLang.And,
    SentenceLang.Xor, SentenceLang.Nand.
  unfold connectives.biconditional, connectives.conditional, connectives.disjunction,
    connectives.conjunction, connectives.xor, connectives.nand.
  do 6 (rewrite alt_skip
          by (eapply binary_rule_single;
              [apply HF|apply separator_fails_closing; [exact Hr|symbol_facts]])).
  apply alt_take, HF.
Qed.

Lemma Sentence_rule_binary (F : P.Parser Sentence) sym build x1 s1 ws1 ws2 x2 s2 r :
  (sym, build) ∈ binary_table ->
  (forall r', F (x1 ++ r') = P.Success s1 r') ->
  (forall r', F (x2 ++ r') = P.Success s2 r') ->
  white ws1 -> white ws2 -> starts_solid x2 ->
  closing_after_space r ->
  SentenceLang.Sentence_rule F (x1 ++ ws1 ++ sym ++ ws2 ++ x2 ++ r)
  = P.Success (build s1 s2) r.
Proof.
  intros Hin H1 H2 Hw1 Hw2 Hx2 Hr. unfold SentenceLang.Sentence_rule.
  unfold SentenceLang.Iff, SentenceLang.Imp, SentenceLang.Or, SentenceLang.And,
    SentenceLang.Xor, SentenceLang.Nand.
  unfold connectives.biconditional, connectives.conditional, connectives.disjunction,
    connectives.conjunction, connectives.xor, connectives.nand.
  unfold binary_table in Hin. rewrite !elem_of_cons in Hin.
  destruct Hin as [Hin|[Hin|[Hin|[Hin|[Hin|[Hin|Hin]]]]]];
    [injection Hin as -> ->..|inversion Hin];
    repeat (rewrite alt_skip
              by (eapply binary_rule_single;
                  [apply H1|apply separator_fails_other; [exact Hw1|symbol_facts]]));
    (apply alt_take, binary_rule_pair;
     [exact H1|apply H2|exact Hw1|exact Hw2|symbol_facts|exact Hx2
     |apply separator_fails_closing; [exact Hr|symbol_facts]]).
Qed.

Lemma wff_starts_solid lv x s : wff lv x s -> starts_solid x.
Proof.
  induction 1 as [c Hc|ws x s Hw _ _|o c ws1 x ws2 s Hoc _ _ _ _ _
                 |x s _ IH|sym build x1 ws1 ws2 x2 s1 s2 _ _ IH1 _ _ _ _].
  - exists c, []. split; [reflexivity|]. apply upper_not_whitespace, Hc.
  - eexists _, _. split; reflexivity.
  - exists o. eexists. split; [reflexivity|].
    unfold brackets in Hoc. rewrite !elem_of_cons in Hoc.
    destruct Hoc as [H|[H|[H|H]]]; [injection H as -> ->; reflexivity..|inversion H].
  - exact IH.
  - apply starts_solid_app, IH1.
Qed.

Lemma wff_length lv x s : wff lv x s -> (0 < length x)%nat.
Proof. intros H. destruct (wff_starts_solid _ _ _ H) as (c & r & -> & _). simpl. lia. Qed.

Lemma Not_accepts (F : P.Parser Sentence) a ws x rest :
  white ws -> starts_solid x -> F (x ++ rest) = P.Success a rest ->
  SentenceLang.Not F (126 :: ws ++ x ++ rest) = P.Success (negation a) rest.
Proof.
  intros Hw Hx HF. unfold SentenceLang.Not, P.map, P.seq3. unfold P.chain at 1 2.
  unfold alt_strings, connectives.negation. cbn [List.map P.alt]. unfold P.string.
  change (js "~") with [126]. cbn [P.strip_prefix]. rewrite N.eqb_refl.
  unfold P.chain at 1.
  rewrite optWhitespace_app by (try assumption; apply starts_solid_no_space, Hx).
  unfold P.chain. rewrite HF. reflexivity.
Qed.

Lemma seq5_bracket (S : P.Parser Sentence) o c ws1 x ws2 s rest :
  white ws1 -> white ws2 -> starts_solid x -> is_whitespace c = false ->
  S (x ++ ws2 ++ c :: rest) = P.Success s (ws2 ++ c :: rest) ->
  P.seq5 (P.string [o]) P.optWhitespace S P.optWhitespace (P.string [c])
    (o :: ws1 ++ x ++ ws2 ++ c :: rest)
  = P.Success ([o], ws1, s, ws2, [c]) rest.
Proof.
  intros Hw1 Hw2 Hx Hc HS. unfold P.seq5.
  unfold P.chain at 1. unfold P.string at 1. cbn [P.strip_prefix]. rewrite N.eqb_refl.
  unfold P.chain at 1.
  rewrite optWhitespace_app by (try assumption; apply starts_solid_no_space, Hx).
  unfold P.chain at 1. rewrite HS.
  unfold P.chain at 1. rewrite optWhitespace_app by assumption.
  unfold P.chain at 1. unfold P.string. cbn [P.strip_prefix]. rewrite N.eqb_refl.
  reflexivity.
Qed.

Lemma seq5_mismatch (S : P.Parser Sentence) o c d rest :
  o <> d ->
  P.seq5 (P.string [o]) P.optWhitespace S P.optWhitespace (P.string [c]) (d :: rest)
  = P.Failure.
Proof.
  intros H. unfold P.seq5. unfold P.chain at 1. unfold P.string at 1.
  cbn [P.strip_prefix]. rewrite (proj2 (N.eqb_neq o d)) by exact H. reflexivity.
Qed.

Lemma Wrapped_accepts (S : P.Parser Sentence) o c ws1 x ws2 s rest :
  (o, c) ∈ brackets -> white ws1 -> white ws2 -> starts_solid x ->
  S (x ++ ws2 ++ c :: rest) = P.Success s (ws2 ++ c :: rest) ->
  is_negation_or_letter s = false ->
  SentenceLang.Wrapped S (o :: ws1 ++ x ++ ws2 ++ c :: rest) = P.Success s rest.
Proof.
  intros Hoc Hw1 Hw2 Hx HS Hs. unfold SentenceLang.Wrapped, P.assert, P.map.
  unfold P.chain at 1 2.
  change (js "(") with [40]. change (js ")") with [41].
  change (js "[") with [91]. change (js "]") with [93].
  change (js "{") with [123]. change (js "}") with [125].
  unfold brackets in Hoc. rewrite !elem_of_cons in Hoc.
  destruct Hoc as [H|[H|[H|H]]]; [injection H as -> ->..|inversion H].
  - rewrite (alt_take _ _ _ _ _ (seq5_bracket S 40 41 ws1 x ws2 s rest Hw1 Hw2 Hx eq_refl HS)).
    cbn [P.succeed]. rewrite Hs. reflexivity.
  - rewrite alt_skip by (apply seq5_mismatch; discriminate).
    rewrite (alt_take _ _ _ _ _ (seq5_bracket S 91 93 ws1 x ws2 s rest Hw1 Hw2 Hx eq_refl HS)).
    cbn [P.succeed]. rewrite Hs. reflexivity.
  - do 2 rewrite alt_skip by (apply seq5_mismatch; discriminate).
    rewrite (alt_take _ _ _ _ _ (seq5_bracket S 123 125 ws1 x ws2 s rest Hw1 Hw2 Hx eq_refl HS)).
    cbn [P.succeed]. rewrite Hs. reflexivity.
Qed.

Lemma closing_after_space_bracket ws c rest :
  white ws -> c = 41 \/ c = 93 \/ c = 125 -> closing_after_space (ws ++ c :: rest).
Proof.
  intros Hw Hc. exists ws, (c :: rest). split; [reflexivity|]. split; [exact Hw|].
  right. exists c, rest. auto.
Qed.

(** Every text of the grammar is read back as the sentence it stands
    for, with fuel as long as the text. *)
Lemma wff_accepted lv x s :
  wff lv x s ->
  forall fuel, (length x <= fuel)%nat ->
    match lv with
    | OfFactor => forall r, SentenceLang.Factor fuel (x ++ r) = P.Success s r
    | OfSentence =>
        forall r, closing_after_space r ->
          SentenceLang.Sentence_rule (SentenceLang.Factor fuel) (x ++ r) = P.Success s r
    end.
Proof.
  induction 1 as [c Hc|ws x s Hw Hx IH|o c ws1 x ws2 s Hoc Hw1 Hw2 Hx IH Hs
                 |x s Hx IH|sym build x1 ws1 ws2 x2 s1 s2 Hin H1 IH1 Hw1 Hw2 H2 IH2];
    intros fuel Hlen.
  - intros r. destruct fuel as [|fuel]; [simpl in Hlen; lia|].
    cbn [SentenceLang.Factor app]. unfold SentenceLang.Factor_rule.
    pose proof (upper_bounds c Hc) as Hb.
    rewrite alt_skip by (apply Not_mismatch; lia).
    rewrite alt_skip by (apply Wrapped_mismatch; lia).
    apply alt_take, Letter_reads, Hc.
  - intros r. destruct fuel as [|fuel]; [simpl in Hlen; lia|].
    cbn [SentenceLang.Factor]. unfold SentenceLang.Factor_rule.
    apply alt_take. rewrite <- app_comm_cons, <- app_assoc.
    apply Not_accepts; [exact Hw|exact (wff_starts_solid _ _ _ Hx)|].
    apply IH. simpl in Hlen. rewrite length_app in Hlen. lia.
  - intros r. destruct fuel as [|fuel]; [simpl in Hlen; lia|].
    cbn [SentenceLang.Factor]. unfold SentenceLang.Factor_rule.
    assert (Ho : o <> 126).
    { unfold brackets in Hoc. rewrite !elem_of_cons in Hoc.
      destruct Hoc as [H|[H|[H|H]]]; [injection H as -> ->; discriminate..|inversion H]. }
    assert (Hc : c = 41 \/ c = 93 \/ c = 125).
    { unfold brackets in Hoc. rewrite !elem_of_cons in Hoc.
      destruct Hoc as [H|[H|[H|H]]]; [injection H as -> ->; auto..|inversion H]. }
    rewrite <- app_comm_cons.
    rewrite alt_skip by (apply Not_mismatch; congruence).
    apply alt_take.
    replace ((ws1 ++ x ++ ws2 ++ [c]) ++ r) with (ws1 ++ x ++ ws2 ++ c :: r)
      by (rewrite <- !app_assoc; reflexivity).
    apply Wrapped_accepts; [exact Hoc|exact Hw1|exact Hw2|exact (wff_starts_solid _ _ _ Hx)| |exact Hs].
    apply IH; [|apply closing_after_space_bracket; assumption].
    simpl in Hlen. rewrite !length_app in Hlen. lia.
  - intros r Hr. apply Sentence_rule_factor; [|exact Hr].
    intros r'. apply IH, Hlen.
  - intros r Hr.
    replace ((x1 ++ ws1 ++ sym ++ ws2 ++ x2) ++ r) with (x1 ++ ws1 ++ sym ++ ws2 ++ x2 ++ r)
      by (rewrite <- !app_assoc; reflexivity).
    rewrite !length_app in Hlen.
    apply Sentence_rule_binary; try assumption.
    + intros r'. apply IH1. lia.
    + intros r'. apply IH2. lia.
    + exact (wff_starts_solid _ _ _ H2).
Qed.

Lemma parse_sentence_Sentence input s :
  parse_sentence input = Some (ResOk s)
  <-> SentenceLang.Sentence (S (length (trim input))) (trim input) = P.Success s [].
Proof.
  unfold parse_sentence, P.parse, P.skip, P.chain, P.eof, P.succeed.
  destruct (SentenceLang.Sentence (S (length (trim input))) (trim input)) as [v r| |].
  - destruct r as [|c r]; split; intros H; try discriminate; congruence.
  - split; discriminate.
  - split; discriminate.
Qed.

(** A successful parse reads a text of the grammar. *)
Lemma parse_sentence_wff input s :
  parse_sentence input = Some (ResOk s) -> wff OfSentence (trim input) s.
Proof.
  intros H. apply parse_sentence_Sentence in H.
  destruct (yields_Sentence_rule _ (yields_Factor _) _ _ _ H) as (pre & Hpre & Hw).
  rewrite app_nil_r in Hpre. rewrite Hpre. exact Hw.
Qed.

Lemma closing_after_space_nil : closing_after_space [].
Proof. exists [], []. split; [reflexivity|]. split; [constructor|left; reflexivity]. Qed.

(** Every text of the grammar is parsed, whatever white space surrounds
    it. *)
Lemma wff_parse_sentence input s :
  wff OfSentence (trim input) s -> parse_sentence input = Some (ResOk s).
Proof.
  intros H. apply parse_sentence_Sentence.
  pose proof (wff_accepted _ _ _ H (S (length (trim input))) ltac:(lia) []
                closing_after_space_nil) as Hacc.
  rewrite app_nil_r in Hacc. exact Hacc.
Qed.

Lemma wff_functional x s1 s2 :
  wff OfSentence x s1 -> wff OfSentence x s2 -> s1 = s2.
Proof.
  intros H1 H2.
  pose proof (wff_accepted _ _ _ H1 (length x) ltac:(lia) [] closing_after_space_nil) as A1.
  pose proof (wff_accepted _ _ _ H2 (length x) ltac:(lia) [] closing_after_space_nil) as A2.
  cbv beta iota in A1, A2. congruence.
Qed.

(** X1. [parse_sentence] accepts exactly the texts of the grammar [wff]
    (after trimming) and returns the sentence the grammar assigns, which
    is unique; every other input gets the one error message. *)
Theorem parse_sentence_language :
  (forall input s,
     parse_sentence input = Some (ResOk s) <-> wff OfSentence (trim input) s)
  /\ (forall input,
        parse_sentence input = Some (ResErr (js "Syntax error (not a wff)."))
        <-> ~ exists s, wff OfSentence (trim input) s)
  /\ (forall x s1 s2, wff OfSentence x s1 -> wff OfSentence x s2 -> s1 = s2).
Proof.
  split; [|split].
  - intros input s. split; [apply parse_sentence_wff|apply wff_parse_sentence].
  - intros input. split.
    + intros H (s & Hs). apply wff_parse_sentence in Hs. congruence.
    + intros H. destruct (parse_sentence_returns input) as ([s|e] & Hr).
      * exfalso. apply H. exists s. apply parse_sentence_wff, Hr.
      * rewrite Hr. unfold parse_sentence in Hr.
        destruct (P.parse _ _); try discriminate. injection Hr as <-. reflexivity.
  - exact wff_functional.
Qed.

(** *** White space and alphabet *)

Lemma remove_whitespace_app a b :
  remove_whitespace (a ++ b) = remove_whitespace a ++ remove_whitespace b.
Proof. apply List.filter_app. Qed.

Lemma remove_whitespace_white ws : white ws -> remove_whitespace ws = [].
Proof.
  induction 1 as [|c ws Hc _ IH]; [reflexivity|].
  unfold remove_whitespace in *. cbn [List.filter]. rewrite Hc. exact IH.
Qed.

Lemma remove_whitespace_symbol sym build :
  (sym, build) ∈ binary_table -> remove_whitespace sym = sym.
Proof.
  unfold binary_table. rewrite !elem_of_cons. intros H.
  destruct H as [E|[E|[E|[E|[E|[E|E]]]]]]; [injection E as -> _; reflexivity..|inversion E].
Qed.

Lemma white_nil : white [].
Proof. constructor. Qed.

(** Removing the white space of a text of the grammar gives a text of
    the grammar for the same sentence. *)
Lemma wff_remove_whitespace lv x s : wff lv x s -> wff lv (remove_whitespace x) s.
Proof.
  induction 1 as [c Hc|ws x s Hw _ IH|o c ws1 x ws2 s Hoc Hw1 Hw2 _ IH Hs
                 |x s _ IH|sym build x1 ws1 ws2 x2 s1 s2 Hin _ IH1 Hw1 Hw2 _ IH2].
  - unfold remove_whitespace. cbn [List.filter].
    rewrite (upper_not_whitespace c Hc). apply wff_letter, Hc.
  - change (126 :: ws ++ x) with ([126] ++ ws ++ x).
    rewrite !remove_whitespace_app, (remove_whitespace_white ws Hw).
    apply (wff_negation [] _ _ white_nil IH).
  - change (o :: ws1 ++ x ++ ws2 ++ [c]) with ([o] ++ ws1 ++ x ++ ws2 ++ [c]).
    rewrite !remove_whitespace_app, (remove_whitespace_white ws1 Hw1),
      (remove_whitespace_white ws2 Hw2).
    assert (Ho : remove_whitespace [o] = [o] /\ remove_whitespace [c] = [c]).
    { unfold brackets in Hoc. rewrite !elem_of_cons in Hoc.
      destruct Hoc as [E|[E|[E|E]]]; [injection E as -> ->; split; reflexivity..|inversion E]. }
    destruct Ho as [-> ->].
    apply (wff_wrapped o c [] _ [] s Hoc white_nil white_nil IH Hs).
  - apply wff_factor, IH.
  - rewrite !remove_whitespace_app, (remove_whitespace_white ws1 Hw1),
      (remove_whitespace_white ws2 Hw2), (remove_whitespace_symbol sym build Hin).
    apply (wff_binary sym build _ [] [] _ s1 s2 Hin IH1 white_nil white_nil IH2).
Qed.

Lemma remove_whitespace_trim s : remove_whitespace (trim s) = remove_whitespace s.
Proof.
  destruct (trim_split s) as (ws1 & ws2 & H1 & H2 & E).
  rewrite E at 2. rewrite !remove_whitespace_app.
  rewrite (remove_whitespace_white ws1 H1), (remove_whitespace_white ws2 H2), app_nil_r.
  reflexivity.
Qed.

Lemma trim_remove_whitespace s : trim (remove_whitespace s) = remove_whitespace s.
Proof.
  assert (Hnone : Forall (fun c => is_whitespace c = false) (remove_whitespace s)).
  { apply List.Forall_forall. intros c Hc. apply filter_In in Hc.
    destruct Hc as [_ Hc]. apply negb_true_iff in Hc. exact Hc. }
  destruct (remove_whitespace s) as [|c r] eqn:E; [reflexivity|].
  apply trim_solid.
  - exists c, r. split; [reflexivity|]. inversion Hnone; assumption.
  - destruct (exists_last (l := c :: r) ltac:(discriminate)) as (r' & d & Er).
    exists r', d. split; [exact Er|]. rewrite Er in Hnone.
    apply Forall_app in Hnone. destruct Hnone as [_ Hd]. inversion Hd; assumption.
Qed.

(** X2. White space is insignificant in what [parse_sentence] accepts: an
    input that parses still parses, and to the same sentence, when white
    space is added or removed around it or all of its white space is
    removed. *)
Theorem parse_sentence_whitespace (input : jsstring) (s : Sentence) :
  parse_sentence input = Some (ResOk s) ->
  parse_sentence (remove_whitespace input) = Some (ResOk s)
  /\ forall ws1 ws2, white ws1 -> white ws2 ->
       parse_sentence (ws1 ++ input ++ ws2) = Some (ResOk s).
Proof.
  intros H. apply parse_sentence_wff in H. split.
  - apply wff_parse_sentence. rewrite trim_remove_whitespace, <- remove_whitespace_trim.
    apply wff_remove_whitespace, H.
  - intros ws1 ws2 H1 H2. apply wff_parse_sentence. rewrite trim_white by assumption.
    exact H.
Qed.

Lemma parse_sentence_whitespace_witness :
  parse_sentence (remove_whitespace (js "( A  <->  ~ B )"))
  = Some (ResOk (biconditional A_ (negation B_)))
  /\ forall ws1 ws2, white ws1 -> white ws2 ->
       parse_sentence (ws1 ++ js "( A  <->  ~ B )" ++ ws2)
       = Some (ResOk (biconditional A_ (negation B_))).
Proof. apply parse_sentence_whitespace. vm_compute. reflexivity. Defined.

Lemma symbol_input_characters sym build :
  (sym, build) ∈ binary_table -> Forall (fun c => input_character c = true) sym.
Proof.
  unfold binary_table. rewrite !elem_of_cons. intros H.
  destruct H as [E|[E|[E|[E|[E|[E|E]]]]]]; [injection E as -> _..|inversion E];
    repeat constructor.
Qed.

Lemma wff_alphabet lv x s :
  wff lv x s -> Forall (fun c => input_character c = true \/ is_whitespace c = true) x.
Proof.
  assert (Hwhite : forall ws, white ws ->
            Forall (fun c => input_character c = true \/ is_whitespace c = true) ws).
  { intros ws Hw. eapply Forall_impl; [exact Hw|]. auto. }
  induction 1 as [c Hc|ws x s Hw _ IH|o c ws1 x ws2 s Hoc Hw1 Hw2 _ IH Hs
                 |x s _ IH|sym build x1 ws1 ws2 x2 s1 s2 Hin _ IH1 Hw1 Hw2 _ IH2].
  - constructor; [|constructor]. left. unfold input_character. rewrite Hc. reflexivity.
  - constructor; [left; reflexivity|]. apply Forall_app. auto.
  - assert (Ho : input_character o = true /\ input_character c = true).
    { unfold brackets in Hoc. rewrite !elem_of_cons in Hoc.
      destruct Hoc as [E|[E|[E|E]]]; [injection E as -> ->; split; reflexivity..|inversion E]. }
    constructor; [left; tauto|]. rewrite !Forall_app.
    repeat split; auto. constructor; [left; tauto|constructor].
  - exact IH.
  - rewrite !Forall_app. repeat split; auto.
    eapply Forall_impl; [exact (symbol_input_characters _ _ Hin)|]. auto.
Qed.

(** X3. Whatever [parse_sentence] accepts is written, apart from white
    space, with upper-case letters, the characters of the connectives
    [~ & v -> <-> + |] and brackets; an input with any other character
    (a digit, a lower-case letter other than v, a display symbol) gets
    the syntax error. *)
Theorem parse_sentence_alphabet (input : jsstring) :
  (forall s, parse_sentence input = Some (ResOk s) ->
     Forall (fun c => input_character c = true \/ is_whitespace c = true) input)
  /\ (forall c, c ∈ input -> input_character c = false -> is_whitespace c = false ->
        parse_sentence input = Some (ResErr (js "Syntax error (not a wff)."))).
Proof.
  assert (Hok : forall s, parse_sentence input = Some (ResOk s) ->
            Forall (fun c => input_character c = true \/ is_whitespace c = true) input).
  { intros s H. apply parse_sentence_wff, wff_alphabet in H.
    destruct (trim_split input) as (ws1 & ws2 & H1 & H2 & E). rewrite E.
    rewrite !Forall_app. repeat split; [|exact H|];
      (eapply Forall_impl; [eassumption|]; auto). }
  split; [exact Hok|].
  intros c Hin Hc Hw. destruct (parse_sentence_returns input) as ([s|e] & Hr).
  - exfalso. specialize (Hok s Hr).
    destruct (proj1 (Forall_forall _ _) Hok c Hin); congruence.
  - rewrite Hr. unfold parse_sentence in Hr.
    destruct (P.parse _ _); try discriminate. injection Hr as <-. reflexivity.
Qed.

Lemma parse_sentence_alphabet_witness :
  parse_sentence (js "A & b") = Some (ResErr (js "Syntax error (not a wff).")).
Proof.
  apply (proj2 (parse_sentence_alphabet (js "A & b")) 98); [|reflexivity|reflexivity].
  apply list_elem_of_In. vm_compute. do 4 right. left. reflexivity.
Defined.

(* ===================================================================== *)
(** ** The warning about outer brackets *)
(* ===================================================================== *)

Lemma bracket_depth_app o c p q :
  bracket_depth o c (p ++ q) = (bracket_depth o c p + bracket_depth o c q)%Z.
Proof. induction p as [|ch p IH]; simpl; [reflexivity|]. rewrite IH. lia. Qed.

Lemma closed_before_end_spec o c chars : forall d,
  closed_before_end [o] [c] chars d = true
  <-> exists k, (0 < k <= length chars)%nat
                /\ (d + bracket_depth o c (take k chars) = 0)%Z.
Proof.
  induction chars as [|ch chars IH]; intros d; cbn [closed_before_end].
  - split; [discriminate|]. intros (k & Hk & _). simpl in Hk. lia.
  - assert (Hstep : (if bool_decide ([ch] = [o]) then (d + 1)%Z
                     else if bool_decide ([ch] = [c]) then (d - 1)%Z else d)
                    = (d + bracket_step o c ch)%Z).
    { unfold bracket_step.
      destruct (decide (ch = o)) as [->|Ho].
      - rewrite !bool_decide_eq_true_2 by reflexivity. reflexivity.
      - rewrite (bool_decide_eq_false_2 ([ch] = [o])) by congruence.
        rewrite (bool_decide_eq_false_2 (ch = o)) by exact Ho.
        destruct (decide (ch = c)) as [->|Hc].
        + rewrite !bool_decide_eq_true_2 by reflexivity. lia.
        + rewrite (bool_decide_eq_false_2 ([ch] = [c])) by congruence.
          rewrite (bool_decide_eq_false_2 (ch = c)) by exact Hc. lia. }
    rewrite Hstep.
    destruct (Z.eqb_spec (d + bracket_step o c ch) 0) as [E|E].
    + split; [intros _|reflexivity]. exists 1%nat. cbn [length take bracket_depth].
      split; [lia|]. rewrite take_0. cbn [bracket_depth]. lia.
    + rewrite IH. split.
      * intros (k & Hk & Hd). exists (S k). cbn [length take bracket_depth].
        split; [lia|]. lia.
      * intros (k & Hk & Hd). destruct k as [|k]; [lia|].
        cbn [length take bracket_depth] in Hk, Hd.
        destruct k as [|k]; [rewrite take_0 in Hd; cbn [bracket_depth] in Hd; lia|].
        exists (S k). split; [lia|]. lia.
Qed.

Lemma dyck_app o c a b : dyck o c a -> dyck o c b -> dyck o c (a ++ b).
Proof.
  intros [Ha Ha'] [Hb Hb']. split.
  - rewrite bracket_depth_app. lia.
  - intros k. rewrite take_app, bracket_depth_app.
    specialize (Ha' k). specialize (Hb' (k - length a)%nat). lia.
Qed.

Lemma bracket_free_step o c ch :
  (o, c) ∈ brackets ->
  ch <> 40 /\ ch <> 41 /\ ch <> 91 /\ ch <> 93 /\ ch <> 123 /\ ch <> 125 ->
  bracket_step o c ch = 0%Z.
Proof.
  intros Hoc H. unfold bracket_step.
  unfold brackets in Hoc. rewrite !elem_of_cons in Hoc.
  destruct Hoc as [E|[E|[E|E]]]; [injection E as -> ->..|inversion E];
    rewrite !bool_decide_eq_false_2 by (intros ->; tauto); reflexivity.
Qed.

Lemma bracket_free_depth o c p :
  (o, c) ∈ brackets -> bracket_free p -> bracket_depth o c p = 0%Z.
Proof.
  intros Hoc H. induction H as [|ch p Hch _ IH]; simpl; [reflexivity|].
  rewrite (bracket_free_step o c ch Hoc Hch), IH. reflexivity.
Qed.

Lemma bracket_free_dyck o c p : (o, c) ∈ brackets -> bracket_free p -> dyck o c p.
Proof.
  intros Hoc H. split; [apply bracket_free_depth; assumption|].
  intros k. rewrite bracket_free_depth; [lia|exact Hoc|]. apply Forall_take, H.
Qed.

Lemma white_bracket_free ws : white ws -> bracket_free ws.
Proof.
  intros H. eapply Forall_impl; [exact H|]. intros ch Hch.
  repeat split; intros ->; discriminate.
Qed.

Lemma symbol_bracket_free sym build : (sym, build) ∈ binary_table -> bracket_free sym.
Proof.
  unfold binary_table. rewrite !elem_of_cons. intros H.
  destruct H as [E|[E|[E|[E|[E|[E|E]]]]]]; [injection E as -> _..|inversion E];
    repeat constructor; discriminate.
Qed.

Lemma dyck_wrap o c o' c' x :
  (o, c) ∈ brackets -> (o', c') ∈ brackets -> dyck o c x -> dyck o c (o' :: x ++ [c']).
Proof.
  intros Hoc Hoc' [Hx Hx'].
  assert (Hsteps : (bracket_step o c o' = 1 /\ bracket_step o c c' = -1
                    \/ bracket_step o c o' = 0 /\ bracket_step o c c' = 0)%Z).
  { unfold brackets in Hoc, Hoc'. rewrite !elem_of_cons in Hoc, Hoc'.
    destruct Hoc as [E|[E|[E|E]]]; [injection E as -> ->..|inversion E];
      (destruct Hoc' as [E'|[E'|[E'|E']]]; [injection E' as -> ->..|inversion E']);
      vm_compute; auto. }
  split.
  - simpl. rewrite bracket_depth_app, Hx. simpl. lia.
  - intros k. destruct k as [|k]; [rewrite take_0; simpl; lia|].
    simpl. rewrite take_app, bracket_depth_app. specialize (Hx' k).
    assert (Hlast : (bracket_step o c c' <= bracket_depth o c (take (k - length x) [c']))%Z
                    \/ bracket_depth o c (take (k - length x) [c']) = 0%Z).
    { destruct (k - length x)%nat; [right; reflexivity|left; simpl; rewrite take_nil; simpl; lia]. }
    destruct (decide (k <= length x)%nat) as [Hk|Hk].
    + replace (k - length x)%nat with 0%nat by lia. rewrite take_0. simpl. lia.
    + rewrite take_ge in * by lia. rewrite Hx in *. lia.
Qed.

Lemma wff_dyck lv x s : wff lv x s -> forall o c, (o, c) ∈ brackets -> dyck o c x.
Proof.
  induction 1 as [ch Hc|ws x s Hw _ IH|o' c' ws1 x ws2 s Hoc' Hw1 Hw2 _ IH _
                 |x s _ IH|sym build x1 ws1 ws2 x2 s1 s2 Hin _ IH1 Hw1 Hw2 _ IH2];
    intros o c Hoc.
  - apply bracket_free_dyck; [exact Hoc|]. pose proof (upper_bounds ch Hc).
    repeat constructor; lia.
  - change (126 :: ws ++ x) with ([126] ++ ws ++ x).
    repeat apply dyck_app; [..|apply IH, Hoc];
      apply bracket_free_dyck; try exact Hoc; [|apply white_bracket_free, Hw].
    repeat constructor; discriminate.
  - replace (ws1 ++ x ++ ws2 ++ [c']) with ((ws1 ++ x ++ ws2) ++ [c'])
      by (rewrite <- !app_assoc; reflexivity).
    apply dyck_wrap; [exact Hoc|exact Hoc'|].
    repeat apply dyck_app; [|apply IH, Hoc|];
      apply bracket_free_dyck; try exact Hoc; apply white_bracket_free; assumption.
  - apply IH, Hoc.
  - repeat apply dyck_app; [apply IH1, Hoc| | | |apply IH2, Hoc];
      apply bracket_free_dyck; try exact Hoc;
      [apply white_bracket_free, Hw1|exact (symbol_bracket_free _ _ Hin)
      |apply white_bracket_free, Hw2].
Qed.

Lemma wff_ends_solid lv x s : wff lv x s -> ends_solid x.
Proof.
  induction 1 as [ch Hc|ws x s Hw _ IH|o c ws1 x ws2 s Hoc _ _ _ _ _
                 |x s _ IH|sym build x1 ws1 ws2 x2 s1 s2 _ _ _ _ _ _ IH2].
  - exists [], ch. split; [reflexivity|]. apply upper_not_whitespace, Hc.
  - destruct IH as (r & d & -> & Hd). exists (126 :: ws ++ r), d.
    split; [cbn [app]; rewrite <- ?app_assoc; reflexivity|exact Hd].
  - exists (o :: ws1 ++ x ++ ws2), c.
    split; [cbn [app]; rewrite <- ?app_assoc; reflexivity|].
    unfold brackets in Hoc. rewrite !elem_of_cons in Hoc.
    destruct Hoc as [H|[H|[H|H]]]; [injection H as -> ->; reflexivity..|inversion H].
  - exact IH.
  - destruct IH2 as (r & d & -> & Hd). exists (x1 ++ ws1 ++ sym ++ ws2 ++ r), d.
    split; [rewrite <- !app_assoc; reflexivity|exact Hd].
Qed.

(** What the text of a letter, a negation and a constant looks like. *)
Lemma wff_head lv x s :
  wff lv x s ->
  match s with
  | letter _ => exists ch, x = [ch] /\ (65 <=? ch) && (ch <=? 90) = true
  | negation _ => exists r, x = 126 :: r
  | value _ => False
  | _ => True
  end.
Proof.
  induction 1 as [ch Hc|ws x s Hw _ IH|o c ws1 x ws2 s Hoc _ _ _ IH Hs
                 |x s _ IH|sym build x1 ws1 ws2 x2 s1 s2 Hin _ _ _ _ _ _].
  - exists ch. auto.
  - eexists. reflexivity.
  - destruct s; try discriminate Hs; try exact I. exact IH.
  - exact IH.
  - unfold binary_table in Hin. rewrite !elem_of_cons in Hin.
    destruct Hin as [E|[E|[E|[E|[E|[E|E]]]]]]; [injection E as _ ->; exact I..|inversion E].
Qed.

Lemma brackets_cases o c :
  (o, c) ∈ brackets <-> (o = 40 /\ c = 41) \/ (o = 91 /\ c = 93) \/ (o = 123 /\ c = 125).
Proof.
  unfold brackets. rewrite !elem_of_cons. split.
  - intros [E|[E|[E|E]]]; [injection E as -> ->; tauto..|inversion E].
  - intros [[-> ->]|[[-> ->]| [-> ->]]]; tauto.
Qed.

Lemma wff_bracketed o r s :
  wff OfFactor (o :: r) s -> o = 40 \/ o = 91 \/ o = 123 ->
  exists c ws1 x ws2,
    (o, c) ∈ brackets /\ r = ws1 ++ x ++ ws2 ++ [c] /\ white ws1 /\ white ws2
    /\ wff OfSentence x s /\ is_negation_or_letter s = false.
Proof.
  intros H Ho. inversion H; subst.
  - match goal with Hc : (65 <=? o) && (o <=? 90) = true |- _ =>
      pose proof (upper_bounds _ Hc) end. lia.
  - lia.
  - eexists _, _, _, _. repeat split; try eassumption; reflexivity.
Qed.

Lemma startsWith_singleton x o : startsWith x [o] = true <-> exists r, x = o :: r.
Proof.
  destruct x as [|d x]; simpl.
  - split; [discriminate|]. intros (r & E). discriminate.
  - rewrite andb_true_r. split.
    + intros H. apply N.eqb_eq in H. subst. eauto.
    + intros (r & E). injection E as -> _. apply N.eqb_refl.
Qed.

Lemma endsWith_singleton x c : endsWith x [c] = true <-> exists r, x = r ++ [c].
Proof.
  unfold endsWith. change (rev [c]) with [c]. rewrite startsWith_singleton. split.
  - intros (r & E). exists (rev r). rewrite <- (rev_involutive x), E. reflexivity.
  - intros (r & ->). exists (rev r). rewrite rev_app_distr. reflexivity.
Qed.

Lemma both_ends x o c :
  o <> c ->
  startsWith x [o] && endsWith x [c] = true <-> exists inner, x = o :: inner ++ [c].
Proof.
  intros Hne. rewrite andb_true_iff, startsWith_singleton, endsWith_singleton. split.
  - intros [(r & E1) (r' & E2)]. destruct r' as [|d r'].
    + rewrite E2 in E1. injection E1 as -> _. congruence.
    + exists r'. rewrite E2 in E1. injection E1 as -> _. exact E2.
  - intros (inner & ->). split; [eauto|]. exists (o :: inner). reflexivity.
Qed.

Lemma take_all_but_last (o : N) inner c :
  take (length (o :: inner ++ [c]) - 1) (o :: inner ++ [c]) = o :: inner.
Proof.
  change (o :: inner ++ [c]) with ((o :: inner) ++ [c]).
  rewrite length_app. simpl length.
  replace (S (length inner) + 1 - 1)%nat with (length (o :: inner)) by (simpl; lia).
  apply take_app_length.
Qed.

(** When the scan reports outer brackets. *)
Lemma outer_parens_of_spec trimmed s :
  outer_parens_of bracketPairs trimmed s = true
  <-> exists o c inner,
        (o, c) ∈ brackets /\ trimmed = o :: inner ++ [c]
        /\ closed_before_end [o] [c] (o :: inner) 0 = false
        /\ is_binary s = true.
Proof.
  assert (Hbin : match s with letter _ | negation _ | value _ => false | _ => true end
                 = is_binary s) by (destruct s; reflexivity).
  unfold bracketPairs. cbn [outer_parens_of].
  change (js "(") with [40]. change (js ")") with [41].
  change (js "[") with [91]. change (js "]") with [93].
  change (js "{") with [123]. change (js "}") with [125].
  rewrite Hbin. split.
  - intros H.
    destruct (startsWith trimmed [40] && endsWith trimmed [41]) eqn:E1.
    { apply both_ends in E1; [|discriminate]. destruct E1 as (inner & ->).
      rewrite take_all_but_last in H.
      exists 40, 41, inner. rewrite brackets_cases.
      destruct (closed_before_end [40] [41] (40 :: inner) 0); [discriminate|]. auto. }
    destruct (startsWith trimmed [91] && endsWith trimmed [93]) eqn:E2.
    { apply both_ends in E2; [|discriminate]. destruct E2 as (inner & ->).
      rewrite take_all_but_last in H.
      exists 91, 93, inner. rewrite brackets_cases.
      destruct (closed_before_end [91] [93] (91 :: inner) 0); [discriminate|]. auto. }
    destruct (startsWith trimmed [123] && endsWith trimmed [125]) eqn:E3; [|discriminate].
    apply both_ends in E3; [|discriminate]. destruct E3 as (inner & ->).
    rewrite take_all_but_last in H.
    exists 123, 125, inner. rewrite brackets_cases.
    destruct (closed_before_end [123] [125] (123 :: inner) 0); [discriminate|]. auto.
  - intros (o & c & inner & Hoc & -> & Hclosed & Hs).
    apply brackets_cases in Hoc.
    destruct Hoc as [[-> ->]|[[-> ->]|[-> ->]]].
    + rewrite (proj2 (both_ends _ 40 41 ltac:(discriminate))) by eauto.
      rewrite take_all_but_last, Hclosed. exact Hs.
    + replace (startsWith (91 :: inner ++ [93]) [40]) with false by reflexivity.
      cbn [andb].
      rewrite (proj2 (both_ends _ 91 93 ltac:(discriminate))) by eauto.
      rewrite take_all_but_last, Hclosed. exact Hs.
    + replace (startsWith (123 :: inner ++ [125]) [40]) with false by reflexivity.
      replace (startsWith (123 :: inner ++ [125]) [91]) with false by reflexivity.
      cbn [andb].
      rewrite (proj2 (both_ends _ 123 125 ltac:(discriminate))) by eauto.
      rewrite take_all_but_last, Hclosed. exact Hs.
Qed.

Lemma wff_sentence_cases x s :
  wff OfSentence x s ->
  wff OfFactor x s
  \/ exists sym build x1 ws1 ws2 x2 s1 s2,
       x = x1 ++ ws1 ++ sym ++ ws2 ++ x2 /\ s = build s1 s2
       /\ (sym, build) ∈ binary_table /\ wff OfFactor x1 s1 /\ wff OfFactor x2 s2.
Proof.
  intros H. inversion H; subst; [left; assumption|right].
  eexists _, _, _, _, _, _, _, _. repeat split; eassumption.
Qed.

Lemma padded_dyck o c ws1 x ws2 :
  (o, c) ∈ brackets -> white ws1 -> white ws2 -> dyck o c x -> dyck o c (ws1 ++ x ++ ws2).
Proof.
  intros Hoc H1 H2 Hx.
  repeat apply dyck_app; [|exact Hx|];
    apply bracket_free_dyck; try exact Hoc; apply white_bracket_free; assumption.
Qed.

Lemma bracket_step_open o c : (o, c) ∈ brackets -> bracket_step o c o = 1%Z.
Proof. intros _. unfold bracket_step. rewrite bool_decide_eq_true_2; reflexivity. Qed.

(** Brackets that enclose a balanced text are not closed before the
    end. *)
Lemma enclosed_not_closed o c inner :
  (o, c) ∈ brackets -> dyck o c inner ->
  closed_before_end [o] [c] (o :: inner) 0 = false.
Proof.
  intros Hoc [_ Hpre]. apply not_true_is_false. intros H.
  apply closed_before_end_spec in H. destruct H as (k & Hk & Hd).
  destruct k as [|k]; [lia|]. cbn [take bracket_depth] in Hd.
  rewrite (bracket_step_open o c Hoc) in Hd. specialize (Hpre k). lia.
Qed.

(** A balanced proper prefix that starts with the opening bracket is
    closed before the end. *)
Lemma prefix_closed o c x1 rest inner :
  (0 < length x1)%nat -> (0 < length rest)%nat ->
  bracket_depth o c x1 = 0%Z ->
  (o :: inner) ++ [c] = x1 ++ rest ->
  closed_before_end [o] [c] (o :: inner) 0 = true.
Proof.
  intros H1 Hrest Hd E. apply closed_before_end_spec.
  assert (Hlen : (length x1 <= length (o :: inner))%nat).
  { apply (f_equal length) in E. rewrite !length_app in E. simpl in E. simpl. lia. }
  exists (length x1). split; [lia|].
  replace (take (length x1) (o :: inner)) with x1; [lia|].
  rewrite <- (take_app_le (o :: inner) [c]) by exact Hlen.
  rewrite E, take_app_length. reflexivity.
Qed.

Lemma wff_is_binary lv o r s :
  wff lv (o :: r) s -> o = 40 \/ o = 91 \/ o = 123 -> is_binary s = true.
Proof.
  intros H Ho. pose proof (wff_head _ _ _ H) as Hh.
  destruct s; try reflexivity.
  - destruct Hh.
  - destruct Hh as (ch & E & Hc). injection E as -> _.
    pose proof (upper_bounds _ Hc). lia.
  - destruct Hh as (r' & E). injection E as -> _. lia.
Qed.

Lemma bracket_opening o c : (o, c) ∈ brackets -> o = 40 \/ o = 91 \/ o = 123.
Proof. rewrite brackets_cases. tauto. Qed.

Lemma brackets_functional o c c' : (o, c) ∈ brackets -> (o, c') ∈ brackets -> c = c'.
Proof. rewrite !brackets_cases. lia. Qed.

(** If the scan reports outer brackets on a text that parses, the text
    is a bracketed sentence. *)
Lemma outer_parens_wrapped trimmed s :
  wff OfSentence trimmed s ->
  outer_parens_of bracketPairs trimmed s = true ->
  exists o c ws1 x ws2,
    (o, c) ∈ brackets /\ trimmed = o :: (ws1 ++ x ++ ws2) ++ [c]
    /\ white ws1 /\ white ws2 /\ wff OfSentence x s.
Proof.
  intros Hw H. apply outer_parens_of_spec in H.
  destruct H as (o & c & inner & Hoc & -> & Hclosed & Hs).
  pose proof (bracket_opening _ _ Hoc) as Ho.
  destruct (wff_sentence_cases _ _ Hw) as [Hf|Hb].
  - destruct (wff_bracketed _ _ _ Hf Ho) as (c' & ws1 & x & ws2 & Hoc' & E & H1 & H2 & Hx & _).
    pose proof (brackets_functional _ _ _ Hoc Hoc'). subst c'.
    exists o, c, ws1, x, ws2. repeat split; try assumption.
    f_equal. rewrite E, <- !app_assoc. reflexivity.
  - exfalso.
    destruct Hb as (sym & build & x1 & ws1 & ws2 & x2 & s1 & s2 & E & -> & Hin & H1 & H2).
    pose proof (wff_length _ _ _ H1) as L1. pose proof (wff_length _ _ _ H2) as L2.
    destruct x1 as [|o' r1]; [simpl in L1; lia|].
    injection E as <- E.
    destruct (wff_bracketed _ _ _ H1 Ho) as (c' & _ & _ & _ & Hoc' & _).
    pose proof (brackets_functional _ _ _ Hoc Hoc'). subst c'.
    destruct (wff_dyck _ _ _ H1 o c Hoc) as [Hd _].
    rewrite (prefix_closed o c (o :: r1) (ws1 ++ sym ++ ws2 ++ x2) inner) in Hclosed;
      [discriminate|simpl; lia|rewrite !length_app; lia|exact Hd|].
    simpl. rewrite E. reflexivity.
Qed.

Lemma outer_parens_iff (text : jsstring) (s : Sentence) :
  wff OfSentence (trim text) s ->
  (hasUnnecessaryOuterParens text s = true
   <-> exists o c inner,
         (o, c) ∈ brackets /\ trim text = o :: inner ++ [c]
         /\ parse_sentence inner = Some (ResOk s)).
Proof.
  intros Hparse. unfold hasUnnecessaryOuterParens. split.
  - intros H.
    destruct (outer_parens_wrapped _ _ Hparse H)
      as (o & c & ws1 & x & ws2 & Hoc & E & H1 & H2 & Hx).
    exists o, c, (ws1 ++ x ++ ws2). repeat split; try assumption.
    apply wff_parse_sentence.
    rewrite trim_padded;
      [exact Hx|exact H1|exact H2|exact (wff_starts_solid _ _ _ Hx)
      |exact (wff_ends_solid _ _ _ Hx)].
  - intros (o & c & inner & Hoc & E & Hinner).
    apply outer_parens_of_spec. exists o, c, inner.
    repeat split; try assumption.
    + apply enclosed_not_closed; [exact Hoc|].
      apply parse_sentence_wff in Hinner.
      destruct (trim_split inner) as (ws1 & ws2 & H1 & H2 & Ei).
      rewrite Ei. apply padded_dyck; try assumption.
      exact (wff_dyck _ _ _ Hinner o c Hoc).
    + rewrite E in Hparse.
      exact (wff_is_binary _ _ _ _ Hparse (bracket_opening _ _ Hoc)).
Qed.

(** X4. On a text that parses, [hasUnnecessaryOuterParens] answers [true]
    exactly when the trimmed text is a pair of matching brackets around
    a text that parses to the same sentence. *)
Theorem outer_parens_warning (text : jsstring) (s : Sentence) :
  parse_sentence text = Some (ResOk s) ->
  (hasUnnecessaryOuterParens text s = true
   <-> exists o c inner,
         (o, c) ∈ brackets /\ trim text = o :: inner ++ [c]
         /\ parse_sentence inner = Some (ResOk s)).
Proof. intros H. apply outer_parens_iff, parse_sentence_wff, H. Qed.

Lemma outer_parens_warning_witness :
  hasUnnecessaryOuterParens (js " [ A -> (B v C) ] ") (conditional A_ (disjunction B_ C_))
  = true
  <-> exists o c inner,
        (o, c) ∈ brackets /\ trim (js " [ A -> (B v C) ] ") = o :: inner ++ [c]
        /\ parse_sentence inner = Some (ResOk (conditional A_ (disjunction B_ C_))).
Proof.
  apply (outer_parens_warning (js " [ A -> (B v C) ] ")). vm_compute. reflexivity.
Defined.

(* ===================================================================== *)
(** ** Display strings and the header row *)
(* ===================================================================== *)

Lemma remove_spaces_app a b : remove_spaces (a ++ b) = remove_spaces a ++ remove_spaces b.
Proof. apply List.filter_app. Qed.

Lemma sentence_to_string_unfold s :
  sentence_to_string s
  = match s with
    | value v => if v then [u22A4] else [u22A5]
    | letter l => letter_string l
    | negation a => js "~" ++ wrap_if_needed a
    | conjunction a b => wrap_if_needed a ++ js " & " ++ wrap_if_needed b
    | disjunction a b => wrap_if_needed a ++ [32; u2228; 32] ++ wrap_if_needed b
    | conditional a b => wrap_if_needed a ++ [32; u2192; 32] ++ wrap_if_needed b
    | biconditional a b => wrap_if_needed a ++ [32; u2194; 32] ++ wrap_if_needed b
    | xor a b => wrap_if_needed a ++ [32; u2295; 32] ++ wrap_if_needed b
    | nand a b => wrap_if_needed a ++ js " | " ++ wrap_if_needed b
    end.
Proof. destruct s; reflexivity. Qed.

Lemma wrap_if_needed_unfold s :
  wrap_if_needed s
  = if is_binary s then js "(" ++ sentence_to_string s ++ js ")" else sentence_to_string s.
Proof. destruct s; reflexivity. Qed.

Ltac header_binary IHa IHb isTop :=
  rewrite !fmap_app, !concat_app, !remove_spaces_app, (IHa false false), (IHb false false);
  rewrite (wrap_if_needed_unfold (_ _ _)), (sentence_to_string_unfold (_ _ _));
  cbn [is_binary]; cbv iota;
  destruct isTop; cbn [fmap list_fmap concat token_text app node_text];
  rewrite ?app_nil_r, ?remove_spaces_app, <- ?app_assoc; reflexivity.

Lemma header_layout s : forall isMain isTop,
  remove_spaces (concat (token_text <$> layout s isMain isTop []))
  = remove_spaces (if isTop then sentence_to_string s else wrap_if_needed s).
Proof.
  induction s as [v|l|a IHa|a IHa b IHb|a IHa b IHb|a IHa b IHb
                 |a IHa b IHb|a IHa b IHb|a IHa b IHb]; intros isMain isTop;
    rewrite layout_unfold.
  - destruct isTop; cbn [fmap list_fmap concat token_text node_text];
      rewrite app_nil_r; reflexivity.
  - destruct isTop; cbn [fmap list_fmap concat token_text node_text];
      rewrite app_nil_r; reflexivity.
  - cbn [fmap list_fmap concat token_text node_text].
    rewrite remove_spaces_app, (IHa false false).
    destruct isTop; reflexivity.
  - header_binary IHa IHb isTop.
  - header_binary IHa IHb isTop.
  - header_binary IHa IHb isTop.
  - header_binary IHa IHb isTop.
  - header_binary IHa IHb isTop.
  - header_binary IHa IHb isTop.
Qed.

(** X5. Read from left to right, the header cells of a formula spell its
    display string, up to spaces. *)
Theorem header_spells_display_string (s : Sentence) :
  remove_spaces (header_text (layoutFormula s)) = remove_spaces (sentence_to_string s).
Proof. exact (header_layout s true true). Qed.

Lemma remove_spaces_id s :
  forallb (fun c => negb (c =? 32)) s = true -> remove_spaces s = s.
Proof.
  induction s as [|c s IH]; simpl; [reflexivity|].
  intros H. apply andb_true_iff in H. destruct H as [Hc Hs].
  rewrite Hc, IH by exact Hs. reflexivity.
Qed.

Lemma remove_spaces_digits ds :
  Forall (fun d => is_digit d = true) ds -> remove_spaces ds = ds.
Proof.
  intros H. apply remove_spaces_id. apply forallb_forall. intros c Hc.
  apply (proj1 (List.Forall_forall _ _) H) in Hc. unfold is_digit in Hc.
  apply andb_true_iff in Hc. destruct Hc as [H1 H2]. apply N.leb_le in H1, H2.
  apply negb_true_iff, N.eqb_neq. lia.
Qed.

Lemma remove_spaces_letter_string l :
  forallb (fun c => negb (c =? 32)) (id l) = true ->
  remove_spaces (letter_string l) = letter_string l.
Proof.
  intros H. unfold letter_string. rewrite remove_spaces_app, remove_spaces_id by exact H.
  destruct (0 <? index l)%Z; [|reflexivity].
  rewrite remove_spaces_digits; [reflexivity|]. apply uint_units_digits.
Qed.

Ltac compact_binary IHa IHb Hs isTop :=
  cbn [value_free spaceless_letters] in Hs;
  let H1 := fresh in let H2 := fresh in
  destruct Hs as [H1 H2]; apply andb_true_iff in H1, H2;
  rewrite (wrap_if_needed_unfold (_ _ _)), (sentence_to_string_unfold (_ _ _));
  cbn [is_binary]; cbv iota;
  cbn [sentence_to_string_compact_at]; unfold wrap_compact_with;
  destruct isTop;
  rewrite ?remove_spaces_app, (IHa false), (IHb false) by tauto;
  rewrite <- ?app_assoc; reflexivity.

Lemma compact_of_spaced s : forall isTop : bool,
  value_free s = true /\ spaceless_letters s = true ->
  remove_spaces (if isTop then sentence_to_string s else wrap_if_needed s)
  = sentence_to_string_compact_at s isTop.
Proof.
  induction s as [v|l|a IHa|a IHa b IHb|a IHa b IHb|a IHa b IHb
                 |a IHa b IHb|a IHa b IHb|a IHa b IHb]; intros isTop Hs.
  - destruct Hs as [Hs _]. discriminate Hs.
  - destruct Hs as [_ Hs]. cbn [spaceless_letters] in Hs.
    destruct isTop; apply remove_spaces_letter_string, Hs.
  - rewrite (wrap_if_needed_unfold (negation a)), (sentence_to_string_unfold (negation a)).
    cbn [is_binary]. cbv iota. cbn [sentence_to_string_compact_at].
    destruct isTop; rewrite remove_spaces_app, (IHa false) by exact Hs; reflexivity.
  - compact_binary IHa IHb Hs isTop.
  - compact_binary IHa IHb Hs isTop.
  - compact_binary IHa IHb Hs isTop.
  - compact_binary IHa IHb Hs isTop.
  - compact_binary IHa IHb Hs isTop.
  - compact_binary IHa IHb Hs isTop.
Qed.

(** X6. For a sentence without constants whose letter ids contain no
    space, the compact form is the display string with its spaces
    removed. *)
Theorem compact_is_display_without_spaces (s : Sentence) :
  value_free s = true -> spaceless_letters s = true ->
  remove_spaces (sentence_to_string s) = sentence_to_string_compact s.
Proof. intros H1 H2. exact (compact_of_spaced s true (conj H1 H2)). Qed.

Lemma compact_is_display_without_spaces_witness :
  remove_spaces (sentence_to_string (conditional (conjunction A_ B_) (negation C_)))
  = sentence_to_string_compact (conditional (conjunction A_ B_) (negation C_)).
Proof. apply compact_is_display_without_spaces; reflexivity. Defined.

(* ===================================================================== *)
(** ** Evaluation of sentences and layouts *)
(* ===================================================================== *)

Lemma evaluate_coincide (asg1 asg2 : Letter -> Completion bool) (s : Sentence) :
  (forall l, occurs l s -> asg1 l = asg2 l) -> evaluate asg1 s = evaluate asg2 s.
Proof.
  induction s as [v|l|a IHa|a IHa b IHb|a IHa b IHb|a IHa b IHb
                 |a IHa b IHb|a IHa b IHb|a IHa b IHb]; intros H; simpl in *;
    try reflexivity;
    try (rewrite IHa, IHb by (intros; apply H; auto); reflexivity).
  - apply H. reflexivity.
  - rewrite IHa by exact H. reflexivity.
Qed.

(** X7. [evaluate] reads the assignment only at the letters of the
    sentence: two assignments that agree there give the same result,
    thrown errors included. *)
Theorem evaluate_agree (asg1 asg2 : Letter -> Completion bool) (s : Sentence) :
  (forall l, occurs l s -> asg1 l = asg2 l) -> evaluate asg1 s = evaluate asg2 s.
Proof. apply evaluate_coincide. Qed.

Lemma evaluate_agree_witness :
  evaluate (lookup_in {[js "A" := true; js "B" := false]}) (conjunction A_ A_)
  = evaluate (lookup_in {[js "A" := true]}) (conjunction A_ A_).
Proof.
  apply evaluate_agree. intros l [->| ->]; reflexivity.
Defined.

Lemma evaluate_returns asg s :
  (forall l, occurs l s -> exists v, asg l = Return v) -> exists v, evaluate asg s = Return v.
Proof.
  intros H. destruct (evaluate asg s) as [v|m] eqn:E; [eauto|].
  destruct (evaluate_throw_occurs _ _ _ E) as (l & Hl & Hm).
  destruct (H l Hl) as (v & Hv). congruence.
Qed.

Lemma inorder_nodes d s : d ∈ inorder s -> (nodes d <= nodes s)%nat.
Proof.
  induction s as [v|l|a IHa|a IHa b IHb|a IHa b IHb|a IHa b IHb
                 |a IHa b IHb|a IHa b IHb|a IHa b IHb]; cbn [inorder nodes];
    rewrite ?elem_of_app, ?elem_of_cons, ?elem_of_nil;
    try (intros [->|[]]; cbn [nodes]; lia);
    try (intros [->|H]; [cbn [nodes]; lia|specialize (IHa H); lia]);
    (intros [H|[->|H]]; [specialize (IHa H); lia|cbn [nodes]; lia|specialize (IHb H); lia]).
Qed.

Lemma inorder_length s : length (inorder s) = nodes s.
Proof.
  induction s; cbn [inorder nodes]; rewrite ?length_app; cbn [length]; lia.
Qed.

Lemma inorder_subformula d s : d ∈ inorder s <-> subformula_of d s.
Proof.
  induction s as [v|l|a IHa|a IHa b IHb|a IHa b IHb|a IHa b IHb
                 |a IHa b IHb|a IHa b IHb|a IHa b IHb]; cbn [inorder subformula_of];
    rewrite ?elem_of_app, ?elem_of_cons, ?elem_of_nil, ?IHa, ?IHb; tauto.
Qed.

Lemma occurs_subformula l s : occurs l s <-> subformula_of (letter l) s.
Proof.
  induction s as [v|l'|a IHa|a IHa b IHb|a IHa b IHb|a IHa b IHb
                 |a IHa b IHb|a IHa b IHb|a IHa b IHb]; cbn [occurs subformula_of];
    rewrite ?IHa, ?IHb; try (split; [tauto|intros [H|H]; [discriminate H|tauto]]).
  split; [intros ->; left; reflexivity|intros [H|[]]; congruence].
Qed.

Lemma occurs_trans l d s : occurs l d -> subformula_of d s -> occurs l s.
Proof.
  rewrite !occurs_subformula. apply subformula_of_trans.
Qed.

Lemma value_tokens_app a b : value_tokens (a ++ b) = value_tokens a ++ value_tokens b.
Proof. apply omap_app. Qed.

Lemma value_tokens_paren (isTop : bool) c :
  value_tokens (if isTop then [] else [text_token c]) = [].
Proof. destruct isTop; reflexivity. Qed.

Lemma nested_tokens (isMain : bool) a r :
  (nodes a < nodes r)%nat ->
  (fun d => mkValueToken (node_text d) d (isMain && bool_decide (d = r))) <$> inorder a
  = (fun d => mkValueToken (node_text d) d false) <$> inorder a.
Proof.
  intros Hlt. apply list_fmap_ext. intros i d Hd.
  apply list_elem_of_lookup_2, inorder_nodes in Hd.
  rewrite bool_decide_eq_false_2 by (intros ->; lia).
  rewrite andb_false_r. reflexivity.
Qed.

Lemma value_tokens_layout s : forall isMain isTop,
  value_tokens (layout s isMain isTop [])
  = (fun d => mkValueToken (node_text d) d (isMain && bool_decide (d = s))) <$> inorder s.
Proof.
  induction s as [v|l|a IHa|a IHa b IHb|a IHa b IHb|a IHa b IHb
                 |a IHa b IHb|a IHa b IHb|a IHa b IHb]; intros isMain isTop;
    rewrite layout_unfold; cbn [inorder];
    rewrite ?fmap_app, ?fmap_cons, ?value_tokens_app, ?value_tokens_paren;
    try rewrite (nested_tokens isMain a) by (cbn [nodes]; lia);
    try rewrite (nested_tokens isMain b) by (cbn [nodes]; lia);
    try rewrite (IHa false false);
    try rewrite (IHb false false);
    rewrite ?bool_decide_eq_true_2, ?andb_true_r by reflexivity;
    rewrite ?app_nil_r; try reflexivity.
  change (value_token (node_text (negation a)) (negation a) isMain :: layout a false false [])
    with ([value_token (node_text (negation a)) (negation a) isMain] ++ layout a false false []).
  rewrite value_tokens_app, (IHa false false). reflexivity.
Qed.

Lemma value_tokens_layoutFormula (s : Sentence) :
  value_tokens (tokens (layoutFormula s))
  = (fun d => mkValueToken (node_text d) d (bool_decide (d = s))) <$> inorder s
  /\ length (value_tokens (tokens (layoutFormula s))) = nodes s
  /\ forall d, d ∈ inorder s <-> subformula_of d s.
Proof.
  assert (H : value_tokens (tokens (layoutFormula s))
              = (fun d => mkValueToken (node_text d) d (bool_decide (d = s))) <$> inorder s).
  { unfold layoutFormula. cbn [tokens]. rewrite value_tokens_layout. reflexivity. }
  split; [exact H|]. split.
  - rewrite H, length_fmap. apply inorder_length.
  - intros d. apply inorder_subformula.
Qed.

(** X8. The value tokens of a layout are the nodes of the sentence, one
    token per node in display order; each shows the symbol of its node
    and carries the sub-formula rooted there, and only the root is
    main. *)
Theorem layout_value_tokens (s : Sentence) :
  value_tokens (tokens (layoutFormula s))
  = (fun d => mkValueToken (node_text d) d (bool_decide (d = s))) <$> inorder s
  /\ length (value_tokens (tokens (layoutFormula s))) = nodes s
  /\ forall d, d ∈ inorder s <-> subformula_of d s.
Proof. apply value_tokens_layoutFormula. Qed.

Lemma Array_map_Forall2 {A B} (f : A -> Completion B) xs ys :
  Forall2 (fun x y => f x = Return y) xs ys -> Array_map f xs = Return ys.
Proof.
  induction 1 as [|x y xs ys Hxy _ IH]; simpl; [reflexivity|].
  rewrite Hxy. simpl. rewrite IH. reflexivity.
Qed.

Lemma evaluateLayout_spec (s : Sentence) (asg : Letter -> Completion bool) :
  ((exists evs, evaluateLayout (layoutFormula s) asg = Return evs)
   <-> forall l, occurs l s -> exists v, asg l = Return v)
  /\ forall evs, evaluateLayout (layoutFormula s) asg = Return evs ->
       Forall2 (fun d e => ev_text e = node_text d
                           /\ ev_isMain e = bool_decide (d = s)
                           /\ evaluate asg d = Return (ev_value e))
               (inorder s) evs.
Proof.
  destruct (value_tokens_layoutFormula s) as (Hvt & _ & Hin).
  assert (Hret : forall evs, evaluateLayout (layoutFormula s) asg = Return evs ->
            Forall2 (fun d e => ev_text e = node_text d
                                /\ ev_isMain e = bool_decide (d = s)
                                /\ evaluate asg d = Return (ev_value e))
                    (inorder s) evs).
  { intros evs H. apply evaluateLayout_Return in H. rewrite Hvt in H.
    rewrite Forall2_fmap_l in H. eapply Forall2_impl; [exact H|].
    intros d e (H1 & H2 & H3). auto. }
  split; [|exact Hret]. split.
  - intros (evs & H) l Hl. specialize (Hret evs H).
    apply occurs_subformula, Hin in Hl.
    apply list_elem_of_lookup_1 in Hl. destruct Hl as (i & Hi).
    destruct (Forall2_lookup_l _ _ _ _ _ Hret Hi) as (e & _ & _ & _ & He).
    exists (ev_value e). exact He.
  - intros H. unfold evaluateLayout. rewrite Hvt.
    apply Array_map_exists. intros t Ht.
    apply list_elem_of_fmap in Ht. destruct Ht as (d & -> & Hd). cbn [vt_subformula vt_text vt_isMain].
    destruct (evaluate_returns asg d) as (v & Hv).
    + intros l Hl. apply H. eapply occurs_trans; [exact Hl|]. apply Hin, Hd.
    + rewrite Hv. eexists. reflexivity.
Qed.


(* ===================================================================== *)
(** ** Letter sets, binary strings and the values of the table *)
(* ===================================================================== *)

Lemma has_add ls l x :
  LetterSet_.has (snd (LetterSet_.add ls l)) x = LetterSet_.has ls x || bool_decide (x = l).
Proof.
  unfold LetterSet_.add, LetterSet_.has.
  destruct (decide (id x = id l)) as [Eid|Nid].
  - rewrite Eid. destruct (map_ ls !! id l) as [set|] eqn:E.
    + destruct (decide (index l ∈ set)) as [Hin|Hnin].
      * rewrite (bool_decide_eq_true_2 _ Hin). cbn [negb snd]. rewrite E.
        destruct (decide (x = l)) as [->|Hne].
        -- rewrite (bool_decide_eq_true_2 _ Hin). reflexivity.
        -- rewrite (bool_decide_eq_false_2 _ Hne), orb_false_r. reflexivity.
      * rewrite (bool_decide_eq_false_2 _ Hnin). cbn [negb snd map_].
        rewrite lookup_insert_eq.
        destruct (decide (x = l)) as [->|Hne].
        -- rewrite (bool_decide_eq_true_2 (l = l)) by reflexivity. rewrite orb_true_r.
           apply bool_decide_eq_true_2, elem_of_union_r, elem_of_singleton. reflexivity.
        -- rewrite (bool_decide_eq_false_2 _ Hne), orb_false_r.
           assert (Hidx : index x <> index l).
           { intros Hi. apply Hne, Letter_eq. auto. }
           apply bool_decide_ext. rewrite elem_of_union, elem_of_singleton. tauto.
    + cbn [snd map_]. rewrite lookup_insert_eq.
      destruct (decide (x = l)) as [->|Hne].
      * rewrite (bool_decide_eq_true_2 (l = l)) by reflexivity.
        apply bool_decide_eq_true_2, elem_of_singleton. reflexivity.
      * rewrite (bool_decide_eq_false_2 _ Hne).
        assert (Hidx : index x <> index l).
        { intros Hi. apply Hne, Letter_eq. auto. }
        apply bool_decide_eq_false_2. rewrite elem_of_singleton. exact Hidx.
  - assert (Hne : x <> l) by (intros ->; apply Nid; reflexivity).
    rewrite (bool_decide_eq_false_2 _ Hne), orb_false_r.
    destruct (map_ ls !! id l) as [set|] eqn:E.
    + destruct (negb (bool_decide (index l ∈ set))); cbn [snd map_]; [|reflexivity].
      rewrite lookup_insert_ne by congruence. reflexivity.
    + cbn [snd map_]. rewrite lookup_insert_ne by congruence. reflexivity.
Qed.

Lemma add_result ls l :
  fst (LetterSet_.add ls l) = negb (LetterSet_.has ls l)
  /\ all (snd (LetterSet_.add ls l))
     = if LetterSet_.has ls l then all ls else all ls ++ [l].
Proof.
  unfold LetterSet_.add, LetterSet_.has.
  destruct (map_ ls !! id l) as [set|]; [|split; reflexivity].
  destruct (bool_decide (index l ∈ set)); split; reflexivity.
Qed.

(** X10. [LetterSet.add] and [LetterSet.has]: after [add(l)] the set has
    [l] and otherwise what it had; [add] returns [true] exactly when [l]
    was not there, and then appends [l] to the array and grows the
    size by one; adding a letter that is there changes nothing. *)
Theorem LetterSet_add_has (ls : LetterSet) (l : Letter) :
  (forall x, LetterSet_.has (snd (LetterSet_.add ls l)) x
             = LetterSet_.has ls x || bool_decide (x = l))
  /\ fst (LetterSet_.add ls l) = negb (LetterSet_.has ls l)
  /\ LetterSet_.toArray (snd (LetterSet_.add ls l))
     = (if LetterSet_.has ls l then LetterSet_.toArray ls else LetterSet_.toArray ls ++ [l])
  /\ LetterSet_.size (snd (LetterSet_.add ls l))
     = (if LetterSet_.has ls l then LetterSet_.size ls else S (LetterSet_.size ls))
  /\ (LetterSet_.has ls l = true -> snd (LetterSet_.add ls l) = ls).
Proof.
  destruct (add_result ls l) as [Hfst Hall].
  split; [intros x; apply has_add|]. split; [exact Hfst|]. split; [exact Hall|]. split.
  - unfold LetterSet_.size. rewrite Hall.
    destruct (LetterSet_.has ls l); [reflexivity|]. rewrite length_app. simpl. lia.
  - unfold LetterSet_.add, LetterSet_.has.
    destruct (map_ ls !! id l) as [set|]; [|discriminate].
    intros H. rewrite H. reflexivity.
Qed.

Lemma first_occurrences_snoc xs l :
  first_occurrences (xs ++ [l])
  = if decide (l ∈ xs) then first_occurrences xs else first_occurrences xs ++ [l].
Proof.
  unfold first_occurrences. rewrite reverse_snoc. cbn [remove_dups].
  destruct (decide_rel elem_of l (reverse xs)) as [H|H];
    rewrite elem_of_reverse in H.
  - rewrite decide_True by exact H. reflexivity.
  - rewrite decide_False by exact H. apply reverse_cons.
Qed.

Lemma elem_of_first_occurrences xs x : x ∈ first_occurrences xs <-> x ∈ xs.
Proof.
  unfold first_occurrences. rewrite elem_of_reverse, elem_of_remove_dups, elem_of_reverse.
  reflexivity.
Qed.

Lemma collect_letters_rec_add_all s : forall ls,
  collect_letters_rec s ls = add_all ls (letters_in_order s).
Proof.
  unfold add_all.
  induction s as [v|l|a IHa|a IHa b IHb|a IHa b IHb|a IHa b IHb
                 |a IHa b IHb|a IHa b IHb|a IHa b IHb]; intros ls;
    cbn [collect_letters_rec letters_in_order]; try reflexivity;
    try apply IHa; rewrite fold_left_app, <- IHa; apply IHb.
Qed.

Lemma add_all_empty xs :
  LetterSet_ok (add_all LetterSet_.empty xs)
  /\ all (add_all LetterSet_.empty xs) = first_occurrences xs.
Proof.
  induction xs as [|l xs [Hok Hall]] using rev_ind.
  - split; [apply LetterSet_empty_ok|reflexivity].
  - unfold add_all in *. rewrite fold_left_app. cbn [fold_left].
    split; [apply LetterSet_add_ok, Hok|].
    rewrite (proj2 (add_result _ l)), first_occurrences_snoc, Hall.
    destruct Hok as [_ Hhas].
    destruct (decide (l ∈ xs)) as [Hin|Hnin].
    + rewrite (proj2 (Hhas l)); [reflexivity|].
      rewrite Hall. apply elem_of_first_occurrences, Hin.
    + destruct (LetterSet_.has _ l) eqn:E; [|reflexivity].
      apply Hhas in E. rewrite Hall, elem_of_first_occurrences in E.
      exfalso. exact (Hnin E).
Qed.

Lemma occurs_letters_in_order l s : occurs l s <-> l ∈ letters_in_order s.
Proof.
  induction s as [v|l'|a IHa|a IHa b IHb|a IHa b IHb|a IHa b IHb
                 |a IHa b IHb|a IHa b IHb|a IHa b IHb]; cbn [occurs letters_in_order];
    rewrite ?elem_of_app, ?IHa, ?IHb; try tauto.
  - rewrite elem_of_nil. tauto.
  - rewrite list_elem_of_singleton. tauto.
Qed.

(** X11. [collect_letters] lists every letter of the sentence once, in the
    order of first occurrence from left to right; [has] answers
    membership and [size] counts the distinct letters. *)
Theorem collect_letters_order (s : Sentence) :
  LetterSet_.toArray (collect_letters s) = first_occurrences (letters_in_order s)
  /\ NoDup (LetterSet_.toArray (collect_letters s))
  /\ (forall l, LetterSet_.has (collect_letters s) l = true <-> occurs l s)
  /\ LetterSet_.size (collect_letters s) = length (first_occurrences (letters_in_order s)).
Proof.
  unfold collect_letters, LetterSet_.toArray, LetterSet_.size.
  rewrite collect_letters_rec_add_all.
  destruct (add_all_empty (letters_in_order s)) as [[Hnd Hhas] Hall].
  split; [exact Hall|]. split; [exact Hnd|]. split; [|rewrite Hall; reflexivity].
  intros l. rewrite Hhas, Hall, elem_of_first_occurrences, occurs_letters_in_order.
  reflexivity.
Qed.

Lemma bin_value_snoc s c : bin_value (s ++ [c]) = 2 * bin_value s + (c - 48).
Proof. unfold bin_value. rewrite fold_left_app. reflexivity. Qed.

Lemma bin_value_lsb p : bin_value (reverse (lsb_units p)) = Npos p.
Proof.
  induction p as [p IH|p IH|]; cbn [lsb_units]; rewrite ?reverse_cons, ?bin_value_snoc, ?IH;
    try reflexivity; lia.
Qed.

Lemma lsb_units_digits p : Forall (fun c => c = 48 \/ c = 49) (lsb_units p).
Proof. induction p; cbn [lsb_units]; constructor; auto; constructor. Qed.

Lemma bin_value_zeros k s : bin_value (replicate k 48 ++ s) = bin_value s.
Proof.
  unfold bin_value. rewrite fold_left_app.
  replace (fold_left (fun acc c => 2 * acc + (c - 48)) (replicate k 48) 0) with 0;
    [reflexivity|].
  induction k as [|k IH]; simpl; [reflexivity|exact IH].
Qed.

Lemma Number_toString2_spec n :
  bin_value (Number_toString2 n) = n
  /\ Forall (fun c => c = 48 \/ c = 49) (Number_toString2 n)
  /\ (0 < length (Number_toString2 n))%nat
  /\ forall w : nat, n < 2 ^ N.of_nat w -> (length (Number_toString2 n) <= Nat.max 1 w)%nat.
Proof.
  destruct n as [|p]; cbn [Number_toString2].
  - split; [reflexivity|]. split; [constructor; [auto|constructor]|].
    split; [simpl; lia|]. intros w _. simpl. lia.
  - rewrite pos_toString2_lsb, app_nil_r. split; [apply bin_value_lsb|]. split; [|split].
    + apply Forall_reverse, lsb_units_digits.
    + rewrite length_reverse. destruct p; simpl; lia.
    + intros w Hw. rewrite length_reverse. pose proof (lsb_units_length p w Hw). lia.
Qed.

(** X12. [to_bin_str(n, width)] writes [n >>> 0] in binary digits: the
    string has only the digits 0 and 1, reads back as [n mod 2^32], is
    never shorter than [width], and has exactly [width] characters (one
    for width 0) when the number fits in [width] bits. *)
Theorem to_bin_str_spec (n : N) (width : nat) :
  Forall (fun c => c = 48 \/ c = 49) (to_bin_str n width)
  /\ bin_value (to_bin_str n width) = n mod 2 ^ 32
  /\ (width <= length (to_bin_str n width))%nat
  /\ (n mod 2 ^ 32 < 2 ^ N.of_nat width ->
      length (to_bin_str n width) = Nat.max 1 width)
  /\ to_bin_str (n + 2 ^ 32) width = to_bin_str n width.
Proof.
  unfold to_bin_str, padStart0, to_uint32.
  destruct (Number_toString2_spec (n mod 2 ^ 32)) as (Hv & Hd & Hpos & Hlen).
  split; [|split; [|split; [|split]]].
  - apply Forall_app. split; [|exact Hd].
    apply Forall_replicate. auto.
  - rewrite bin_value_zeros. exact Hv.
  - rewrite length_app, length_replicate. lia.
  - intros Hw. specialize (Hlen width Hw). rewrite length_app, length_replicate. lia.
  - replace ((n + 2 ^ 32) mod 2 ^ 32) with (n mod 2 ^ 32); [reflexivity|].
    rewrite <- (N.Div0.add_mod_idemp_r n (2 ^ 32)), N.Div0.mod_same, N.add_0_r.
    reflexivity.
Qed.

Lemma to_bin_str_spec_witness : length (to_bin_str 5 4) = 4%nat.
Proof. apply (to_bin_str_spec 5 4). vm_compute. reflexivity. Defined.

(** Every row of a generated table was made by [make_row] from the
    table's letters and formulas. *)
Lemma generated_rows localeCompare fs res :
  generate_truth_table localeCompare fs = Return res ->
  formulas res = fs
  /\ letters res ≡ₚ letter_union fs
  /\ forall k row, rows res !! k = Some row ->
       make_row (letters res) fs (N.of_nat k) = Return row.
Proof.
  rewrite generate_truth_table_cases.
  destruct (length (letter_union fs) <? 32)%nat; [|discriminate].
  set (ls := Array_sort (comp_letters localeCompare) (letter_union fs)).
  set (n_states := if (length ls =? 0)%nat then 1 else 2 ^ N.of_nat (length ls)).
  destruct (Array_map (make_row ls fs) (states n_states)) as [rs|m] eqn:Hrs;
    [|discriminate].
  cbn [bind]. intros H. injection H as <-. cbn [formulas letters rows].
  split; [reflexivity|]. split; [apply Array_sort_perm|].
  intros k row Hk. apply Array_map_Return in Hrs.
  destruct (Forall2_lookup_r _ _ _ _ _ Hrs Hk) as (st & Hst & Hmk).
  assert (k < N.to_nat n_states)%nat as Hlt.
  { rewrite <- states_length. eapply lookup_lt_Some. exact Hst. }
  rewrite states_lookup in Hst by exact Hlt. injection Hst as <-. exact Hmk.
Qed.

Lemma make_row_values ls fs st row :
  make_row ls fs st = Return row ->
  assignment row = row_assignment ls st
  /\ Forall2 (fun f v => evaluate (lookup_in (assignment row)) f = Return v) fs (values row).
Proof.
  unfold make_row.
  destruct (Array_map _ fs) as [vs|m] eqn:Hvs; [|discriminate].
  cbn [bind]. intros H. injection H as <-. cbn [assignment values].
  split; [reflexivity|]. apply Array_map_Return in Hvs. exact Hvs.
Qed.

Lemma lookup_in_valuation (row : TruthTableRow) l :
  is_Some (assignment row !! letter_string l) ->
  lookup_in (assignment row) l = total_assignment (row_valuation row) l.
Proof.
  intros [v Hv]. unfold lookup_in, total_assignment, row_valuation.
  rewrite Hv. reflexivity.
Qed.

Lemma Forall2_graph {A B} (R : A -> B -> Prop) (g : A -> B) xs ys :
  Forall2 R xs ys -> (forall x y, x ∈ xs -> R x y -> y = g x) -> ys = g <$> xs.
Proof.
  induction 1 as [|x y xs ys HR _ IH]; intros Hg; [reflexivity|].
  cbn [fmap list_fmap]. f_equal.
  - apply Hg; [left|exact HR].
  - apply IH. intros x' y' Hin. apply Hg. right. exact Hin.
Qed.

Lemma generated_covered localeCompare fs res :
  generate_truth_table localeCompare fs = Return res -> covered res.
Proof.
  intros Hres row f l Hrow Hf Hl.
  destruct (generated_rows _ _ _ Hres) as (Hfs & Hperm & Hrows).
  apply list_elem_of_lookup_1 in Hrow. destruct Hrow as (k & Hk).
  destruct (make_row_values _ _ _ _ (Hrows k row Hk)) as (Hasg & _).
  rewrite Hasg. unfold row_assignment. apply build_assignment_bound. left.
  apply list_elem_of_fmap. exists l. split; [reflexivity|].
  rewrite Hperm. apply letter_union_spec. exists f. rewrite <- Hfs. auto.
Qed.

(** X13. [generate_truth_table] returns exactly when the formulas have
    fewer than 32 distinct letters; with 32 or more the array of rows
    would reach 2^32 elements and [rows.push] throws a [RangeError].
    When it returns, the result keeps the formulas, lists exactly the
    letters that occur in them, gives each of them a value in every row,
    and fills the value column of each formula with its classical truth
    value under the row's assignment.  The distinct letters are counted
    by [letter_union], which lists each letter occurring in a formula
    once. *)
Theorem truth_table_values (localeCompare : jsstring -> jsstring -> Z)
    (fs : list Sentence) :
  ((length (letter_union fs) < 32)%nat ->
   exists res,
     generate_truth_table localeCompare fs = Return res
     /\ formulas res = fs
     /\ (forall l, l ∈ letters res <-> exists f, f ∈ fs /\ occurs l f)
     /\ forall row, row ∈ rows res ->
          (forall l, l ∈ letters res -> is_Some (assignment row !! letter_string l))
          /\ values row = standard_truth_value (row_valuation row) <$> fs)
  /\ ((32 <= length (letter_union fs))%nat ->
      generate_truth_table localeCompare fs = Throw RangeError)
  /\ NoDup (letter_union fs)
  /\ (forall l, l ∈ letter_union fs <-> exists f, f ∈ fs /\ occurs l f).
Proof.
  split; [|split; [|exact (letter_union_spec fs)]].
  - intros Hsmall.
    destruct (generate_truth_table_returns localeCompare fs Hsmall) as (res & Hres & _).
    exists res. split; [exact Hres|].
    destruct (generated_rows _ _ _ Hres) as (Hfs & Hperm & Hrows).
    split; [exact Hfs|].
    assert (Hletters : forall l, l ∈ letters res <-> exists f, f ∈ fs /\ occurs l f).
    { intros l. rewrite Hperm. apply letter_union_spec. }
    split; [exact Hletters|].
    intros row Hrow. apply list_elem_of_lookup_1 in Hrow. destruct Hrow as (k & Hk).
    destruct (make_row_values _ _ _ _ (Hrows k row Hk)) as (Hasg & Hvals).
    assert (Hbound : forall l, l ∈ letters res ->
              is_Some (assignment row !! letter_string l)).
    { intros l Hl. rewrite Hasg. unfold row_assignment.
      apply build_assignment_bound. left.
      apply list_elem_of_fmap. exists l. split; [reflexivity|exact Hl]. }
    split; [exact Hbound|].
    apply (Forall2_graph _ _ _ _ Hvals). intros f v Hf Hv.
    rewrite (evaluate_coincide _ (total_assignment (row_valuation row))) in Hv.
    + rewrite evaluate_total in Hv. congruence.
    + intros l Hl. apply lookup_in_valuation, Hbound, Hletters. eauto.
  - intros Hbig. rewrite generate_truth_table_cases.
    rewrite (proj2 (Nat.ltb_ge _ _) Hbig). reflexivity.
Qed.

Lemma truth_table_values_witness :
  exists res,
    generate_truth_table compare_units [conjunction B_ A_; C_] = Return res
    /\ formulas res = [conjunction B_ A_; C_]
    /\ (forall l, l ∈ letters res
                  <-> exists f, f ∈ [conjunction B_ A_; C_] /\ occurs l f)
    /\ forall row, row ∈ rows res ->
         (forall l, l ∈ letters res -> is_Some (assignment row !! letter_string l))
         /\ values row
            = standard_truth_value (row_valuation row) <$> [conjunction B_ A_; C_].
Proof.
  apply (proj1 (truth_table_values compare_units [conjunction B_ A_; C_])).
  vm_compute. lia.
Defined.

(* ===================================================================== *)
(** ** Validation of the inputs and the table that is calculated *)
(* ===================================================================== *)

Lemma parse_sentence_result_Ok input s :
  parse_sentence_result input = ResOk s <-> wff OfSentence (trim input) s.
Proof.
  unfold parse_sentence_result.
  destruct (parse_sentence_returns input) as (r & Hr). rewrite Hr. simpl.
  split.
  - intros ->. apply parse_sentence_wff, Hr.
  - intros H. apply wff_parse_sentence in H. congruence.
Qed.

Lemma parse_sentence_result_Err input e :
  parse_sentence_result input = ResErr e ->
  e = js "Syntax error (not a wff)." /\ ~ exists s, wff OfSentence (trim input) s.
Proof.
  intros H. split.
  - unfold parse_sentence_result, parse_sentence in H.
    destruct (P.parse _ _); simpl in H; try discriminate; injection H as <-; reflexivity.
  - intros (s & Hs). apply parse_sentence_result_Ok in Hs. congruence.
Qed.

Lemma wff_nonblank lv x s : wff lv x s -> x <> [].
Proof. intros H ->. apply wff_length in H. simpl in H. lia. Qed.

Lemma hasUnnecessaryOuterParens_trim text s :
  hasUnnecessaryOuterParens (trim text) s = hasUnnecessaryOuterParens text s.
Proof. unfold hasUnnecessaryOuterParens. rewrite trim_idempotent. reflexivity. Qed.

(** The entry after validation, case by case. *)
Lemma validate_cases formula :
  text (validate formula) = text formula
  /\ ((trim (text formula) = []
       /\ validate formula = mkFormulaInput (text formula) None None None)
      \/ (exists s, wff OfSentence (trim (text formula)) s
          /\ validate formula
             = mkFormulaInput (text formula) (Some s) None
                 (if hasUnnecessaryOuterParens (text formula) s
                  then Some (js "Outer parentheses not required.") else None))
      \/ (trim (text formula) <> [] /\ (~ exists s, wff OfSentence (trim (text formula)) s)
          /\ validate formula
             = mkFormulaInput (text formula) None
                 (Some (js "Syntax error (not a wff).")) None)).
Proof.
  unfold validate. destruct (decide (trim (text formula) = [])) as [E|E].
  - rewrite (bool_decide_eq_true_2 _ E). split; [reflexivity|]. left. auto.
  - rewrite (bool_decide_eq_false_2 _ E).
    destruct (parse_sentence_result (text formula)) as [s|e] eqn:Hr.
    + split; [reflexivity|]. right. left. exists s.
      split; [apply parse_sentence_result_Ok, Hr|reflexivity].
    + split; [reflexivity|]. right. right.
      destruct (parse_sentence_result_Err _ _ Hr) as [-> Hn]. auto.
Qed.

Lemma validate_idempotent formula : validate (validate formula) = validate formula.
Proof.
  destruct (validate_cases formula) as [Ht [[E Hv]|[(s & Hs & Hv)|(E & Hn & Hv)]]];
    rewrite Hv; unfold validate; cbn [text].
  - rewrite (bool_decide_eq_true_2 _ E). reflexivity.
  - rewrite (bool_decide_eq_false_2 _ (wff_nonblank _ _ _ Hs)).
    rewrite (proj2 (parse_sentence_result_Ok _ _) Hs). reflexivity.
  - rewrite (bool_decide_eq_false_2 _ E).
    destruct (parse_sentence_result (text formula)) as [s|e] eqn:Hr.
    + exfalso. apply Hn. exists s. apply parse_sentence_result_Ok, Hr.
    + destruct (parse_sentence_result_Err _ _ Hr) as [-> _]. reflexivity.
Qed.

(** X14. [validateFormula(index)] rewrites only the entry at [index] and
    leaves its text; afterwards the entry holds the parsed sentence
    exactly when the trimmed text is in the input language, the error
    message exactly when the text is neither blank nor in the language,
    and the warning exactly when the text is a parsed sentence inside a
    pair of outer brackets; what [parsed], [error] and [warning] held
    before does not matter, and validating again changes nothing. *)
Theorem validateFormula_outcome (formulas : list FormulaInput) (index : nat)
    (formula : FormulaInput) :
  formulas !! index = Some formula ->
  exists formula',
    validateFormula formulas index = Return (<[index := formula']> formulas)
    /\ text formula' = text formula
    /\ (forall s, parsed formula' = Some s <-> wff OfSentence (trim (text formula)) s)
    /\ (forall e, error formula' = Some e
                  <-> e = js "Syntax error (not a wff)." /\ trim (text formula) <> []
                      /\ ~ exists s, wff OfSentence (trim (text formula)) s)
    /\ (forall w, warning formula' = Some w
                  <-> w = js "Outer parentheses not required."
                      /\ exists s o c inner,
                           parsed formula' = Some s /\ (o, c) ∈ brackets
                           /\ trim (text formula) = o :: inner ++ [c]
                           /\ parse_sentence inner = Some (ResOk s))
    /\ formula' = validate (mkFormulaInput (text formula) None None None)
    /\ validateFormula (<[index := formula']> formulas) index
       = Return (<[index := formula']> formulas).
Proof.
  intros Hidx. exists (validate formula).
  unfold validateFormula at 1. rewrite Hidx. split; [reflexivity|].
  destruct (validate_cases formula) as [Ht Hcases]. split; [exact Ht|].
  assert (Hlt : (index < length formulas)%nat) by (eapply lookup_lt_Some; exact Hidx).
  assert (Hwarn := outer_parens_iff (text formula)).
  split; [|split; [|split; [|split]]].
  - intros s. destruct Hcases as [[E Hv]|[(s' & Hs & Hv)|(E & Hn & Hv)]]; rewrite Hv; cbn [parsed].
    + split; [discriminate|]. intros H. exfalso. exact (wff_nonblank _ _ _ H E).
    + split; [intros [= <-]; exact Hs|].
      intros H. f_equal. exact (wff_functional _ _ _ Hs H).
    + split; [discriminate|]. intros H. exfalso. apply Hn. eauto.
  - intros e. destruct Hcases as [[E Hv]|[(s' & Hs & Hv)|(E & Hn & Hv)]]; rewrite Hv; cbn [error].
    + split; [discriminate|]. intros (_ & H & _). contradiction.
    + split; [discriminate|]. intros (_ & _ & H). exfalso. apply H. eauto.
    + split; [intros [= <-]; auto|]. intros (-> & _). reflexivity.
  - intros w.
    destruct Hcases as [[E Hv]|[(s' & Hs & Hv)|(E & Hn & Hv)]]; rewrite Hv;
      cbn [warning parsed].
    + split; [discriminate|]. intros (_ & s & o & c & inner & H & _). discriminate H.
    + specialize (Hwarn s' Hs).
      destruct (hasUnnecessaryOuterParens (text formula) s') eqn:Hh.
      * split.
        -- intros [= <-]. split; [reflexivity|].
           destruct (proj1 Hwarn eq_refl) as (o & c & inner & H).
           exists s', o, c, inner. tauto.
        -- intros (-> & _). reflexivity.
      * split; [discriminate|].
        intros (_ & s & o & c & inner & [= <-] & H).
        assert (false = true) by (apply Hwarn; eauto). discriminate.
    + split; [discriminate|]. intros (_ & s & o & c & inner & H & _). discriminate H.
  - unfold validate. cbn [text]. reflexivity.
  - unfold validateFormula. rewrite list_lookup_insert_eq by exact Hlt.
    rewrite validate_idempotent, list_insert_insert_eq. reflexivity.
Qed.

Lemma validateFormula_outcome_witness :
  exists formula',
    validateFormula [mkFormulaInput (js "A v") None None None;
                     mkFormulaInput (js "(A v B)") None (Some (js "old")) None] 1
    = Return (<[1%nat := formula']>
                [mkFormulaInput (js "A v") None None None;
                 mkFormulaInput (js "(A v B)") None (Some (js "old")) None])
    /\ text formula' = js "(A v B)".
Proof.
  destruct (validateFormula_outcome
              [mkFormulaInput (js "A v") None None None;
               mkFormulaInput (js "(A v B)") None (Some (js "old")) None] 1
              (mkFormulaInput (js "(A v B)") None (Some (js "old")) None) eq_refl)
    as (formula' & H1 & H2 & _).
  exists formula'. split; [exact H1|exact H2].
Defined.

Lemma validate_all_from_spec n : forall formulas i,
  (i + n = length formulas)%nat ->
  validate_all_from formulas i n = Normal (take i formulas ++ (validate <$> drop i formulas)).
Proof.
  induction n as [|n IH]; intros formulas i Hlen; cbn [validate_all_from].
  - rewrite drop_ge, take_ge, app_nil_r by lia. reflexivity.
  - destruct (lookup_lt_is_Some_2 formulas i ltac:(lia)) as [formula Hf].
    unfold validateFormula. rewrite Hf.
    rewrite IH by (rewrite length_insert; lia).
    f_equal.
    rewrite (take_S_r _ _ (validate formula))
      by (apply list_lookup_insert_eq; lia).
    rewrite take_insert_ge by lia.
    rewrite drop_insert_lt by lia.
    rewrite (drop_S _ _ _ Hf). cbn [fmap list_fmap].
    rewrite <- app_assoc. reflexivity.
Qed.

Lemma validFormulas_validate formulas s :
  s ∈ validFormulas (validate <$> formulas)
  <-> exists formula, formula ∈ formulas /\ wff OfSentence (trim (text formula)) s.
Proof.
  unfold validFormulas. rewrite list_elem_of_omap. split.
  - intros (f' & Hin & Hp). apply list_elem_of_fmap in Hin. destruct Hin as (f & -> & Hin).
    exists f. split; [exact Hin|].
    destruct (validate_cases f) as [_ [[E Hv]|[(s' & Hs & Hv)|(E & Hn & Hv)]]];
      rewrite Hv in Hp; cbn [parsed] in Hp; try discriminate.
    injection Hp as <-. exact Hs.
  - intros (f & Hin & Hs). exists (validate f).
    split; [apply list_elem_of_fmap; eauto|].
    destruct (validate_cases f) as [_ [[E Hv]|[(s' & Hs' & Hv)|(E & Hn & Hv)]]];
      rewrite Hv; cbn [parsed].
    + exfalso. exact (wff_nonblank _ _ _ Hs E).
    + f_equal. exact (wff_functional _ _ _ Hs' Hs).
    + exfalso. apply Hn. eauto.
Qed.

(** Parsed sentences use the 26 letters A to Z with index 0, so a batch
    of them has at most 26 letters. *)
Lemma parsed_shape_occurs s l :
  parsed_shape s = true -> occurs l s ->
  exists c, l = mkLetter [c] 0 /\ (65 <=? c) && (c <=? 90) = true.
Proof.
  induction s as [v|l'|a IHa|a IHa b IHb|a IHa b IHb|a IHa b IHb
                 |a IHa b IHb|a IHa b IHb|a IHa b IHb]; cbn [parsed_shape occurs];
    intros H Ho.
  - discriminate H.
  - subst l'. apply reparsable_letter. exact H.
  - apply IHa; assumption.
  - apply andb_true_iff in H. destruct H as [Ha Hb]. destruct Ho; auto.
  - apply andb_true_iff in H. destruct H as [Ha Hb]. destruct Ho; auto.
  - apply andb_true_iff in H. destruct H as [Ha Hb]. destruct Ho; auto.
  - apply andb_true_iff in H. destruct H as [Ha Hb]. destruct Ho; auto.
  - apply andb_true_iff in H. destruct H as [Ha Hb]. destruct Ho; auto.
  - apply andb_true_iff in H. destruct H as [Ha Hb]. destruct Ho; auto.
Qed.

Lemma parsed_letter_count (fs : list Sentence) :
  Forall (fun f => parsed_shape f = true) fs -> (length (letter_union fs) <= 26)%nat.
Proof.
  intros Hall. destruct (letter_union_spec fs) as [Hnd Hel].
  transitivity (length ((fun n => mkLetter [N.of_nat n] 0) <$> seq 65 26));
    [|rewrite length_fmap, length_seq; lia].
  apply submseteq_length, NoDup_submseteq; [exact Hnd|].
  intros l Hl. apply Hel in Hl. destruct Hl as (f & Hf & Ho).
  rewrite Forall_forall in Hall.
  destruct (parsed_shape_occurs f l (Hall f Hf) Ho) as (c & -> & Hc).
  pose proof (upper_bounds c Hc) as Hb.
  apply list_elem_of_fmap. exists (N.to_nat c).
  split; [rewrite N2Nat.id; reflexivity|]. apply elem_of_seq. lia.
Qed.

(** X15. [calculateTruthTables] never throws.  It validates every input,
    clears the highlighted rows, and builds the table from the sentences
    of the inputs that parse, in their order, skipping the others; when
    no input parses there is no table.  The quiz answers and statuses
    are left as they were. *)
Theorem calculateTruthTables_outcome (localeCompare : jsstring -> jsstring -> Z)
    (st : AppState) :
  exists st',
    calculateTruthTables localeCompare st = Normal st'
    /\ formulas_ st' = validate <$> formulas_ st
    /\ highlightedRows st' = ∅
    /\ (forall s, s ∈ validFormulas (formulas_ st')
                  <-> exists formula, formula ∈ formulas_ st
                                      /\ wff OfSentence (trim (text formula)) s)
    /\ match currentResult st' with
       | None => validFormulas (formulas_ st') = []
       | Some result =>
           validFormulas (formulas_ st') <> []
           /\ generate_truth_table localeCompare (validFormulas (formulas_ st'))
              = Return result
           /\ formulas result = validFormulas (formulas_ st')
       end
    /\ (showQuasiColumns st', currentMode st', userAnswers st', cellStatuses st',
        quizChecked st', answersRevealed st')
       = (showQuasiColumns st, currentMode st, userAnswers st, cellStatuses st,
          quizChecked st, answersRevealed st).
Proof.
  unfold calculateTruthTables.
  rewrite (validate_all_from_spec (length (formulas_ st)) (formulas_ st) 0 eq_refl).
  rewrite take_0, drop_0. cbn [app].
  destruct (validFormulas (validate <$> formulas_ st)) as [|s0 ss] eqn:Hv.
  - cbn [length Nat.eqb]. eexists. split; [reflexivity|]. cbn.
    split; [reflexivity|]. split; [reflexivity|]. split; [|auto].
    intros s. exact (validFormulas_validate _ s).
  - cbn [length Nat.eqb].
    assert (Hsmall : (length (letter_union (s0 :: ss)) < 32)%nat).
    { rewrite <- Hv. eapply Nat.le_lt_trans; [apply parsed_letter_count|lia].
      apply Forall_forall. intros s Hs.
      apply validFormulas_validate in Hs. destruct Hs as (formula & _ & Hw).
      eapply parse_sentence_shape, wff_parse_sentence. exact Hw. }
    destruct (generate_truth_table_returns localeCompare (s0 :: ss) Hsmall)
      as (res & Hres & _ & Hfs & _).
    rewrite Hres. eexists. split; [reflexivity|]. cbn.
    split; [reflexivity|]. split; [reflexivity|]. split; [|split; [|reflexivity]].
    + intros s. exact (validFormulas_validate _ s).
    + change (omap parsed (validate <$> formulas_ st))
        with (validFormulas (validate <$> formulas_ st)).
      rewrite Hv. split; [discriminate|]. split; [exact Hres|exact Hfs].
Qed.

(* ===================================================================== *)
(** ** Quiz: checking and revealing answers *)
(* ===================================================================== *)

Lemma cellId_cellKey r f t :
  cellId r f t = Number_toString (N.of_nat r) ++ js "-" ++ cellKey f t.
Proof. reflexivity. Qed.

Lemma cellId_inj r f t r' f' t' :
  cellId r f t = cellId r' f' t' -> r = r' /\ f = f' /\ t = t'.
Proof.
  rewrite !cellId_cellKey. intros H.
  apply Number_toString_prefix in H; [|reflexivity..].
  destruct H as [Hr H]. injection H as H. apply cellKey_inj in H.
  split; [lia|exact H].
Qed.

Lemma value_tokens_snoc_text pre tx :
  value_tokens (pre ++ [text_token tx]) = value_tokens pre.
Proof. unfold value_tokens. rewrite omap_app. simpl. apply app_nil_r. Qed.

Lemma value_tokens_snoc_value pre tx sub mn :
  value_tokens (pre ++ [value_token tx sub mn])
  = value_tokens pre ++ [mkValueToken tx sub mn].
Proof. unfold value_tokens. rewrite omap_app. reflexivity. Qed.

Lemma evaluated_at asg pre tx sub mn toks evs :
  Forall2 (evaluates_to asg) (value_tokens (pre ++ value_token tx sub mn :: toks)) evs ->
  exists e, evs !! length (value_tokens pre) = Some e
            /\ ev_isMain e = mn /\ evaluate asg sub = Return (ev_value e).
Proof.
  intros H.
  assert (Hl : value_tokens (pre ++ value_token tx sub mn :: toks)
               !! length (value_tokens pre) = Some (mkValueToken tx sub mn)).
  { unfold value_tokens. rewrite omap_app. cbn [omap as_value_token].
    rewrite lookup_app_r by lia. rewrite Nat.sub_diag. reflexivity. }
  destruct (Forall2_lookup_l _ _ _ _ _ H Hl) as (e & He & _ & H2 & H3).
  exists e. auto.
Qed.

Section MarkCells.
Variable visit :
  nat -> nat -> list EvaluatedToken -> Marks -> FormulaToken -> nat -> Outcome Marks.
Variable effect :
  FormulaToken -> bool -> option Answer * option CellStatus
  -> option Answer * option CellStatus.
Hypothesis visit_text : forall r f evs m tx t,
  visit r f evs m (text_token tx) t = Normal m.
Hypothesis visit_value : forall r f evs m tx sub mn t e,
  evs !! valueIdx m = Some e -> ev_isMain e = mn ->
  exists m',
    visit r f evs m (value_token tx sub mn) t = Normal m'
    /\ valueIdx m' = S (valueIdx m)
    /\ forall key,
         mark_at m' key
         = if decide (key = cellId r f t)
           then effect (value_token tx sub mn) (ev_value e) (mark_at m key)
           else mark_at m key.

Lemma visit_tokens row r f evs : forall toks pre m,
  Forall2 (evaluates_to (lookup_row row)) (value_tokens (pre ++ toks)) evs ->
  valueIdx m = length (value_tokens pre) ->
  exists m',
    forEach_throwing_from (visit r f evs) toks (length pre) m = Normal m'
    /\ (forall j tok, toks !! j = Some tok ->
          mark_at m' (cellId r f (length pre + j))
          = cell_effect effect row tok (mark_at m (cellId r f (length pre + j))))
    /\ (forall key, (forall j, (j < length toks)%nat -> key <> cellId r f (length pre + j)) ->
          mark_at m' key = mark_at m key).
Proof.
  induction toks as [|tok toks IH]; intros pre m Hevs Hidx.
  - exists m. split; [reflexivity|]. split; [intros j tok Hj; discriminate Hj|reflexivity].
  - assert (Hassoc : pre ++ tok :: toks = (pre ++ [tok]) ++ toks)
      by (rewrite <- app_assoc; reflexivity).
    assert (Hlen : length (pre ++ [tok]) = S (length pre))
      by (rewrite length_app; simpl; lia).
    assert (Hstep : exists m1,
              visit r f evs m tok (length pre) = Normal m1
              /\ valueIdx m1 = length (value_tokens (pre ++ [tok]))
              /\ forall key,
                   mark_at m1 key
                   = if decide (key = cellId r f (length pre))
                     then cell_effect effect row tok (mark_at m key)
                     else mark_at m key).
    { destruct tok as [tx|tx sub mn].
      - exists m. split; [apply visit_text|]. split.
        + rewrite value_tokens_snoc_text. exact Hidx.
        + intros key. destruct (decide _); reflexivity.
      - destruct (evaluated_at _ _ _ _ _ _ _ Hevs) as (e & He & Hmn & Hv).
        rewrite <- Hidx in He.
        destruct (visit_value r f evs m tx sub mn (length pre) e He Hmn)
          as (m1 & Hm1 & Hi1 & Hk1).
        exists m1. split; [exact Hm1|]. split.
        + rewrite value_tokens_snoc_value, length_app, Hi1, Hidx. simpl. lia.
        + intros key. rewrite Hk1. unfold cell_effect. cbn [token_value].
          rewrite Hv. reflexivity. }
    destruct Hstep as (m1 & Hm1 & Hi1 & Hk1).
    rewrite Hassoc in Hevs.
    destruct (IH (pre ++ [tok]) m1 Hevs Hi1) as (m' & Hrun & Ha & Hb).
    rewrite Hlen in Hrun, Ha, Hb.
    exists m'. split; [cbn [forEach_throwing_from]; rewrite Hm1; exact Hrun|]. split.
    + intros j tok' Hj. destruct j as [|j].
      * injection Hj as <-. rewrite Nat.add_0_r.
        rewrite Hb; [rewrite Hk1, decide_True by reflexivity; reflexivity|].
        intros j _ E. apply cellId_inj in E. lia.
      * cbn [lookup list_lookup] in Hj.
        replace (length pre + S j)%nat with (S (length pre) + j)%nat by lia.
        rewrite (Ha j tok' Hj), Hk1, decide_False; [reflexivity|].
        intros E. apply cellId_inj in E. lia.
    + intros key Hkey. rewrite Hb, Hk1, decide_False; [reflexivity| |].
      * specialize (Hkey 0%nat ltac:(simpl; lia)). rewrite Nat.add_0_r in Hkey. exact Hkey.
      * intros j Hj. specialize (Hkey (S j) ltac:(simpl; lia)).
        replace (S (length pre) + j)%nat with (length pre + S j)%nat by lia. exact Hkey.
Qed.

Lemma visit_layouts row r : forall layouts f0 m,
  (forall layout, layout ∈ layouts ->
     exists evs, evaluateLayout layout (lookup_row row) = Return evs) ->
  exists m',
    forEach_throwing_from (fun m layout formulaIdx =>
      match evaluateLayout layout (lookup_row row) with
      | Throw message => Abrupt message m
      | Return evaluatedValues =>
          forEach_throwing (visit r formulaIdx evaluatedValues)
            (tokens layout) (mkMarks 0 (answers m) (statuses m))
      end) layouts f0 m = Normal m'
    /\ (forall a layout t tok,
          layouts !! a = Some layout -> tokens layout !! t = Some tok ->
          mark_at m' (cellId r (f0 + a) t)
          = cell_effect effect row tok (mark_at m (cellId r (f0 + a) t)))
    /\ (forall key,
          (forall a layout t, layouts !! a = Some layout ->
             (t < length (tokens layout))%nat -> key <> cellId r (f0 + a) t) ->
          mark_at m' key = mark_at m key).
Proof.
  induction layouts as [|layout layouts IH]; intros f0 m Hret.
  - exists m. split; [reflexivity|].
    split; [intros a layout t tok Ha; discriminate Ha|reflexivity].
  - destruct (Hret layout ltac:(left)) as (evs & Hevs).
    destruct (visit_tokens row r f0 evs (tokens layout) []
                (mkMarks 0 (answers m) (statuses m)))
      as (m1 & Hm1 & Ha1 & Hb1).
    { apply evaluateLayout_Return, Hevs. }
    { reflexivity. }
    destruct (IH (S f0) m1) as (m' & Hrun & Ha & Hb).
    { intros l Hl. apply Hret. right. exact Hl. }
    exists m'. split.
    { cbn [forEach_throwing_from]. rewrite Hevs. unfold forEach_throwing.
      cbn [length] in Hm1. rewrite Hm1. exact Hrun. }
    split.
    + intros a layout' t tok Hl Ht. destruct a as [|a].
      * injection Hl as <-. rewrite Nat.add_0_r.
        rewrite Hb; [exact (Ha1 t tok Ht)|].
        intros a l' t' _ _ E. apply cellId_inj in E. lia.
      * cbn [lookup list_lookup] in Hl.
        replace (f0 + S a)%nat with (S f0 + a)%nat by lia.
        rewrite (Ha a layout' t tok Hl Ht). f_equal.
        rewrite Hb1; [reflexivity|].
        intros j _ E. apply cellId_inj in E. lia.
    + intros key Hkey. rewrite Hb, Hb1; [reflexivity| |].
      * intros j Hj. specialize (Hkey 0%nat layout j eq_refl Hj).
        rewrite Nat.add_0_r in Hkey. exact Hkey.
      * intros a l' t Hl Ht. specialize (Hkey (S a) l' t Hl Ht).
        replace (S f0 + a)%nat with (f0 + S a)%nat by lia. exact Hkey.
Qed.

Lemma visit_rows layouts : forall rows r0 m,
  (forall row layout, row ∈ rows -> layout ∈ layouts ->
     exists evs, evaluateLayout layout (lookup_row row) = Return evs) ->
  exists m',
    forEach_throwing_from (fun m row rowIdx =>
      forEach_throwing (fun m layout formulaIdx =>
        match evaluateLayout layout (lookup_row row) with
        | Throw message => Abrupt message m
        | Return evaluatedValues =>
            forEach_throwing (visit rowIdx formulaIdx evaluatedValues)
              (tokens layout) (mkMarks 0 (answers m) (statuses m))
        end) layouts m) rows r0 m = Normal m'
    /\ (forall b row a layout t tok,
          rows !! b = Some row -> layouts !! a = Some layout ->
          tokens layout !! t = Some tok ->
          mark_at m' (cellId (r0 + b) a t)
          = cell_effect effect row tok (mark_at m (cellId (r0 + b) a t)))
    /\ (forall key,
          (forall b a layout t, (b < length rows)%nat -> layouts !! a = Some layout ->
             (t < length (tokens layout))%nat -> key <> cellId (r0 + b) a t) ->
          mark_at m' key = mark_at m key).
Proof.
  intros rows. induction rows as [|row rows IH]; intros r0 m Hret.
  - exists m. split; [reflexivity|].
    split; [intros b row a layout t tok Hb; discriminate Hb|reflexivity].
  - destruct (visit_layouts row r0 layouts 0 m) as (m1 & Hm1 & Ha1 & Hb1).
    { intros layout Hl. apply Hret; [left|exact Hl]. }
    destruct (IH (S r0) m1) as (m' & Hrun & Ha & Hb).
    { intros row' l Hr Hl. apply Hret; [right; exact Hr|exact Hl]. }
    exists m'. split.
    { cbn [forEach_throwing_from]. unfold forEach_throwing at 1. rewrite Hm1. exact Hrun. }
    split.
    + intros b row' a layout t tok Hr Hl Ht. destruct b as [|b].
      * injection Hr as <-. rewrite Nat.add_0_r.
        rewrite Hb; [exact (Ha1 a layout t tok Hl Ht)|].
        intros b' a' l' t' _ _ _ E. apply cellId_inj in E. lia.
      * cbn [lookup list_lookup] in Hr.
        replace (r0 + S b)%nat with (S r0 + b)%nat by lia.
        rewrite (Ha b row' a layout t tok Hr Hl Ht). f_equal.
        rewrite Hb1; [reflexivity|].
        intros a' l' t' _ _ E. apply cellId_inj in E. lia.
    + intros key Hkey. rewrite Hb, Hb1; [reflexivity| |].
      * intros a l' t Hl Ht. specialize (Hkey 0%nat a l' t ltac:(simpl; lia) Hl Ht).
        rewrite Nat.add_0_r in Hkey. exact Hkey.
      * intros b a l' t Hlt Hl Ht. specialize (Hkey (S b) a l' t ltac:(simpl; lia) Hl Ht).
        replace (S r0 + b)%nat with (r0 + S b)%nat by lia. exact Hkey.
Qed.
End MarkCells.

Lemma lookup_row_bound row l :
  is_Some (assignment row !! letter_string l) -> exists v, lookup_row row l = Return v.
Proof. intros [v Hv]. unfold lookup_row. rewrite Hv. eauto. Qed.

Lemma covered_evaluateLayout result row formula :
  covered result -> row ∈ rows result -> formula ∈ formulas result ->
  exists evs, evaluateLayout (layoutFormula formula) (lookup_row row) = Return evs.
Proof.
  intros Hc Hrow Hf. apply (proj1 (evaluateLayout_spec formula (lookup_row row))).
  intros l Hl. apply lookup_row_bound. exact (Hc row formula l Hrow Hf Hl).
Qed.

Lemma covered_token_value result r f t row token :
  covered result -> cell_at result r f t row token ->
  match token with
  | value_token _ _ _ => is_Some (token_value row token)
  | text_token _ => True
  end.
Proof.
  intros Hc (Hrow & formula & Hf & Ht). destruct token as [tx|tx sub mn]; [exact I|].
  cbn [token_value].
  destruct (evaluate_returns (lookup_row row) sub) as (v & Hv).
  - intros l Hl. apply lookup_row_bound.
    apply (Hc row formula l); [eapply list_elem_of_lookup_2; exact Hrow
                              |eapply list_elem_of_lookup_2; exact Hf|].
    eapply occurs_trans; [exact Hl|].
    eapply (layout_token_subformula formula true true tx sub mn).
    eapply list_elem_of_lookup_2. exact Ht.
  - rewrite Hv. eauto.
Qed.

Lemma layouts_lookup formulas a layout :
  List.map layoutFormula formulas !! a = Some layout
  <-> exists formula, formulas !! a = Some formula /\ layout = layoutFormula formula.
Proof.
  change (List.map layoutFormula formulas) with (layoutFormula <$> formulas).
  rewrite list_lookup_fmap. destruct (formulas !! a) as [formula|]; cbn.
  - split; [intros [= <-]; eauto|intros (f' & [= <-] & ->); reflexivity].
  - split; [discriminate|intros (f' & H & _); discriminate].
Qed.

(** What the three nested loops leave in the maps: the cell of every
    token has received the effect of one visit, and nothing else was
    touched. *)
Lemma mark_cells_spec visit effect result m :
  (forall r f evs m tx t, visit r f evs m (text_token tx) t = Normal m) ->
  (forall r f evs m tx sub mn t e,
     evs !! valueIdx m = Some e -> ev_isMain e = mn ->
     exists m',
       visit r f evs m (value_token tx sub mn) t = Normal m'
       /\ valueIdx m' = S (valueIdx m)
       /\ forall key,
            mark_at m' key
            = if decide (key = cellId r f t)
              then effect (value_token tx sub mn) (ev_value e) (mark_at m key)
              else mark_at m key) ->
  covered result ->
  exists m',
    mark_cells visit result m = Normal m'
    /\ (forall r f t row token, cell_at result r f t row token ->
          mark_at m' (cellId r f t)
          = cell_effect effect row token (mark_at m (cellId r f t)))
    /\ (forall key,
          (forall r f t row token, cell_at result r f t row token -> key <> cellId r f t) ->
          mark_at m' key = mark_at m key).
Proof.
  intros Htext Hvalue Hc. unfold mark_cells, forEach_throwing at 1.
  destruct (visit_rows visit effect Htext Hvalue
              (List.map layoutFormula (formulas result)) (rows result) 0 m)
    as (m' & Hrun & Ha & Hb).
  { intros row layout Hrow Hl.
    apply list_elem_of_lookup_1 in Hl. destruct Hl as (a & Hl).
    apply layouts_lookup in Hl. destruct Hl as (formula & Hf & ->).
    eapply covered_evaluateLayout; [exact Hc|exact Hrow|].
    eapply list_elem_of_lookup_2. exact Hf. }
  exists m'. split; [exact Hrun|]. split.
  - intros r f t row token (Hrow & formula & Hf & Ht).
    apply (Ha r row f (layoutFormula formula) t token Hrow); [|exact Ht].
    apply layouts_lookup. eauto.
  - intros key Hkey. apply Hb. intros b a layout t Hlt Hl Ht.
    apply layouts_lookup in Hl. destruct Hl as (formula & Hf & ->).
    destruct (lookup_lt_is_Some_2 _ _ Hlt) as (row & Hrow).
    destruct (lookup_lt_is_Some_2 _ _ Ht) as (token & Htok).
    apply (Hkey b a t row token). split; [exact Hrow|]. eauto.
Qed.

Lemma check_token_text st r f evs m tx t :
  check_token st r f evs m (text_token tx) t = Normal m.
Proof. reflexivity. Qed.

Lemma showValue_of_Some st e :
  showValue_of st (Some e) = Return (effectiveShowQuasi st || ev_isMain e).
Proof. unfold showValue_of. destruct (effectiveShowQuasi st); reflexivity. Qed.

Lemma check_token_value st r f evs m tx sub mn t e :
  evs !! valueIdx m = Some e -> ev_isMain e = mn ->
  exists m',
    check_token st r f evs m (value_token tx sub mn) t = Normal m'
    /\ valueIdx m' = S (valueIdx m)
    /\ forall key,
         mark_at m' key
         = if decide (key = cellId r f t)
           then check_effect st (value_token tx sub mn) (ev_value e) (mark_at m key)
           else mark_at m key.
Proof.
  intros He Hmn. unfold check_token. rewrite He, showValue_of_Some, Hmn.
  unfold check_effect. cbn [quiz_cell valueIdx answers statuses mark_at fst].
  destruct (effectiveShowQuasi st || mn); cbn [andb].
  - destruct (is_letter sub); cbn [negb].
    + eexists. split; [reflexivity|]. split; [reflexivity|].
      intros key. destruct (decide _); reflexivity.
    + destruct (answers m !! cellId r f t) as [a|] eqn:Ea.
      * eexists. split; [reflexivity|]. split; [reflexivity|].
        intros key. unfold mark_at. cbn [answers statuses].
        destruct (decide (key = cellId r f t)) as [->|Hne].
        -- rewrite lookup_insert_eq, Ea. reflexivity.
        -- rewrite lookup_insert_ne by congruence. reflexivity.
      * eexists. split; [reflexivity|]. split; [reflexivity|].
        intros key. unfold mark_at. cbn [answers statuses].
        destruct (decide (key = cellId r f t)) as [->|Hne]; [rewrite Ea|]; reflexivity.
  - eexists. split; [reflexivity|]. split; [reflexivity|].
    intros key. destruct (decide _); reflexivity.
Qed.

Lemma reveal_token_value st r f evs m tx sub mn t e :
  evs !! valueIdx m = Some e -> ev_isMain e = mn ->
  exists m',
    reveal_token st r f evs m (value_token tx sub mn) t = Normal m'
    /\ valueIdx m' = S (valueIdx m)
    /\ forall key,
         mark_at m' key
         = if decide (key = cellId r f t)
           then reveal_effect st (value_token tx sub mn) (ev_value e) (mark_at m key)
           else mark_at m key.
Proof.
  intros He Hmn. unfold reveal_token. rewrite He, showValue_of_Some, Hmn.
  unfold reveal_effect. cbn [quiz_cell valueIdx answers statuses mark_at fst].
  destruct (effectiveShowQuasi st || mn); cbn [andb].
  - destruct (is_letter sub); cbn [negb].
    + eexists. split; [reflexivity|]. split; [reflexivity|].
      intros key. destruct (decide _); reflexivity.
    + eexists. split; [reflexivity|]. split; [reflexivity|].
      intros key. unfold mark_at, answer_of. cbn [answers statuses].
      destruct (decide (key = cellId r f t)) as [->|Hne].
      * rewrite !lookup_insert_eq. reflexivity.
      * rewrite !lookup_insert_ne by congruence. reflexivity.
  - eexists. split; [reflexivity|]. split; [reflexivity|].
    intros key. destruct (decide _); reflexivity.
Qed.

Lemma grade_answer_of v : grade (answer_of v) v = correct.
Proof. destruct v; reflexivity. Qed.

Lemma checkAnswers_spec st result :
  currentResult st = Some result -> covered result ->
  exists st',
    checkAnswers st = Normal st'
    /\ quizChecked st' = true
    /\ userAnswers st' = userAnswers st
    /\ (currentMode st', showQuasiColumns st', currentResult st', answersRevealed st')
       = (currentMode st, showQuasiColumns st, currentResult st, answersRevealed st)
    /\ (forall r f t row token, cell_at result r f t row token ->
          cellStatuses st' !! cellId r f t
          = if quiz_cell st token then
              match userAnswers st !! cellId r f t, token_value row token with
              | Some userAnswer, Some v => Some (grade userAnswer v)
              | _, _ => None
              end
            else None)
    /\ (forall key,
          (forall r f t row token, cell_at result r f t row token -> key <> cellId r f t) ->
          cellStatuses st' !! key = None).
Proof.
  intros Hres Hc. unfold checkAnswers. rewrite Hres.
  destruct (mark_cells_spec (check_token st) (check_effect st) result
              (mkMarks 0 (userAnswers st) ∅)
              (check_token_text st) (check_token_value st) Hc)
    as (m' & Hrun & Ha & Hb).
  rewrite Hrun. eexists. split; [reflexivity|]. cbn.
  split; [reflexivity|]. split; [reflexivity|]. split; [reflexivity|]. split.
  - intros r f t row token Hcell.
    pose proof (f_equal snd (Ha r f t row token Hcell)) as E.
    unfold mark_at in E. cbn [snd answers statuses] in E. rewrite E.
    unfold cell_effect, check_effect. cbn [fst].
    rewrite lookup_empty.
    destruct (token_value row token) as [v|];
      destruct (quiz_cell st token);
      destruct (userAnswers st !! cellId r f t); reflexivity.
  - intros key Hkey.
    pose proof (f_equal snd (Hb key Hkey)) as E.
    unfold mark_at in E. cbn [snd answers statuses] in E. rewrite E. apply lookup_empty.
Qed.


Lemma reveal_spec st result :
  currentResult st = Some result -> covered result -> answersRevealed st = false ->
  exists st1,
    toggleRevealAnswers st = Normal st1
    /\ answersRevealed st1 = true /\ quizChecked st1 = true
    /\ (currentMode st1, showQuasiColumns st1, currentResult st1)
       = (currentMode st, showQuasiColumns st, currentResult st)
    /\ (savedAnswersBeforeReveal st1, savedStatusesBeforeReveal st1,
        savedQuizCheckedBeforeReveal st1)
       = (userAnswers st, cellStatuses st, quizChecked st)
    /\ (forall r f t row token, cell_at result r f t row token ->
          (userAnswers st1 !! cellId r f t, cellStatuses st1 !! cellId r f t)
          = cell_effect (reveal_effect st) row token
              (userAnswers st !! cellId r f t, cellStatuses st !! cellId r f t))
    /\ (forall key,
          (forall r f t row token, cell_at result r f t row token -> key <> cellId r f t) ->
          userAnswers st1 !! key = userAnswers st !! key
          /\ cellStatuses st1 !! key = cellStatuses st !! key).
Proof.
  intros Hres Hc Hrev. unfold toggleRevealAnswers. rewrite Hres, Hrev.
  destruct (mark_cells_spec (reveal_token st) (reveal_effect st) result
              (mkMarks 0 (userAnswers st) (cellStatuses st))
              (fun _ _ _ _ _ _ => eq_refl) (reveal_token_value st) Hc)
    as (m' & Hrun & Ha & Hb).
  rewrite Hrun. eexists. split; [reflexivity|]. cbn.
  split; [reflexivity|]. split; [reflexivity|]. split; [reflexivity|].
  split; [reflexivity|]. split.
  - intros r f t row token Hcell. exact (Ha r f t row token Hcell).
  - intros key Hkey. pose proof (Hb key Hkey) as E. unfold mark_at in E.
    cbn [answers statuses] in E. injection E as E1 E2. auto.
Qed.






(* ===================================================================== *)
(** ** Quiz statistics *)
(* ===================================================================== *)

Lemma count_ids_app test a b : count_ids test (a ++ b) = (count_ids test a + count_ids test b)%nat.
Proof. unfold count_ids. rewrite List.filter_app, length_app. reflexivity. Qed.

Lemma stats_token_counts st r f acc token t :
  let ids := if quiz_cell st token then [cellId r f t] else [] in
  stats_token st r f acc token t
  = mkQuizStats (total acc + length ids)
      (filled acc + count_ids (is_answered st) ids)
      (correct_count acc + count_ids (has_status st correct) ids)
      (incorrect_count acc + count_ids (has_status st incorrect) ids).
Proof.
  destruct acc as [n_total n_filled n_correct n_incorrect].
  destruct token as [tx|tx sub mn]; cbn [stats_token quiz_cell total filled
    correct_count incorrect_count].
  - cbn. rewrite !Nat.add_0_r. reflexivity.
  - destruct (effectiveShowQuasi st || mn); cbn [negb andb];
      [|cbn; rewrite !Nat.add_0_r; reflexivity].
    destruct (is_letter sub); cbn [negb];
      [cbn; rewrite !Nat.add_0_r; reflexivity|].
    unfold count_ids, is_answered, has_status. cbn [List.filter length].
    destruct (cellStatuses st !! cellId r f t) as [[|]|] eqn:Es;
      destruct (bool_decide (is_Some (userAnswers st !! cellId r f t)));
      repeat match goal with
             | |- context [bool_decide (?a = ?b)] =>
                 first [rewrite (bool_decide_eq_true_2 (a = b)) by reflexivity
                       |rewrite (bool_decide_eq_false_2 (a = b)) by discriminate]
             end;
      cbn [length]; f_equal; lia.
Qed.

Lemma add_counts_nil st acc : add_counts st acc [] = acc.
Proof. destruct acc. unfold add_counts. cbn. rewrite !Nat.add_0_r. reflexivity. Qed.

Lemma add_counts_app st acc a b :
  add_counts st acc (a ++ b) = add_counts st (add_counts st acc a) b.
Proof.
  unfold add_counts. cbn [total filled correct_count incorrect_count].
  rewrite !count_ids_app, length_app. f_equal; lia.
Qed.

Lemma stats_tokens_counts st r f : forall toks t acc,
  forEach_from (stats_token st r f) toks t acc
  = add_counts st acc (quiz_ids_from st r f toks t).
Proof.
  induction toks as [|token toks IH]; intros t acc; cbn [forEach_from quiz_ids_from].
  - symmetry. apply add_counts_nil.
  - rewrite IH, stats_token_counts, add_counts_app. reflexivity.
Qed.

(** A loop whose body counts the cells [ids_of i x] counts all of
    them. *)
Lemma forEach_counts {A} st (body : QuizStats -> A -> nat -> QuizStats)
    (ids_of : nat -> A -> list jsstring) :
  (forall acc x i, body acc x i = add_counts st acc (ids_of i x)) ->
  forall xs i acc,
    forEach_from body xs i acc
    = add_counts st acc (concat (imap (fun a x => ids_of (i + a)%nat x) xs)).
Proof.
  intros Hbody. induction xs as [|x xs IH]; intros i acc; cbn [forEach_from imap concat].
  - symmetry. apply add_counts_nil.
  - rewrite IH, Hbody, add_counts_app, Nat.add_0_r. f_equal. f_equal.
    apply imap_ext. intros a y _. cbn. f_equal. lia.
Qed.

Lemma getQuizStats_spec st result :
  currentResult st = Some result ->
  getQuizStats st = add_counts st (mkQuizStats 0 0 0 0) (quiz_ids st result).
Proof.
  intros Hres. unfold getQuizStats. rewrite Hres. unfold forEach at 1.
  rewrite (forEach_counts st _ (fun r _ =>
             concat (imap (fun f formula =>
               quiz_ids_from st r f (tokens (layoutFormula formula)) 0)
               (formulas result)))).
  - reflexivity.
  - intros acc row r. unfold forEach at 1.
    change (List.map layoutFormula (formulas result))
      with (layoutFormula <$> formulas result).
    rewrite (forEach_counts st _ (fun f layout =>
               quiz_ids_from st r f (tokens layout) 0)).
    + rewrite imap_fmap. reflexivity.
    + intros acc' layout f. unfold forEach. apply stats_tokens_counts.
Qed.

Lemma elem_of_concat {A} (x : A) (ls : list (list A)) :
  x ∈ concat ls <-> exists l, l ∈ ls /\ x ∈ l.
Proof.
  rewrite list_elem_of_In, in_concat. split.
  - intros (l & H1 & H2). exists l. rewrite !list_elem_of_In. auto.
  - intros (l & H1 & H2). exists l. rewrite <- !list_elem_of_In. auto.
Qed.

Lemma elem_of_quiz_ids_from st r f id : forall toks t0,
  id ∈ quiz_ids_from st r f toks t0
  <-> exists j token, toks !! j = Some token /\ quiz_cell st token = true
                      /\ id = cellId r f (t0 + j).
Proof.
  induction toks as [|token toks IH]; intros t0; cbn [quiz_ids_from].
  - rewrite elem_of_nil. split; [tauto|]. intros (j & tok & H & _). discriminate H.
  - rewrite elem_of_app, IH. split.
    + intros [H|(j & tok & Hj & Hq & ->)].
      * destruct (quiz_cell st token) eqn:Hq; [|inversion H].
        apply list_elem_of_singleton in H. subst.
        exists 0%nat, token. rewrite Nat.add_0_r. auto.
      * exists (S j), tok. replace (t0 + S j)%nat with (S t0 + j)%nat by lia. auto.
    + intros (j & tok & Hj & Hq & ->). destruct j as [|j].
      * injection Hj as <-. left. rewrite Hq, Nat.add_0_r. left.
      * right. exists j, tok. replace (t0 + S j)%nat with (S t0 + j)%nat by lia. auto.
Qed.

Lemma NoDup_quiz_ids_from st r f : forall toks t0, NoDup (quiz_ids_from st r f toks t0).
Proof.
  induction toks as [|token toks IH]; intros t0; cbn [quiz_ids_from]; [constructor|].
  apply NoDup_app. split; [destruct (quiz_cell st token); repeat constructor; inversion 1|].
  split; [|apply IH].
  intros id Hid Hin. destruct (quiz_cell st token); [|inversion Hid].
  apply list_elem_of_singleton in Hid. subst.
  apply elem_of_quiz_ids_from in Hin. destruct Hin as (j & tok & _ & _ & E).
  apply cellId_inj in E. lia.
Qed.

Lemma elem_of_concat_imap {A} (g : nat -> A -> list jsstring) (xs : list A) id :
  id ∈ concat (imap g xs) <-> exists i x, xs !! i = Some x /\ id ∈ g i x.
Proof.
  rewrite elem_of_concat. split.
  - intros (l & Hl & Hid). apply elem_of_lookup_imap in Hl.
    destruct Hl as (i & x & -> & Hx). eauto.
  - intros (i & x & Hx & Hid). exists (g i x). split; [|exact Hid].
    apply elem_of_lookup_imap. eauto.
Qed.

Lemma NoDup_concat_imap {A} (g : nat -> A -> list jsstring) :
  (forall i x, NoDup (g i x)) ->
  (forall i j x y id, id ∈ g i x -> id ∈ g j y -> i = j) ->
  forall xs i0, NoDup (concat (imap (fun a x => g (i0 + a)%nat x) xs)).
Proof.
  intros Hnd Htag. induction xs as [|x xs IH]; intros i0; cbn [imap concat]; [constructor|].
  apply NoDup_app. split; [apply Hnd|]. split.
  - intros id Hid Hin. apply elem_of_concat_imap in Hin.
    destruct Hin as (i & y & _ & Hy). cbn in Hy.
    pose proof (Htag _ _ _ _ _ Hid Hy). lia.
  - erewrite imap_ext; [apply (IH (S i0))|].
    intros a y _. cbn. f_equal. lia.
Qed.

Lemma elem_of_quiz_ids st result id :
  id ∈ quiz_ids st result
  <-> exists r f t row token,
        cell_at result r f t row token /\ quiz_cell st token = true /\ id = cellId r f t.
Proof.
  unfold quiz_ids. rewrite elem_of_concat_imap. split.
  - intros (r & row & Hrow & Hid). apply elem_of_concat_imap in Hid.
    destruct Hid as (f & formula & Hf & Hid). apply elem_of_quiz_ids_from in Hid.
    destruct Hid as (t & token & Ht & Hq & ->).
    exists r, f, t, row, token. split; [|auto]. split; [exact Hrow|]. eauto.
  - intros (r & f & t & row & token & (Hrow & formula & Hf & Ht) & Hq & ->).
    exists r, row. split; [exact Hrow|]. apply elem_of_concat_imap.
    exists f, formula. split; [exact Hf|]. apply elem_of_quiz_ids_from.
    exists t, token. auto.
Qed.

Lemma NoDup_quiz_ids st result : NoDup (quiz_ids st result).
Proof.
  unfold quiz_ids.
  apply (NoDup_concat_imap (fun r (_ : TruthTableRow) =>
           concat (imap (fun f formula =>
             quiz_ids_from st r f (tokens (layoutFormula formula)) 0) (formulas result)))
           ) with (i0 := 0%nat).
  - intros r _.
    apply (NoDup_concat_imap (fun f formula =>
             quiz_ids_from st r f (tokens (layoutFormula formula)) 0)) with (i0 := 0%nat).
    + intros f formula. apply NoDup_quiz_ids_from.
    + intros f f' x y id H1 H2.
      apply elem_of_quiz_ids_from in H1, H2.
      destruct H1 as (j & _ & _ & _ & ->). destruct H2 as (j' & _ & _ & _ & E).
      apply cellId_inj in E. lia.
  - intros r r' _ _ id H1 H2. apply elem_of_concat_imap in H1, H2.
    destruct H1 as (f & x & _ & H1). destruct H2 as (f' & y & _ & H2).
    apply elem_of_quiz_ids_from in H1, H2.
    destruct H1 as (j & _ & _ & _ & ->). destruct H2 as (j' & _ & _ & _ & E).
    apply cellId_inj in E. lia.
Qed.

Lemma count_ids_le test ids : (count_ids test ids <= length ids)%nat.
Proof. unfold count_ids. apply List.filter_length_le. Qed.

Lemma count_ids_disjoint test1 test2 ids :
  (forall id, test1 id = true -> test2 id = false) ->
  (count_ids test1 ids + count_ids test2 ids <= length ids)%nat.
Proof.
  intros H. unfold count_ids. induction ids as [|id ids IH]; cbn [List.filter length]; [lia|].
  destruct (test1 id) eqn:E1.
  - rewrite (H id E1). cbn [length]. lia.
  - destruct (test2 id); cbn [length]; lia.
Qed.

(** X19. [getQuizStats] counts cells: [total] is the number of quiz cells
    of the table (value tokens that are shown and are not letters, one
    per row and token, each counted once), [filled] the number of those
    with an answer, [correct] and [incorrect] the numbers of those with
    that status; so [filled] is at most [total] and [correct] plus
    [incorrect] is at most [total]. *)
Theorem getQuizStats_counts (st : AppState) (result : TruthTableResult) :
  currentResult st = Some result ->
  getQuizStats st
  = mkQuizStats (length (quiz_ids st result))
      (count_ids (is_answered st) (quiz_ids st result))
      (count_ids (has_status st correct) (quiz_ids st result))
      (count_ids (has_status st incorrect) (quiz_ids st result))
  /\ NoDup (quiz_ids st result)
  /\ (forall id, id ∈ quiz_ids st result
        <-> exists r f t row token,
              cell_at result r f t row token /\ quiz_cell st token = true
              /\ id = cellId r f t)
  /\ (filled (getQuizStats st) <= total (getQuizStats st))%nat
  /\ (correct_count (getQuizStats st) + incorrect_count (getQuizStats st)
      <= total (getQuizStats st))%nat.
Proof.
  intros Hres. rewrite (getQuizStats_spec st result Hres).
  unfold add_counts. cbn [total filled correct_count incorrect_count Nat.add].
  split; [reflexivity|]. split; [apply NoDup_quiz_ids|].
  split; [apply elem_of_quiz_ids|]. split; [apply count_ids_le|].
  apply count_ids_disjoint. intros id H. unfold has_status in *.
  apply bool_decide_eq_true in H. apply bool_decide_eq_false. congruence.
Qed.

Lemma quiz_ids_from_ext st st' r f :
  (forall token, quiz_cell st' token = quiz_cell st token) ->
  forall toks t, quiz_ids_from st' r f toks t = quiz_ids_from st r f toks t.
Proof.
  intros H. induction toks as [|token toks IH]; intros t; cbn [quiz_ids_from]; [reflexivity|].
  rewrite H, IH. reflexivity.
Qed.

Lemma quiz_ids_ext st st' result :
  (forall token, quiz_cell st' token = quiz_cell st token) ->
  quiz_ids st' result = quiz_ids st result.
Proof.
  intros H. unfold quiz_ids. f_equal. apply imap_ext. intros r row _. cbn.
  f_equal. apply imap_ext. intros f formula _. cbn. apply quiz_ids_from_ext, H.
Qed.

Lemma count_ids_all test ids :
  (forall id, id ∈ ids -> test id = true) -> count_ids test ids = length ids.
Proof.
  unfold count_ids. induction ids as [|id ids IH]; intros H; cbn [List.filter length];
    [reflexivity|].
  rewrite (H id ltac:(left)). cbn [length]. rewrite IH; [reflexivity|].
  intros id' Hin. apply H. right. exact Hin.
Qed.

Lemma count_ids_none test ids :
  (forall id, id ∈ ids -> test id = false) -> count_ids test ids = 0%nat.
Proof.
  unfold count_ids. induction ids as [|id ids IH]; intros H; cbn [List.filter length];
    [reflexivity|].
  rewrite (H id ltac:(left)). apply IH. intros id' Hin. apply H. right. exact Hin.
Qed.


Lemma getQuizStats_counts_witness :
  getQuizStats quiz_example_answered
  = mkQuizStats (length (quiz_ids quiz_example_answered quiz_example_result))
      (count_ids (is_answered quiz_example_answered)
         (quiz_ids quiz_example_answered quiz_example_result))
      (count_ids (has_status quiz_example_answered correct)
         (quiz_ids quiz_example_answered quiz_example_result))
      (count_ids (has_status quiz_example_answered incorrect)
         (quiz_ids quiz_example_answered quiz_example_result))
  /\ total (getQuizStats quiz_example_answered) = 8%nat
  /\ filled (getQuizStats quiz_example_answered) = 2%nat.
Proof.
  split; [apply (getQuizStats_counts quiz_example_answered quiz_example_result eq_refl)|].
  split; vm_compute; reflexivity.
Defined.


(* ===================================================================== *)
(** ** The cells of the data rows *)
(* ===================================================================== *)

Lemma data_cell_view st deps r f evs valueIdx token t row e :
  (forall tx sub mn, token = value_token tx sub mn ->
     evs !! valueIdx = Some e /\ ev_isMain e = mn
     /\ evaluate (lookup_row row) sub = Return (ev_value e)) ->
  data_cell st deps r f evs valueIdx token t
  = Return (cell_view st deps r f t row token,
            match token with
            | text_token _ => valueIdx
            | value_token _ _ _ => S valueIdx
            end).
Proof.
  intros H. destruct token as [tx|tx sub mn]; [reflexivity|].
  destruct (H tx sub mn eq_refl) as (He & Hmn & Hv).
  unfold data_cell, cell_view. rewrite He, Hmn. cbn [token_value]. rewrite Hv.
  unfold effectiveShowQuasi.
  destruct (currentMode st), (is_letter sub), (showQuasiColumns st), mn;
    cbn [orb andb negb]; try reflexivity;
    destruct (depsAreFilled st r (default [] (deps !! cellKey f t))); reflexivity.
Qed.

Lemma data_cells_from_spec st deps row r f evs : forall toks pre valueIdx,
  Forall2 (evaluates_to (lookup_row row)) (value_tokens (pre ++ toks)) evs ->
  valueIdx = length (value_tokens pre) ->
  data_cells_from st deps r f evs toks (length pre) valueIdx
  = Return (imap (fun j token => cell_view st deps r f (length pre + j) row token) toks).
Proof.
  induction toks as [|token toks IH]; intros pre valueIdx Hevs Hidx; [reflexivity|].
  cbn [data_cells_from imap].
  assert (Hassoc : pre ++ token :: toks = (pre ++ [token]) ++ toks)
    by (rewrite <- app_assoc; reflexivity).
  assert (Hlen : length (pre ++ [token]) = S (length pre))
    by (rewrite length_app; simpl; lia).
  assert (Hcell : exists e,
            forall tx sub mn, token = value_token tx sub mn ->
              evs !! valueIdx = Some e /\ ev_isMain e = mn
              /\ evaluate (lookup_row row) sub = Return (ev_value e)).
  { destruct token as [tx|tx sub mn].
    - exists (mkEvaluated [] false false). intros ? ? ? E. discriminate E.
    - destruct (evaluated_at _ _ _ _ _ _ _ Hevs) as (e & He & Hmn & Hv).
      exists e. intros ? ? ? E. injection E as <- <- <-. rewrite Hidx. auto. }
  destruct Hcell as (e & Hcell).
  rewrite (data_cell_view st deps r f evs valueIdx token (length pre) row e Hcell).
  cbn [bind fst snd]. rewrite Hassoc in Hevs.
  rewrite <- Hlen, (IH (pre ++ [token])); [| exact Hevs |].
  - cbn [bind]. rewrite Nat.add_0_r. f_equal. f_equal.
    apply imap_ext. intros j tok _. cbn. rewrite Hlen. f_equal. lia.
  - destruct token as [tx|tx sub mn].
    + rewrite value_tokens_snoc_text. exact Hidx.
    + rewrite value_tokens_snoc_value, length_app, Hidx. simpl. lia.
Qed.

Lemma data_row_from_spec st deps row r : forall layouts f0,
  (forall layout, layout ∈ layouts ->
     exists evs, evaluateLayout layout (lookup_row row) = Return evs) ->
  data_row_from st deps row r layouts f0
  = Return (imap (fun a layout =>
              imap (fun t token => cell_view st deps r (f0 + a) t row token) (tokens layout))
              layouts).
Proof.
  induction layouts as [|layout layouts IH]; intros f0 Hret; [reflexivity|].
  cbn [data_row_from imap].
  destruct (Hret layout ltac:(left)) as (evs & Hevs). rewrite Hevs. cbn [bind].
  pose proof (data_cells_from_spec st deps row r f0 evs (tokens layout) [] 0
                (evaluateLayout_Return _ _ _ Hevs) eq_refl) as Hcells.
  cbn [length app] in Hcells. rewrite Hcells.
  cbn [bind]. rewrite IH by (intros l Hl; apply Hret; right; exact Hl).
  cbn [bind]. rewrite Nat.add_0_r. f_equal. f_equal.
  apply imap_ext. intros a l _. cbn. apply imap_ext. intros t tok _. cbn. f_equal. lia.
Qed.

Lemma data_rows_spec st result :
  covered result ->
  data_rows st result
  = Return (imap (fun r row =>
              imap (fun f layout =>
                imap (fun t token =>
                  cell_view st (cellDependencies (layouts_of (formulas result))) r f t row token)
                  (tokens layout))
                (layouts_of (formulas result)))
              (rows result)).
Proof.
  intros Hc. unfold data_rows.
  set (deps := cellDependencies (layouts_of (formulas result))).
  set (layouts := layouts_of (formulas result)).
  assert (Hrows : forall rs r0,
            (forall row, row ∈ rs -> row ∈ rows result) ->
            (fix rows_from (rows : list TruthTableRow) (rowIdx : nat) :=
               match rows with
               | [] => Return []
               | row :: rows' =>
                   let* cells := data_row_from st deps row rowIdx layouts 0 in
                   let* rest := rows_from rows' (S rowIdx) in
                   Return (cells :: rest)
               end) rs r0
            = Return (imap (fun b row =>
                        imap (fun f layout =>
                          imap (fun t token => cell_view st deps (r0 + b) f t row token)
                            (tokens layout)) layouts) rs)).
  { induction rs as [|row rs IH]; intros r0 Hin; [reflexivity|].
    rewrite (data_row_from_spec st deps row r0 layouts 0).
    - cbn [bind]. rewrite IH by (intros row' H; apply Hin; right; exact H).
      cbn [bind imap]. rewrite Nat.add_0_r. f_equal. f_equal.
      apply imap_ext. intros b row' _. cbn.
      apply imap_ext. intros f l _. cbn. apply imap_ext. intros t tok _. cbn.
      f_equal. lia.
    - intros layout Hl. apply list_elem_of_lookup_1 in Hl. destruct Hl as (a & Hl).
      apply layouts_lookup in Hl. destruct Hl as (formula & Hf & ->).
      eapply covered_evaluateLayout; [exact Hc|apply Hin; left|].
      eapply list_elem_of_lookup_2. exact Hf. }
  rewrite (Hrows (rows result) 0%nat) by auto. reflexivity.
Qed.

Lemma enter_deps_skip stc f0 toks : forall i0 m j t,
  toks !! j = Some t -> quiz_subformula t = None ->
  forEach_from (enter_deps stc f0) toks i0 m !! cellKey f0 (i0 + j)
  = m !! cellKey f0 (i0 + j).
Proof.
  induction toks as [|u us IH]; intros i0 m j t Hj Hq; [destruct j; discriminate|].
  destruct j as [|j]; cbn [forEach_from]; cbn [lookup list_lookup] in Hj.
  - injection Hj as ->. rewrite enter_deps_other by lia.
    unfold enter_deps. rewrite Hq. reflexivity.
  - replace (i0 + S j)%nat with (S i0 + j)%nat by lia.
    rewrite (IH (S i0) _ j t Hj Hq). unfold enter_deps.
    destruct (quiz_subformula u); [|reflexivity].
    apply lookup_insert_ne. intros E. apply cellKey_inj in E. lia.
Qed.

Lemma enter_deps_layouts_skip stc layouts : forall f0 m a l ti t,
  layouts !! a = Some l -> tokens l !! ti = Some t -> quiz_subformula t = None ->
  forEach_from (fun m layout formulaIdx =>
                  forEach (enter_deps stc formulaIdx) (tokens layout) m) layouts f0 m
    !! cellKey (f0 + a) ti
  = m !! cellKey (f0 + a) ti.
Proof.
  induction layouts as [|k ks IH]; intros f0 m a l ti t Ha Ht Hq;
    [destruct a; discriminate|].
  destruct a as [|a]; cbn [forEach_from]; cbn [lookup list_lookup] in Ha.
  - injection Ha as ->. rewrite enter_deps_layouts_other by lia.
    rewrite Nat.add_0_r. unfold forEach.
    apply (enter_deps_skip stc f0 (tokens l) 0%nat m ti t); assumption.
  - replace (f0 + S a)%nat with (S f0 + a)%nat by lia.
    rewrite (IH (S f0) _ a l ti t Ha Ht Hq). unfold forEach.
    apply enter_deps_other. lia.
Qed.

Lemma cellDependencies_lookup_None layouts fi ti l t :
  layouts !! fi = Some l -> tokens l !! ti = Some t -> quiz_subformula t = None ->
  cellDependencies layouts !! cellKey fi ti = None.
Proof.
  intros Hl Ht Hq. unfold cellDependencies, forEach.
  rewrite (enter_deps_layouts_skip (subformulaToCell layouts) layouts 0%nat ∅ fi l ti t)
    by assumption.
  apply lookup_empty.
Qed.

Lemma compact_nested_longer s :
  (length (sentence_to_string_compact_at s true)
   <= length (sentence_to_string_compact_at s false))%nat.
Proof.
  destruct s; cbn [sentence_to_string_compact_at]; unfold wrap_compact_with;
    rewrite ?length_app; cbn [length]; lia.
Qed.

Lemma dependency_shorter dep sub :
  dep ∈ getSubformulaDependencies sub ->
  (length (sentence_to_string_compact dep) < length (sentence_to_string_compact sub))%nat.
Proof.
  intros H. rewrite getSubformulaDependencies_operands in H.
  rewrite list_elem_of_In in H. apply filter_In in H. destruct H as [H _].
  rewrite <- list_elem_of_In in H.
  unfold sentence_to_string_compact.
  pose proof (compact_nested_longer dep) as Hd.
  destruct sub as [v|l|a|a b|a b|a b|a b|a b|a b]; cbn [operands] in H;
    try (inversion H; fail);
    try (apply list_elem_of_singleton in H; subst dep;
         cbn [sentence_to_string_compact_at]; rewrite length_app;
         change (length (js "~")) with 1%nat; lia);
    (rewrite !elem_of_cons in H; destruct H as [->|[->|H]]; [| |inversion H];
     cbn [sentence_to_string_compact_at]; unfold wrap_compact_with;
     rewrite !length_app;
     pose proof (compact_nested_longer a); pose proof (compact_nested_longer b);
     match goal with |- context [(length ?op + _)%nat] =>
       change (length op) with 1%nat end; lia).
Qed.

Lemma depsAreFilled_false st r deps :
  depsAreFilled st r deps = false ->
  exists depKey, depKey ∈ deps
    /\ userAnswers st !! (Number_toString (N.of_nat r) ++ js "-" ++ depKey) = None.
Proof.
  unfold depsAreFilled. induction deps as [|d deps IH]; cbn [forallb]; [discriminate|].
  intros H. apply andb_false_iff in H. destruct H as [H|H].
  - exists d. split; [left|]. apply bool_decide_eq_false in H.
    destruct (userAnswers st !! _); [exfalso; apply H; eauto|reflexivity].
  - destruct (IH H) as (k & Hk & Hn). exists k. split; [right; exact Hk|exact Hn].
Qed.

(** A cell that is not yet unlocked waits for a cell without an answer
    whose compact key is shorter. *)
Lemma unanswered_dependency st r layouts f t l token sub :
  layouts !! f = Some l -> tokens l !! t = Some token -> quiz_subformula token = Some sub ->
  depsAreFilled st r (default [] (cellDependencies layouts !! cellKey f t)) = false ->
  exists f1 t1 l1 token1 sub1,
    layouts !! f1 = Some l1 /\ tokens l1 !! t1 = Some token1
    /\ quiz_subformula token1 = Some sub1
    /\ (length (sentence_to_string_compact sub1)
        < length (sentence_to_string_compact sub))%nat
    /\ userAnswers st !! cellId r f1 t1 = None.
Proof.
  intros Hl Ht Hq Hd.
  rewrite (cellDependencies_lookup layouts f t l token sub Hl Ht Hq) in Hd. cbn in Hd.
  apply depsAreFilled_false in Hd. destruct Hd as (depKey & Hin & Hnone).
  rewrite depCellKeys_omap in Hin. apply list_elem_of_omap in Hin.
  destruct Hin as (dep & Hdep & Hcell).
  destruct (subformulaToCell layouts !! sentence_to_string_compact dep) as [c|] eqn:Ec;
    [|discriminate Hcell].
  cbn in Hcell. injection Hcell as <-.
  apply subformulaToCell_last in Ec. destruct Ec as [(l1 & token1 & Hl1 & Ht1 & Hk) _].
  unfold key_of in Hk.
  destruct (quiz_subformula token1) as [sub1|] eqn:Hq1; [|discriminate Hk].
  cbn in Hk. injection Hk as Hk.
  exists (formulaIdx c), (tokenIdx c), l1, token1, sub1.
  repeat split; try assumption.
  rewrite Hk. apply dependency_shorter, Hdep.
Qed.

(** Below any cell without an answer there is one without an answer
    whose dependencies all have answers. *)
Lemma answerable_exists st r layouts : forall n f t l token sub,
  layouts !! f = Some l -> tokens l !! t = Some token -> quiz_subformula token = Some sub ->
  (length (sentence_to_string_compact sub) < n)%nat ->
  userAnswers st !! cellId r f t = None ->
  exists f' t' l' token' sub',
    layouts !! f' = Some l' /\ tokens l' !! t' = Some token'
    /\ quiz_subformula token' = Some sub'
    /\ userAnswers st !! cellId r f' t' = None
    /\ depsAreFilled st r (default [] (cellDependencies layouts !! cellKey f' t')) = true.
Proof.
  induction n as [|n IH]; intros f t l token sub Hl Ht Hq Hlen Hnone; [lia|].
  destruct (depsAreFilled st r (default [] (cellDependencies layouts !! cellKey f t)))
    eqn:Hd.
  - exists f, t, l, token, sub. auto.
  - destruct (unanswered_dependency st r layouts f t l token sub Hl Ht Hq Hd)
      as (f1 & t1 & l1 & token1 & sub1 & Hl1 & Ht1 & Hq1 & Hlt & Hn1).
    apply (IH f1 t1 l1 token1 sub1); try assumption. lia.
Qed.

Lemma cell_view_Locked st deps r f t row token mn :
  cell_view st deps r f t row token = LockedCell mn ->
  exists tx sub,
    token = value_token tx sub mn /\ currentMode st = quiz /\ is_letter sub = false
    /\ depsAreFilled st r (default [] (deps !! cellKey f t)) = false.
Proof.
  destruct token as [tx|tx sub mn']; cbn [cell_view]; [discriminate|].
  destruct (currentMode st) eqn:Hm; [discriminate|].
  destruct (is_letter sub) eqn:Hs; [discriminate|].
  destruct (depsAreFilled st r _) eqn:Hd; [discriminate|].
  intros [= <-]. eauto 10.
Qed.

Lemma cell_view_Quiz st deps r f t row token sub :
  currentMode st = quiz -> quiz_subformula token = Some sub ->
  depsAreFilled st r (default [] (deps !! cellKey f t)) = true ->
  exists mn, cell_view st deps r f t row token = QuizCell (cellId r f t) mn.
Proof.
  intros Hm Hq Hd. apply quiz_subformula_Some in Hq.
  destruct Hq as (tx & mn & -> & Ha). exists mn. cbn [cell_view]. rewrite Hm, Hd.
  destruct sub; try discriminate Ha; reflexivity.
Qed.

Lemma layouts_of_lookup formulas f l :
  layouts_of formulas !! f = Some l
  <-> exists formula, formulas !! f = Some formula /\ l = layoutFormula formula.
Proof. apply layouts_lookup. Qed.

(** X21. The quiz cannot get stuck.  In the data rows that
    [renderTruthTable] builds for a generated table, whenever a cell is
    locked there is, in the same row, a dropdown cell that has no answer
    yet. *)
Theorem quiz_never_stuck (localeCompare : jsstring -> jsstring -> Z)
    (fs : list Sentence) (st : AppState) (result : TruthTableResult)
    (r f t : nat) (isMain : bool) :
  generate_truth_table localeCompare fs = Return result ->
  (exists views cells_of_row cells,
     data_rows st result = Return views /\ views !! r = Some cells_of_row
     /\ cells_of_row !! f = Some cells /\ cells !! t = Some (LockedCell isMain)) ->
  exists views cells_of_row f' cells' t' isMain',
    data_rows st result = Return views /\ views !! r = Some cells_of_row
    /\ cells_of_row !! f' = Some cells'
    /\ cells' !! t' = Some (QuizCell (cellId r f' t') isMain')
    /\ userAnswers st !! cellId r f' t' = None.
Proof.
  intros Hgen (views & rv & cells & Hviews & Hr & Hf & Ht).
  pose proof (generated_covered _ _ _ Hgen) as Hc.
  rewrite (data_rows_spec st result Hc) in Hviews. injection Hviews as <-.
  set (layouts := layouts_of (formulas result)) in *.
  set (deps := cellDependencies layouts) in *.
  rewrite list_lookup_imap in Hr.
  destruct (rows result !! r) as [row|] eqn:Hrow; [|discriminate Hr].
  cbn in Hr. injection Hr as <-.
  rewrite list_lookup_imap in Hf.
  destruct (layouts !! f) as [l|] eqn:Hl; [|discriminate Hf].
  cbn in Hf. injection Hf as <-.
  rewrite list_lookup_imap in Ht.
  destruct (tokens l !! t) as [token|] eqn:Htok; [|discriminate Ht].
  cbn in Ht. injection Ht as Hview.
  destruct (cell_view_Locked _ _ _ _ _ _ _ _ Hview) as (tx & sub & -> & Hmode & Hlet & Hd).
  assert (Hq : quiz_subformula (value_token tx sub isMain) = Some sub).
  { destruct (quiz_subformula (value_token tx sub isMain)) as [sub'|] eqn:Hq.
    - apply quiz_subformula_Some in Hq. destruct Hq as (? & ? & [= _ <- _] & _). reflexivity.
    - unfold deps in Hd.
      rewrite (cellDependencies_lookup_None layouts f t l _ Hl Htok Hq) in Hd.
      discriminate Hd. }
  destruct (unanswered_dependency st r layouts f t l _ sub Hl Htok Hq Hd)
    as (f1 & t1 & l1 & token1 & sub1 & Hl1 & Ht1 & Hq1 & _ & Hn1).
  destruct (answerable_exists st r layouts _ f1 t1 l1 token1 sub1 Hl1 Ht1 Hq1
              (Nat.lt_succ_diag_r _) Hn1)
    as (f' & t' & l' & token' & sub' & Hl' & Ht' & Hq' & Hn' & Hd').
  destruct (cell_view_Quiz st deps r f' t' row token' sub' Hmode Hq' Hd') as (mn' & Hv').
  eexists _, _, f', _, t', mn'.
  rewrite (data_rows_spec st result Hc). split; [reflexivity|].
  split; [rewrite list_lookup_imap, Hrow; reflexivity|].
  split; [rewrite list_lookup_imap; fold layouts; rewrite Hl'; reflexivity|].
  split; [|exact Hn'].
  rewrite list_lookup_imap, Ht'. cbn. fold layouts. fold deps. rewrite Hv'. reflexivity.
Qed.

Lemma quiz_never_stuck_witness :
  exists views cells_of_row f' cells' t' isMain',
    data_rows quiz_example quiz_example_result = Return views
    /\ views !! 0%nat = Some cells_of_row
    /\ cells_of_row !! f' = Some cells'
    /\ cells' !! t' = Some (QuizCell (cellId 0 f' t') isMain')
    /\ userAnswers quiz_example !! cellId 0 f' t' = None.
Proof.
  apply (quiz_never_stuck compare_units [negation (conjunction A_ B_)]
           quiz_example quiz_example_result 0 0 0 true).
  - vm_compute. reflexivity.
  - eexists _, _, _. split; [vm_compute; reflexivity|].
    split; [reflexivity|]. split; reflexivity.
Defined.



(* ===================================================================== *)
(** ** Parser: chains of operands and brackets around atoms, in general *)
(* ===================================================================== *)

(** An input that is no text of the grammar gets the syntax error. *)
Lemma not_wff_rejected input :
  (forall s, ~ wff OfSentence (trim input) s) ->
  parse_sentence input = Some (ResErr (js "Syntax error (not a wff).")).
Proof.
  intros H. destruct (parse_sentence_returns input) as ([s|e] & Hr).
  - exfalso. apply (H s). apply parse_sentence_wff, Hr.
  - rewrite Hr. unfold parse_sentence in Hr.
    destruct (P.parse _ _); try discriminate. injection Hr as <-. reflexivity.
Qed.

(** A factor is read in one way: no factor is a proper prefix of what
    another reading takes. *)
Lemma factor_prefix x y s s' r r' :
  wff OfFactor x s -> wff OfFactor y s' -> x ++ r = y ++ r' ->
  x = y /\ r = r' /\ s = s'.
Proof.
  intros Hx Hy E.
  pose proof (wff_accepted _ _ _ Hx (length x + length y) ltac:(lia) r) as A1.
  pose proof (wff_accepted _ _ _ Hy (length x + length y) ltac:(lia) r') as A2.
  rewrite E in A1. rewrite A1 in A2. injection A2 as -> ->.
  split; [|split; reflexivity]. eapply app_inv_tail. exact E.
Qed.

Lemma white_prefix_unique a : forall b u v,
  white a -> white b -> starts_solid u -> starts_solid v ->
  a ++ u = b ++ v -> a = b /\ u = v.
Proof.
  induction a as [|ch a IH]; intros b u v Ha Hb Hu Hv E.
  - destruct b as [|ch' b]; [split; [reflexivity|exact E]|].
    exfalso. destruct Hu as (d & t & -> & Hd). cbn [app] in E. injection E as -> _.
    inversion Hb; subst. congruence.
  - destruct b as [|ch' b].
    + exfalso. destruct Hv as (d & t & -> & Hd). cbn [app] in E. injection E as -> _.
      inversion Ha; subst. congruence.
    + cbn [app] in E. injection E as -> E. inversion Ha; subst. inversion Hb; subst.
      destruct (IH b u v) as [-> ->]; auto.
Qed.

Lemma symbol_solid sym build : (sym, build) ∈ binary_table -> starts_solid sym.
Proof.
  unfold binary_table. rewrite !elem_of_cons. intros H.
  destruct H as [E|[E|[E|[E|[E|[E|E]]]]]]; [injection E as -> _..|inversion E];
    eexists _, _; split; reflexivity.
Qed.

(** No connective symbol starts like another one. *)
Lemma symbol_prefix_unique sym build sym' build' u v :
  (sym, build) ∈ binary_table -> (sym', build') ∈ binary_table ->
  sym ++ u = sym' ++ v -> sym = sym' /\ build = build' /\ u = v.
Proof.
  unfold binary_table. rewrite !elem_of_cons. intros H H' E.
  destruct H as [H|[H|[H|[H|[H|[H|H]]]]]]; [injection H as -> ->..|inversion H];
    (destruct H' as [H'|[H'|[H'|[H'|[H'|[H'|H']]]]]];
       [injection H' as -> ->..|inversion H']);
    try discriminate E;
    (split; [reflexivity|split; [reflexivity|]]; eapply app_inv_head; exact E).
Qed.

Lemma chain_positive sym n w : chain sym n w -> (1 <= n)%nat.
Proof. induction 1; lia. Qed.

Lemma chain_solid sym build n w :
  (sym, build) ∈ binary_table -> chain sym n w -> starts_solid w /\ ends_solid w.
Proof.
  intros Hsym. induction 1 as [x s Hx|n w ws1 ws2 x s _ [IHs IHe] H1 H2 Hx].
  - split; [eapply wff_starts_solid|eapply wff_ends_solid]; exact Hx.
  - split; [apply starts_solid_app; exact IHs|].
    destruct (wff_ends_solid _ _ _ Hx) as (r & d & -> & Hd).
    exists (w ++ ws1 ++ sym ++ ws2 ++ r), d. split; [|exact Hd].
    rewrite <- !app_assoc. reflexivity.
Qed.

(** The first two operands of a chain, and what follows them. *)
Lemma chain_split sym n w :
  chain sym n w -> (2 <= n)%nat ->
  exists x0 s0 ws1 ws2 x1 s1 tail,
    w = x0 ++ ws1 ++ sym ++ ws2 ++ x1 ++ tail
    /\ wff OfFactor x0 s0 /\ white ws1 /\ white ws2 /\ wff OfFactor x1 s1
    /\ (n = 2%nat -> tail = []) /\ ((3 <= n)%nat -> tail <> []).
Proof.
  induction 1 as [x s Hx|n w ws1 ws2 x s Hc IH H1 H2 Hx]; intros Hn; [lia|].
  destruct (Nat.eq_dec n 1%nat) as [->|Hne].
  - inversion Hc; subst.
    + match goal with Hx0 : wff OfFactor w ?s0 |- _ =>
        exists w, s0, ws1, ws2, x, s, [] end.
      rewrite app_nil_r. repeat split; auto. lia.
    + match goal with Hc' : chain _ 0 _ |- _ => apply chain_positive in Hc'; lia end.
  - pose proof (chain_positive _ _ _ Hc).
    destruct IH as (x0 & s0 & wa & wb & x1 & s1 & tail & -> & H0 & Ha & Hb & Hx1 & _ & _);
      [lia|].
    exists x0, s0, wa, wb, x1, s1, (tail ++ ws1 ++ sym ++ ws2 ++ x).
    split; [rewrite <- !app_assoc; reflexivity|]. repeat split; auto; [lia|].
    intros _ E. apply (f_equal (@length N)) in E. rewrite !length_app in E.
    pose proof (wff_length _ _ _ Hx). cbn [length] in E. lia.
Qed.

(** A chain of three or more operands is no text of the grammar. *)
Lemma chain_not_wff sym build n w s :
  (sym, build) ∈ binary_table -> chain sym n w -> (3 <= n)%nat ->
  ~ wff OfSentence w s.
Proof.
  intros Hsym Hc Hn Hw.
  destruct (chain_split _ _ _ Hc ltac:(lia))
    as (x0 & s0 & ws1 & ws2 & x1 & s1 & tail & -> & H0 & H1 & H2 & Hx1 & _ & Htail).
  specialize (Htail Hn).
  remember (x0 ++ ws1 ++ sym ++ ws2 ++ x1 ++ tail) as w eqn:Ew.
  inversion Hw as [| | |y t Hf|sym' build' y1 wa wb y2 t1 t2 Hsym' Hy1 Ha Hb Hy2]; subst.
  - destruct (factor_prefix _ _ _ _ (ws1 ++ sym ++ ws2 ++ x1 ++ tail) [] H0 Hf)
      as (_ & E & _); [rewrite app_nil_r; reflexivity|].
    apply (f_equal (@length N)) in E. rewrite !length_app in E.
    pose proof (wff_length _ _ _ Hx1). cbn [length] in E. lia.
  - match goal with E : _ = _ |- _ => rename E into Ew end.
    destruct (factor_prefix _ _ _ _ _ _ H0 Hy1 (eq_sym Ew)) as (_ & E1 & _).
    assert (Hs : starts_solid (sym ++ ws2 ++ x1 ++ tail))
      by (apply starts_solid_app; eapply symbol_solid; exact Hsym).
    assert (Hs' : starts_solid (sym' ++ wb ++ y2))
      by (apply starts_solid_app; eapply symbol_solid; exact Hsym').
    destruct (white_prefix_unique ws1 wa _ _ H1 Ha Hs Hs' E1) as [_ E2].
    destruct (symbol_prefix_unique _ _ _ _ _ _ Hsym Hsym' E2) as (_ & _ & E3).
    assert (Hx : starts_solid (x1 ++ tail))
      by (apply starts_solid_app; eapply wff_starts_solid; exact Hx1).
    assert (Hy : starts_solid y2) by (eapply wff_starts_solid; exact Hy2).
    destruct (white_prefix_unique ws2 wb _ _ H2 Hb Hx Hy E3) as [_ E4].
    destruct (factor_prefix _ _ _ _ tail [] Hx1 Hy2) as (_ & E5 & _);
      [rewrite app_nil_r; exact E4|]. contradiction.
Qed.

(** What parses to a letter or to a negation is a factor. *)
Lemma parsed_atom_factor x s :
  parse_sentence x = Some (ResOk s) -> is_negation_or_letter s = true ->
  wff OfFactor (trim x) s.
Proof.
  intros H Hs. apply parse_sentence_wff in H.
  inversion H as [| | |y t Hf|sym build y1 wa wb y2 t1 t2 Hsym]; subst; [exact Hf|].
  exfalso. unfold binary_table in Hsym. rewrite !elem_of_cons in Hsym.
  destruct Hsym as [E|[E|[E|[E|[E|[E|E]]]]]]; [injection E as -> ->..|inversion E];
    discriminate Hs.
Qed.

Lemma binary_parses sym build x1 s1 x2 s2 ws1 ws2 :
  (sym, build) ∈ binary_table -> wff OfFactor x1 s1 -> wff OfFactor x2 s2 ->
  white ws1 -> white ws2 ->
  parse_sentence (x1 ++ ws1 ++ sym ++ ws2 ++ x2) = Some (ResOk (build s1 s2)).
Proof.
  intros Hsym H1 H2 Hw1 Hw2. apply wff_parse_sentence.
  assert (Hw : wff OfSentence (x1 ++ ws1 ++ sym ++ ws2 ++ x2) (build s1 s2))
    by (apply wff_binary; assumption).
  rewrite trim_solid; [exact Hw|eapply wff_starts_solid|eapply wff_ends_solid]; exact Hw.
Qed.

Lemma chain_rejected sym build n w wsL wsR :
  (sym, build) ∈ binary_table -> chain sym n w -> (3 <= n)%nat ->
  white wsL -> white wsR ->
  parse_sentence (wsL ++ w ++ wsR) = Some (ResErr (js "Syntax error (not a wff).")).
Proof.
  intros Hsym Hc Hn HL HR. apply not_wff_rejected. intros s.
  destruct (chain_solid _ _ _ _ Hsym Hc) as [Hs He].
  rewrite trim_padded by assumption.
  eapply chain_not_wff; eassumption.
Qed.

(** C6. Three or more operands chained by one and the same binary
    connective, without explicit grouping, are rejected: this holds for
    each of the six connectives, for all operands (letters, negations
    and bracketed sentences) and whatever white space surrounds the
    connectives and the input, while two operands joined by the
    connective are accepted.  In particular "A & B & C" is rejected,
    while "A & (B & C)" and "(A & B) & C" are accepted, as two different
    sentences that evaluate identically under every assignment
    (throwing ones included). *)
Theorem parse_rejects_chains :
  (forall sym build n w wsL wsR,
      (sym, build) ∈ binary_table -> chain sym n w -> (3 <= n)%nat ->
      white wsL -> white wsR ->
      parse_sentence (wsL ++ w ++ wsR) = Some (ResErr (js "Syntax error (not a wff).")))
  /\ (forall sym build x1 s1 x2 s2 ws1 ws2,
        (sym, build) ∈ binary_table -> wff OfFactor x1 s1 -> wff OfFactor x2 s2 ->
        white ws1 -> white ws2 ->
        parse_sentence (x1 ++ ws1 ++ sym ++ ws2 ++ x2) = Some (ResOk (build s1 s2)))
  /\ parse_sentence (js "A & B & C") = Some (ResErr (js "Syntax error (not a wff)."))
  /\ parse_sentence (js "A & (B & C)") = Some (ResOk (conjunction A_ (conjunction B_ C_)))
  /\ parse_sentence (js "(A & B) & C") = Some (ResOk (conjunction (conjunction A_ B_) C_))
  /\ forall asg : Letter -> Completion bool,
       evaluate asg (conjunction A_ (conjunction B_ C_))
       = evaluate asg (conjunction (conjunction A_ B_) C_).
Proof.
  split; [exact chain_rejected|]. split; [exact binary_parses|].
  repeat split; try (vm_compute; reflexivity).
  intros asg. simpl. unfold js_and.
  destruct (asg (mkLetter (js "A") 0)) as [[|]|]; simpl; reflexivity.
Qed.

Lemma parse_rejects_chains_witness :
  parse_sentence (js "A&B&C") = Some (ResErr (js "Syntax error (not a wff)."))
  /\ parse_sentence (js "A & (B v C) & D")
     = Some (ResErr (js "Syntax error (not a wff)."))
  /\ parse_sentence (js " A  v (B & C) v~D ")
     = Some (ResErr (js "Syntax error (not a wff).")).
Proof.
  assert (HA : wff OfFactor (js "A") A_) by (apply (wff_letter 65); reflexivity).
  assert (HB : wff OfFactor (js "B") B_) by (apply (wff_letter 66); reflexivity).
  assert (HC : wff OfFactor (js "C") C_) by (apply (wff_letter 67); reflexivity).
  assert (HD : wff OfFactor (js "D") (letter (mkLetter (js "D") 0)))
    by (apply (wff_letter 68); reflexivity).
  assert (HnD : wff OfFactor (js "~D") (negation (letter (mkLetter (js "D") 0)))).
  { apply (wff_negation [] (js "D")); [constructor|exact HD]. }
  assert (HBC : wff OfFactor (js "(B & C)") (conjunction B_ C_)).
  { apply (wff_wrapped 40 41 [] (js "B & C") []); [repeat constructor|constructor..| |reflexivity].
    apply (wff_binary (js "&") conjunction (js "B") [32] [32] (js "C"));
      [repeat constructor|exact HB|repeat constructor..|exact HC]. }
  assert (HBvC : wff OfFactor (js "(B v C)") (disjunction B_ C_)).
  { apply (wff_wrapped 40 41 [] (js "B v C") []); [repeat constructor|constructor..| |reflexivity].
    apply (wff_binary (js "v") disjunction (js "B") [32] [32] (js "C"));
      [repeat constructor|exact HB|repeat constructor..|exact HC]. }
  split; [|split].
  - apply (proj1 parse_rejects_chains (js "&") conjunction 3%nat (js "A&B&C") [] []);
      [repeat constructor| |lia|constructor|constructor].
    apply (chain_link (js "&") 2%nat (js "A&B") [] [] (js "C") C_); [|constructor..|exact HC].
    apply (chain_link (js "&") 1%nat (js "A") [] [] (js "B") B_); [|constructor..|exact HB].
    exact (chain_operand _ _ _ HA).
  - apply (proj1 parse_rejects_chains (js "&") conjunction 3%nat (js "A & (B v C) & D")
             [] []); [repeat constructor| |lia|constructor|constructor].
    apply (chain_link (js "&") 2%nat (js "A & (B v C)") [32] [32] (js "D")
             (letter (mkLetter (js "D") 0))); [|repeat constructor..|exact HD].
    apply (chain_link (js "&") 1%nat (js "A") [32] [32] (js "(B v C)")
             (disjunction B_ C_)); [|repeat constructor..|exact HBvC].
    exact (chain_operand _ _ _ HA).
  - apply (proj1 parse_rejects_chains (js "v") disjunction 3%nat (js "A  v (B & C) v~D")
             [32] [32]); [repeat constructor| |lia|repeat constructor..].
    apply (chain_link (js "v") 2%nat (js "A  v (B & C)") [32] [] (js "~D")
             (negation (letter (mkLetter (js "D") 0))));
      [|repeat constructor..|exact HnD].
    apply (chain_link (js "v") 1%nat (js "A") [32; 32] [32] (js "(B & C)")
             (conjunction B_ C_));
      [|repeat constructor..|exact HBC].
    exact (chain_operand _ _ _ HA).
Defined.

Lemma app_split_le {A} (a : list A) : forall b c d,
  a ++ b = c ++ d -> (length a <= length c)%nat -> exists e, c = a ++ e /\ b = e ++ d.
Proof.
  induction a as [|x a IH]; intros b c d E Hlen.
  - exists c. split; [reflexivity|exact E].
  - destruct c as [|y c]; [simpl in Hlen; lia|].
    cbn [app] in E. injection E as -> E. cbn [length] in Hlen.
    destruct (IH b c d E ltac:(lia)) as (e & -> & ->). exists e. split; reflexivity.
Qed.

(** A character that does not occur in [bf] is not found before the end
    of [bf]. *)
Lemma skip_without (o : N) bf : forall y pre rest,
  Forall (fun ch => ch <> o) bf -> bf ++ y = pre ++ o :: rest ->
  exists pre', pre = bf ++ pre' /\ y = pre' ++ o :: rest.
Proof.
  induction bf as [|ch bf IH]; intros y pre rest Hbf E.
  - exists pre. split; [reflexivity|exact E].
  - inversion Hbf as [|? ? Hch Hbf']; subst.
    destruct pre as [|ch' pre]; cbn [app] in E; injection E as -> E; [congruence|].
    destruct (IH y pre rest Hbf' E) as (pre' & -> & ->). exists pre'. split; reflexivity.
Qed.

Lemma bracket_free_without o c p :
  (o, c) ∈ brackets -> bracket_free p -> Forall (fun ch => ch <> o) p.
Proof.
  intros Hoc H. apply bracket_opening in Hoc.
  eapply Forall_impl; [exact H|]. cbv beta. intros ch Hch. lia.
Qed.

Lemma closing_without o c o' c' :
  (o, c) ∈ brackets -> (o', c') ∈ brackets -> Forall (fun ch => ch <> o) [c'].
Proof. rewrite !brackets_cases. intros H H'. repeat constructor. lia. Qed.

(** Inside a matching pair of brackets the depth stays positive. *)
Lemma tight_prefix o c inner k :
  (o, c) ∈ brackets -> dyck o c inner ->
  (0 < k < length (o :: inner ++ [c]))%nat ->
  (1 <= bracket_depth o c (take k (o :: inner ++ [c])))%Z.
Proof.
  intros Hoc [_ Hpre] Hk. destruct k as [|k]; [lia|].
  cbn [take bracket_depth]. rewrite (bracket_step_open o c Hoc).
  cbn [length] in Hk. rewrite length_app in Hk. cbn [length] in Hk.
  rewrite take_app_le by lia. specialize (Hpre k). lia.
Qed.

(** A matching pair of brackets that opens inside a balanced text closes
    inside it. *)
Lemma span_inside o c inner y tail p post :
  (o, c) ∈ brackets -> dyck o c inner -> dyck o c y ->
  y ++ tail = p ++ (o :: inner ++ [c]) ++ post -> (length p < length y)%nat ->
  exists q, y = p ++ (o :: inner ++ [c]) ++ q.
Proof.
  intros Hoc Hin [Hy Hy'] E Hp.
  pose proof (tight_prefix o c inner) as Htight.
  remember (o :: inner ++ [c]) as G eqn:HG.
  destruct (le_lt_dec (length (p ++ G)) (length y)) as [Hle|Hlt].
  - rewrite app_assoc in E. symmetry in E.
    destruct (app_split_le _ _ _ _ E Hle) as (e & -> & _).
    exists e. rewrite <- app_assoc. reflexivity.
  - exfalso. rewrite app_assoc in E.
    assert (Hle : (length y <= length (p ++ G))%nat) by lia.
    destruct (app_split_le _ _ _ _ E Hle) as (e & E1 & _).
    assert (Hle' : (length p <= length y)%nat) by (apply Nat.lt_le_incl; exact Hp).
    destruct (app_split_le _ _ _ _ E1 Hle') as (g1 & -> & E2).
    rewrite !length_app in Hlt. rewrite !length_app in Hp.
    assert (He : (0 < length e)%nat).
    { apply (f_equal (@length N)) in E1. rewrite !length_app in E1. lia. }
    assert (Hg : (0 < length g1 < length G)%nat).
    { apply (f_equal (@length N)) in E2. rewrite length_app in E2. lia. }
    pose proof (Htight (length g1) Hoc Hin Hg) as Ht.
    rewrite E2, take_app_length in Ht.
    specialize (Hy' (length p)). rewrite take_app_length in Hy'.
    rewrite bracket_depth_app in Hy. lia.
Qed.

(** A matching pair of brackets right around a letter or a negation is
    no factor. *)
Lemma group_not_factor o c ws1 x ws2 sx s :
  (o, c) ∈ brackets -> white ws1 -> white ws2 ->
  wff OfFactor x sx -> is_negation_or_letter sx = true ->
  ~ wff OfFactor (o :: ws1 ++ x ++ ws2 ++ [c]) s.
Proof.
  intros Hoc H1 H2 Hx Hsx Hw.
  destruct (wff_bracketed o _ s Hw (bracket_opening o c Hoc))
    as (c' & wa & y & wb & Hoc' & E & Ha & Hb & Hy & Hs).
  assert (Hsx' : starts_solid (x ++ ws2 ++ [c]))
    by (apply starts_solid_app; eapply wff_starts_solid; exact Hx).
  assert (Hsy : starts_solid (y ++ wb ++ [c']))
    by (apply starts_solid_app; eapply wff_starts_solid; exact Hy).
  destruct (white_prefix_unique ws1 wa _ _ H1 Ha Hsx' Hsy E) as [_ E'].
  assert (Hc : c = 41 \/ c = 93 \/ c = 125) by (apply brackets_cases in Hoc; lia).
  assert (Hc' : c' = 41 \/ c' = 93 \/ c' = 125) by (apply brackets_cases in Hoc'; lia).
  pose proof (wff_accepted _ _ _ (wff_factor _ _ Hx) (length x + length y) ltac:(lia)
                (ws2 ++ [c]) (closing_after_space_bracket ws2 c [] H2 Hc)) as A1.
  pose proof (wff_accepted _ _ _ Hy (length x + length y) ltac:(lia)
                (wb ++ [c']) (closing_after_space_bracket wb c' [] Hb Hc')) as A2.
  rewrite E' in A1. rewrite A1 in A2. injection A2 as -> _.
  rewrite Hs in Hsx. discriminate Hsx.
Qed.

(** In a text of the grammar every matching pair of brackets that
    encloses a balanced text delimits a factor. *)
Lemma sub_factor lv w s :
  wff lv w s ->
  forall pre inner post o c,
    (o, c) ∈ brackets -> dyck o c inner ->
    w = pre ++ (o :: inner ++ [c]) ++ post ->
    exists s', wff OfFactor (o :: inner ++ [c]) s'.
Proof.
  induction 1 as [ch Hch|ws y t Hws Hy IH|o' c' wa y wb t Hoc' Ha Hb Hy IH Ht
                 |y t Hy IH|sym build y1 wa wb y2 t1 t2 Hsym Hy1 IH1 Ha Hb Hy2 IH2];
    intros pre inner post o c Hoc Hin E.
  - exfalso. apply (f_equal (@length N)) in E. rewrite !length_app in E.
    cbn [length] in E. rewrite length_app in E. cbn [length] in E. lia.
  - destruct pre as [|a pre]; cbn [app] in E; injection E as E0 E.
    + apply bracket_opening in Hoc. lia.
    + destruct (skip_without o ws (y) pre ((inner ++ [c]) ++ post)) as (pre' & _ & E').
      { eapply bracket_free_without; [exact Hoc|apply white_bracket_free, Hws]. }
      { exact E. }
      eapply IH; [exact Hoc|exact Hin|exact E'].
  - destruct pre as [|a pre]; cbn [app] in E; injection E as E0 E.
    + subst o'. pose proof (brackets_functional _ _ _ Hoc Hoc') as ->.
      destruct post as [|d post].
      * rewrite app_nil_r in E. exists t.
        replace (inner ++ [c']) with (wa ++ y ++ wb ++ [c']) by exact E.
        apply wff_wrapped; assumption.
      * exfalso.
        assert (Hd : dyck o c' (wa ++ y ++ wb)).
        { apply padded_dyck; try assumption. eapply wff_dyck; eassumption. }
        pose proof (enclosed_not_closed o c' _ Hoc Hd) as Hno.
        rewrite (prefix_closed o c' (o :: inner ++ [c']) (d :: post) (wa ++ y ++ wb)) in Hno;
          [discriminate Hno|cbn [length]; lia|cbn [length]; lia| |].
        -- cbn [bracket_depth]. rewrite bracket_depth_app, (bracket_step_open o c' Hoc).
           destruct Hin as [Hin _]. rewrite Hin. cbn [bracket_depth].
           unfold bracket_step. apply brackets_cases in Hoc.
           rewrite bool_decide_eq_false_2 by lia.
           rewrite bool_decide_eq_true_2 by reflexivity. lia.
        -- cbn [app]. f_equal. rewrite <- !app_assoc. rewrite <- !app_assoc in E.
           exact E.
    + destruct (skip_without o wa (y ++ wb ++ [c']) pre ((inner ++ [c]) ++ post))
        as (p & _ & E').
      { eapply bracket_free_without; [exact Hoc|apply white_bracket_free, Ha]. }
      { exact E. }
      assert (Hp : (length p < length y)%nat).
      { destruct (le_lt_dec (length y) (length p)) as [Hle|Hlt]; [exfalso|exact Hlt].
        destruct (app_split_le _ _ _ _ E' Hle) as (e & -> & E'').
        destruct (skip_without o (wb ++ [c']) [] e ((inner ++ [c]) ++ post))
          as (e' & _ & Habs).
        - apply Forall_app. split.
          + eapply bracket_free_without; [exact Hoc|apply white_bracket_free, Hb].
          + eapply closing_without; eassumption.
        - rewrite app_nil_r. exact E''.
        - destruct e'; discriminate Habs. }
      destruct (span_inside o c inner y (wb ++ [c']) p post Hoc Hin) as (q & Eq).
      { eapply wff_dyck; eassumption. }
      { exact E'. }
      { exact Hp. }
      eapply IH; [exact Hoc|exact Hin|exact Eq].
  - eapply IH; eassumption.
  - destruct (le_lt_dec (length y1) (length pre)) as [Hle|Hlt].
    + destruct (app_split_le _ _ _ _ E Hle) as (p1 & -> & E1).
      destruct (skip_without o (wa ++ sym ++ wb) y2 p1 ((inner ++ [c]) ++ post))
        as (p2 & _ & E2).
      { rewrite !Forall_app. repeat split.
        - eapply bracket_free_without; [exact Hoc|apply white_bracket_free, Ha].
        - eapply bracket_free_without; [exact Hoc|eapply symbol_bracket_free, Hsym].
        - eapply bracket_free_without; [exact Hoc|apply white_bracket_free, Hb]. }
      { replace ((wa ++ sym ++ wb) ++ y2) with (wa ++ sym ++ wb ++ y2)
          by (rewrite <- !app_assoc; reflexivity).
        exact E1. }
      eapply IH2; [exact Hoc|exact Hin|exact E2].
    + destruct (span_inside o c inner y1 (wa ++ sym ++ wb ++ y2) pre post Hoc Hin)
        as (q & Eq).
      { eapply wff_dyck; eassumption. }
      { exact E. }
      { exact Hlt. }
      eapply IH1; [exact Hoc|exact Hin|exact Eq].
Qed.

(** An input in which a matching pair of brackets stands right around a
    letter or a negation, wherever it stands, is no text of the
    grammar. *)
Lemma group_not_wff pre post o c ws1 x ws2 sx s :
  (o, c) ∈ brackets -> white ws1 -> white ws2 ->
  wff OfFactor x sx -> is_negation_or_letter sx = true ->
  ~ wff OfSentence (trim (pre ++ o :: ws1 ++ x ++ ws2 ++ [c] ++ post)) s.
Proof.
  intros Hoc H1 H2 Hx Hsx Hw.
  remember (pre ++ o :: ws1 ++ x ++ ws2 ++ [c] ++ post) as input eqn:Hinput.
  assert (Einput : input = pre ++ o :: ((ws1 ++ x ++ ws2) ++ [c]) ++ post)
    by (rewrite Hinput, <- !app_assoc; reflexivity).
  destruct (trim_split input) as (wsA & wsB & HA & HB & E).
  assert (Hin : dyck o c (ws1 ++ x ++ ws2)).
  { apply padded_dyck; try assumption. eapply wff_dyck; eassumption. }
  assert (E0 : wsA ++ trim input ++ wsB
               = pre ++ o :: ((ws1 ++ x ++ ws2) ++ [c]) ++ post)
    by (rewrite <- E; exact Einput).
  destruct (skip_without o wsA (trim input ++ wsB) pre (((ws1 ++ x ++ ws2) ++ [c]) ++ post))
    as (p & _ & E').
  { eapply bracket_free_without; [exact Hoc|apply white_bracket_free, HA]. }
  { exact E0. }
  assert (Hp : (length p < length (trim input))%nat).
  { destruct (le_lt_dec (length (trim input)) (length p)) as [Hle|Hlt]; [exfalso|exact Hlt].
    destruct (app_split_le _ _ _ _ E' Hle) as (e & -> & E'').
    destruct (skip_without o wsB [] e (((ws1 ++ x ++ ws2) ++ [c]) ++ post))
      as (e' & _ & Habs).
    - eapply bracket_free_without; [exact Hoc|apply white_bracket_free, HB].
    - rewrite app_nil_r. exact E''.
    - destruct e'; discriminate Habs. }
  destruct (span_inside o c (ws1 ++ x ++ ws2) (trim input) wsB p post Hoc Hin)
    as (q & Eq).
  { eapply wff_dyck; eassumption. }
  { exact E'. }
  { exact Hp. }
  destruct (sub_factor _ _ _ Hw p (ws1 ++ x ++ ws2) q o c Hoc Hin Eq) as (s' & Hs').
  apply (group_not_factor o c ws1 x ws2 sx s' Hoc H1 H2 Hx Hsx).
  replace (o :: ws1 ++ x ++ ws2 ++ [c]) with (o :: (ws1 ++ x ++ ws2) ++ [c])
    by (rewrite <- !app_assoc; reflexivity).
  exact Hs'.
Qed.

Lemma group_rejected pre post o c ws1 ws2 x s :
  (o, c) ∈ brackets -> white ws1 -> white ws2 ->
  parse_sentence x = Some (ResOk s) -> is_negation_or_letter s = true ->
  parse_sentence (pre ++ o :: ws1 ++ x ++ ws2 ++ [c] ++ post)
  = Some (ResErr (js "Syntax error (not a wff).")).
Proof.
  intros Hoc H1 H2 Hx Hs. apply not_wff_rejected. intros s'.
  pose proof (parsed_atom_factor x s Hx Hs) as Hf.
  destruct (trim_split x) as (wa & wb & Ha & Hb & E).
  replace (pre ++ o :: ws1 ++ x ++ ws2 ++ [c] ++ post)
    with (pre ++ o :: (ws1 ++ wa) ++ trim x ++ (wb ++ ws2) ++ [c] ++ post).
  - apply (group_not_wff pre post o c (ws1 ++ wa) (trim x) (wb ++ ws2) s s' Hoc);
      try assumption; apply Forall_app; split; assumption.
  - rewrite E at 2. rewrite <- !app_assoc. reflexivity.
Qed.

Lemma negation_parses x s :
  parse_sentence x = Some (ResOk s) -> is_negation_or_letter s = true ->
  parse_sentence (126 :: x) = Some (ResOk (negation s)).
Proof.
  intros Hx Hs. pose proof (parsed_atom_factor x s Hx Hs) as Hf.
  destruct (trim_split x) as (wa & wb & Ha & Hb & E).
  apply wff_parse_sentence.
  assert (Hw : wff OfFactor (126 :: wa ++ trim x) (negation s))
    by (apply wff_negation; assumption).
  replace (126 :: x) with ([] ++ (126 :: wa ++ trim x) ++ wb)
    by (cbn [app]; rewrite E at 2; rewrite <- !app_assoc; reflexivity).
  rewrite trim_padded; [apply wff_factor; exact Hw|constructor|exact Hb| |].
  - eapply wff_starts_solid; exact Hw.
  - eapply wff_ends_solid; exact Hw.
Qed.

(** C7. A matching pair of brackets of any of the three kinds that
    stands right around a letter or a negation (that is, around a text
    that by itself parses to a letter or to a negation, white space
    inside the brackets allowed) makes the input a syntax error wherever
    it stands in the input; without the brackets a letter is accepted,
    and a tilde before a text that parses to a letter or a negation is
    accepted as its negation.  In particular "(A)" and "(~A)" are
    rejected, "A" and "~A" are accepted. *)
Theorem parse_invalid_grouping :
  (forall pre post o c ws1 ws2 x s,
      (o, c) ∈ brackets -> white ws1 -> white ws2 ->
      parse_sentence x = Some (ResOk s) -> is_negation_or_letter s = true ->
      parse_sentence (pre ++ o :: ws1 ++ x ++ ws2 ++ [c] ++ post)
      = Some (ResErr (js "Syntax error (not a wff).")))
  /\ (forall ch, (65 <=? ch) && (ch <=? 90) = true ->
        parse_sentence [ch] = Some (ResOk (letter (mkLetter [ch] 0))))
  /\ (forall x s,
        parse_sentence x = Some (ResOk s) -> is_negation_or_letter s = true ->
        parse_sentence (126 :: x) = Some (ResOk (negation s)))
  /\ parse_sentence (js "(A)") = Some (ResErr (js "Syntax error (not a wff)."))
  /\ parse_sentence (js "(~A)") = Some (ResErr (js "Syntax error (not a wff)."))
  /\ parse_sentence (js "A") = Some (ResOk A_)
  /\ parse_sentence (js "~A") = Some (ResOk (negation A_)).
Proof.
  split; [exact group_rejected|]. split; [|split; [exact negation_parses|]].
  - intros ch Hch. apply wff_parse_sentence.
    assert (Hw : wff OfFactor [ch] (letter (mkLetter [ch] 0))) by (apply wff_letter, Hch).
    rewrite trim_solid; [apply wff_factor; exact Hw|eapply wff_starts_solid; exact Hw
                        |eapply wff_ends_solid; exact Hw].
  - repeat split; vm_compute; reflexivity.
Qed.

Lemma parse_invalid_grouping_witness :
  parse_sentence (js "(~(A v B))") = Some (ResErr (js "Syntax error (not a wff)."))
  /\ parse_sentence (js "( A )") = Some (ResErr (js "Syntax error (not a wff)."))
  /\ parse_sentence (js "(A) & B") = Some (ResErr (js "Syntax error (not a wff)."))
  /\ parse_sentence (js "~(A)") = Some (ResErr (js "Syntax error (not a wff)."))
  /\ parse_sentence (js "B -> {~ ~C} v") = Some (ResErr (js "Syntax error (not a wff).")).
Proof.
  split; [|split; [|split; [|split]]].
  - apply (proj1 parse_invalid_grouping [] [] 40 41 [] [] (js "~(A v B)")
             (negation (disjunction A_ B_))); 
      [repeat constructor|constructor|constructor|vm_compute; reflexivity|reflexivity].
  - apply (proj1 parse_invalid_grouping [] [] 40 41 [32] [32] (js "A") A_);
      [repeat constructor..|vm_compute; reflexivity|reflexivity].
  - apply (proj1 parse_invalid_grouping [] (js " & B") 40 41 [] [] (js "A") A_);
      [repeat constructor|constructor|constructor|vm_compute; reflexivity|reflexivity].
  - apply (proj1 parse_invalid_grouping (js "~") [] 40 41 [] [] (js "A") A_);
      [repeat constructor|constructor|constructor|vm_compute; reflexivity|reflexivity].
  - apply (proj1 parse_invalid_grouping (js "B -> ") (js " v") 123 125 [] []
             (js "~ ~C") (negation (negation C_)));
      [repeat constructor|constructor|constructor|vm_compute; reflexivity|reflexivity].
Defined.

(* ===================================================================== *)
(** ** Quiz dependencies, cell by cell *)
(* ===================================================================== *)

Lemma Forall2_omap_total {A B} (f : A -> option B) (R : A -> B -> Prop) (l : list A) :
  (forall a, a ∈ l -> exists b, f a = Some b /\ R a b) -> Forall2 R l (omap f l).
Proof.
  induction l as [|a l IH]; intros H; cbn [omap list_omap]; [constructor|].
  destruct (H a) as (b & Hb & HR); [left|]. rewrite Hb. constructor; [exact HR|].
  apply IH. intros a' Ha'. apply H. right. exact Ha'.
Qed.

Lemma subformula_valid_letters d s :
  subformula_of d s -> valid_letters s = true -> valid_letters d = true.
Proof.
  induction s as [v|l|a IHa|a IHa b IHb|a IHa b IHb|a IHa b IHb
                 |a IHa b IHb|a IHa b IHb|a IHa b IHb];
    cbn [subformula_of valid_letters]; intros [->|H] Hv; try exact Hv; try contradiction;
    try (apply IHa; assumption);
    apply andb_true_iff in Hv; destruct Hv as [Ha Hb]; destruct H; auto.
Qed.

Lemma subformula_value_free d s :
  subformula_of d s -> value_free s = true -> value_free d = true.
Proof.
  induction s as [v|l|a IHa|a IHa b IHb|a IHa b IHb|a IHa b IHb
                 |a IHa b IHb|a IHa b IHb|a IHa b IHb];
    cbn [subformula_of value_free]; intros [->|H] Hv; try exact Hv; try contradiction;
    try (apply IHa; assumption);
    apply andb_true_iff in Hv; destruct Hv as [Ha Hb]; destruct H; auto.
Qed.

(** Without constants the compact rendering tells sentences apart. *)
Lemma compact_inj_value_free s1 s2 :
  valid_letters s1 = true -> valid_letters s2 = true ->
  value_free s1 = true -> value_free s2 = true ->
  sentence_to_string_compact s1 = sentence_to_string_compact s2 -> s1 = s2.
Proof.
  intros V1 V2 F1 F2. rewrite !compact_top_shape. intros H.
  apply to_shape_inj; [exact V1|exact V2|left; split; assumption|].
  apply render_top_inj; [apply to_shape_ok; exact V1|apply to_shape_ok; exact V2|exact H].
Qed.

Lemma token_subformula g tj tx d mn :
  tokens (layoutFormula g) !! tj = Some (value_token tx d mn) -> subformula_of d g.
Proof.
  intros H. eapply (layout_token_subformula g true true tx d mn).
  eapply list_elem_of_lookup_2. exact H.
Qed.

(** The cell a dependency is resolved to. *)
Lemma dependency_cell formulas fi ti f tx sub mn dep :
  formulas !! fi = Some f ->
  tokens (layoutFormula f) !! ti = Some (value_token tx sub mn) ->
  is_atomic sub = false ->
  dep ∈ getSubformulaDependencies sub ->
  exists cell g tx' d' mn',
    subformulaToCell (layouts_of formulas) !! sentence_to_string_compact dep = Some cell
    /\ formulas !! formulaIdx cell = Some g
    /\ tokens (layoutFormula g) !! tokenIdx cell = Some (value_token tx' d' mn')
    /\ is_atomic d' = false
    /\ sentence_to_string_compact d' = sentence_to_string_compact dep
    /\ (formulaIdx cell, tokenIdx cell) <> (fi, ti).
Proof.
  intros Hf Ht Hna Hdep.
  destruct (dependency_found formulas fi ti f _ sub dep Hf Ht
              (quiz_subformula_value tx sub mn Hna) Hdep) as (cell & Hcell).
  pose proof (proj1 (subformulaToCell_last _ _ _) Hcell) as [(l & t' & Hl & Ht' & Hk) _].
  apply layouts_of_lookup in Hl. destruct Hl as (g & Hg & ->).
  unfold key_of in Hk. destruct (quiz_subformula t') as [d'|] eqn:Hq; [|discriminate Hk].
  cbn in Hk. injection Hk as Hk.
  destruct (quiz_subformula_Some _ _ Hq) as (tx' & mn' & -> & Hna').
  exists cell, g, tx', d', mn'. repeat split; try assumption.
  intros E. injection E as E1 E2. rewrite E1 in Hg. rewrite E2 in Ht'.
  assert (g = f) by congruence. subst g.
  assert (d' = sub) by congruence. subst d'.
  pose proof (dependency_shorter dep sub Hdep) as Hlen. rewrite Hk in Hlen. lia.
Qed.

(** C9. The dependency list that [renderTruthTable] stores for a cell,
    under the key "formula-token" of the cell.  A cell whose token is a
    bracket, a letter or a constant has no entry.  The cell of a
    non-atomic value token has one, and it lists, in order, one key for
    each immediate operand of the token's sub-formula that is itself
    non-atomic, and nothing else (no key for an atomic operand, none
    for an operand of an operand): the key "formula-token" of a cell
    whose token is a non-atomic value token rendering as that operand
    does — when the formulas have no constants and their letters follow
    the data model, a token carrying that very operand — and never the
    cell itself.  For the parse of "(A & B) v C" the cell of the outer
    disjunction (token 5 of formula 0) depends on the cell of A & B
    (token 2) and on nothing else. *)
Theorem direct_dependencies (formulas : list Sentence) (fi ti : nat) (f : Sentence)
    (token : FormulaToken) :
  formulas !! fi = Some f ->
  tokens (layoutFormula f) !! ti = Some token ->
  match token with
  | text_token _ =>
      cellDependencies (layouts_of formulas)
        !! (Number_toString (N.of_nat fi) ++ js "-" ++ Number_toString (N.of_nat ti))
      = None
  | value_token _ sub _ =>
      if is_atomic sub then
        cellDependencies (layouts_of formulas)
          !! (Number_toString (N.of_nat fi) ++ js "-" ++ Number_toString (N.of_nat ti))
        = None
      else
        exists deps,
          cellDependencies (layouts_of formulas)
            !! (Number_toString (N.of_nat fi) ++ js "-" ++ Number_toString (N.of_nat ti))
          = Some deps
          /\ Forall2
               (fun operand depKey =>
                  exists fj tj g tx d mn,
                    depKey = Number_toString (N.of_nat fj) ++ js "-"
                             ++ Number_toString (N.of_nat tj)
                    /\ formulas !! fj = Some g
                    /\ tokens (layoutFormula g) !! tj = Some (value_token tx d mn)
                    /\ is_atomic d = false
                    /\ sentence_to_string_compact d = sentence_to_string_compact operand
                    /\ (fj, tj) <> (fi, ti)
                    /\ (valid_letters f = true -> value_free f = true ->
                        valid_letters g = true -> value_free g = true -> d = operand))
               (List.filter (fun d => negb (is_atomic d)) (operands sub)) deps
  end
  /\ parse_sentence (js "(A & B) v C") = Some (ResOk (disjunction (conjunction A_ B_) C_))
  /\ tokens (layoutFormula (disjunction (conjunction A_ B_) C_))
     = [text_token (js "(");
        value_token (js "A") A_ false;
        value_token (js "&") (conjunction A_ B_) false;
        value_token (js "B") B_ false;
        text_token (js ")");
        value_token [u2228] (disjunction (conjunction A_ B_) C_) true;
        value_token (js "C") C_ false]
  /\ cellDependencies (layouts_of [disjunction (conjunction A_ B_) C_]) !! js "0-5"
     = Some [js "0-2"]
  /\ cellDependencies (layouts_of [disjunction (conjunction A_ B_) C_]) !! js "0-2"
     = Some [].
Proof.
  intros Hf Ht.
  assert (Hl : layouts_of formulas !! fi = Some (layoutFormula f)).
  { apply layouts_of_lookup. eauto. }
  split; [|repeat split; vm_compute; reflexivity].
  change (Number_toString (N.of_nat fi) ++ js "-" ++ Number_toString (N.of_nat ti))
    with (cellKey fi ti).
  destruct token as [tx|tx sub mn].
  - eapply cellDependencies_lookup_None; [exact Hl|exact Ht|reflexivity].
  - destruct (is_atomic sub) eqn:Hna.
    + eapply cellDependencies_lookup_None; [exact Hl|exact Ht|].
      destruct sub; try discriminate Hna; reflexivity.
    + eexists. split.
      { eapply cellDependencies_lookup; [exact Hl|exact Ht|].
        apply quiz_subformula_value. exact Hna. }
      rewrite depCellKeys_omap, getSubformulaDependencies_operands.
      apply Forall2_omap_total. intros dep Hdep.
      rewrite <- getSubformulaDependencies_operands in Hdep.
      destruct (dependency_cell formulas fi ti f tx sub mn dep Hf Ht Hna Hdep)
        as (cell & g & tx' & d' & mn' & Hcell & Hg & Ht' & Hna' & Hk & Hne).
      rewrite Hcell. eexists. split; [reflexivity|].
      exists (formulaIdx cell), (tokenIdx cell), g, tx', d', mn'.
      repeat split; try assumption.
      intros Vf Ff Vg Fg.
      assert (Hsub : subformula_of dep f).
      { eapply subformula_of_trans; [|eapply token_subformula; exact Ht].
        apply operand_subformula.
        rewrite getSubformulaDependencies_operands in Hdep.
        apply list_elem_of_In, List.filter_In in Hdep. apply list_elem_of_In, Hdep. }
      pose proof (token_subformula _ _ _ _ _ Ht') as Hsub'.
      apply compact_inj_value_free; try exact Hk;
        eauto using subformula_valid_letters, subformula_value_free.
Qed.

Lemma direct_dependencies_witness :
  exists deps,
    cellDependencies (layouts_of [negation (conjunction A_ B_); disjunction (conjunction A_ B_) C_])
      !! (Number_toString (N.of_nat 1) ++ js "-" ++ Number_toString (N.of_nat 5))
    = Some deps
    /\ length deps = 1%nat.
Proof.
  destruct (direct_dependencies
              [negation (conjunction A_ B_); disjunction (conjunction A_ B_) C_] 1 5
              (disjunction (conjunction A_ B_) C_)
              (value_token [u2228] (disjunction (conjunction A_ B_) C_) true)
              eq_refl eq_refl) as [(deps & Hdeps & Hall) _].
  exists deps. split; [exact Hdeps|].
  apply Forall2_length in Hall. rewrite <- Hall. reflexivity.
Defined.
